(** * Lucid: a shallow embedding of the toolchain (lexer, parser, type
    checker, bytecode compiler, stack VM) and the properties checked on it.

    Conventions used throughout:
    - [int64_t] is a [Z] kept in range by [int64_wrap] (two's complement
      wrap-around; C++ leaves signed overflow undefined, the hardware wraps
      on addition, subtraction, multiplication and negation, and traps on
      the quotient [INT64_MIN / -1], which is an [Undefined] outcome);
    - [size_t] offsets are non-negative [Z], sizes and indices that are only
      ever counted are [nat];
    - [double] is the primitive binary64 type [float];
    - [std::runtime_error] is the [Throw] outcome, an access the C++ leaves
      undefined (unchecked [operator[]], [back()] of an empty vector) is the
      [Undefined] outcome;
    - a [std::vector] used as a stack is a list whose head is [back()]. *)

From Stdlib Require Import ZArith String Ascii List Lia Bool.
From Stdlib Require Import PrimFloat FloatOps SpecFloat.
From stdpp Require Import base option list gmap strings pretty.

Set Warnings "-register-all,-non-full-mutual".

(** String literals come from [string_scope]; [++] is list append and
    strings are joined with stdpp's [+:+]. *)
Local Open Scope string_scope.
Local Open Scope list_scope.
Local Open Scope Z_scope.

(* ===================================================================== *)
(** ** Outcomes of fallible code *)
(* ===================================================================== *)

Inductive result (A : Type) : Type :=
| Ok (a : A)
| Throw (msg : string)
| Undefined (what : string).
Arguments Ok {A} a.
Arguments Throw {A} msg.
Arguments Undefined {A} what.

Definition rbind {A B} (m : result A) (k : A -> result B) : result B :=
  match m with
  | Ok a => k a
  | Throw msg => Throw msg
  | Undefined w => Undefined w
  end.

Notation "'let*' x ':=' m 'in' k" := (rbind m (fun x => k))
  (at level 10, x pattern, m at level 100, k at level 200).

(* ===================================================================== *)
(** ** Machine numbers and strings *)
(* ===================================================================== *)

Module Num.

Definition int64_min : Z := - 2 ^ 63.
Definition int64_max : Z := 2 ^ 63 - 1.

(** Two's complement reduction of an integer to [int64_t]. *)
Definition int64_wrap (z : Z) : Z := (z + 2 ^ 63) mod 2 ^ 64 - 2 ^ 63.

Definition in_int64 (z : Z) : bool := (int64_min <=? z) && (z <=? int64_max).

(** The one quotient (and remainder) of two [int64_t] that overflows. *)
Definition quotient_overflows (x y : Z) : bool := (x =? int64_min) && (y =? -1).

(** [static_cast<size_t>] of a 64-bit signed quantity. *)
Definition to_size_t (z : Z) : Z := z mod 2 ^ 64.

(** [static_cast<int16_t>] of a [uint16_t]. *)
Definition int16_of_uint16 (u : Z) : Z := if u <? 32768 then u else u - 65536.

(** [static_cast<int16_t>] of a [size_t] (modular since C++20). *)
Definition int16_of_size_t (z : Z) : Z := int16_of_uint16 (z mod 65536).

(** [static_cast<double>(int64_t)]: round to nearest even. *)
Definition double_of_int64 (z : Z) : float :=
  SF2Prim (binary_normalize prec emax z 0 false).

(** The integer part of a double, rounded as [how] says on the exact
    quotient; [None] for NaN and the infinities. *)
Inductive rounding := Trunc | Floor | Ceil | RoundHalfAway.

Definition round_quot (how : rounding) (neg : bool) (m : Z) (d : Z) : Z :=
  let q := m / d in
  let r := m mod d in
  let up := if r =? 0 then q else q + 1 in
  let mag :=
    match how with
    | Trunc => q
    | Floor => if neg then up else q
    | Ceil => if neg then q else up
    | RoundHalfAway => if 2 * r <? d then q else q + 1
    end in
  if neg then - mag else mag.

Definition integer_of_double (how : rounding) (f : float) : option Z :=
  match Prim2SF f with
  | S754_zero _ => Some 0
  | S754_finite s m e =>
      if 0 <=? e then Some ((if s then -1 else 1) * (Zpos m * 2 ^ e))
      else Some (round_quot how s (Zpos m) (2 ^ (- e)))
  | S754_infinity _ | S754_nan => None
  end.

(** [static_cast<int64_t>(double)] after rounding with [how]. Out of range
    the C++ is undefined; x86-64 yields the "integer indefinite" value
    [int64_min], which is what is modelled. *)
Definition int64_of_double (how : rounding) (f : float) : Z :=
  match integer_of_double how f with
  | Some z => if in_int64 z then z else int64_min
  | None => int64_min
  end.

End Num.

Module Str.

Fixpoint of_list (l : list ascii) : string :=
  match l with
  | [] => EmptyString
  | c :: l' => String c (of_list l')
  end.

Fixpoint to_list (s : string) : list ascii :=
  match s with
  | EmptyString => []
  | String c s' => c :: to_list s'
  end.

Fixpoint map (f : ascii -> ascii) (s : string) : string :=
  match s with
  | EmptyString => EmptyString
  | String c s' => String (f c) (map f s')
  end.

Definition is_empty (s : string) : bool :=
  match s with EmptyString => true | _ => false end.

Definition code (c : ascii) : Z := Z.of_N (N_of_ascii c).
Definition chr (z : Z) : ascii := ascii_of_N (Z.to_N z).

(** The one-character string holding a double quote. *)
Definition dquote : string := String (chr 34) EmptyString.

(** [std::toupper] / [std::tolower] in the "C" locale. *)
Definition toupper (c : ascii) : ascii :=
  if (97 <=? code c) && (code c <=? 122) then chr (code c - 32) else c.
Definition tolower (c : ascii) : ascii :=
  if (65 <=? code c) && (code c <=? 90) then chr (code c + 32) else c.

(** [str.find(sub) != npos] *)
Fixpoint contains (sub s : string) : bool :=
  String.prefix sub s ||
  match s with
  | EmptyString => false
  | String _ s' => contains sub s'
  end.

Definition starts_with (pre s : string) : bool := String.prefix pre s.

Definition ends_with (suf s : string) : bool :=
  (String.length suf <=? String.length s)%nat &&
  String.eqb (String.substring (String.length s - String.length suf)
                               (String.length suf) s) suf.

Definition is_space (c : ascii) : bool :=
  (code c =? 32) || (code c =? 9) || (code c =? 10) || (code c =? 13).

Fixpoint drop_space (l : list ascii) : list ascii :=
  match l with
  | c :: l' => if is_space c then drop_space l' else l
  | [] => []
  end.

(** [find_first_not_of] / [find_last_not_of] / [substr] of [String.trim]. *)
Definition trim (s : string) : string :=
  of_list (rev (drop_space (rev (drop_space (to_list s))))).

(** Decimal rendering of an integer ([std::to_string], [{fmt}] on integers). *)
Definition of_Z (z : Z) : string := pretty z.
Definition of_nat (n : nat) : string := pretty n.

End Str.

(* ===================================================================== *)
(** ** Runtime values (backend/value.hpp, backend/value.cpp) *)
(* ===================================================================== *)

Module Val.

Inductive Value : Type :=
| VInt (int_val : Z)
| VFloat (float_val : float)
| VBool (bool_val : bool)
| VString (string_val : string)
| VList (list_val : list Value)
| VTuple (tuple_val : list Value)
| VFunction (index : nat) (name : string).

Definition is_int (v : Value) : bool := match v with VInt _ => true | _ => false end.
Definition is_float (v : Value) : bool := match v with VFloat _ => true | _ => false end.
Definition is_bool (v : Value) : bool := match v with VBool _ => true | _ => false end.
Definition is_string (v : Value) : bool := match v with VString _ => true | _ => false end.
Definition is_list (v : Value) : bool := match v with VList _ => true | _ => false end.
Definition is_tuple (v : Value) : bool := match v with VTuple _ => true | _ => false end.
Definition is_function (v : Value) : bool := match v with VFunction _ _ => true | _ => false end.

Definition type_name (v : Value) : string :=
  match v with
  | VInt _ => "Int"
  | VFloat _ => "Float"
  | VBool _ => "Bool"
  | VString _ => "String"
  | VList _ => "List"
  | VTuple _ => "Tuple"
  | VFunction _ _ => "Function"
  end.

(** [ValueType] equality, as [type_ != other.type_] tests it. *)
Definition same_type (a b : Value) : bool :=
  match a, b with
  | VInt _, VInt _ | VFloat _, VFloat _ | VBool _, VBool _
  | VString _, VString _ | VList _, VList _ | VTuple _, VTuple _
  | VFunction _ _, VFunction _ _ => true
  | _, _ => false
  end.

(** Checked accessors. *)
Definition as_int (v : Value) : result Z :=
  match v with VInt i => Ok i | _ => Throw ("Expected Int, got " +:+ type_name v) end.
Definition as_float (v : Value) : result float :=
  match v with VFloat f => Ok f | _ => Throw ("Expected Float, got " +:+ type_name v) end.
Definition as_bool (v : Value) : result bool :=
  match v with VBool b => Ok b | _ => Throw ("Expected Bool, got " +:+ type_name v) end.
Definition as_string (v : Value) : result string :=
  match v with VString s => Ok s | _ => Throw ("Expected String, got " +:+ type_name v) end.
Definition as_list (v : Value) : result (list Value) :=
  match v with VList l => Ok l | _ => Throw ("Expected List, got " +:+ type_name v) end.
Definition as_tuple (v : Value) : result (list Value) :=
  match v with VTuple l => Ok l | _ => Throw ("Expected Tuple, got " +:+ type_name v) end.

(** [Value::operator==] *)
Fixpoint equal (a b : Value) : bool :=
  let fix equal_vec (x y : list Value) : bool :=
    match x, y with
    | [], [] => true
    | a' :: x', b' :: y' => equal a' b' && equal_vec x' y'
    | _, _ => false
    end in
  match a, b with
  | VInt x, VInt y => x =? y
  | VFloat x, VFloat y => PrimFloat.eqb x y
  | VBool x, VBool y => Bool.eqb x y
  | VString x, VString y => String.eqb x y
  | VList x, VList y => equal_vec x y
  | VTuple x, VTuple y => equal_vec x y
  | VFunction i _, VFunction j _ => Nat.eqb i j
  | _, _ => false
  end.

(** [Value::operator<] *)
Definition less (a b : Value) : result bool :=
  if negb (same_type a b) then
    Throw ("Cannot compare " +:+ type_name a +:+ " and " +:+ type_name b)
  else
    match a, b with
    | VInt x, VInt y => Ok (x <? y)
    | VFloat x, VFloat y => Ok (PrimFloat.ltb x y)
    | VString x, VString y => Ok (String.ltb x y)
    | _, _ => Throw ("Type " +:+ type_name a +:+ " does not support ordering comparison")
    end.

Definition greater (a b : Value) : result bool := less b a.
Definition less_equal (a b : Value) : result bool :=
  let* r := less b a in Ok (negb r).
Definition greater_equal (a b : Value) : result bool :=
  let* r := less a b in Ok (negb r).

(** [Value::is_truthy] *)
Definition is_truthy (v : Value) : bool :=
  match v with
  | VBool b => b
  | VInt i => negb (i =? 0)
  | VFloat f => negb (PrimFloat.eqb f PrimFloat.zero)
  | VString s => negb (Str.is_empty s)
  | VList l => negb (match l with [] => true | _ => false end)
  | VTuple l => negb (match l with [] => true | _ => false end)
  | VFunction _ _ => true
  end.

Section Rendering.
(** [{fmt}]'s rendering of a double, a library function outside the
    repository. *)
Variable fmt_double : float -> string.

(** [Value::to_string] *)
Fixpoint to_string (v : Value) : string :=
  let fix join (first : bool) (l : list Value) : string :=
    match l with
    | [] => EmptyString
    | x :: l' => (if first then EmptyString else ", ") +:+ to_string x +:+ join false l'
    end in
  match v with
  | VInt i => Str.of_Z i
  | VFloat f => fmt_double f
  | VBool b => if b then "true" else "false"
  | VString s => Str.dquote +:+ s +:+ Str.dquote
  | VList l => "[" +:+ join true l +:+ "]"
  | VTuple l => "(" +:+ join true l +:+ ")"
  | VFunction _ name => "<function " +:+ name +:+ ">"
  end.
End Rendering.

End Val.

(* ===================================================================== *)
(** ** Bytecode (backend/bytecode.hpp, backend/bytecode.cpp) *)
(* ===================================================================== *)

Module Bytecode.
Import Val.

Inductive OpCode : Type :=
| CONSTANT | TRUE | FALSE
| LOAD_LOCAL | STORE_LOCAL | LOAD_GLOBAL
| ADD | SUB | MUL | DIV | MOD | POW
| EQ | NE | LT | GT | LE | GE
| AND | OR | NOT
| NEGATE | POSITIVE
| BUILD_LIST | BUILD_TUPLE | INDEX
| CALL_METHOD | CALL_BUILTIN
| JUMP | JUMP_IF_FALSE | JUMP_IF_TRUE
| CALL | RETURN
| POP | DUP
| HALT.

(** [static_cast<uint8_t>(opcode)]: the enumerators count from 0. *)
Definition opcode_byte (op : OpCode) : Z :=
  match op with
  | CONSTANT => 0 | TRUE => 1 | FALSE => 2
  | LOAD_LOCAL => 3 | STORE_LOCAL => 4 | LOAD_GLOBAL => 5
  | ADD => 6 | SUB => 7 | MUL => 8 | DIV => 9 | MOD => 10 | POW => 11
  | EQ => 12 | NE => 13 | LT => 14 | GT => 15 | LE => 16 | GE => 17
  | AND => 18 | OR => 19 | NOT => 20
  | NEGATE => 21 | POSITIVE => 22
  | BUILD_LIST => 23 | BUILD_TUPLE => 24 | INDEX => 25
  | CALL_METHOD => 26 | CALL_BUILTIN => 27
  | JUMP => 28 | JUMP_IF_FALSE => 29 | JUMP_IF_TRUE => 30
  | CALL => 31 | RETURN => 32
  | POP => 33 | DUP => 34
  | HALT => 35
  end.

(** [static_cast<OpCode>(byte)]; [None] when no enumerator has the value
    (the [default:] branch of the VM's switch). *)
Definition opcode_of_byte (b : Z) : option OpCode :=
  match b with
  | 0 => Some CONSTANT | 1 => Some TRUE | 2 => Some FALSE
  | 3 => Some LOAD_LOCAL | 4 => Some STORE_LOCAL | 5 => Some LOAD_GLOBAL
  | 6 => Some ADD | 7 => Some SUB | 8 => Some MUL | 9 => Some DIV
  | 10 => Some MOD | 11 => Some POW
  | 12 => Some EQ | 13 => Some NE | 14 => Some LT | 15 => Some GT
  | 16 => Some LE | 17 => Some GE
  | 18 => Some AND | 19 => Some OR | 20 => Some NOT
  | 21 => Some NEGATE | 22 => Some POSITIVE
  | 23 => Some BUILD_LIST | 24 => Some BUILD_TUPLE | 25 => Some INDEX
  | 26 => Some CALL_METHOD | 27 => Some CALL_BUILTIN
  | 28 => Some JUMP | 29 => Some JUMP_IF_FALSE | 30 => Some JUMP_IF_TRUE
  | 31 => Some CALL | 32 => Some RETURN
  | 33 => Some POP | 34 => Some DUP
  | 35 => Some HALT
  | _ => None
  end.

Inductive BuiltinId : Type :=
| PRINT | PRINTLN | TO_STRING | READ_FILE | WRITE_FILE | APPEND_FILE | FILE_EXISTS.

Definition builtin_id (b : BuiltinId) : Z :=
  match b with
  | PRINT => 0 | PRINTLN => 1 | TO_STRING => 2 | READ_FILE => 3
  | WRITE_FILE => 4 | APPEND_FILE => 5 | FILE_EXISTS => 6
  end.

Definition builtin_of_id (z : Z) : option BuiltinId :=
  match z with
  | 0 => Some PRINT | 1 => Some PRINTLN | 2 => Some TO_STRING
  | 3 => Some READ_FILE | 4 => Some WRITE_FILE | 5 => Some APPEND_FILE
  | 6 => Some FILE_EXISTS
  | _ => None
  end.

(** [opcode_operand_size] *)
Definition opcode_operand_size (op : OpCode) : Z :=
  match op with
  | CONSTANT | LOAD_LOCAL | STORE_LOCAL | LOAD_GLOBAL
  | BUILD_LIST | BUILD_TUPLE | JUMP | JUMP_IF_FALSE | JUMP_IF_TRUE => 2
  | CALL_METHOD | CALL_BUILTIN | CALL => 3
  | _ => 0
  end.

Record FunctionInfo : Type := mkFunctionInfo {
  fn_name : string;
  fn_offset : Z;          (* byte offset in the instruction stream *)
  fn_param_count : nat;
  fn_local_count : nat
}.

Record t : Type := mkBytecode {
  instructions : list Z;  (* each a byte, 0..255 *)
  constants : list Value;
  functions : list FunctionInfo
}.

Definition empty : t := mkBytecode [] [] [].

Definition with_instructions (bc : t) (i : list Z) : t :=
  mkBytecode i (constants bc) (functions bc).
Definition with_functions (bc : t) (f : list FunctionInfo) : t :=
  mkBytecode (instructions bc) (constants bc) f.

Definition current_offset (bc : t) : Z := Z.of_nat (length (instructions bc)).

(** Little-endian split of a 16-bit operand. *)
Definition low_byte (operand : Z) : Z := Z.land operand 255.
Definition high_byte (operand : Z) : Z := Z.land (Z.shiftr operand 8) 255.

(** [Bytecode::emit] overloads *)
Definition emit (bc : t) (op : OpCode) : t :=
  with_instructions bc (instructions bc ++ [opcode_byte op]).
Definition emit_u8 (bc : t) (op : OpCode) (operand : Z) : t :=
  with_instructions bc (instructions bc ++ [opcode_byte op; operand]).
Definition emit_u16 (bc : t) (op : OpCode) (operand : Z) : t :=
  with_instructions bc
    (instructions bc ++ [opcode_byte op; low_byte operand; high_byte operand]).
Definition emit_u16_u8 (bc : t) (op : OpCode) (operand1 operand2 : Z) : t :=
  with_instructions bc
    (instructions bc ++ [opcode_byte op; low_byte operand1; high_byte operand1; operand2]).

Definition UINT16_MAX : Z := 65535.

(** [Bytecode::add_constant] *)
Definition add_constant (bc : t) (value : Value) : result (Z * t) :=
  let cs := constants bc ++ [value] in
  if UINT16_MAX <? Z.of_nat (length cs) then Throw "Too many constants"
  else Ok (Z.of_nat (length cs) - 1, mkBytecode (instructions bc) cs (functions bc)).

(** [Bytecode::add_function] *)
Definition add_function (bc : t) (name : string) (offset : Z)
    (param_count local_count : nat) : nat * t :=
  let fs := functions bc ++ [mkFunctionInfo name offset param_count local_count] in
  (length fs - 1, with_functions bc fs)%nat.

(** [Bytecode::find_function]: index of the first entry with that name. *)
Fixpoint find_from (fs : list FunctionInfo) (name : string) (i : nat) : option nat :=
  match fs with
  | [] => None
  | f :: fs' => if String.eqb (fn_name f) name then Some i else find_from fs' name (S i)
  end.
Definition find_function (bc : t) (name : string) : option nat :=
  find_from (functions bc) name 0.

(** [Bytecode::patch_jump] *)
Definition patch_jump (bc : t) (offset : Z) (jump_offset : Z) : result t :=
  if Z.of_nat (length (instructions bc)) <=? offset + 2 then
    Throw "Invalid jump patch offset"
  else
    Ok (with_instructions bc
          (<[Z.to_nat (offset + 2) := high_byte jump_offset]>
             (<[Z.to_nat (offset + 1) := low_byte jump_offset]> (instructions bc)))).

(** Unchecked [vector::operator[]] with a [size_t] index. *)
Definition at_ {A} (l : list A) (i : Z) : option A :=
  if (0 <=? i) && (i <? Z.of_nat (length l)) then l !! Z.to_nat i else None.

End Bytecode.

(* ===================================================================== *)
(** ** Tokens (frontend/token.hpp) *)
(* ===================================================================== *)

Module Tok.

Inductive TokenType : Type :=
(* keywords *)
| Function | Returns | Let | If | Else | Return | Lambda
(* type names *)
| TypeInt | TypeFloat | TypeString | TypeBool | TypeList
(* literals *)
| IntLiteral | FloatLiteral | StringLiteral | True | False
(* operators *)
| Plus | Minus | Star | Slash | Percent | Power
(* comparison *)
| Equal | NotEqual | Less | Greater | LessEqual | GreaterEqual
(* logical *)
| And | Or | Not
(* punctuation *)
| Assign | Colon | Dot | Comma
| LeftParen | RightParen | LeftBrace | RightBrace | LeftBracket | RightBracket
(* special *)
| Identifier | Newline | Eof | Error.

Definition TokenType_eq_dec (a b : TokenType) : {a = b} + {a <> b}.
Proof. decide equality. Defined.

Definition type_eqb (a b : TokenType) : bool :=
  if TokenType_eq_dec a b then true else false.

Record SourceLocation : Type := mkLoc {
  filename : string;
  line : Z;
  column : Z;
  offset : Z;      (* byte offset in the source *)
  length : Z       (* length of the token in bytes *)
}.

(** The payload of a literal or error token:
    [std::variant<int64_t, double, std::string>]. *)
Inductive Payload : Type :=
| PInt (i : Z)
| PFloat (f : float)
| PString (s : string).

Record Token : Type := mkToken {
  type : TokenType;
  lexeme : string;
  location : SourceLocation;
  value : option Payload
}.

End Tok.

(* ===================================================================== *)
(** ** The lexer (frontend/lexer.hpp, frontend/lexer.cpp) *)
(* ===================================================================== *)

Module Lexer.
Import Tok.

Record State : Type := mkLexer {
  source_ : string;
  filename_ : string;
  current_ : nat;      (* current position in source *)
  line_ : nat;         (* current line number, 1-based *)
  line_start_ : nat;   (* byte offset of the current line start *)
  start_ : nat         (* start of the token being scanned *)
}.

Definition new (source filename : string) : State :=
  mkLexer source filename 0 1 0 0.

Definition with_current (st : State) (c : nat) : State :=
  mkLexer (source_ st) (filename_ st) c (line_ st) (line_start_ st) (start_ st).
Definition with_start (st : State) (s : nat) : State :=
  mkLexer (source_ st) (filename_ st) (current_ st) (line_ st) (line_start_ st) s.
(** [line_++; line_start_ = ls] *)
Definition new_line (st : State) (ls : nat) : State :=
  mkLexer (source_ st) (filename_ st) (current_ st) (S (line_ st)) ls (start_ st).

Definition nul : ascii := Ascii.zero.

Definition is_at_end (st : State) : bool :=
  (String.length (source_ st) <=? current_ st)%nat.

(** Characters left to read; it bounds every loop of the lexer. *)
Definition remaining (st : State) : nat :=
  (String.length (source_ st) - current_ st)%nat.

Definition char_at (st : State) (i : nat) : ascii :=
  default nul (String.get i (source_ st)).

(* ----- character access ---------------------------------------------- *)

Definition advance (st : State) : ascii * State :=
  if is_at_end st then (nul, st)
  else (char_at st (current_ st), with_current st (S (current_ st))).

Definition peek (st : State) : ascii :=
  if is_at_end st then nul else char_at st (current_ st).

Definition peek_next (st : State) : ascii :=
  if (String.length (source_ st) <=? current_ st + 1)%nat then nul
  else char_at st (current_ st + 1).

Definition match_ (expected : ascii) (st : State) : bool * State :=
  if is_at_end st then (false, st)
  else if negb (Ascii.eqb (char_at st (current_ st)) expected) then (false, st)
  else (true, with_current st (S (current_ st))).

(* ----- token creation ------------------------------------------------ *)

(** [column = start_ - line_start_ + 1], computed in [size_t]. *)
Definition location_of (st : State) : SourceLocation :=
  mkLoc (filename_ st) (Z.of_nat (line_ st))
        (Num.to_size_t (Z.of_nat (start_ st) - Z.of_nat (line_start_ st) + 1))
        (Z.of_nat (start_ st))
        (Z.of_nat (current_ st - start_ st)).

Definition current_lexeme (st : State) : string :=
  String.substring (start_ st) (current_ st - start_ st) (source_ st).

Definition make_token (type : TokenType) (value : option Payload) (st : State)
    : Token :=
  mkToken type (current_lexeme st) (location_of st) value.

Definition error_token (message : string) (st : State) : Token :=
  mkToken Error EmptyString (location_of st) (Some (PString message)).

(* ----- whitespace and comments ---------------------------------------- *)

Definition is_char (c : ascii) (code : Z) : bool := Str.code c =? code.

Fixpoint skip_whitespace_loop (fuel : nat) (st : State) : State :=
  match fuel with
  | O => st
  | S fuel' =>
      if is_at_end st then st
      else
        let c := peek st in
        if is_char c 32 || is_char c 9 || is_char c 13 then
          skip_whitespace_loop fuel' (snd (advance st))
        else if is_char c 10 then
          let st := snd (advance st) in
          skip_whitespace_loop fuel' (new_line st (current_ st))
        else st
  end.
Definition skip_whitespace (st : State) : State :=
  skip_whitespace_loop (remaining st) st.

Fixpoint skip_comment_loop (fuel : nat) (st : State) : State :=
  match fuel with
  | O => st
  | S fuel' =>
      if negb (is_at_end st) && negb (is_char (peek st) 10) then
        skip_comment_loop fuel' (snd (advance st))
      else st
  end.
Definition skip_comment (st : State) : State :=
  skip_comment_loop (remaining st) st.

(** [depth] starts at 1 and is only ever decremented, so the loop ends at
    the first closing mark. *)
Fixpoint skip_multiline_comment_loop (fuel : nat) (st : State) : State :=
  match fuel with
  | O => st
  | S fuel' =>
      if is_at_end st then st
      else if is_char (peek st) 93 && is_char (peek_next st) 35 then
        snd (advance (snd (advance st)))
      else if is_char (peek st) 10 then
        let st := snd (advance st) in
        skip_multiline_comment_loop fuel' (new_line st (current_ st))
      else skip_multiline_comment_loop fuel' (snd (advance st))
  end.
Definition skip_multiline_comment (st : State) : State :=
  skip_multiline_comment_loop (remaining st) st.

(* ----- character classification ---------------------------------------- *)

Definition is_digit (c : ascii) : bool := (48 <=? Str.code c) && (Str.code c <=? 57).
Definition is_alpha (c : ascii) : bool :=
  ((97 <=? Str.code c) && (Str.code c <=? 122)) ||
  ((65 <=? Str.code c) && (Str.code c <=? 90)).
Definition is_alnum (c : ascii) : bool := is_alpha c || is_digit c.

(* ----- keywords -------------------------------------------------------- *)

Definition keywords : list (string * TokenType) :=
  [ ("function", Function); ("returns", Returns); ("let", Let); ("if", If);
    ("else", Else); ("return", Return); ("lambda", Lambda);
    ("Int", TypeInt); ("Float", TypeFloat); ("String", TypeString);
    ("Bool", TypeBool); ("List", TypeList);
    ("true", Tok.True); ("false", Tok.False);
    ("and", Tok.And); ("or", Tok.Or); ("not", Tok.Not) ].

Fixpoint find_keyword (table : list (string * TokenType)) (lexeme : string)
    : option TokenType :=
  match table with
  | [] => None
  | (k, t) :: table' => if String.eqb k lexeme then Some t else find_keyword table' lexeme
  end.

Definition identifier_type (lexeme : string) : TokenType :=
  default Identifier (find_keyword keywords lexeme).

(* ----- numbers --------------------------------------------------------- *)

(** [while (is_digit(peek()) || peek() == '_') advance();] *)
Fixpoint skip_digits_loop (fuel : nat) (st : State) : State :=
  match fuel with
  | O => st
  | S fuel' =>
      if is_digit (peek st) || is_char (peek st) 95 then
        skip_digits_loop fuel' (snd (advance st))
      else st
  end.
Definition skip_digits (st : State) : State := skip_digits_loop (remaining st) st.

Definition remove_underscores (s : string) : string :=
  Str.of_list (filter (fun c => negb (is_char c 95)) (Str.to_list s)).

Fixpoint digits_value (acc : Z) (l : list ascii) : Z :=
  match l with
  | [] => acc
  | c :: l' => digits_value (10 * acc + (Str.code c - 48)) l'
  end.

(** [std::from_chars] into an [int64_t], on a string of digits: [None]
    when the value is out of range. *)
Definition from_chars_int64 (cleaned : string) : option Z :=
  let v := digits_value 0 (Str.to_list cleaned) in
  if v <=? Num.int64_max then Some v else None.

(** A decimal numeral [digits[.digits][(e|E)[+|-]digits]] split into its
    integer significand and its power of ten. *)
Fixpoint split_numeral (l : list ascii) (seen_point : bool) (sig : Z) (frac : Z)
    : Z * Z * list ascii :=
  match l with
  | c :: l' =>
      if is_digit c then
        split_numeral l' seen_point (10 * sig + (Str.code c - 48))
                      (if seen_point then frac + 1 else frac)
      else if is_char c 46 then split_numeral l' true sig frac
      else (sig, frac, l)
  | [] => (sig, frac, [])
  end.

Definition exponent_value (l : list ascii) : Z :=
  match l with
  | _e :: s :: l' =>
      if is_char s 45 then - digits_value 0 l'
      else if is_char s 43 then digits_value 0 l'
      else digits_value 0 (s :: l')
  | _ => 0
  end.

(** [std::from_chars] into a [double]: the decimal value rounded to the
    nearest double, ties to even; a value too large for a double, or one
    that rounds to zero without being zero, is out of range. *)
Definition from_chars_double (cleaned : string) : option float :=
  let '(sig, frac, rest) := split_numeral (Str.to_list cleaned) false 0 0 in
  let e10 := exponent_value rest - frac in
  if sig =? 0 then Some PrimFloat.zero
  else
    let sf :=
      if 0 <=? e10 then binary_normalize prec emax (sig * 10 ^ e10) 0 false
      else
        let '(q, e, l) := SFdiv_core_binary prec emax sig 0 (10 ^ (- e10)) 0 in
        binary_round_aux prec emax false q e l in
    match sf with
    | S754_finite _ _ _ => Some (SF2Prim sf)
    | _ => None
    end.

(** [Lexer::scan_number] *)
Definition scan_number (st : State) : Token * State :=
  let st := skip_digits st in
  let '(is_float, st) :=
    if is_char (peek st) 46 && is_digit (peek_next st) then
      (true, skip_digits (snd (advance st)))
    else (false, st) in
  let '(exponent, st) :=
    if is_char (peek st) 101 || is_char (peek st) 69 then
      let st := snd (advance st) in
      let st := if is_char (peek st) 43 || is_char (peek st) 45
                then snd (advance st) else st in
      if negb (is_digit (peek st)) then (None, st)
      else (Some true, skip_digits st)
    else (Some is_float, st) in
  match exponent with
  | None => (error_token "Invalid exponent in number literal" st, st)
  | Some is_float =>
      let cleaned := remove_underscores (current_lexeme st) in
      if is_float then
        match from_chars_double cleaned with
        | None => (error_token "Invalid float literal" st, st)
        | Some value => (make_token FloatLiteral (Some (PFloat value)) st, st)
        end
      else
        match from_chars_int64 cleaned with
        | None => (error_token "Invalid integer literal" st, st)
        | Some value => (make_token IntLiteral (Some (PInt value)) st, st)
        end
  end.

(* ----- identifiers and strings ------------------------------------------ *)

Fixpoint scan_identifier_loop (fuel : nat) (st : State) : State :=
  match fuel with
  | O => st
  | S fuel' =>
      if is_alnum (peek st) || is_char (peek st) 95 then
        scan_identifier_loop fuel' (snd (advance st))
      else st
  end.

(** [Lexer::scan_identifier] *)
Definition scan_identifier (st : State) : Token * State :=
  let st := scan_identifier_loop (remaining st) st in
  (make_token (identifier_type (current_lexeme st)) None st, st).

Definition push_back (s : string) (c : ascii) : string := s +:+ String c EmptyString.

(** The loop of [scan_string]; [inl] is an early error return. *)
Fixpoint scan_string_loop (fuel : nat) (value : string) (st : State)
    : Token * State + string * State :=
  match fuel with
  | O => inr (value, st)
  | S fuel' =>
      if negb (is_at_end st) && negb (is_char (peek st) 34) then
        if is_char (peek st) 10 then
          let st := new_line st (current_ st + 1) in
          let (c, st) := advance st in
          scan_string_loop fuel' (push_back value c) st
        else if is_char (peek st) 92 then
          let st := snd (advance st) in
          if is_at_end st then inl (error_token "Unterminated string literal" st, st)
          else
            let (c, st) := advance st in
            let value :=
              if is_char c 110 then push_back value (Str.chr 10)
              else if is_char c 116 then push_back value (Str.chr 9)
              else if is_char c 114 then push_back value (Str.chr 13)
              else if is_char c 92 then push_back value (Str.chr 92)
              else if is_char c 34 then push_back value (Str.chr 34)
              else push_back (push_back value (Str.chr 92)) c in
            scan_string_loop fuel' value st
        else
          let (c, st) := advance st in
          scan_string_loop fuel' (push_back value c) st
      else inr (value, st)
  end.

(** [Lexer::scan_string] *)
Definition scan_string (st : State) : Token * State :=
  match scan_string_loop (remaining st) EmptyString st with
  | inl r => r
  | inr (value, st) =>
      if is_at_end st then (error_token "Unterminated string literal" st, st)
      else
        let st := snd (advance st) in
        (make_token StringLiteral (Some (PString value)) st, st)
  end.

(* ----- scan_token -------------------------------------------------------- *)

Definition two_char (second : ascii) (yes no : TokenType) (st : State)
    : Token * State :=
  let (m, st) := match_ second st in
  (make_token (if m then yes else no) None st, st).

(** [Lexer::scan_token]. It calls itself after a comment; every such call
    has consumed the comment's mark, so [fuel] above the number of
    characters left is never used up. *)
Fixpoint scan_token_fuel (fuel : nat) (st : State) : Token * State :=
  match fuel with
  | O => (make_token Eof None st, st)
  | S fuel' =>
      let st := skip_whitespace st in
      if is_at_end st then (make_token Eof None st, st)
      else
        let st := with_start st (current_ st) in
        let (c, st) := advance st in
        let single (t : TokenType) := (make_token t None st, st) in
        if is_char c 40 then single LeftParen
        else if is_char c 41 then single RightParen
        else if is_char c 123 then single LeftBrace
        else if is_char c 125 then single RightBrace
        else if is_char c 91 then single LeftBracket
        else if is_char c 93 then single RightBracket
        else if is_char c 44 then single Comma
        else if is_char c 46 then single Dot
        else if is_char c 58 then single Colon
        else if is_char c 43 then single Plus
        else if is_char c 45 then single Minus
        else if is_char c 37 then single Percent
        else if is_char c 47 then single Slash
        else if is_char c 42 then two_char (Str.chr 42) Power Star st
        else if is_char c 61 then two_char (Str.chr 61) Equal Assign st
        else if is_char c 33 then
          let (m, st) := match_ (Str.chr 61) st in
          if m then (make_token NotEqual None st, st)
          else (error_token "Unexpected character '!'" st, st)
        else if is_char c 60 then two_char (Str.chr 61) LessEqual Less st
        else if is_char c 62 then two_char (Str.chr 61) GreaterEqual Greater st
        else if is_char c 34 then scan_string st
        else if is_char c 35 then
          let (m, st) := match_ (Str.chr 91) st in
          if m then scan_token_fuel fuel' (skip_multiline_comment st)
          else scan_token_fuel fuel' (skip_comment st)
        else if is_digit c then scan_number st
        else if is_alpha c || is_char c 95 then scan_identifier st
        else
          (error_token ("Unexpected character: '" +:+ String c EmptyString +:+ "'") st, st)
  end.

Definition scan_token (st : State) : Token * State :=
  scan_token_fuel (S (remaining st)) st.

(** [Lexer::next_token] *)
Definition next_token (st : State) : Token * State :=
  if is_at_end st then (make_token Eof None st, st) else scan_token st.

(** The [while] loop of [tokenize]; [tokens] is in the order pushed. Each
    pass either reads a character or yields [Eof] and breaks, so [fuel]
    above the number of characters left is never used up. *)
Fixpoint tokenize_loop (fuel : nat) (tokens : list Token) (st : State)
    : list Token * State :=
  match fuel with
  | O => (tokens, st)
  | S fuel' =>
      if is_at_end st then (tokens, st)
      else
        let (token, st) := next_token st in
        let tokens := tokens ++ [token] in
        if type_eqb (type token) Eof || type_eqb (type token) Error then (tokens, st)
        else tokenize_loop fuel' tokens st
  end.

(** [Lexer::tokenize] *)
Definition tokenize_from (st : State) : list Token :=
  let (tokens, st) := tokenize_loop (S (remaining st)) [] st in
  match last tokens with
  | Some t => if type_eqb (type t) Eof then tokens
              else tokens ++ [make_token Eof None st]
  | None => tokens ++ [make_token Eof None st]
  end.

Definition tokenize (source filename : string) : list Token :=
  tokenize_from (new source filename).

End Lexer.

(* ===================================================================== *)
(** ** Abstract syntax (frontend/ast.hpp, frontend/ast.cpp) *)
(* ===================================================================== *)

Module Ast.
Import Tok.

Inductive BinaryOp : Type :=
| Add | Sub | Mul | Div | Mod | Pow
| Eq | Ne | Lt | Gt | Le | Ge
| And | Or.

Inductive UnaryOp : Type := Not | Neg | Pos.

(** Type annotations. *)
Inductive Type_ : Type :=
| NamedType (name : string) (location : SourceLocation)
| ListType (element_type : Type_) (location : SourceLocation)
| TupleType (element_types : list Type_) (location : SourceLocation).

Inductive Pattern : Type :=
| IdentifierPattern (name : string) (location : SourceLocation)
| TuplePattern (elements : list Pattern) (location : SourceLocation).

Inductive Expr : Type :=
| IntLiteralExpr (value : Z) (location : SourceLocation)
| FloatLiteralExpr (value : float) (location : SourceLocation)
| StringLiteralExpr (value : string) (location : SourceLocation)
| BoolLiteralExpr (value : bool) (location : SourceLocation)
| IdentifierExpr (name : string) (location : SourceLocation)
| TupleExpr (elements : list Expr) (location : SourceLocation)
| ListExpr (elements : list Expr) (location : SourceLocation)
| BinaryExpr (op : BinaryOp) (left right : Expr) (location : SourceLocation)
| UnaryExpr (op : UnaryOp) (operand : Expr) (location : SourceLocation)
| CallExpr (callee : Expr) (arguments : list Expr) (location : SourceLocation)
| MethodCallExpr (object : Expr) (method_name : string) (arguments : list Expr)
    (location : SourceLocation)
| IndexExpr (object index : Expr) (location : SourceLocation)
| LambdaExpr (parameters : list string) (body : Expr) (location : SourceLocation)
| IfExpr (condition then_branch : Expr) (else_branch : option Expr)
    (location : SourceLocation)
| BlockExpr (statements : list Stmt) (location : SourceLocation)
with Stmt : Type :=
| LetStmt (pattern : Pattern) (type_annotation : option Type_) (initializer : Expr)
    (location : SourceLocation)
| ReturnStmt (value : Expr) (location : SourceLocation)
| ExprStmt (expression : Expr) (location : SourceLocation).

Definition expr_location (e : Expr) : SourceLocation :=
  match e with
  | IntLiteralExpr _ l | FloatLiteralExpr _ l | StringLiteralExpr _ l
  | BoolLiteralExpr _ l | IdentifierExpr _ l | TupleExpr _ l | ListExpr _ l
  | BinaryExpr _ _ _ l | UnaryExpr _ _ l | CallExpr _ _ l
  | MethodCallExpr _ _ _ l | IndexExpr _ _ l | LambdaExpr _ _ l
  | IfExpr _ _ _ l | BlockExpr _ l => l
  end.

Definition stmt_location (s : Stmt) : SourceLocation :=
  match s with
  | LetStmt _ _ _ l | ReturnStmt _ l | ExprStmt _ l => l
  end.

Definition pattern_location (p : Pattern) : SourceLocation :=
  match p with
  | IdentifierPattern _ l | TuplePattern _ l => l
  end.

Record Parameter_ : Type := mkParameter {
  param_name : string;
  param_type : Type_;
  param_location : SourceLocation
}.

(** [body] is always a [BlockExpr]. *)
Record FunctionDef : Type := mkFunctionDef {
  fd_name : string;
  fd_parameters : list Parameter_;
  fd_return_type : Type_;
  fd_body : Expr;
  fd_location : SourceLocation
}.

Record Program : Type := mkProgram {
  prog_functions : list FunctionDef;
  prog_location : SourceLocation
}.

(** [binary_op_from_token] *)
Definition binary_op_from_token (t : TokenType) : option BinaryOp :=
  match t with
  | Tok.Plus => Some Add
  | Tok.Minus => Some Sub
  | Tok.Star => Some Mul
  | Tok.Slash => Some Div
  | Tok.Percent => Some Mod
  | Tok.Power => Some Pow
  | Tok.Equal => Some Eq
  | Tok.NotEqual => Some Ne
  | Tok.Less => Some Lt
  | Tok.Greater => Some Gt
  | Tok.LessEqual => Some Le
  | Tok.GreaterEqual => Some Ge
  | Tok.And => Some And
  | Tok.Or => Some Or
  | _ => None
  end.

(** [unary_op_from_token] *)
Definition unary_op_from_token (t : TokenType) : option UnaryOp :=
  match t with
  | Tok.Not => Some Not
  | Tok.Minus => Some Neg
  | Tok.Plus => Some Pos
  | _ => None
  end.

End Ast.

(* ===================================================================== *)
(** ** The parser (frontend/parser.hpp, frontend/parser.cpp) *)
(* ===================================================================== *)

Module Parser.
Import Tok Ast.

Definition PREC_LOWEST : Z := 0.
Definition PREC_OR : Z := 10.
Definition PREC_AND : Z := 20.
Definition PREC_COMPARISON : Z := 30.
Definition PREC_ADDITIVE : Z := 40.
Definition PREC_MULTIPLICATIVE : Z := 50.
Definition PREC_POWER : Z := 60.
Definition PREC_UNARY : Z := 70.
Definition PREC_POSTFIX : Z := 80.

Record ParseError : Type := mkParseError {
  error_location : SourceLocation;
  error_message : string
}.

Record State : Type := mkParser {
  tokens_ : list Token;
  current_ : nat;
  errors_ : list ParseError   (* in the order recorded *)
}.

Definition new (tokens : list Token) : State := mkParser tokens 0 [].

Definition with_current (st : State) (c : nat) : State :=
  mkParser (tokens_ st) c (errors_ st).

(** What a parsing routine can end in: its result and the new state, an
    exception escaping it ([std::get] on a payload of the wrong kind
    throws), or the recursion budget of the model running out. *)
Inductive presult (A : Type) : Type :=
| POk (a : A) (st : State)
| PThrow (st : State)
| PFuel.
Arguments POk {A} a st.
Arguments PThrow {A} st.
Arguments PFuel {A}.

Definition P (A : Type) : Type := State -> presult A.

Definition ret {A} (a : A) : P A := fun st => POk a st.
Definition bind {A B} (m : P A) (k : A -> P B) : P B :=
  fun st => match m st with
            | POk a st' => k a st'
            | PThrow st' => PThrow st'
            | PFuel => PFuel
            end.
Definition get : P State := fun st => POk st st.
Definition bad_variant_access {A} : P A := fun st => PThrow st.
Definition out_of_fuel {A} : P A := fun _ => PFuel.

Declare Scope parser_scope.
Delimit Scope parser_scope with parser.
Notation "x <- m ;; k" := (bind m (fun x => k))
  (at level 100, m at next level, k at level 200, right associativity) : parser_scope.
Notation "m ;; k" := (bind m (fun _ => k))
  (at level 100, k at level 200, right associativity) : parser_scope.
Local Open Scope parser_scope.

(* ----- token stream management ---------------------------------------- *)

(** The constructor wants a vector that ends in an [Eof] token; on an empty
    one [back()] is undefined, which is modelled as such a token. *)
Definition no_token : Token := mkToken Eof EmptyString (mkLoc EmptyString 0 0 0 0) None.

Definition back (st : State) : Token := default no_token (last (tokens_ st)).

Definition peek_at (st : State) (index : nat) : Token :=
  match tokens_ st !! index with
  | Some t => t
  | None => back st
  end.

Definition peek (st : State) : Token := peek_at st (current_ st).

Definition previous (st : State) : Token :=
  match current_ st with
  | O => default no_token (tokens_ st !! 0%nat)
  | S c => default no_token (tokens_ st !! c)
  end.

Definition is_at_end (st : State) : bool := type_eqb (type (peek st)) Eof.

Definition advance : P Token :=
  fun st =>
    let st' := if is_at_end st then st else with_current st (S (current_ st)) in
    POk (previous st') st'.

Definition check (t : TokenType) (st : State) : bool :=
  if is_at_end st then false else type_eqb (type (peek st)) t.

Definition check_any (ts : list TokenType) (st : State) : bool :=
  existsb (fun t => check t st) ts.

Definition match_ (t : TokenType) : P bool :=
  st <- get ;;
  if check t st then advance ;; ret true else ret false.

Definition error_at (token : Token) (message : string) : P unit :=
  fun st =>
    POk tt (mkParser (tokens_ st) (current_ st)
              (errors_ st ++ [mkParseError (location token) message])).

Definition error (message : string) : P unit :=
  st <- get ;; error_at (peek st) message.

Definition expect (t : TokenType) (message : string) : P bool :=
  st <- get ;;
  if check t st then advance ;; ret true
  else error message ;; ret false.

(** Tokens from the current one to the end of the vector: a bound on the
    number of times [current_] can still be advanced. *)
Definition tokens_left (st : State) : nat := (List.length (tokens_ st) - current_ st)%nat.

(** [Parser::synchronize] *)
Fixpoint synchronize_loop (fuel : nat) (st : State) : State :=
  match fuel with
  | O => st
  | S fuel' =>
      if is_at_end st then st
      else if check_any [Function; Let; Return; If; LeftBrace; RightBrace] st then st
      else synchronize_loop fuel' (with_current st (S (current_ st)))
  end.
Definition synchronize : P unit :=
  fun st => POk tt (synchronize_loop (tokens_left st) st).

(** [while (match(TokenType::Newline)) {}] *)
Fixpoint skip_newlines_loop (fuel : nat) (st : State) : State :=
  match fuel with
  | O => st
  | S fuel' =>
      if check Newline st then skip_newlines_loop fuel' (with_current st (S (current_ st)))
      else st
  end.
Definition skip_newlines : P unit :=
  fun st => POk tt (skip_newlines_loop (tokens_left st) st).

(* ----- operator precedence helpers ------------------------------------- *)

Definition get_binary_precedence (t : TokenType) : Z :=
  match t with
  | Tok.Or => PREC_OR
  | Tok.And => PREC_AND
  | Equal | NotEqual | Less | Greater | LessEqual | GreaterEqual => PREC_COMPARISON
  | Plus | Minus => PREC_ADDITIVE
  | Star | Slash | Percent => PREC_MULTIPLICATIVE
  | Power => PREC_POWER
  | _ => PREC_LOWEST
  end.

Definition is_binary_operator (t : TokenType) : bool :=
  PREC_LOWEST <? get_binary_precedence t.

Definition is_unary_operator (t : TokenType) : bool :=
  type_eqb t Tok.Not || type_eqb t Minus || type_eqb t Plus.

Definition is_right_associative (t : TokenType) : bool := type_eqb t Power.

(* ----- types and patterns ----------------------------------------------- *)

(** [Parser::parse_primary_type]; [parse_type] is the same function. The
    [do ... while (match(Comma))] loop of the tuple case is [tuple_types]. *)
Fixpoint parse_type (fuel : nat) : P (option Type_) :=
  match fuel with
  | O => out_of_fuel
  | S fuel =>
      st <- get ;;
      let start_loc := location (peek st) in
      if check TypeInt st then advance ;; ret (Some (NamedType "Int" start_loc))
      else if check TypeFloat st then advance ;; ret (Some (NamedType "Float" start_loc))
      else if check TypeString st then advance ;; ret (Some (NamedType "String" start_loc))
      else if check TypeBool st then advance ;; ret (Some (NamedType "Bool" start_loc))
      else if check TypeList st then
        advance ;;
        ok <- expect LeftBracket "Expected '[' after 'List'" ;;
        if negb ok then ret None else
        element_type <- parse_type fuel ;;
        match element_type with
        | None => ret None
        | Some element_type =>
            ok <- expect RightBracket "Expected ']' after list element type" ;;
            if negb ok then ret None
            else ret (Some (ListType element_type start_loc))
        end
      else if check Identifier st then
        name_tok <- advance ;;
        m <- match_ LeftBracket ;;
        if m then
          element_type <- parse_type fuel ;;
          match element_type with
          | None => ret None
          | Some element_type =>
              ok <- expect RightBracket "Expected ']' after type parameter" ;;
              if negb ok then ret None
              else ret (Some (ListType element_type start_loc))
          end
        else ret (Some (NamedType (lexeme name_tok) start_loc))
      else
        m <- match_ LeftParen ;;
        if m then
          m <- match_ RightParen ;;
          if m then ret (Some (TupleType [] start_loc))
          else
            element_types <- tuple_types fuel [] ;;
            match element_types with
            | None => ret None
            | Some element_types =>
                ok <- expect RightParen "Expected ')' after tuple type" ;;
                if negb ok then ret None
                else ret (Some (TupleType element_types start_loc))
            end
        else error "Expected type" ;; ret None
  end
with tuple_types (fuel : nat) (acc : list Type_) : P (option (list Type_)) :=
  match fuel with
  | O => out_of_fuel
  | S fuel =>
      t <- parse_type fuel ;;
      match t with
      | None => ret None
      | Some t =>
          m <- match_ Comma ;;
          if m then tuple_types fuel (acc ++ [t]) else ret (Some (acc ++ [t]))
      end
  end.

(** [Parser::parse_pattern] *)
Fixpoint parse_pattern (fuel : nat) : P (option Pattern) :=
  match fuel with
  | O => out_of_fuel
  | S fuel =>
      st <- get ;;
      let start_loc := location (peek st) in
      if check Identifier st then
        name_tok <- advance ;;
        ret (Some (IdentifierPattern (lexeme name_tok) start_loc))
      else
        m <- match_ LeftParen ;;
        if m then
          m <- match_ RightParen ;;
          if m then ret (Some (TuplePattern [] start_loc))
          else
            patterns <- tuple_patterns fuel [] ;;
            match patterns with
            | None => ret None
            | Some patterns =>
                ok <- expect RightParen "Expected ')' after tuple pattern" ;;
                if negb ok then ret None
                else ret (Some (TuplePattern patterns start_loc))
            end
        else error "Expected pattern (identifier or tuple)" ;; ret None
  end
with tuple_patterns (fuel : nat) (acc : list Pattern) : P (option (list Pattern)) :=
  match fuel with
  | O => out_of_fuel
  | S fuel =>
      p <- parse_pattern fuel ;;
      match p with
      | None => ret None
      | Some p =>
          m <- match_ Comma ;;
          if m then tuple_patterns fuel (acc ++ [p]) else ret (Some (acc ++ [p]))
      end
  end.

(* ----- expressions and statements ---------------------------------------- *)

(** The literal cases of [parse_primary]: [std::get] of the payload. *)
Definition int_payload (t : Token) : P (option Expr) :=
  match value t with
  | Some (PInt v) => ret (Some (IntLiteralExpr v (location t)))
  | Some _ => bad_variant_access
  | None => error_at t "Integer literal missing value" ;; ret None
  end.
Definition float_payload (t : Token) : P (option Expr) :=
  match value t with
  | Some (PFloat v) => ret (Some (FloatLiteralExpr v (location t)))
  | Some _ => bad_variant_access
  | None => error_at t "Float literal missing value" ;; ret None
  end.
Definition string_payload (t : Token) : P (option Expr) :=
  match value t with
  | Some (PString v) => ret (Some (StringLiteralExpr v (location t)))
  | Some _ => bad_variant_access
  | None => error_at t "String literal missing value" ;; ret None
  end.

(** The mutually recursive routines. Each takes the recursion budget
    [fuel] and hands [fuel - 1] to whatever it calls; the loops of the
    source ([infix_loop], [postfix_loop], [block_loop], [tuple_loop],
    [list_loop], [args_loop], [lambda_params]) are routines of their own. *)
Fixpoint parse_precedence (fuel : nat) (min_prec : Z) : P (option Expr) :=
  match fuel with
  | O => out_of_fuel
  | S fuel =>
      lhs <- parse_prefix fuel ;;
      match lhs with
      | None => ret None
      | Some lhs =>
          lhs <- parse_postfix fuel lhs ;;
          match lhs with
          | None => ret None
          | Some lhs => infix_loop fuel min_prec lhs
          end
      end
  end

(** The [while (!is_at_end())] loop of [parse_precedence]. *)
with infix_loop (fuel : nat) (min_prec : Z) (lhs : Expr) : P (option Expr) :=
  match fuel with
  | O => out_of_fuel
  | S fuel =>
      st <- get ;;
      if is_at_end st then ret (Some lhs) else
      skip_newlines ;;
      st <- get ;;
      if negb (is_binary_operator (type (peek st))) then ret (Some lhs) else
      let prec := get_binary_precedence (type (peek st)) in
      if prec <? min_prec then ret (Some lhs) else
      let next_min_prec :=
        if negb (is_right_associative (type (peek st))) then prec + 1 else prec in
      op_token <- advance ;;
      skip_newlines ;;
      rhs <- parse_precedence fuel next_min_prec ;;
      match rhs with
      | None => ret None
      | Some rhs =>
          match binary_op_from_token (type op_token) with
          | None => error_at op_token "Invalid binary operator" ;; ret None
          | Some op =>
              infix_loop fuel min_prec (BinaryExpr op lhs rhs (location op_token))
          end
      end
  end

with parse_prefix (fuel : nat) : P (option Expr) :=
  match fuel with
  | O => out_of_fuel
  | S fuel =>
      st <- get ;;
      if is_unary_operator (type (peek st)) then
        op_token <- advance ;;
        operand <- parse_precedence fuel PREC_UNARY ;;
        match operand with
        | None => ret None
        | Some operand =>
            match unary_op_from_token (type op_token) with
            | None => error_at op_token "Invalid unary operator" ;; ret None
            | Some op => ret (Some (UnaryExpr op operand (location op_token)))
            end
        end
      else parse_primary fuel
  end

with parse_primary (fuel : nat) : P (option Expr) :=
  match fuel with
  | O => out_of_fuel
  | S fuel =>
      st <- get ;;
      let token := peek st in
      match type token with
      | IntLiteral => advance ;; int_payload token
      | FloatLiteral => advance ;; float_payload token
      | StringLiteral => advance ;; string_payload token
      | Tok.True => advance ;; ret (Some (BoolLiteralExpr true (location token)))
      | Tok.False => advance ;; ret (Some (BoolLiteralExpr false (location token)))
      | Identifier => advance ;; ret (Some (IdentifierExpr (lexeme token) (location token)))
      | LeftParen => advance ;; parse_tuple_or_grouped fuel
      | LeftBracket => advance ;; parse_list_literal fuel
      | Lambda => advance ;; parse_lambda_expression fuel
      | If => advance ;; parse_if_expression fuel
      | LeftBrace => advance ;; parse_block_expression fuel
      | _ =>
          error ("Unexpected token in expression: '" +:+ lexeme token +:+ "'") ;;
          advance ;;
          ret None
      end
  end

(** [Parser::parse_postfix]: its [while (true)] loop. *)
with parse_postfix (fuel : nat) (expr : Expr) : P (option Expr) :=
  match fuel with
  | O => out_of_fuel
  | S fuel =>
      m <- match_ LeftParen ;;
      if m then
        args <- parse_call_arguments fuel ;;
        ok <- expect RightParen "Expected ')' after arguments" ;;
        if negb ok then ret None else
        st <- get ;;
        parse_postfix fuel (CallExpr expr args (location (previous st)))
      else
        m <- match_ Dot ;;
        if m then
          st <- get ;;
          if negb (check Identifier st) then
            error "Expected method name after '.'" ;; ret None
          else
            name_tok <- advance ;;
            m <- match_ LeftParen ;;
            if m then
              args <- parse_call_arguments fuel ;;
              ok <- expect RightParen "Expected ')' after arguments" ;;
              if negb ok then ret None else
              st <- get ;;
              parse_postfix fuel
                (MethodCallExpr expr (lexeme name_tok) args (location (previous st)))
            else error "Field access not yet implemented" ;; ret None
        else
          m <- match_ LeftBracket ;;
          if m then
            index <- parse_precedence fuel PREC_LOWEST ;;
            match index with
            | None => ret None
            | Some index =>
                ok <- expect RightBracket "Expected ']' after index" ;;
                if negb ok then ret None else
                st <- get ;;
                parse_postfix fuel (IndexExpr expr index (location (previous st)))
            end
          else ret (Some expr)
  end

with parse_if_expression (fuel : nat) : P (option Expr) :=
  match fuel with
  | O => out_of_fuel
  | S fuel =>
      st <- get ;;
      let start_loc := location (previous st) in
      condition <- parse_precedence fuel PREC_LOWEST ;;
      match condition with
      | None => ret None
      | Some condition =>
          ok <- expect LeftBrace "Expected '{' after if condition" ;;
          if negb ok then ret None else
          then_branch <- parse_block_expression fuel ;;
          match then_branch with
          | None => ret None
          | Some then_branch =>
              m <- match_ Else ;;
              if m then
                st <- get ;;
                if check If st then
                  advance ;;
                  else_branch <- parse_if_expression fuel ;;
                  (* a failed [else if] has recorded an error; the source keeps
                   its null pointer in the optional, the model [None] *)
                  ret (Some (IfExpr condition then_branch else_branch start_loc))
                else
                  ok <- expect LeftBrace "Expected '{' after 'else'" ;;
                  if negb ok then ret None else
                  else_branch <- parse_block_expression fuel ;;
                  ret (Some (IfExpr condition then_branch else_branch start_loc))
              else ret (Some (IfExpr condition then_branch None start_loc))
          end
      end
  end

with parse_lambda_expression (fuel : nat) : P (option Expr) :=
  match fuel with
  | O => out_of_fuel
  | S fuel =>
      st <- get ;;
      let start_loc := location (previous st) in
      params <-
        (if negb (check Colon st) then
           if negb (check Identifier st) then
             error "Expected parameter name after 'lambda'" ;; ret None
           else
             first <- advance ;;
             lambda_params fuel [lexeme first]
         else ret (Some [])) ;;
      match params with
      | None => ret None
      | Some params =>
          ok <- expect Colon "Expected ':' after lambda parameters" ;;
          if negb ok then ret None else
          st <- get ;;
          body <- (if check LeftBrace st then advance ;; parse_block_expression fuel
                   else parse_precedence fuel PREC_LOWEST) ;;
          match body with
          | None => ret None
          | Some body => ret (Some (LambdaExpr params body start_loc))
          end
      end
  end

with lambda_params (fuel : nat) (params : list string) : P (option (list string)) :=
  match fuel with
  | O => out_of_fuel
  | S fuel =>
      m <- match_ Comma ;;
      if m then
        st <- get ;;
        if negb (check Identifier st) then
          error "Expected parameter name after ','" ;; ret None
        else
          name_tok <- advance ;;
          lambda_params fuel (params ++ [lexeme name_tok])
      else ret (Some params)
  end

with parse_block_expression (fuel : nat) : P (option Expr) :=
  match fuel with
  | O => out_of_fuel
  | S fuel =>
      st <- get ;;
      let start_loc := location (previous st) in
      skip_newlines ;;
      statements <- block_loop fuel [] ;;
      ok <- expect RightBrace "Expected '}' after block" ;;
      if negb ok then ret None
      else ret (Some (BlockExpr statements start_loc))
  end

with block_loop (fuel : nat) (statements : list Stmt) : P (list Stmt) :=
  match fuel with
  | O => out_of_fuel
  | S fuel =>
      st <- get ;;
      if negb (check RightBrace st) && negb (is_at_end st) then
        stmt <- parse_statement fuel ;;
        match stmt with
        | None => synchronize ;; block_loop fuel statements
        | Some stmt => skip_newlines ;; block_loop fuel (statements ++ [stmt])
        end
      else ret statements
  end

with parse_tuple_or_grouped (fuel : nat) : P (option Expr) :=
  match fuel with
  | O => out_of_fuel
  | S fuel =>
      st <- get ;;
      let start_loc := location (previous st) in
      if check RightParen st then advance ;; ret (Some (TupleExpr [] start_loc))
      else
        first <- parse_precedence fuel PREC_LOWEST ;;
        match first with
        | None => ret None
        | Some first =>
            m <- match_ Comma ;;
            if m then
              elements <- tuple_loop fuel [first] ;;
              match elements with
              | None => ret None
              | Some elements =>
                  ok <- expect RightParen "Expected ')' after tuple elements" ;;
                  if negb ok then ret None
                  else ret (Some (TupleExpr elements start_loc))
              end
            else
              ok <- expect RightParen "Expected ')' after expression" ;;
              if negb ok then ret None else ret (Some first)
        end
  end

(** [do { ... } while (match(Comma))] of the tuple literal. *)
with tuple_loop (fuel : nat) (elements : list Expr) : P (option (list Expr)) :=
  match fuel with
  | O => out_of_fuel
  | S fuel =>
      st <- get ;;
      if check RightParen st then ret (Some elements)
      else
        elem <- parse_precedence fuel PREC_LOWEST ;;
        match elem with
        | None => ret None
        | Some elem =>
            m <- match_ Comma ;;
            if m then tuple_loop fuel (elements ++ [elem])
            else ret (Some (elements ++ [elem]))
        end
  end

with parse_list_literal (fuel : nat) : P (option Expr) :=
  match fuel with
  | O => out_of_fuel
  | S fuel =>
      st <- get ;;
      let start_loc := location (previous st) in
      if check RightBracket st then advance ;; ret (Some (ListExpr [] start_loc))
      else
        elem <- parse_precedence fuel PREC_LOWEST ;;
        match elem with
        | None => ret None
        | Some elem =>
            elements <- list_loop fuel [elem] ;;
            match elements with
            | None => ret None
            | Some elements =>
                ok <- expect RightBracket "Expected ']' after list elements" ;;
                if negb ok then ret None
                else ret (Some (ListExpr elements start_loc))
            end
        end
  end

(** [while (match(Comma)) { ... }] of the list literal. *)
with list_loop (fuel : nat) (elements : list Expr) : P (option (list Expr)) :=
  match fuel with
  | O => out_of_fuel
  | S fuel =>
      m <- match_ Comma ;;
      if m then
        st <- get ;;
        if check RightBracket st then ret (Some elements)
        else
          elem <- parse_precedence fuel PREC_LOWEST ;;
          match elem with
          | None => ret None
          | Some elem => list_loop fuel (elements ++ [elem])
          end
      else ret (Some elements)
  end

(** [Parser::parse_call_arguments]: what has been parsed is returned even
    when an argument fails. *)
with parse_call_arguments (fuel : nat) : P (list Expr) :=
  match fuel with
  | O => out_of_fuel
  | S fuel =>
      st <- get ;;
      if check RightParen st then ret []
      else
        arg <- parse_precedence fuel PREC_LOWEST ;;
        match arg with
        | None => ret []
        | Some arg => args_loop fuel [arg]
        end
  end

with args_loop (fuel : nat) (args : list Expr) : P (list Expr) :=
  match fuel with
  | O => out_of_fuel
  | S fuel =>
      m <- match_ Comma ;;
      if m then
        arg <- parse_precedence fuel PREC_LOWEST ;;
        match arg with
        | None => ret args
        | Some arg => args_loop fuel (args ++ [arg])
        end
      else ret args
  end

with parse_statement (fuel : nat) : P (option Stmt) :=
  match fuel with
  | O => out_of_fuel
  | S fuel =>
      st <- get ;;
      if check Let st then advance ;; parse_let_statement fuel
      else if check Return st then advance ;; parse_return_statement fuel
      else parse_expression_statement fuel
  end

with parse_let_statement (fuel : nat) : P (option Stmt) :=
  match fuel with
  | O => out_of_fuel
  | S fuel =>
      st <- get ;;
      let start_loc := location (previous st) in
      pattern <- parse_pattern fuel ;;
      match pattern with
      | None => ret None
      | Some pattern =>
          m <- match_ Colon ;;
          annotation <-
            (if m then
               t <- parse_type fuel ;;
               match t with
               | None => ret None
               | Some t => ret (Some (Some t))
               end
             else ret (Some None)) ;;
          match annotation with
          | None => ret None
          | Some type_annotation =>
              ok <- expect Assign "Expected '=' in let statement" ;;
              if negb ok then ret None else
              initializer <- parse_precedence fuel PREC_LOWEST ;;
              match initializer with
              | None => ret None
              | Some initializer =>
                  ret (Some (LetStmt pattern type_annotation initializer start_loc))
              end
          end
      end
  end

with parse_return_statement (fuel : nat) : P (option Stmt) :=
  match fuel with
  | O => out_of_fuel
  | S fuel =>
      st <- get ;;
      let start_loc := location (previous st) in
      v <- parse_precedence fuel PREC_LOWEST ;;
      match v with
      | None => ret None
      | Some v => ret (Some (ReturnStmt v start_loc))
      end
  end

with parse_expression_statement (fuel : nat) : P (option Stmt) :=
  match fuel with
  | O => out_of_fuel
  | S fuel =>
      expr <- parse_precedence fuel PREC_LOWEST ;;
      match expr with
      | None => ret None
      | Some expr => ret (Some (ExprStmt expr (expr_location expr)))
      end
  end.

(** [Parser::parse_expression] *)
Definition parse_expression (fuel : nat) : P (option Expr) :=
  parse_precedence fuel PREC_LOWEST.

(* ----- functions and programs --------------------------------------------- *)

(** [Parser::parse_parameter] *)
Definition parse_parameter (fuel : nat) : P (option Parameter_) :=
  st <- get ;;
  let start_loc := location (peek st) in
  if negb (check Identifier st) then error "Expected parameter name" ;; ret None
  else
    name_tok <- advance ;;
    ok <- expect Colon "Expected ':' after parameter name" ;;
    if negb ok then ret None else
    t <- parse_type fuel ;;
    match t with
    | None => ret None
    | Some t => ret (Some (mkParameter (lexeme name_tok) t start_loc))
    end.

(** [do { ... } while (match(Comma))] of the parameter list. *)
Fixpoint parameters_loop (fuel : nat) (acc : list Parameter_)
    : P (option (list Parameter_)) :=
  match fuel with
  | O => out_of_fuel
  | S fuel' =>
      p <- parse_parameter fuel' ;;
      match p with
      | None => ret None
      | Some p =>
          m <- match_ Comma ;;
          if m then parameters_loop fuel' (acc ++ [p]) else ret (Some (acc ++ [p]))
      end
  end.

(** [Parser::parse_function] *)
Definition parse_function (fuel : nat) : P (option FunctionDef) :=
  st <- get ;;
  let start_loc := location (previous st) in
  if negb (check Identifier st) then error "Expected function name" ;; ret None
  else
    name_tok <- advance ;;
    ok <- expect LeftParen "Expected '(' after function name" ;;
    if negb ok then ret None else
    st <- get ;;
    parameters <- (if negb (check RightParen st) then parameters_loop fuel []
                   else ret (Some [])) ;;
    match parameters with
    | None => ret None
    | Some parameters =>
        ok <- expect RightParen "Expected ')' after parameters" ;;
        if negb ok then ret None else
        ok <- expect Returns "Expected 'returns' after parameters" ;;
        if negb ok then ret None else
        return_type <- parse_type fuel ;;
        match return_type with
        | None => ret None
        | Some return_type =>
            ok <- expect LeftBrace "Expected '{' for function body" ;;
            if negb ok then ret None else
            body <- parse_block_expression fuel ;;
            match body with
            | None => ret None
            | Some body =>
                ret (Some (mkFunctionDef (lexeme name_tok) parameters return_type
                             body start_loc))
            end
        end
    end.

(** The [while (!is_at_end())] loop of [parse_program]. *)
Fixpoint program_loop (fuel : nat) (functions : list FunctionDef)
    : P (list FunctionDef) :=
  match fuel with
  | O => out_of_fuel
  | S fuel' =>
      st <- get ;;
      if is_at_end st then ret functions
      else
        m <- match_ Function ;;
        if m then
          func <- parse_function fuel' ;;
          match func with
          | Some func => program_loop fuel' (functions ++ [func])
          | None => synchronize ;; program_loop fuel' functions
          end
        else
          error "Expected 'function' at top level" ;;
          advance ;;
          program_loop fuel' functions
  end.

(** [Parser::parse_program] *)
Definition parse_program (fuel : nat) : P Program :=
  st <- get ;;
  let start_loc := location (peek st) in
  functions <- program_loop fuel [] ;;
  ret (mkProgram functions start_loc).

Record ParseResult : Type := mkParseResult {
  program : option Program;
  errors : list ParseError
}.

Definition has_errors (r : ParseResult) : bool :=
  match errors r with [] => false | _ => true end.
Definition is_ok (r : ParseResult) : bool :=
  negb (has_errors r) && bool_decide (is_Some (program r)).

(** [Parser::parse], on a parser just built from [tokens]; [None] when
    [fuel] does not suffice. *)
Definition parse (fuel : nat) (tokens : list Token) : option ParseResult :=
  match parse_program fuel (new tokens) with
  | POk program st => Some (mkParseResult (Some program) (errors_ st))
  | PThrow st => Some (mkParseResult None (errors_ st))
  | PFuel => None
  end.

End Parser.

(* ===================================================================== *)
(** ** Semantic types (semantic/type_system.hpp, semantic/type_system.cpp) *)
(* ===================================================================== *)

Module Types.

(** [PrimitiveKind]; the enumerators are [Int], [Float], [String], [Bool]. *)
Inductive PrimitiveKind : Type := KInt | KFloat | KString | KBool.

Definition kind_eqb (a b : PrimitiveKind) : bool :=
  match a, b with
  | KInt, KInt | KFloat, KFloat | KString, KString | KBool, KBool => true
  | _, _ => false
  end.

Inductive SemanticType : Type :=
| PrimitiveType (primitive_kind : PrimitiveKind)
| ListType (element_type : SemanticType)
| TupleType (element_types : list SemanticType)
| FunctionType (param_types : list SemanticType) (return_type : SemanticType)
| TypeVariable (name : string)
| UnknownType.

(** [TypeKind], the tag every type carries. *)
Inductive TypeKind : Type :=
| Primitive | List | Tuple | Function | TypeVariable_ | Unknown.

Definition kind (t : SemanticType) : TypeKind :=
  match t with
  | PrimitiveType _ => Primitive
  | ListType _ => List
  | TupleType _ => Tuple
  | FunctionType _ _ => Function
  | TypeVariable _ => TypeVariable_
  | UnknownType => Unknown
  end.

Definition primitive_name (pk : PrimitiveKind) : string :=
  match pk with
  | KInt => "Int"
  | KFloat => "Float"
  | KString => "String"
  | KBool => "Bool"
  end.

(** The virtual [equals]: the receiver's class picks the body, which first
    tests the kind of [other]. *)
Fixpoint equals (t other : SemanticType) {struct t} : bool :=
  let fix all_equal (xs ys : list SemanticType) : bool :=
    match xs, ys with
    | [], [] => true
    | x :: xs', y :: ys' => equals x y && all_equal xs' ys'
    | _, _ => false
    end in
  match t with
  | PrimitiveType pk =>
      match other with
      | PrimitiveType pk' => kind_eqb pk pk'
      | _ => false
      end
  | ListType e =>
      match other with
      | ListType e' => equals e e'
      | _ => false
      end
  | TupleType es =>
      match other with
      | TupleType es' => all_equal es es'
      | _ => false
      end
  | FunctionType ps r =>
      match other with
      | FunctionType ps' r' => all_equal ps ps' && equals r r'
      | _ => false
      end
  | TypeVariable n =>
      match other with
      | TypeVariable n' => String.eqb n n'
      | _ => false
      end
  | UnknownType => false
  end.

Fixpoint to_string (t : SemanticType) : string :=
  let fix join (first : bool) (ts : list SemanticType) : string :=
    match ts with
    | [] => EmptyString
    | x :: ts' => (if first then EmptyString else ", ") +:+ to_string x +:+ join false ts'
    end in
  match t with
  | PrimitiveType pk => primitive_name pk
  | ListType e => "List[" +:+ to_string e +:+ "]"
  | TupleType es => "(" +:+ join true es +:+ ")"
  | FunctionType ps r => "(" +:+ join true ps +:+ ") -> " +:+ to_string r
  | TypeVariable n => n
  | UnknownType => "?"
  end.

(** [clone] is a deep copy: the same value. *)
Definition clone (t : SemanticType) : SemanticType := t.

Definition types_compatible (t1 t2 : SemanticType) : bool := equals t1 t2.

Definition unify_types (t1 t2 : SemanticType) : option SemanticType :=
  if equals t1 t2 then Some (clone t1)
  else match t1, t2 with
       | TypeVariable _, _ => Some (clone t2)
       | _, TypeVariable _ => Some (clone t1)
       | UnknownType, _ | _, UnknownType => Some UnknownType
       | _, _ => None
       end.

(** [TypeEnvironment::get_builtin] *)
Definition get_builtin (name : string) : option SemanticType :=
  if String.eqb name "Int" then Some (PrimitiveType KInt)
  else if String.eqb name "Float" then Some (PrimitiveType KFloat)
  else if String.eqb name "String" then Some (PrimitiveType KString)
  else if String.eqb name "Bool" then Some (PrimitiveType KBool)
  else None.

Definition is_builtin (name : string) : bool :=
  existsb (String.eqb name) ["Int"; "Float"; "String"; "Bool"].

End Types.

(* ===================================================================== *)
(** ** The symbol table (semantic/symbol_table.hpp, symbol_table.cpp) *)
(* ===================================================================== *)

Module Symbols.
Import Types.

Inductive SymbolKind : Type := Variable_ | Function_ | Parameter_k.

Record Symbol : Type := mkSymbol {
  sym_name : string;
  sym_kind : SymbolKind;
  sym_type : SemanticType;
  sym_location : Tok.SourceLocation;
  is_mutable : bool
}.

Inductive ScopeKind : Type := Global | FunctionScope | Block | Lambda.

(** A scope; [parent] is the index of the parent scope in the table's
    [scopes_], [None] for the global scope. *)
Record Scope : Type := mkScope {
  scope_kind : ScopeKind;
  symbols : gmap string Symbol;
  parent : option nat
}.

(** [scopes_] keeps every scope ever entered, in creation order;
    [current_] is the index of the current one. *)
Record SymbolTable : Type := mkTable {
  scopes_ : list Scope;
  current_ : nat
}.

(** The constructor creates the global scope. *)
Definition new : SymbolTable := mkTable [mkScope Global ∅ None] 0.

Definition enter_scope (k : ScopeKind) (t : SymbolTable) : SymbolTable :=
  mkTable (scopes_ t ++ [mkScope k ∅ (Some (current_ t))]) (length (scopes_ t)).

Definition current_scope (t : SymbolTable) : option Scope := scopes_ t !! current_ t.

Definition exit_scope (t : SymbolTable) : SymbolTable :=
  match current_scope t with
  | Some s =>
      match parent s with
      | Some p => mkTable (scopes_ t) p
      | None => t
      end
  | None => t
  end.

(** [Scope::declare]: [None] is the [false] of a redeclaration. *)
Definition scope_declare (name : string) (k : SymbolKind) (ty : SemanticType)
    (loc : Tok.SourceLocation) (s : Scope) : option Scope :=
  match symbols s !! name with
  | Some _ => None
  | None =>
      Some (mkScope (scope_kind s)
              (<[name := mkSymbol name k ty loc false]> (symbols s)) (parent s))
  end.

(** [SymbolTable::declare]: whether it succeeded, and the table after. *)
Definition declare (name : string) (k : SymbolKind) (ty : SemanticType)
    (loc : Tok.SourceLocation) (t : SymbolTable) : bool * SymbolTable :=
  match current_scope t with
  | Some s =>
      match scope_declare name k ty loc s with
      | Some s' => (true, mkTable (<[current_ t := s']> (scopes_ t)) (current_ t))
      | None => (false, t)
      end
  | None => (false, t)
  end.

(** [SymbolTable::lookup]: the walk up the parent chain, which is at most
    as long as [scopes_]. *)
Fixpoint lookup_from (fuel : nat) (scopes : list Scope) (i : nat) (name : string)
    : option Symbol :=
  match fuel with
  | O => None
  | S fuel' =>
      match scopes !! i with
      | None => None
      | Some s =>
          match symbols s !! name with
          | Some sym => Some sym
          | None =>
              match parent s with
              | Some p => lookup_from fuel' scopes p name
              | None => None
              end
          end
      end
  end.

Definition lookup (name : string) (t : SymbolTable) : option Symbol :=
  lookup_from (length (scopes_ t)) (scopes_ t) (current_ t) name.

Definition exists_ (name : string) (t : SymbolTable) : bool :=
  bool_decide (is_Some (lookup name t)).

End Symbols.

(* ===================================================================== *)
(** ** The type checker (semantic/type_checker.hpp, type_checker.cpp) *)
(* ===================================================================== *)

Module TypeChecker.
Import Types Symbols.

Record TypeError : Type := mkTypeError {
  error_location : Tok.SourceLocation;
  error_message : string
}.

(** The checker's fields. [errors] is [result_.errors] in the order added
    ([result_.success] is its emptiness). [current_type_], the slot every
    visitor fills for [check_expression] to take, is the value the
    visitors return here. *)
Record State : Type := mkChecker {
  symbol_table_ : SymbolTable;
  errors : list TypeError;
  current_function_return_type_ : option SemanticType
}.

Definition new : State := mkChecker Symbols.new [] None.

Definition with_table (tc : State) (t : SymbolTable) : State :=
  mkChecker t (errors tc) (current_function_return_type_ tc).
Definition with_return_type (tc : State) (r : option SemanticType) : State :=
  mkChecker (symbol_table_ tc) (errors tc) r.

(** [TypeChecker::error] *)
Definition error (loc : Tok.SourceLocation) (message : string) (tc : State) : State :=
  mkChecker (symbol_table_ tc) (errors tc ++ [mkTypeError loc message])
            (current_function_return_type_ tc).

(** [TypeChecker::type_mismatch_error] *)
Definition type_mismatch_error (loc : Tok.SourceLocation)
    (expected actual : SemanticType) (tc : State) : State :=
  error loc ("Type mismatch: expected '" +:+ to_string expected +:+ "', got '"
             +:+ to_string actual +:+ "'") tc.

Definition enter_scope (k : ScopeKind) (tc : State) : State :=
  with_table tc (Symbols.enter_scope k (symbol_table_ tc)).
Definition exit_scope (tc : State) : State :=
  with_table tc (Symbols.exit_scope (symbol_table_ tc)).
Definition declare (name : string) (k : SymbolKind) (ty : SemanticType)
    (loc : Tok.SourceLocation) (tc : State) : bool * State :=
  let (ok, t) := Symbols.declare name k ty loc (symbol_table_ tc) in
  (ok, with_table tc t).

(** [TypeChecker::ast_type_to_semantic] *)
Fixpoint ast_type_to_semantic (ast_type : Ast.Type_) : SemanticType :=
  match ast_type with
  | Ast.NamedType name _ => default UnknownType (get_builtin name)
  | Ast.ListType element_type _ => ListType (ast_type_to_semantic element_type)
  | Ast.TupleType element_types _ => TupleType (map ast_type_to_semantic element_types)
  end.

Definition is_numeric (t : SemanticType) : bool :=
  match t with
  | PrimitiveType KInt | PrimitiveType KFloat => true
  | _ => false
  end.

Definition is_float_type (t : SemanticType) : bool :=
  match t with PrimitiveType KFloat => true | _ => false end.

Definition is_string_type (t : SemanticType) : bool :=
  match t with PrimitiveType KString => true | _ => false end.

Definition is_arithmetic (op : Ast.BinaryOp) : bool :=
  match op with
  | Ast.Add | Ast.Sub | Ast.Mul | Ast.Div | Ast.Mod | Ast.Pow => true
  | _ => false
  end.
Definition is_ordering (op : Ast.BinaryOp) : bool :=
  match op with
  | Ast.Lt | Ast.Gt | Ast.Le | Ast.Ge => true
  | _ => false
  end.
Definition is_equality (op : Ast.BinaryOp) : bool :=
  match op with
  | Ast.Eq | Ast.Ne => true
  | _ => false
  end.

(** The part of [check_binary_arithmetic] after both operands are checked. *)
Definition arithmetic_result (left_loc right_loc : Tok.SourceLocation)
    (left_type right_type : SemanticType) (tc : State) : SemanticType * State :=
  if negb (is_numeric left_type) then
    (UnknownType,
     error left_loc ("Arithmetic operator requires numeric type, got '"
                     +:+ to_string left_type +:+ "'") tc)
  else if negb (is_numeric right_type) then
    (UnknownType,
     error right_loc ("Arithmetic operator requires numeric type, got '"
                      +:+ to_string right_type +:+ "'") tc)
  else if is_float_type left_type || is_float_type right_type then
    (PrimitiveType KFloat, tc)
  else (PrimitiveType KInt, tc).

(** The part of [check_binary_comparison] after both operands are checked. *)
Definition comparison_result (op : Ast.BinaryOp) (loc right_loc : Tok.SourceLocation)
    (left_type right_type : SemanticType) (tc : State) : SemanticType * State :=
  if is_ordering op && (negb (is_numeric left_type) || negb (is_numeric right_type)) then
    (PrimitiveType KBool, error loc "Ordering comparison requires numeric types" tc)
  else
    let tc := if is_equality op && negb (equals left_type right_type)
              then type_mismatch_error right_loc left_type right_type tc else tc in
    (PrimitiveType KBool, tc).

(** The part of [check_binary_logical] after both operands are checked. *)
Definition logical_result (left_loc right_loc : Tok.SourceLocation)
    (left_type right_type : SemanticType) (tc : State) : SemanticType * State :=
  let bool_type := PrimitiveType KBool in
  let tc := if negb (equals left_type bool_type)
            then type_mismatch_error left_loc bool_type left_type tc else tc in
  let tc := if negb (equals right_type bool_type)
            then type_mismatch_error right_loc bool_type right_type tc else tc in
  (PrimitiveType KBool, tc).

(** "Method '<m>' expects <n> arguments, got <k>" *)
Definition arity_message (what name : string) (n : string) (got : nat) : string :=
  what +:+ " '" +:+ name +:+ "' expects " +:+ n +:+ ", got " +:+ Str.of_nat got.

(** A method that takes no argument and has result type [ty]: an arity
    error does not change the result type. *)
Definition nullary (loc : Tok.SourceLocation) (name : string) (nargs : nat)
    (ty : SemanticType) (tc : State) : SemanticType * State :=
  (ty, if (nargs =? 0)%nat then tc
       else error loc (arity_message "Method" name "0 arguments" nargs) tc).

(** [TypeChecker::check_pattern] *)
Fixpoint check_pattern (pattern : Ast.Pattern) (expected_type : SemanticType)
    (tc : State) {struct pattern} : State :=
  let fix each (ps : list Ast.Pattern) (ts : list SemanticType) (tc : State) : State :=
    match ps, ts with
    | p :: ps', t :: ts' => each ps' ts' (check_pattern p t tc)
    | _, _ => tc
    end in
  match pattern with
  | Ast.IdentifierPattern name loc =>
      let (ok, tc) := declare name Variable_ (clone expected_type) loc tc in
      if ok then tc
      else error loc ("Variable '" +:+ name +:+ "' is already declared in this scope") tc
  | Ast.TuplePattern elements loc =>
      match expected_type with
      | TupleType element_types =>
          if negb (length elements =? length element_types)%nat then
            error loc ("Tuple pattern has " +:+ Str.of_nat (length elements)
                       +:+ " elements but type has "
                       +:+ Str.of_nat (length element_types) +:+ " elements") tc
          else each elements element_types tc
      | _ =>
          error loc ("Cannot destructure non-tuple type '" +:+ to_string expected_type
                     +:+ "' with tuple pattern") tc
      end
  end.

(** [check_expression] with the expression visitors, and [check_statement]
    with the statement visitors. *)
Fixpoint check_expression (expr : Ast.Expr) (tc : State) {struct expr}
    : SemanticType * State :=
  (* check every element, collecting the types *)
  let fix check_all (es : list Ast.Expr) (tc : State) : list SemanticType * State :=
    match es with
    | [] => ([], tc)
    | e :: es' =>
        let (t, tc) := check_expression e tc in
        let (ts, tc) := check_all es' tc in
        (t :: ts, tc)
    end in
  (* the remaining elements of a list literal against the first one's type *)
  let fix check_rest (first_type : SemanticType) (es : list Ast.Expr) (tc : State)
      : State :=
    match es with
    | [] => tc
    | e :: es' =>
        let (t, tc) := check_expression e tc in
        let tc := if negb (equals t first_type)
                  then type_mismatch_error (Ast.expr_location e) first_type t tc
                  else tc in
        check_rest first_type es' tc
    end in
  (* arguments against parameter types, position by position *)
  let fix check_args (es : list Ast.Expr) (ps : list SemanticType) (tc : State)
      : State :=
    match es, ps with
    | e :: es', p :: ps' =>
        let (t, tc) := check_expression e tc in
        let tc := if negb (equals t p)
                  then type_mismatch_error (Ast.expr_location e) p t tc else tc in
        check_args es' ps' tc
    | _, _ => tc
    end in
  (* arguments that must be String *)
  let fix check_strings (es : list Ast.Expr) (tc : State) : State :=
    match es with
    | [] => tc
    | e :: es' =>
        let (t, tc) := check_expression e tc in
        let tc := if negb (is_string_type t)
                  then type_mismatch_error (Ast.expr_location e)
                         (PrimitiveType KString) t tc
                  else tc in
        check_strings es' tc
    end in
  let fix check_statements (ss : list Ast.Stmt) (tc : State) : State :=
    match ss with
    | [] => tc
    | s :: ss' => check_statements ss' (check_statement s tc)
    end in
  (* the type of a block: its last statement, checked once more, when that
     is an expression statement *)
  let fix block_type (ss : list Ast.Stmt) (tc : State) : SemanticType * State :=
    match ss with
    | [] => (UnknownType, tc)
    | last_stmt :: [] =>
        match last_stmt with
        | Ast.ExprStmt expression _ => check_expression expression tc
        | _ => (UnknownType, tc)
        end
    | _ :: ss' => block_type ss' tc
    end in
  match expr with
  | Ast.IntLiteralExpr _ _ => (PrimitiveType KInt, tc)
  | Ast.FloatLiteralExpr _ _ => (PrimitiveType KFloat, tc)
  | Ast.StringLiteralExpr _ _ => (PrimitiveType KString, tc)
  | Ast.BoolLiteralExpr _ _ => (PrimitiveType KBool, tc)

  | Ast.IdentifierExpr name loc =>
      match lookup name (symbol_table_ tc) with
      | None => (UnknownType, error loc ("Undefined variable '" +:+ name +:+ "'") tc)
      | Some symbol => (clone (sym_type symbol), tc)
      end

  | Ast.TupleExpr elements _ =>
      let (elem_types, tc) := check_all elements tc in
      (TupleType elem_types, tc)

  | Ast.ListExpr elements _ =>
      match elements with
      | [] => (ListType UnknownType, tc)
      | first :: rest =>
          let (first_type, tc) := check_expression first tc in
          let tc := check_rest first_type rest tc in
          (ListType first_type, tc)
      end

  | Ast.BinaryExpr op lhs rhs loc =>
      let (left_type, tc) := check_expression lhs tc in
      let (right_type, tc) := check_expression rhs tc in
      if is_arithmetic op then
        arithmetic_result (Ast.expr_location lhs) (Ast.expr_location rhs)
                          left_type right_type tc
      else if is_ordering op || is_equality op then
        comparison_result op loc (Ast.expr_location rhs) left_type right_type tc
      else
        logical_result (Ast.expr_location lhs) (Ast.expr_location rhs)
                       left_type right_type tc

  | Ast.UnaryExpr op operand _ =>
      let (operand_type, tc) := check_expression operand tc in
      match op with
      | Ast.Pos | Ast.Neg =>
          if negb (is_numeric operand_type) then
            (UnknownType,
             error (Ast.expr_location operand)
               ("Unary arithmetic operator requires numeric type, got '"
                +:+ to_string operand_type +:+ "'") tc)
          else (operand_type, tc)
      | Ast.Not =>
          let bool_type := PrimitiveType KBool in
          (bool_type,
           if negb (equals operand_type bool_type)
           then type_mismatch_error (Ast.expr_location operand) bool_type operand_type tc
           else tc)
      end

  | Ast.CallExpr callee arguments loc =>
      match callee with
      | Ast.IdentifierExpr func_name _ =>
          let nargs := length arguments in
          if String.eqb func_name "print" || String.eqb func_name "println" then
            match arguments with
            | [a] => let (_, tc) := check_expression a tc in (PrimitiveType KInt, tc)
            | _ => (UnknownType,
                    error loc (arity_message "Function" func_name "1 argument" nargs) tc)
            end
          else if String.eqb func_name "to_string" then
            match arguments with
            | [a] => let (_, tc) := check_expression a tc in (PrimitiveType KString, tc)
            | _ => (UnknownType,
                    error loc (arity_message "Function" "to_string" "1 argument" nargs) tc)
            end
          else if String.eqb func_name "read_file" then
            match arguments with
            | [_] => (PrimitiveType KString, check_strings arguments tc)
            | _ => (UnknownType,
                    error loc (arity_message "Function" "read_file" "1 argument" nargs) tc)
            end
          else if String.eqb func_name "write_file"
                  || String.eqb func_name "append_file" then
            match arguments with
            | [_; _] => (PrimitiveType KBool, check_strings arguments tc)
            | _ => (UnknownType,
                    error loc (arity_message "Function" func_name "2 arguments" nargs) tc)
            end
          else if String.eqb func_name "file_exists" then
            match arguments with
            | [_] => (PrimitiveType KBool, check_strings arguments tc)
            | _ => (UnknownType,
                    error loc (arity_message "Function" "file_exists" "1 argument" nargs) tc)
            end
          else
            match lookup func_name (symbol_table_ tc) with
            | None =>
                (UnknownType,
                 error loc ("Undefined function '" +:+ func_name +:+ "'") tc)
            | Some func_symbol =>
                match sym_type func_symbol with
                | FunctionType param_types return_type =>
                    if negb (nargs =? length param_types)%nat then
                      (UnknownType,
                       error loc
                         (arity_message "Function" func_name
                            (Str.of_nat (length param_types) +:+ " arguments") nargs) tc)
                    else (clone return_type, check_args arguments param_types tc)
                | _ =>
                    (UnknownType,
                     error loc ("'" +:+ func_name +:+ "' is not a function") tc)
                end
            end
      | _ => (UnknownType, error loc "Only function names can be called for now" tc)
      end

  | Ast.MethodCallExpr object method_name arguments loc =>
      let (object_type, tc) := check_expression object tc in
      let nargs := length arguments in
      let is_ (m : string) := String.eqb method_name m in
      let no_method (what : string) :=
        (UnknownType,
         error loc (what +:+ " type has no method '" +:+ method_name +:+ "'") tc) in
      let no_methods :=
        (UnknownType,
         error loc ("Type '" +:+ to_string object_type +:+ "' has no methods") tc) in
      match object_type with
      | ListType element_type =>
          if is_ "append" then
            match arguments with
            | [a] =>
                let (arg_type, tc) := check_expression a tc in
                let tc := if negb (equals arg_type element_type)
                          then type_mismatch_error (Ast.expr_location a)
                                 element_type arg_type tc
                          else tc in
                (ListType (clone element_type), tc)
            | _ => (UnknownType,
                    error loc (arity_message "Method" "append" "1 argument" nargs) tc)
            end
          else if is_ "length" then nullary loc "length" nargs (PrimitiveType KInt) tc
          else if is_ "head" then nullary loc "head" nargs (clone element_type) tc
          else if is_ "tail" then
            nullary loc "tail" nargs (ListType (clone element_type)) tc
          else if is_ "is_empty" then nullary loc "is_empty" nargs (PrimitiveType KBool) tc
          else if is_ "reverse" then
            nullary loc "reverse" nargs (ListType (clone element_type)) tc
          else if is_ "concat" then
            match arguments with
            | [a] =>
                let (arg_type, tc) := check_expression a tc in
                let tc :=
                  match arg_type with
                  | ListType arg_element =>
                      if negb (equals arg_element element_type)
                      then type_mismatch_error (Ast.expr_location a)
                             object_type arg_type tc
                      else tc
                  | _ =>
                      error (Ast.expr_location a)
                        ("Method 'concat' expects List argument, got "
                         +:+ to_string arg_type) tc
                  end in
                (ListType (clone element_type), tc)
            | _ => (UnknownType,
                    error loc (arity_message "Method" "concat" "1 argument" nargs) tc)
            end
          else no_method "List"
      | PrimitiveType KString =>
          if is_ "length" then nullary loc "length" nargs (PrimitiveType KInt) tc
          else if is_ "is_empty" then nullary loc "is_empty" nargs (PrimitiveType KBool) tc
          else if is_ "contains" || is_ "starts_with" || is_ "ends_with" then
            match arguments with
            | [_] => (PrimitiveType KBool, check_strings arguments tc)
            | _ => (PrimitiveType KBool,
                    error loc (arity_message "Method" method_name "1 argument" nargs) tc)
            end
          else if is_ "to_upper" || is_ "to_lower" || is_ "trim" then
            nullary loc method_name nargs (PrimitiveType KString) tc
          else no_method "String"
      | PrimitiveType KInt =>
          if is_ "to_string" then nullary loc "to_string" nargs (PrimitiveType KString) tc
          else if is_ "abs" then nullary loc "abs" nargs (PrimitiveType KInt) tc
          else no_method "Int"
      | PrimitiveType KFloat =>
          if is_ "to_string" then nullary loc "to_string" nargs (PrimitiveType KString) tc
          else if is_ "abs" then nullary loc "abs" nargs (PrimitiveType KFloat) tc
          else if is_ "floor" || is_ "ceil" || is_ "round" then
            nullary loc method_name nargs (PrimitiveType KInt) tc
          else no_method "Float"
      | PrimitiveType KBool => no_methods
      | TupleType _ =>
          if is_ "length" then nullary loc "length" nargs (PrimitiveType KInt) tc
          else no_method "Tuple"
      | _ => no_methods
      end

  | Ast.IndexExpr object index loc =>
      let (object_type, tc) := check_expression object tc in
      let (index_type, tc) := check_expression index tc in
      let int_type := PrimitiveType KInt in
      let tc := if negb (equals index_type int_type)
                then type_mismatch_error (Ast.expr_location index) int_type index_type tc
                else tc in
      match object_type with
      | ListType element_type => (clone element_type, tc)
      | TupleType element_types =>
          match index with
          | Ast.IntLiteralExpr i _ =>
              match Bytecode.at_ element_types i with
              | Some t => (clone t, tc)
              | None =>
                  (UnknownType,
                   error (Ast.expr_location index)
                     ("Tuple index " +:+ Str.of_Z i +:+ " out of bounds (tuple has "
                      +:+ Str.of_nat (length element_types) +:+ " elements)") tc)
              end
          | _ =>
              (UnknownType,
               error loc "Tuple indexing requires a constant integer literal index" tc)
          end
      | _ =>
          (UnknownType,
           error (Ast.expr_location object)
             ("Cannot index into type '" +:+ to_string object_type +:+ "'") tc)
      end

  | Ast.LambdaExpr parameters body loc =>
      let tc := enter_scope Lambda tc in
      let tc := fold_left
                  (fun tc param => snd (declare param Parameter_k UnknownType loc tc))
                  parameters tc in
      let (body_type, tc) := check_expression body tc in
      let tc := exit_scope tc in
      (FunctionType (map (fun _ => UnknownType) parameters) body_type, tc)

  | Ast.IfExpr condition then_branch else_branch _ =>
      let (cond_type, tc) := check_expression condition tc in
      let bool_type := PrimitiveType KBool in
      let tc := if negb (equals cond_type bool_type)
                then type_mismatch_error (Ast.expr_location condition)
                       bool_type cond_type tc
                else tc in
      let (then_type, tc) := check_expression then_branch tc in
      match else_branch with
      | Some else_expr =>
          let (else_type, tc) := check_expression else_expr tc in
          if negb (equals then_type else_type) then
            (UnknownType,
             error (Ast.expr_location else_expr)
               ("If expression branches have incompatible types: '"
                +:+ to_string then_type +:+ "' and '" +:+ to_string else_type +:+ "'") tc)
          else (then_type, tc)
      | None => (then_type, tc)
      end

  | Ast.BlockExpr statements _ =>
      let tc := enter_scope Block tc in
      let tc := check_statements statements tc in
      let (t, tc) := block_type statements tc in
      (t, exit_scope tc)
  end

with check_statement (stmt : Ast.Stmt) (tc : State) {struct stmt} : State :=
  match stmt with
  | Ast.LetStmt pattern type_annotation initializer _ =>
      let (init_type, tc) := check_expression initializer tc in
      let (init_type, tc) :=
        match type_annotation with
        | Some annotation =>
            let declared_type := ast_type_to_semantic annotation in
            if negb (equals init_type declared_type) then
              (declared_type,
               type_mismatch_error (Ast.expr_location initializer)
                 declared_type init_type tc)
            else (init_type, tc)
        | None => (init_type, tc)
        end in
      check_pattern pattern init_type tc
  | Ast.ReturnStmt value loc =>
      match current_function_return_type_ tc with
      | None => error loc "Return statement outside of function" tc
      | Some expected =>
          let (return_type, tc) := check_expression value tc in
          if negb (equals return_type expected)
          then type_mismatch_error (Ast.expr_location value) expected return_type tc
          else tc
      end
  | Ast.ExprStmt expression _ => snd (check_expression expression tc)
  end.

(** [TypeChecker::check_function] *)
Definition check_function (func : Ast.FunctionDef) (tc : State) : State :=
  let tc := enter_scope FunctionScope tc in
  let tc := with_return_type tc (Some (ast_type_to_semantic (Ast.fd_return_type func))) in
  let tc :=
    fold_left
      (fun tc param =>
         let (ok, tc) := declare (Ast.param_name param) Parameter_k
                           (ast_type_to_semantic (Ast.param_type param))
                           (Ast.param_location param) tc in
         if ok then tc
         else error (Ast.param_location param)
                ("Parameter '" +:+ Ast.param_name param +:+ "' is already declared") tc)
      (Ast.fd_parameters func) tc in
  let (_, tc) := check_expression (Ast.fd_body func) tc in
  with_return_type (exit_scope tc) None.

(** The first pass of [check_program]: one function's signature. *)
Definition declare_function (tc : State) (func : Ast.FunctionDef) : State :=
  let param_types :=
    map (fun p => ast_type_to_semantic (Ast.param_type p)) (Ast.fd_parameters func) in
  let return_type := ast_type_to_semantic (Ast.fd_return_type func) in
  let (ok, tc) := declare (Ast.fd_name func) Function_
                    (FunctionType param_types (clone return_type))
                    (Ast.fd_location func) tc in
  if ok then tc
  else error (Ast.fd_location func)
         ("Function '" +:+ Ast.fd_name func +:+ "' is already declared") tc.

Record TypeCheckResult : Type := mkTypeCheckResult {
  result_errors : list TypeError;
  success : bool
}.

(** [TypeChecker::check_program], on a freshly constructed checker. *)
Definition check_program (program : Ast.Program) : TypeCheckResult :=
  let tc := fold_left declare_function (Ast.prog_functions program) new in
  let tc := fold_left (fun tc f => check_function f tc) (Ast.prog_functions program) tc in
  mkTypeCheckResult (errors tc) (match errors tc with [] => true | _ => false end).

End TypeChecker.

(* ===================================================================== *)
(** ** The bytecode compiler (backend/compiler.hpp, backend/compiler.cpp) *)
(* ===================================================================== *)

Module Compiler.
Import Val Bytecode Ast.

(** [Compiler::Scope] *)
Record Scope : Type := mkScope {
  locals : gmap string nat;   (* name -> index *)
  local_count : nat
}.

(** The compiler's fields. [scopes_] has the innermost scope ([back()])
    first. [current_function_] is only ever written, so it is left out. *)
Record State : Type := mkCompiler {
  bytecode_ : Bytecode.t;
  scopes_ : list Scope;
  function_indices_ : gmap string nat
}.

Definition initial : State := mkCompiler Bytecode.empty [] ∅.

Definition with_bytecode (st : State) (bc : Bytecode.t) : State :=
  mkCompiler bc (scopes_ st) (function_indices_ st).
Definition with_scopes (st : State) (s : list Scope) : State :=
  mkCompiler (bytecode_ st) s (function_indices_ st).

(* ----- scope management ---------------------------------------------- *)

Definition enter_scope (st : State) : State :=
  with_scopes st (mkScope ∅ 0%nat :: scopes_ st).

Definition exit_scope (st : State) : State :=
  match scopes_ st with
  | [] => st
  | _ :: rest => with_scopes st rest
  end.

(** [Compiler::declare_local]: the new local's index and the new state. *)
Definition declare_local (name : string) (st : State) : result (nat * State) :=
  match scopes_ st with
  | [] => Throw "Cannot declare local outside of scope"
  | scope :: rest =>
      let index := local_count scope in
      Ok (index,
          with_scopes st
            (mkScope (<[name := index]> (locals scope)) (S (local_count scope)) :: rest))
  end.

(** [Compiler::resolve_local]: innermost scope first; [None] is the [-1]. *)
Fixpoint resolve_in (scopes : list Scope) (name : string) : option nat :=
  match scopes with
  | [] => None
  | scope :: rest =>
      match locals scope !! name with
      | Some index => Some index
      | None => resolve_in rest name
      end
  end.
Definition resolve_local (name : string) (st : State) : option nat :=
  resolve_in (scopes_ st) name.

(** [Compiler::resolve_function] *)
Definition resolve_function (name : string) (st : State) : option nat :=
  function_indices_ st !! name.

(* ----- emission helpers ---------------------------------------------- *)

(** [static_cast<uint16_t>] and [static_cast<uint8_t>] of a size. *)
Definition u16 (n : nat) : Z := Z.of_nat n mod 65536.
Definition u8 (n : nat) : Z := Z.of_nat n mod 256.

Definition emit (op : OpCode) (st : State) : State :=
  with_bytecode st (Bytecode.emit (bytecode_ st) op).
Definition emit_u16 (op : OpCode) (operand : Z) (st : State) : State :=
  with_bytecode st (Bytecode.emit_u16 (bytecode_ st) op operand).
Definition emit_u16_u8 (op : OpCode) (operand1 operand2 : Z) (st : State) : State :=
  with_bytecode st (Bytecode.emit_u16_u8 (bytecode_ st) op operand1 operand2).

Definition add_constant (value : Value) (st : State) : result (Z * State) :=
  let* (idx, bc) := Bytecode.add_constant (bytecode_ st) value in
  Ok (idx, with_bytecode st bc).

(** [Compiler::emit_jump]: emits the jump with the placeholder operand
    [0xFFFF] and returns the offset of its opcode byte. *)
Definition emit_jump (op : OpCode) (st : State) : Z * State :=
  let st' := emit_u16 op 65535 st in
  (current_offset (bytecode_ st') - 3, st').

(** [Compiler::patch_jump] *)
Definition patch_jump (offset : Z) (st : State) : result State :=
  let jump := Num.int16_of_size_t
                (Num.to_size_t (current_offset (bytecode_ st) - (offset + 3))) in
  let* bc := Bytecode.patch_jump (bytecode_ st) offset jump in
  Ok (with_bytecode st bc).

(* ----- visitors ------------------------------------------------------ *)

Definition binary_opcode (op : BinaryOp) : OpCode :=
  match op with
  | Add => ADD | Sub => SUB | Mul => MUL | Div => DIV | Mod => MOD | Pow => POW
  | Eq => EQ | Ne => NE | Lt => LT | Gt => GT | Le => LE | Ge => GE
  | And => AND | Or => OR
  end.

Definition unary_opcode (op : UnaryOp) : OpCode :=
  match op with
  | Not => NOT | Neg => NEGATE | Pos => POSITIVE
  end.

(** The names [visit_call] tests for, in its order. *)
Definition builtin_of_name (name : string) : option BuiltinId :=
  if String.eqb name "print" then Some PRINT
  else if String.eqb name "println" then Some PRINTLN
  else if String.eqb name "to_string" then Some TO_STRING
  else if String.eqb name "read_file" then Some READ_FILE
  else if String.eqb name "write_file" then Some WRITE_FILE
  else if String.eqb name "append_file" then Some APPEND_FILE
  else if String.eqb name "file_exists" then Some FILE_EXISTS
  else None.

(** [Compiler::visit_identifier] *)
Definition visit_identifier (name : string) (st : State) : result State :=
  match resolve_local name st with
  | Some local_idx => Ok (emit_u16 LOAD_LOCAL (u16 local_idx) st)
  | None =>
      match resolve_function name st with
      | Some func_idx => Ok (emit_u16 LOAD_GLOBAL (u16 func_idx) st)
      | None => Throw ("Undefined identifier: " +:+ name)
      end
  end.

(** Three [instructions.pop_back()]. *)
Definition pop_back3 (st : State) : State :=
  let i := instructions (bytecode_ st) in
  with_bytecode st (with_instructions (bytecode_ st) (take (length i - 3) i)).

(** [Compiler::compile_pattern] *)
Fixpoint compile_pattern (pattern : Pattern) (is_declaration : bool) (st : State)
    {struct pattern} : result State :=
  let fix elements_from (i : nat) (ps : list Pattern) (st : State) : result State :=
    match ps with
    | [] => Ok st
    | p :: ps' =>
        let st := emit DUP st in
        let* (idx_const, st) := add_constant (VInt (Z.of_nat i)) st in
        let st := emit_u16 CONSTANT idx_const st in
        let st := emit INDEX st in
        let* st := compile_pattern p is_declaration st in
        elements_from (S i) ps' st
    end in
  match pattern with
  | IdentifierPattern name _ =>
      if is_declaration then
        let* (local_idx, st) := declare_local name st in
        Ok (emit_u16 STORE_LOCAL (u16 local_idx) st)
      else
        match resolve_local name st with
        | Some local_idx => Ok (emit_u16 STORE_LOCAL (u16 local_idx) st)
        | None => Throw ("Undefined variable: " +:+ name)
        end
  | TuplePattern elements _ =>
      let* st := elements_from 0%nat elements st in
      Ok (emit POP st)
  end.

(** The expression and statement visitors. *)
Fixpoint compile_expr (e : Expr) (st : State) {struct e} : result State :=
  let fix compile_all (es : list Expr) (st : State) : result State :=
    match es with
    | [] => Ok st
    | x :: es' => let* st := compile_expr x st in compile_all es' st
    end in
  (* [visit_block] on a non-empty block: every statement but the last is
     compiled as a statement, the last one without its POP when it is an
     expression statement. *)
  let fix compile_block (ss : list Stmt) (st : State) : result State :=
    match ss with
    | [] => Ok st
    | last_stmt :: [] =>
        match last_stmt with
        | ExprStmt expression _ => compile_expr expression st
        | _ => compile_stmt last_stmt st
        end
    | s :: ss' => let* st := compile_stmt s st in compile_block ss' st
    end in
  match e with
  | IntLiteralExpr value _ =>
      let* (const_idx, st) := add_constant (VInt value) st in
      Ok (emit_u16 CONSTANT const_idx st)
  | FloatLiteralExpr value _ =>
      let* (const_idx, st) := add_constant (VFloat value) st in
      Ok (emit_u16 CONSTANT const_idx st)
  | StringLiteralExpr value _ =>
      let* (const_idx, st) := add_constant (VString value) st in
      Ok (emit_u16 CONSTANT const_idx st)
  | BoolLiteralExpr value _ =>
      Ok (emit (if value then TRUE else FALSE) st)
  | IdentifierExpr name _ => visit_identifier name st
  | BinaryExpr op lhs rhs _ =>
      let* st := compile_expr lhs st in
      let* st := compile_expr rhs st in
      Ok (emit (binary_opcode op) st)
  | UnaryExpr op operand _ =>
      let* st := compile_expr operand st in
      Ok (emit (unary_opcode op) st)
  | TupleExpr elements _ =>
      let* st := compile_all elements st in
      Ok (emit_u16 BUILD_TUPLE (u16 (length elements)) st)
  | ListExpr elements _ =>
      let* st := compile_all elements st in
      Ok (emit_u16 BUILD_LIST (u16 (length elements)) st)
  | IndexExpr object index _ =>
      let* st := compile_expr object st in
      let* st := compile_expr index st in
      Ok (emit INDEX st)
  | CallExpr callee arguments _ =>
      let builtin :=
        match callee with
        | IdentifierExpr name _ => builtin_of_name name
        | _ => None
        end in
      match builtin with
      | Some id =>
          let* st := compile_all arguments st in
          Ok (emit_u16_u8 CALL_BUILTIN (builtin_id id) (u8 (length arguments)) st)
      | None =>
          let* st := compile_all arguments st in
          let* st := compile_expr callee st in
          let direct :=
            match callee with
            | IdentifierExpr name _ => resolve_function name st
            | _ => None
            end in
          match direct with
          | Some func_idx =>
              Ok (emit_u16_u8 CALL (u16 func_idx) (u8 (length arguments))
                    (pop_back3 st))
          | None => Throw "Only direct function calls supported in Day 2"
          end
      end
  | MethodCallExpr object method_name arguments _ =>
      let* st := compile_expr object st in
      let* st := compile_all arguments st in
      let* (name_idx, st) := add_constant (VString method_name) st in
      Ok (emit_u16_u8 CALL_METHOD name_idx (u8 (length arguments)) st)
  | IfExpr condition then_branch else_branch _ =>
      let* st := compile_expr condition st in
      let (else_jump, st) := emit_jump JUMP_IF_FALSE st in
      let st := emit POP st in
      let* st := compile_expr then_branch st in
      let (end_jump, st) := emit_jump JUMP st in
      let* st := patch_jump else_jump st in
      let st := emit POP st in
      let* st :=
        match else_branch with
        | Some e' => compile_expr e' st
        | None => Ok (emit FALSE st)
        end in
      patch_jump end_jump st
  | BlockExpr statements _ =>
      match statements with
      | [] => Ok (emit FALSE st)
      | _ => compile_block statements st
      end
  | LambdaExpr _ _ _ => Throw "Lambda expressions not yet implemented"
  end
with compile_stmt (s : Stmt) (st : State) {struct s} : result State :=
  match s with
  | LetStmt pattern _ initializer _ =>
      let* st := compile_expr initializer st in
      compile_pattern pattern true st
  | ReturnStmt value _ =>
      let* st := compile_expr value st in
      Ok (emit RETURN st)
  | ExprStmt expression _ =>
      let* st := compile_expr expression st in
      Ok (emit POP st)
  end.

(* ----- the two passes ------------------------------------------------ *)

(** [Compiler::collect_functions] *)
Fixpoint collect_functions (fs : list FunctionDef) (st : State) : State :=
  match fs with
  | [] => st
  | function :: fs' =>
      let offset := current_offset (bytecode_ st) in
      let param_count := length (fd_parameters function) in
      let (func_idx, bc) :=
        add_function (bytecode_ st) (fd_name function) offset param_count param_count in
      collect_functions fs'
        (mkCompiler bc (scopes_ st)
           (<[fd_name function := func_idx]> (function_indices_ st)))
  end.

Definition set_offset (offset : Z) (f : FunctionInfo) : FunctionInfo :=
  mkFunctionInfo (fn_name f) offset (fn_param_count f) (fn_local_count f).
Definition set_local_count (n : nat) (f : FunctionInfo) : FunctionInfo :=
  mkFunctionInfo (fn_name f) (fn_offset f) (fn_param_count f) n.

(** [bytecode_.functions[func_idx].field = ...] *)
Definition update_function (func_idx : nat) (f : FunctionInfo -> FunctionInfo)
    (st : State) : State :=
  with_bytecode st
    (with_functions (bytecode_ st) (alter f func_idx (functions (bytecode_ st)))).

Fixpoint declare_parameters (ps : list Parameter_) (st : State) : result State :=
  match ps with
  | [] => Ok st
  | param :: ps' =>
      let* (_, st) := declare_local (param_name param) st in
      declare_parameters ps' st
  end.

(** [Compiler::compile_function] *)
Definition compile_function (function : FunctionDef) (st : State) : result State :=
  let func_idx := default 0%nat (function_indices_ st !! fd_name function) in
  let st := update_function func_idx (set_offset (current_offset (bytecode_ st))) st in
  let st := enter_scope st in
  let* st := declare_parameters (fd_parameters function) st in
  let* st := compile_expr (fd_body function) st in
  let st :=
    match last (instructions (bytecode_ st)) with
    | Some b => if b =? opcode_byte RETURN then st else emit RETURN st
    | None => emit RETURN st
    end in
  match scopes_ st with
  | [] => Undefined "back() of an empty scope stack"
  | scope :: _ =>
      Ok (exit_scope (update_function func_idx (set_local_count (local_count scope)) st))
  end.

Fixpoint compile_functions (fs : list FunctionDef) (st : State) : result State :=
  match fs with
  | [] => Ok st
  | function :: fs' =>
      let* st := compile_function function st in
      compile_functions fs' st
  end.

(** [Compiler::compile], on a freshly constructed compiler. *)
Definition compile (program : Program) : result Bytecode.t :=
  let st := collect_functions (prog_functions program) initial in
  let* st := compile_functions (prog_functions program) st in
  Ok (bytecode_ (emit HALT st)).

End Compiler.

(* ===================================================================== *)
(** ** The stack VM (backend/vm.hpp, backend/vm.cpp) *)
(* ===================================================================== *)

Module VM.
Import Val Bytecode.

Record CallFrame : Type := mkCallFrame {
  function_index : nat;
  instruction_pointer : Z;
  stack_base : nat;
  locals : list Value
}.

(** The [CallFrame] constructor: [locals(local_count, Value(int64_t{0}))]. *)
Definition new_frame (func_idx : nat) (ip : Z) (base : nat) (local_count : nat)
    : CallFrame :=
  mkCallFrame func_idx ip base (replicate local_count (VInt 0)).

(** The host file system seen by the file built-ins: the files that exist
    with their contents, and which paths can be opened for writing. *)
Record Host : Type := mkHost {
  files : gmap string string;
  can_open_for_write : string -> bool
}.

(** [stack_] has its top first, [call_stack_] the current frame first;
    [output_] is what has been written to the output stream. *)
Record State : Type := mkState {
  stack_ : list Value;
  call_stack_ : list CallFrame;
  output_ : string;
  host_ : Host
}.

Definition with_stack (st : State) (s : list Value) : State :=
  mkState s (call_stack_ st) (output_ st) (host_ st).
Definition with_call_stack (st : State) (cs : list CallFrame) : State :=
  mkState (stack_ st) cs (output_ st) (host_ st).
Definition with_output (st : State) (o : string) : State :=
  mkState (stack_ st) (call_stack_ st) o (host_ st).
Definition with_host (st : State) (h : Host) : State :=
  mkState (stack_ st) (call_stack_ st) (output_ st) h.

Definition with_ip (f : CallFrame) (ip : Z) : CallFrame :=
  mkCallFrame (function_index f) ip (stack_base f) (locals f).
Definition with_locals (f : CallFrame) (l : list Value) : CallFrame :=
  mkCallFrame (function_index f) (instruction_pointer f) (stack_base f) l.

(** Computations of the VM: they read and update the state and may throw. *)
Definition M (A : Type) : Type := State -> result (A * State).

Definition ret {A} (a : A) : M A := fun st => Ok (a, st).
Definition bind {A B} (m : M A) (k : A -> M B) : M B :=
  fun st => match m st with
            | Ok (a, st') => k a st'
            | Throw msg => Throw msg
            | Undefined w => Undefined w
            end.
Definition throw {A} (msg : string) : M A := fun _ => Throw msg.
Definition undefined {A} (what : string) : M A := fun _ => Undefined what.
Definition lift {A} (r : result A) : M A :=
  fun st => match r with
            | Ok a => Ok (a, st)
            | Throw msg => Throw msg
            | Undefined w => Undefined w
            end.
Definition get : M State := fun st => Ok (st, st).
Definition put (st : State) : M unit := fun _ => Ok (tt, st).

Declare Scope vm_scope.
Delimit Scope vm_scope with vm.
Notation "x <- m ;; k" := (bind m (fun x => k))
  (at level 100, m at next level, k at level 200, right associativity) : vm_scope.
Notation "m ;; k" := (bind m (fun _ => k))
  (at level 100, k at level 200, right associativity) : vm_scope.
Local Open Scope vm_scope.

(* ----- helper methods ------------------------------------------------ *)

(** [VM::current_frame]: [call_stack_.back()]. *)
Definition current_frame : M CallFrame :=
  st <- get ;;
  match call_stack_ st with
  | f :: _ => ret f
  | [] => undefined "back() of an empty call stack"
  end.

Definition set_current_frame (f : CallFrame) : M unit :=
  st <- get ;;
  match call_stack_ st with
  | _ :: rest => put (with_call_stack st (f :: rest))
  | [] => undefined "back() of an empty call stack"
  end.

(** [VM::ip], read and written through the returned reference. *)
Definition ip : M Z := f <- current_frame ;; ret (instruction_pointer f).
Definition set_ip (new_ip : Z) : M unit :=
  f <- current_frame ;; set_current_frame (with_ip f new_ip).

Definition push (val : Value) : M unit :=
  st <- get ;; put (with_stack st (val :: stack_ st)).

Definition pop : M Value :=
  st <- get ;;
  match stack_ st with
  | [] => throw "Stack underflow"
  | val :: rest => put (with_stack st rest) ;; ret val
  end.

Definition peek : M Value :=
  st <- get ;;
  match stack_ st with
  | [] => throw "Stack underflow"
  | val :: _ => ret val
  end.

Section Run.
(** The program being run ([bytecode_]) and the two library functions
    the VM calls that live outside the repository. *)
Variable bytecode_ : Bytecode.t.
Variable c_pow : float -> float -> float.
Variable fmt_double : float -> string.

(** [VM::read_byte]: [bytecode_->instructions[ip()++]]. *)
Definition read_byte : M Z :=
  i <- ip ;;
  set_ip (i + 1) ;;
  match at_ (instructions bytecode_) i with
  | Some b => ret b
  | None => undefined "instruction fetch out of range"
  end.

(** [VM::read_uint16], little-endian. *)
Definition read_uint16 : M Z :=
  low <- read_byte ;;
  high <- read_byte ;;
  ret (Z.lor low (Z.shiftl high 8)).

(* ----- arithmetic -------------------------------------------------- *)

Definition binary_add (a b : Value) : result Value :=
  match a, b with
  | VInt x, VInt y => Ok (VInt (Num.int64_wrap (x + y)))
  | VFloat x, VFloat y => Ok (VFloat (x + y)%float)
  | VInt x, VFloat y => Ok (VFloat (Num.double_of_int64 x + y)%float)
  | VFloat x, VInt y => Ok (VFloat (x + Num.double_of_int64 y)%float)
  | _, _ => Throw ("Cannot add " +:+ type_name a +:+ " and " +:+ type_name b)
  end.

Definition binary_sub (a b : Value) : result Value :=
  match a, b with
  | VInt x, VInt y => Ok (VInt (Num.int64_wrap (x - y)))
  | VFloat x, VFloat y => Ok (VFloat (x - y)%float)
  | VInt x, VFloat y => Ok (VFloat (Num.double_of_int64 x - y)%float)
  | VFloat x, VInt y => Ok (VFloat (x - Num.double_of_int64 y)%float)
  | _, _ => Throw ("Cannot subtract " +:+ type_name a +:+ " and " +:+ type_name b)
  end.

Definition binary_mul (a b : Value) : result Value :=
  match a, b with
  | VInt x, VInt y => Ok (VInt (Num.int64_wrap (x * y)))
  | VFloat x, VFloat y => Ok (VFloat (x * y)%float)
  | VInt x, VFloat y => Ok (VFloat (Num.double_of_int64 x * y)%float)
  | VFloat x, VInt y => Ok (VFloat (x * Num.double_of_int64 y)%float)
  | _, _ => Throw ("Cannot multiply " +:+ type_name a +:+ " and " +:+ type_name b)
  end.

(** C++ [/] on integers truncates toward zero: [Z.quot]. *)
Definition binary_div (a b : Value) : result Value :=
  match a, b with
  | VInt x, VInt y =>
      if y =? 0 then Throw "Division by zero"
      else if Num.quotient_overflows x y then Undefined "INT64_MIN / -1"
      else Ok (VInt (Num.int64_wrap (Z.quot x y)))
  | VFloat x, VFloat y =>
      if PrimFloat.eqb y PrimFloat.zero then Throw "Division by zero"
      else Ok (VFloat (x / y)%float)
  | VInt x, VFloat y =>
      if PrimFloat.eqb y PrimFloat.zero then Throw "Division by zero"
      else Ok (VFloat (Num.double_of_int64 x / y)%float)
  | VFloat x, VInt y =>
      if y =? 0 then Throw "Division by zero"
      else Ok (VFloat (x / Num.double_of_int64 y)%float)
  | _, _ => Throw ("Cannot divide " +:+ type_name a +:+ " and " +:+ type_name b)
  end.

(** C++ [%] has the sign of the dividend: [Z.rem]. *)
Definition binary_mod (a b : Value) : result Value :=
  match a, b with
  | VInt x, VInt y =>
      if y =? 0 then Throw "Modulo by zero"
      else if Num.quotient_overflows x y then Undefined "INT64_MIN % -1"
      else Ok (VInt (Num.int64_wrap (Z.rem x y)))
  | _, _ => Throw ("Modulo requires two integers, got " +:+ type_name a
                   +:+ " and " +:+ type_name b)
  end.

Definition binary_pow (a b : Value) : result Value :=
  match a, b with
  | VInt x, VInt y =>
      Ok (VInt (Num.int64_of_double Num.Trunc
                  (c_pow (Num.double_of_int64 x) (Num.double_of_int64 y))))
  | VFloat x, VFloat y => Ok (VFloat (c_pow x y))
  | VInt x, VFloat y => Ok (VFloat (c_pow (Num.double_of_int64 x) y))
  | VFloat x, VInt y => Ok (VFloat (c_pow x (Num.double_of_int64 y)))
  | _, _ => Throw ("Cannot raise " +:+ type_name a +:+ " to power of " +:+ type_name b)
  end.

(* ----- comparison, logic, unary ------------------------------------ *)

Definition binary_eq (a b : Value) : result Value := Ok (VBool (equal a b)).
Definition binary_ne (a b : Value) : result Value := Ok (VBool (negb (equal a b))).
Definition binary_lt (a b : Value) : result Value := let* r := less a b in Ok (VBool r).
Definition binary_gt (a b : Value) : result Value := let* r := greater a b in Ok (VBool r).
Definition binary_le (a b : Value) : result Value := let* r := less_equal a b in Ok (VBool r).
Definition binary_ge (a b : Value) : result Value := let* r := greater_equal a b in Ok (VBool r).

Definition binary_and (a b : Value) : result Value :=
  Ok (VBool (is_truthy a && is_truthy b)).
Definition binary_or (a b : Value) : result Value :=
  Ok (VBool (is_truthy a || is_truthy b)).
Definition unary_not (a : Value) : result Value := Ok (VBool (negb (is_truthy a))).

Definition unary_negate (a : Value) : result Value :=
  match a with
  | VInt x => Ok (VInt (Num.int64_wrap (- x)))
  | VFloat x => Ok (VFloat (- x)%float)
  | _ => Throw ("Cannot negate " +:+ type_name a)
  end.

Definition unary_positive (a : Value) : result Value :=
  match a with
  | VInt _ | VFloat _ => Ok a
  | _ => Throw ("Cannot apply unary + to " +:+ type_name a)
  end.

(* ----- built-in methods -------------------------------------------- *)

Definition args_empty (args : list Value) : bool :=
  match args with [] => true | _ => false end.

Definition no_args (args : list Value) (msg : string) (r : result Value)
    : result Value :=
  if args_empty args then r else Throw msg.

(** [VM::call_builtin_method] *)
Definition call_builtin_method (method : string) (object : Value)
    (args : list Value) : result Value :=
  match object with
  | VList l =>
      if String.eqb method "length" then
        no_args args "List.length() takes no arguments"
          (Ok (VInt (Z.of_nat (length l))))
      else if String.eqb method "append" then
        match args with
        | [x] => Ok (VList (l ++ [x]))
        | _ => Throw "List.append() takes exactly 1 argument"
        end
      else if String.eqb method "head" then
        no_args args "List.head() takes no arguments"
          (match l with
           | [] => Throw "List.head() on empty list"
           | x :: _ => Ok x
           end)
      else if String.eqb method "tail" then
        no_args args "List.tail() takes no arguments"
          (match l with
           | [] => Throw "List.tail() on empty list"
           | _ :: l' => Ok (VList l')
           end)
      else if String.eqb method "is_empty" then
        no_args args "List.is_empty() takes no arguments"
          (Ok (VBool (match l with [] => true | _ => false end)))
      else if String.eqb method "reverse" then
        no_args args "List.reverse() takes no arguments" (Ok (VList (rev l)))
      else if String.eqb method "concat" then
        match args with
        | [VList other] => Ok (VList (l ++ other))
        | _ => Throw "List.concat() takes 1 list argument"
        end
      else Throw ("Unknown method '" +:+ method +:+ "' on List")
  | VTuple l =>
      if String.eqb method "length" then
        no_args args "Tuple.length() takes no arguments"
          (Ok (VInt (Z.of_nat (length l))))
      else Throw ("Unknown method '" +:+ method +:+ "' on Tuple")
  | VString s =>
      if String.eqb method "length" then
        no_args args "String.length() takes no arguments"
          (Ok (VInt (Z.of_nat (String.length s))))
      else if String.eqb method "is_empty" then
        no_args args "String.is_empty() takes no arguments"
          (Ok (VBool (Str.is_empty s)))
      else if String.eqb method "contains" then
        match args with
        | [VString sub] => Ok (VBool (Str.contains sub s))
        | _ => Throw "String.contains() takes 1 string argument"
        end
      else if String.eqb method "starts_with" then
        match args with
        | [VString pre] => Ok (VBool (Str.starts_with pre s))
        | _ => Throw "String.starts_with() takes 1 string argument"
        end
      else if String.eqb method "ends_with" then
        match args with
        | [VString suf] => Ok (VBool (Str.ends_with suf s))
        | _ => Throw "String.ends_with() takes 1 string argument"
        end
      else if String.eqb method "to_upper" then
        no_args args "String.to_upper() takes no arguments"
          (Ok (VString (Str.map Str.toupper s)))
      else if String.eqb method "to_lower" then
        no_args args "String.to_lower() takes no arguments"
          (Ok (VString (Str.map Str.tolower s)))
      else if String.eqb method "trim" then
        no_args args "String.trim() takes no arguments"
          (Ok (VString (Str.trim s)))
      else Throw ("Unknown method '" +:+ method +:+ "' on String")
  | VInt i =>
      if String.eqb method "to_string" then
        no_args args "Int.to_string() takes no arguments"
          (Ok (VString (Str.of_Z i)))
      else if String.eqb method "abs" then
        no_args args "Int.abs() takes no arguments"
          (Ok (VInt (if i <? 0 then Num.int64_wrap (- i) else i)))
      else Throw ("Unknown method '" +:+ method +:+ "' on Int")
  | VFloat f =>
      if String.eqb method "to_string" then
        no_args args "Float.to_string() takes no arguments"
          (Ok (VString (fmt_double f)))
      else if String.eqb method "abs" then
        no_args args "Float.abs() takes no arguments"
          (Ok (VFloat (PrimFloat.abs f)))
      else if String.eqb method "floor" then
        no_args args "Float.floor() takes no arguments"
          (Ok (VInt (Num.int64_of_double Num.Floor f)))
      else if String.eqb method "ceil" then
        no_args args "Float.ceil() takes no arguments"
          (Ok (VInt (Num.int64_of_double Num.Ceil f)))
      else if String.eqb method "round" then
        no_args args "Float.round() takes no arguments"
          (Ok (VInt (Num.int64_of_double Num.RoundHalfAway f)))
      else Throw ("Unknown method '" +:+ method +:+ "' on Float")
  | _ => Throw ("Cannot call method '" +:+ method +:+ "' on " +:+ type_name object)
  end.

(* ----- built-in functions ------------------------------------------ *)

Definition write_out (s : string) : M unit :=
  st <- get ;; put (with_output st (output_ st +:+ s)).

(** What [print] and [println] send to the stream. *)
Definition printed (v : Value) : string :=
  match v with
  | VString s => s
  | _ => to_string fmt_double v
  end.

Definition newline : string := String (Str.chr 10) EmptyString.

Definition write_file (append : bool) (path content : string) : M bool :=
  st <- get ;;
  let h := host_ st in
  if can_open_for_write h path then
    let old := if append then default EmptyString (files h !! path) else EmptyString in
    put (with_host st (mkHost (<[path := old +:+ content]> (files h))
                              (can_open_for_write h))) ;;
    ret true
  else ret false.

(** The inner switch of the [CALL_BUILTIN] case. *)
Definition call_builtin (id : Z) (args : list Value) : M unit :=
  match builtin_of_id id with
  | Some PRINT =>
      match args with
      | [v] => write_out (printed v) ;; push (VInt 0)
      | _ => throw "print() expects 1 argument"
      end
  | Some PRINTLN =>
      match args with
      | [v] => write_out (printed v +:+ newline) ;; push (VInt 0)
      | _ => throw "println() expects 1 argument"
      end
  | Some TO_STRING =>
      match args with
      | [v] => push (VString (to_string fmt_double v))
      | _ => throw "to_string() expects 1 argument"
      end
  | Some READ_FILE =>
      match args with
      | [VString path] =>
          st <- get ;;
          push (VString (default EmptyString (files (host_ st) !! path)))
      | _ => throw "read_file() expects 1 string argument"
      end
  | Some WRITE_FILE =>
      match args with
      | [VString path; VString content] =>
          ok <- write_file false path content ;; push (VBool ok)
      | _ => throw "write_file() expects 2 string arguments"
      end
  | Some APPEND_FILE =>
      match args with
      | [VString path; VString content] =>
          ok <- write_file true path content ;; push (VBool ok)
      | _ => throw "append_file() expects 2 string arguments"
      end
  | Some FILE_EXISTS =>
      match args with
      | [VString path] =>
          st <- get ;;
          push (VBool (bool_decide (is_Some (files (host_ st) !! path))))
      | _ => throw "file_exists() expects 1 string argument"
      end
  | None => throw ("Unknown builtin ID: " +:+ Str.of_Z id)
  end.

(* ----- the fetch-decode-execute loop -------------------------------- *)

(** [for (i = 0; i < count; ++i) v.push_back(pop()); reverse(v)] *)
Fixpoint pop_n (count : nat) : M (list Value) :=
  match count with
  | O => ret []
  | S n => v <- pop ;; rest <- pop_n n ;; ret (v :: rest)
  end.
Definition pop_args (count : Z) : M (list Value) :=
  popped <- pop_n (Z.to_nat count) ;; ret (rev popped).

Definition binary (f : Value -> Value -> result Value) : M unit :=
  b <- pop ;; a <- pop ;; r <- lift (f a b) ;; push r.
Definition unary (f : Value -> result Value) : M unit :=
  a <- pop ;; r <- lift (f a) ;; push r.

(** [new_frame.locals[i] = args[i]] for each argument: an unchecked write. *)
Fixpoint store_args (ls : list Value) (i : nat) (args : list Value)
    : result (list Value) :=
  match args with
  | [] => Ok ls
  | a :: args' =>
      if (i <? length ls)%nat then store_args (<[i := a]> ls) (S i) args'
      else Undefined "locals[i] out of range"
  end.

(** [ip() = static_cast<size_t>(static_cast<int64_t>(ip()) + offset)] *)
Definition jump (offset : Z) : M unit :=
  i <- ip ;; set_ip (Num.to_size_t (i + offset)).

Inductive Signal : Type := Continue | Halt.

(** One iteration of the [while (true)] loop of [VM::run]. *)
Definition step : M Signal :=
  opcode_byte <- read_byte ;;
  match opcode_of_byte opcode_byte with
  | Some CONSTANT =>
      idx <- read_uint16 ;;
      match at_ (constants bytecode_) idx with
      | Some c => push c ;; ret Continue
      | None => undefined "constants[idx] out of range"
      end
  | Some TRUE => push (VBool true) ;; ret Continue
  | Some FALSE => push (VBool false) ;; ret Continue
  | Some ADD => binary binary_add ;; ret Continue
  | Some SUB => binary binary_sub ;; ret Continue
  | Some MUL => binary binary_mul ;; ret Continue
  | Some DIV => binary binary_div ;; ret Continue
  | Some MOD => binary binary_mod ;; ret Continue
  | Some POW => binary binary_pow ;; ret Continue
  | Some EQ => binary binary_eq ;; ret Continue
  | Some NE => binary binary_ne ;; ret Continue
  | Some LT => binary binary_lt ;; ret Continue
  | Some GT => binary binary_gt ;; ret Continue
  | Some LE => binary binary_le ;; ret Continue
  | Some GE => binary binary_ge ;; ret Continue
  | Some AND => binary binary_and ;; ret Continue
  | Some OR => binary binary_or ;; ret Continue
  | Some NOT => unary unary_not ;; ret Continue
  | Some NEGATE => unary unary_negate ;; ret Continue
  | Some POSITIVE => unary unary_positive ;; ret Continue
  | Some POP => pop ;; ret Continue
  | Some DUP => v <- peek ;; push v ;; ret Continue
  | Some LOAD_LOCAL =>
      idx <- read_uint16 ;;
      f <- current_frame ;;
      match at_ (locals f) idx with
      | Some v => push v ;; ret Continue
      | None => undefined "locals[idx] out of range"
      end
  | Some STORE_LOCAL =>
      idx <- read_uint16 ;;
      v <- peek ;;
      f <- current_frame ;;
      match at_ (locals f) idx with
      | Some _ =>
          set_current_frame (with_locals f (<[Z.to_nat idx := v]> (locals f))) ;;
          ret Continue
      | None => undefined "locals[idx] out of range"
      end
  | Some LOAD_GLOBAL =>
      func_idx <- read_uint16 ;;
      push (VInt func_idx) ;; ret Continue
  | Some CALL =>
      func_idx <- read_uint16 ;;
      arg_count <- read_byte ;;
      match at_ (functions bytecode_) func_idx with
      | None => throw ("Invalid function index: " +:+ Str.of_Z func_idx)
      | Some func_info =>
          if negb (arg_count =? Z.of_nat (fn_param_count func_info)) then
            throw ("Function '" +:+ fn_name func_info +:+ "' expects "
                   +:+ Str.of_nat (fn_param_count func_info)
                   +:+ " arguments, got " +:+ Str.of_Z arg_count)
          else
            args <- pop_args arg_count ;;
            return_address <- ip ;;
            st <- get ;;
            let frame := new_frame (Z.to_nat func_idx) (fn_offset func_info)
                           (length (stack_ st)) (fn_local_count func_info) in
            ls <- lift (store_args (locals frame) 0 args) ;;
            set_ip return_address ;;
            st' <- get ;;
            put (with_call_stack st' (with_locals frame ls :: call_stack_ st')) ;;
            ret Continue
      end
  | Some RETURN =>
      st <- get ;;
      match call_stack_ st with
      | [] => undefined "pop_back() of an empty call stack"
      | _ :: rest =>
          put (with_call_stack st rest) ;;
          match rest with
          | [] => ret Halt
          | _ => ret Continue
          end
      end
  | Some JUMP =>
      u <- read_uint16 ;;
      jump (Num.int16_of_uint16 u) ;; ret Continue
  | Some JUMP_IF_FALSE =>
      u <- read_uint16 ;;
      condition <- peek ;;
      (if negb (is_truthy condition) then jump (Num.int16_of_uint16 u) else ret tt) ;;
      ret Continue
  | Some JUMP_IF_TRUE =>
      u <- read_uint16 ;;
      condition <- peek ;;
      (if is_truthy condition then jump (Num.int16_of_uint16 u) else ret tt) ;;
      ret Continue
  | Some BUILD_LIST =>
      count <- read_uint16 ;;
      elements <- pop_args count ;;
      push (VList elements) ;; ret Continue
  | Some BUILD_TUPLE =>
      count <- read_uint16 ;;
      elements <- pop_args count ;;
      push (VTuple elements) ;; ret Continue
  | Some INDEX =>
      index <- pop ;;
      collection <- pop ;;
      match index with
      | VInt idx =>
          match collection with
          | VList l =>
              match at_ l idx with
              | Some v => push v ;; ret Continue
              | None => throw ("List index out of bounds: " +:+ Str.of_Z idx
                               +:+ " (size: " +:+ Str.of_nat (length l) +:+ ")")
              end
          | VTuple l =>
              match at_ l idx with
              | Some v => push v ;; ret Continue
              | None => throw ("Tuple index out of bounds: " +:+ Str.of_Z idx
                               +:+ " (size: " +:+ Str.of_nat (length l) +:+ ")")
              end
          | _ => throw ("Cannot index into " +:+ type_name collection)
          end
      | _ => throw ("Index must be Int, got " +:+ type_name index)
      end
  | Some CALL_METHOD =>
      name_idx <- read_uint16 ;;
      arg_count <- read_byte ;;
      match at_ (constants bytecode_) name_idx with
      | None => throw ("Invalid constant index for method name: " +:+ Str.of_Z name_idx)
      | Some (VString method_name) =>
          args <- pop_args arg_count ;;
          receiver <- pop ;;
          r <- lift (call_builtin_method method_name receiver args) ;;
          push r ;; ret Continue
      | Some _ => throw "Method name must be a string"
      end
  | Some CALL_BUILTIN =>
      builtin <- read_uint16 ;;
      arg_count <- read_byte ;;
      args <- pop_args arg_count ;;
      call_builtin builtin args ;; ret Continue
  | Some HALT => ret Halt
  | None => throw ("Unknown opcode: " +:+ Str.of_Z opcode_byte)
  end.

(** [VM::run]: iterate [step] until it halts. The loop need not end, so
    it is run for at most [fuel] iterations; [None] means the fuel ran
    out before the loop ended. *)
Fixpoint run (fuel : nat) (st : State) : option (result State) :=
  match fuel with
  | O => None
  | S fuel' =>
      match step st with
      | Ok (Continue, st') => run fuel' st'
      | Ok (Halt, st') => Some (Ok st')
      | Throw msg => Some (Throw msg)
      | Undefined w => Some (Undefined w)
      end
  end.

(** The state after exactly [n] iterations that all continue. *)
Fixpoint steps (n : nat) (st : State) : result State :=
  match n with
  | O => Ok st
  | S n' =>
      match step st with
      | Ok (Continue, st') => steps n' st'
      | Ok (Halt, _) => Throw "halted"
      | Throw msg => Throw msg
      | Undefined w => Undefined w
      end
  end.

(** [VM::call_function], on a VM whose output so far is [out] and whose
    host is [h]. It returns the value and the final state. *)
Definition call_function (fuel : nat) (out : string) (h : Host)
    (function_name : string) (args : list Value)
    : option (result (Value * State)) :=
  match find_function bytecode_ function_name with
  | None => Some (Throw ("Function '" +:+ function_name +:+ "' not found"))
  | Some func_idx =>
      match functions bytecode_ !! func_idx with
      | None => Some (Undefined "functions[func_idx] out of range")
      | Some func_info =>
          if negb (length args =? fn_param_count func_info)%nat then
            Some (Throw ("Function '" +:+ function_name +:+ "' expects "
                         +:+ Str.of_nat (fn_param_count func_info)
                         +:+ " arguments, got " +:+ Str.of_nat (length args)))
          else
            let frame := new_frame func_idx (fn_offset func_info) 0
                           (fn_local_count func_info) in
            match store_args (locals frame) 0 args with
            | Ok ls =>
                match run fuel (mkState [] [with_locals frame ls] out h) with
                | None => None
                | Some (Ok st) =>
                    match stack_ st with
                    | [] => Some (Throw "Function returned without a value")
                    | v :: rest => Some (Ok (v, with_stack st rest))
                    end
                | Some (Throw msg) => Some (Throw msg)
                | Some (Undefined w) => Some (Undefined w)
                end
            | Throw msg => Some (Throw msg)
            | Undefined w => Some (Undefined w)
            end
      end
  end.

End Run.

End VM.

(* ===================================================================== *)
(** ** The pipeline of the driver (main.cpp, interpreter mode) *)
(* ===================================================================== *)

Module Driver.
Import Val.

(** How a run of the pipeline ends. *)
Inductive Outcome : Type :=
| LexerError (token : Tok.Token)
| ParseErrors (errors : list Parser.ParseError)
| TypeErrors (errors : list TypeChecker.TypeError)
| NoMain
| Raised (what : string)                (* [std::exception] caught by [main] *)
| UndefinedBehaviour (what : string)
| Returned (result : Value) (output : string).

(** A recursion budget for the parser that no token stream exhausts in
    practice: every routine consumes a token or returns within a bounded
    number of calls. *)
Definition parser_fuel (tokens : list Tok.Token) : nat := (16 * length tokens + 64)%nat.

(** Lexing, parsing and type checking as [main] sequences them. *)
Definition front_end (source filename : string) : Outcome + Ast.Program :=
  let tokens := Lexer.tokenize source filename in
  match find (fun t => Tok.type_eqb (Tok.type t) Tok.Error) tokens with
  | Some token => inl (LexerError token)
  | None =>
      match Parser.parse (parser_fuel tokens) tokens with
      | None => inl (UndefinedBehaviour "parser budget exhausted")
      | Some parse_result =>
          match Parser.program parse_result, Parser.errors parse_result with
          | Some program, [] =>
              let type_result := TypeChecker.check_program program in
              if TypeChecker.success type_result then inr program
              else inl (TypeErrors (TypeChecker.result_errors type_result))
          | _, errors => inl (ParseErrors errors)
          end
      end
  end.

Section Run.
Variable c_pow : float -> float -> float.
Variable fmt_double : float -> string.

(** [main] in interpreter mode, stopping the VM after [fuel] steps
    ([None]). *)
Definition run (fuel : nat) (host : VM.Host) (source filename : string)
    : option Outcome :=
  match front_end source filename with
  | inl o => Some o
  | inr program =>
      match Compiler.compile program with
      | Throw msg => Some (Raised msg)
      | Undefined w => Some (UndefinedBehaviour w)
      | Ok bytecode =>
          match Bytecode.find_function bytecode "main" with
          | None => Some NoMain
          | Some _ =>
              match VM.call_function bytecode c_pow fmt_double fuel EmptyString host
                      "main" [] with
              | None => None
              | Some (Ok (v, st)) => Some (Returned v (VM.output_ st))
              | Some (Throw msg) => Some (Raised msg)
              | Some (Undefined w) => Some (UndefinedBehaviour w)
              end
          end
      end
  end.
End Run.

End Driver.

(* ===================================================================== *)
(** * Vocabulary of the statements *)
(* ===================================================================== *)

Section VMStepsTerms.
Import Val Bytecode VM.

(** A running state: the current frame apart from the rest. *)
Definition running (stack : list Value) (f : CallFrame) (frames : list CallFrame)
    (out : string) (h : Host) : State :=
  mkState stack (f :: frames) out h.

Definition frame_at (f : CallFrame) (ip : Z) : CallFrame := with_ip f ip.

(** The byte at offset [i] of the program [bc]. *)
Definition byte_at (bc : Bytecode.t) (i : Z) (b : Z) : Prop :=
  at_ (instructions bc) i = Some b.

(** The three jumps. [taken] says whether the guard holds for the value on
    top of the stack; the stack is only looked at. *)
Definition jump_taken (op : OpCode) (stack : list Value) : option bool :=
  match op, stack with
  | JUMP, _ => Some true
  | JUMP_IF_FALSE, v :: _ => Some (negb (is_truthy v))
  | JUMP_IF_TRUE, v :: _ => Some (is_truthy v)
  | _, _ => None
  end.

End VMStepsTerms.

Section ArithmeticTerms.
Import Val Bytecode VM.

Definition numeric (v : Value) : bool := is_int v || is_float v.

(** The divisors that compare equal to zero: [Int 0], and the floats for
    which [== 0.0] holds (both signed zeros). *)
Definition zero_valued (v : Value) : bool :=
  match v with
  | VInt i => i =? 0
  | VFloat f => PrimFloat.eqb f PrimFloat.zero
  | _ => false
  end.

(** The quotient C++ leaves undefined: [INT64_MIN / -1]. *)
Definition quotient_undefined (a b : Value) : bool :=
  match a, b with
  | VInt x, VInt y => Num.quotient_overflows x y
  | _, _ => false
  end.

(** A program made of the single instruction [DIV]. *)
Definition div_only : Bytecode.t := mkBytecode [opcode_byte DIV] [] [].

Definition idle_host : Host := mkHost ∅ (fun _ => true).

Definition no_pow (x y : float) : float := PrimFloat.zero.

Definition no_fmt (x : float) : string := EmptyString.

(** [JUMP_IF_FALSE +5] followed by [NOT]. *)
Definition jump_then_not : Bytecode.t :=
  mkBytecode [opcode_byte JUMP_IF_FALSE; 5; 0; opcode_byte NOT] [] [].

End ArithmeticTerms.

Section PromotionTerms.
Import Val Bytecode VM.

(** The VM operation each arithmetic operator is compiled to. *)
Definition vm_arithmetic (c_pow : float -> float -> float) (op : Ast.BinaryOp)
    : option (Value -> Value -> result Value) :=
  match op with
  | Ast.Add => Some binary_add
  | Ast.Sub => Some binary_sub
  | Ast.Mul => Some binary_mul
  | Ast.Div => Some binary_div
  | Ast.Mod => Some binary_mod
  | Ast.Pow => Some (binary_pow c_pow)
  | _ => None
  end.

(** An Int operand converted to double, a Float operand as it is. *)
Definition as_double (v : Value) : option float :=
  match v with
  | VInt i => Some (Num.double_of_int64 i)
  | VFloat f => Some f
  | _ => None
  end.

Definition float_operation (c_pow : float -> float -> float) (op : Ast.BinaryOp)
    (x y : float) : float :=
  match op with
  | Ast.Add => (x + y)%float
  | Ast.Sub => (x - y)%float
  | Ast.Mul => (x * y)%float
  | Ast.Div => (x / y)%float
  | _ => c_pow x y
  end.

Definition somewhere : Tok.SourceLocation := Tok.mkLoc "t" 1 1 0 1.

Definition float_mod_int : Ast.Expr :=
  Ast.BinaryExpr Ast.Mod (Ast.FloatLiteralExpr 5 somewhere)
                 (Ast.IntLiteralExpr 2 somewhere) somewhere.

Definition int_plus_float : Ast.Expr :=
  Ast.BinaryExpr Ast.Add (Ast.IntLiteralExpr 1 somewhere)
                 (Ast.FloatLiteralExpr 2 somewhere) somewhere.

End PromotionTerms.

Section LexicalErrorsTerms.
Import Tok.

(** A token that makes [tokenize] stop. *)
Definition stops (t : Token) : bool :=
  type_eqb (type t) Eof || type_eqb (type t) Error.

End LexicalErrorsTerms.

Section LexerBudgetTerms.
Import Tok Lexer.

(** The position of [st'] is that of [st] or later in the same source, and
    inside it. *)
Definition follows (st st' : State) : Prop :=
  source_ st' = source_ st /\ (current_ st <= current_ st')%nat /\
  (current_ st' <= String.length (source_ st'))%nat.

Definition within (st : State) : Prop :=
  (current_ st <= String.length (source_ st))%nat.

(** The state a run of [scan_string_loop] ends in. *)
Definition end_state (r : Token * State + string * State) : State :=
  match r with
  | inl (_, st) => st
  | inr (_, st) => st
  end.

End LexerBudgetTerms.

Section LetStatementsTerms.
Import Val Bytecode VM Ast.

(** The code of one statement compiled in a fresh function scope. *)
Definition statement_code (s : Stmt) : result (list Z) :=
  let* st := Compiler.compile_stmt s (Compiler.enter_scope Compiler.initial) in
  Ok (instructions (Compiler.bytecode_ st)).

Definition code_only (code : list Z) : Bytecode.t := mkBytecode code [] [].

Definition at_entry (local_count : nat) : State :=
  running [] (new_frame 0 0 0 local_count) [] EmptyString idle_host.

Definition here : Tok.SourceLocation := Tok.mkLoc "main.lucid" 1 1 0 1.

(** [let () = ()] *)
Definition let_unit : Stmt :=
  LetStmt (TuplePattern [] here) None (TupleExpr [] here) here.

(** [let x = 42] *)
Definition let_x : Stmt :=
  LetStmt (IdentifierPattern "x" here) None (IntLiteralExpr 42 here) here.

Definition unit_let_source : string :=
  "function main() returns Int { let () = () return 1 }".

Definition unit_let_code : list Z :=
  [opcode_byte BUILD_TUPLE; 0; 0; opcode_byte POP;
   opcode_byte CONSTANT; 0; 0; opcode_byte RETURN; opcode_byte HALT].

Definition let_x_code : list Z :=
  [opcode_byte CONSTANT; 0; 0; opcode_byte STORE_LOCAL; 0; 0].

Definition after_initializer : Compiler.State :=
  Compiler.mkCompiler (mkBytecode [opcode_byte CONSTANT; 0; 0] [VInt 42] [])
    [Compiler.mkScope ∅ 0%nat] ∅.

End LetStatementsTerms.

Section KeptValuesTerms.
Import Val Bytecode VM.

Variable c_pow : float -> float -> float.
Variable fmt_double : float -> string.
Variable host : Host.

(** The state in which [call_function] starts the function [idx]. *)
Definition entry_state (bc : Bytecode.t) (idx : nat) : result State :=
  match functions bc !! idx with
  | Some info =>
      Ok (running [] (new_frame idx (fn_offset info) 0 (fn_local_count info)) []
            EmptyString host)
  | None => Undefined "functions[func_idx] out of range"
  end.

(** The state after [n] instructions of the function [idx]. *)
Definition after_steps (bc : Bytecode.t) (idx : nat) (n : nat) : result State :=
  let* st := entry_state bc idx in steps bc c_pow fmt_double n st.

(** The stack, top first, after [n] instructions. *)
Definition stack_after (bc : Bytecode.t) (idx : nat) (n : nat) : result (list Value) :=
  let* st := after_steps bc idx n in Ok (stack_ st).

(** The instruction pointers of the frames, current frame first. *)
Definition frames_after (bc : Bytecode.t) (idx : nat) (n : nat) : result (list Z) :=
  let* st := after_steps bc idx n in Ok (map instruction_pointer (call_stack_ st)).

Definition tuple_let_source : string :=
  "function main() returns Int { let (x, y) = (10, 20) return x + y }".

Definition tuple_let_code : list Z :=
  [ opcode_byte CONSTANT; 0; 0;        (*  0: 10 *)
    opcode_byte CONSTANT; 1; 0;        (*  3: 20 *)
    opcode_byte BUILD_TUPLE; 2; 0;     (*  6 *)
    opcode_byte DUP;                   (*  9 *)
    opcode_byte CONSTANT; 2; 0;        (* 10: index 0 *)
    opcode_byte INDEX;                 (* 13 *)
    opcode_byte STORE_LOCAL; 0; 0;     (* 14: x *)
    opcode_byte DUP;                   (* 17 *)
    opcode_byte CONSTANT; 3; 0;        (* 18: index 1 *)
    opcode_byte INDEX;                 (* 21 *)
    opcode_byte STORE_LOCAL; 1; 0;     (* 22: y *)
    opcode_byte POP;                   (* 25 *)
    opcode_byte LOAD_LOCAL; 0; 0;      (* 26 *)
    opcode_byte LOAD_LOCAL; 1; 0;      (* 29 *)
    opcode_byte ADD;                   (* 32 *)
    opcode_byte RETURN;                (* 33 *)
    opcode_byte HALT ].                (* 34 *)

Definition pair_10_20 : Value := VTuple [VInt 10; VInt 20].

Definition call_source : string :=
  "function f() returns Int { let x = 1 return x } "
  +:+ "function main() returns Int { return 10 - f() }".

Definition call_code : list Z :=
  [ (* f *)
    opcode_byte CONSTANT; 0; 0;        (*  0: 1 *)
    opcode_byte STORE_LOCAL; 0; 0;     (*  3: x *)
    opcode_byte LOAD_LOCAL; 0; 0;      (*  6 *)
    opcode_byte RETURN;                (*  9 *)
    (* main *)
    opcode_byte CONSTANT; 1; 0;        (* 10: 10 *)
    opcode_byte CALL; 0; 0; 0;         (* 13: f, no argument *)
    opcode_byte SUB;                   (* 17 *)
    opcode_byte RETURN;                (* 18 *)
    opcode_byte HALT ].                (* 19 *)

End KeptValuesTerms.

Section JumpPatchingTerms.
Import Val Bytecode VM Ast.

(** The signed offset the VM decodes from the two operand bytes. *)
Definition decoded_offset (lo hi : Z) : Z :=
  Num.int16_of_uint16 (Z.lor lo (Z.shiftl hi 8)).

(** The [int16_t] that [Compiler::patch_jump] computes for a jump whose
    operand ends [distance] bytes before the current offset. *)
Definition patched_offset (distance : Z) : Z :=
  Num.int16_of_size_t (Num.to_size_t distance).

(** A compiler state in which a [JUMP_IF_FALSE] emitted right after a
    [FALSE] is followed by 32768 bytes of code. *)
Definition far_body : list Z := repeat (opcode_byte POP) (Z.to_nat 32768).

Definition far_state : Compiler.State :=
  Compiler.mkCompiler
    (mkBytecode ([opcode_byte FALSE] ++ [opcode_byte JUMP_IF_FALSE; 255; 255] ++ far_body)
       [] [])
    [Compiler.mkScope ∅ 0%nat] ∅.

(** [true] as a statement; a block of [n] of them and a final [1]. *)
Definition true_statement : Stmt := ExprStmt (BoolLiteralExpr true here) here.

Definition long_block (n : nat) : Expr :=
  BlockExpr (repeat true_statement n ++ [ExprStmt (IntLiteralExpr 1 here) here]) here.

(** [if false { true ... true 1 } else { 2 }] *)
Definition long_if_expr (n : nat) : Expr :=
  IfExpr (BoolLiteralExpr false here) (long_block n)
    (Some (BlockExpr [ExprStmt (IntLiteralExpr 2 here) here] here)) here.

(** [function main() returns Int { return if false { true ... true 1 } else { 2 } }] *)
Definition long_if (n : nat) : Program :=
  mkProgram
    [mkFunctionDef "main" [] (NamedType "Int" here)
       (BlockExpr [ReturnStmt (long_if_expr n) here] here) here] here.

(** The code of the [n] statements [true]. *)
Definition true_pops (n : nat) : list Z :=
  concat (repeat [opcode_byte TRUE; opcode_byte POP] n).

(** The code of the then-block. *)
Definition then_code (n : nat) : list Z := true_pops n ++ [opcode_byte CONSTANT; 0; 0].

(** The code of [long_if_expr n]: the distance written into the first jump
    is that of the [POP], the then-block and the second jump. *)
Definition long_if_code (n : nat) : list Z :=
  [opcode_byte FALSE; opcode_byte JUMP_IF_FALSE;
   low_byte (patched_offset (Z.of_nat (2 * n + 7)));
   high_byte (patched_offset (Z.of_nat (2 * n + 7)));
   opcode_byte POP]
  ++ then_code n
  ++ [opcode_byte JUMP; 4; 0; opcode_byte POP; opcode_byte CONSTANT; 1; 0].

Definition long_if_program_code (n : nat) : list Z :=
  long_if_code n ++ [opcode_byte RETURN; opcode_byte HALT].

Definition long_if_bytecode (n : nat) : Bytecode.t :=
  mkBytecode (long_if_program_code n) [VInt 1; VInt 2] [mkFunctionInfo "main" 0 0 0].

(** The compiler state [st] with [code] emitted after its instructions. *)
Definition append_code (code : list Z) (st : Compiler.State) : Compiler.State :=
  Compiler.with_bytecode st
    (with_instructions (Compiler.bytecode_ st) (instructions (Compiler.bytecode_ st) ++ code)).

(** The compiler inside [main], the only function, with [code] emitted and
    [consts] in the pool. *)
Definition in_main (code : list Z) (consts : list Value) : Compiler.State :=
  Compiler.mkCompiler (mkBytecode code consts [mkFunctionInfo "main" 0 0 0])
    [Compiler.mkScope ∅ 0%nat] (<["main" := 0%nat]> ∅).

(** The least number of statements [true] for which the first jump of
    [long_if] is out of range: 2 * 16381 + 7 = 32769. *)
Definition far_count : nat := Z.to_nat 16381.

End JumpPatchingTerms.

Section PrecedenceTerms.
Import Tok Ast Parser.

(** The operand tokens: those [parse_primary] turns into a leaf. *)
Definition atom (t : Token) : option Expr :=
  match type t with
  | Identifier => Some (IdentifierExpr (lexeme t) (location t))
  | Tok.True => Some (BoolLiteralExpr true (location t))
  | Tok.False => Some (BoolLiteralExpr false (location t))
  | IntLiteral =>
      match value t with
      | Some (PInt v) => Some (IntLiteralExpr v (location t))
      | _ => None
      end
  | FloatLiteral =>
      match value t with
      | Some (PFloat v) => Some (FloatLiteralExpr v (location t))
      | _ => None
      end
  | StringLiteral =>
      match value t with
      | Some (PString v) => Some (StringLiteralExpr v (location t))
      | _ => None
      end
  | _ => None
  end.

(** The tokens that start a postfix operation. *)
Definition starts_postfix (t : TokenType) : bool :=
  type_eqb t LeftParen || type_eqb t Dot || type_eqb t LeftBracket.

(** The tokens after which an expression is over: no operator, no postfix
    operation, and no newline, behind which an operator could follow. *)
Definition ends_expression (t : TokenType) : bool :=
  negb (is_binary_operator t) && negb (starts_postfix t) && negb (type_eqb t Newline).

(** The token [i] places after the current one. *)
Definition token_at (st : State) (i : nat) (t : Token) : Prop :=
  tokens_ st !! (current_ st + i)%nat = Some t.

(** The parser [i] tokens further. *)
Definition moved (st : State) (i : nat) : State :=
  with_current st (current_ st + i).

(** The two shapes of a tree over [a op1 b op2 c]. *)
Definition right_nested (o1 o2 : BinaryOp) (op1 op2 : Token) (ea eb ec : Expr) : Expr :=
  BinaryExpr o1 ea (BinaryExpr o2 eb ec (location op2)) (location op1).

Definition left_nested (o1 o2 : BinaryOp) (op1 op2 : Token) (ea eb ec : Expr) : Expr :=
  BinaryExpr o2 (BinaryExpr o1 ea eb (location op1)) ec (location op2).

(** Whether [parse_precedence] hands [op2] to the right operand of [op1]. *)
Definition binds_right (t1 t2 : TokenType) : bool :=
  (if negb (is_right_associative t1) then get_binary_precedence t1 + 1
   else get_binary_precedence t1) <=? get_binary_precedence t2.

(** The parser on the tokens of a source text. *)
Definition lexed (source : string) : State := new (Lexer.tokenize source "t").

Definition token (st : State) (i : nat) : Token := peek_at st i.

Definition leaf (st : State) (i : nat) : Expr :=
  IdentifierExpr (lexeme (token st i)) (location (token st i)).

Definition sum_product : State := lexed "a + b * c".

Definition power_power : State := lexed "a ** b ** c".

Definition sum_sum : State := lexed "a + b + c".

End PrecedenceTerms.

Section StringMethodsTerms.

(** A list of characters that does not start with white space. *)
Definition starts_clean (l : list ascii) : Prop :=
  match l with
  | [] => True
  | c :: _ => Str.is_space c = false
  end.

End StringMethodsTerms.

Section SemanticTypesTerms.
Import Types.

(** A type with no Unknown inside. *)
Fixpoint known (t : SemanticType) : bool :=
  match t with
  | PrimitiveType _ | TypeVariable _ => true
  | ListType e => known e
  | TupleType es => forallb known es
  | FunctionType ps r => forallb known ps && known r
  | UnknownType => false
  end.

(** A type that is neither a type variable nor Unknown at its root. *)
Definition concrete (t : SemanticType) : bool :=
  match kind t with
  | TypeVariable_ | Unknown => false
  | _ => true
  end.

End SemanticTypesTerms.

Section SymbolTableTerms.
Import Symbols.

(** Every scope of [scopes], the first of which has index [i], has its
    parent at a smaller index. *)
Fixpoint parents_below (i : nat) (scopes : list Scope) : bool :=
  match scopes with
  | [] => true
  | s :: rest =>
      match parent s with
      | Some p => (p <? i)%nat
      | None => true
      end && parents_below (S i) rest
  end.

(** What the constructor establishes and the operations keep: the current
    scope exists and parents were created before their children. *)
Definition well_formed (t : SymbolTable) : bool :=
  (current_ t <? length (scopes_ t))%nat && parents_below 0 (scopes_ t).

(** Whether the current scope itself holds [name]
    ([exists_in_current_scope]). *)
Definition declared_here (name : string) (t : SymbolTable) : bool :=
  match current_scope t with
  | Some s => bool_decide (is_Some (symbols s !! name))
  | None => false
  end.

End SymbolTableTerms.

Section FunctionTableTerms.
Import Bytecode Ast.

(** The entry [collect_functions] makes for a function: the offset is a
    placeholder and the locals are the parameters, until the function is
    compiled. *)
Definition signature (offset : Z) (function : FunctionDef) : FunctionInfo :=
  mkFunctionInfo (fd_name function) offset
    (length (fd_parameters function)) (length (fd_parameters function)).

End FunctionTableTerms.

Section OperatorExpressionsTerms.
Import Val Bytecode VM Ast.

(** The expressions made of literals, unary and binary operators. *)
Fixpoint operators_only (e : Expr) : bool :=
  match e with
  | IntLiteralExpr _ _ | FloatLiteralExpr _ _ | StringLiteralExpr _ _
  | BoolLiteralExpr _ _ => true
  | BinaryExpr _ lhs rhs _ => operators_only lhs && operators_only rhs
  | UnaryExpr _ operand _ => operators_only operand
  | _ => false
  end.

(** The number of literals and operators of such an expression. *)
Fixpoint nodes (e : Expr) : nat :=
  match e with
  | BinaryExpr _ lhs rhs _ => (nodes lhs + nodes rhs + 1)%nat
  | UnaryExpr _ operand _ => (nodes operand + 1)%nat
  | _ => 1%nat
  end.

(** The VM operation that the opcode of each operator executes. *)
Definition operation (c_pow : float -> float -> float) (op : BinaryOp)
    : Value -> Value -> result Value :=
  match op with
  | Add => binary_add | Sub => binary_sub | Mul => binary_mul
  | Div => binary_div | Mod => binary_mod | Pow => binary_pow c_pow
  | Eq => binary_eq | Ne => binary_ne
  | Lt => binary_lt | Gt => binary_gt | Le => binary_le | Ge => binary_ge
  | And => binary_and | Or => binary_or
  end.

Definition unary_operation (op : UnaryOp) : Value -> result Value :=
  match op with
  | Not => unary_not
  | Neg => unary_negate
  | Pos => unary_positive
  end.

(** The value of an operator expression: the VM operations applied to the
    literals from the leaves up, the left operand before the right one. *)
Fixpoint value (c_pow : float -> float -> float) (e : Expr) : result Value :=
  match e with
  | IntLiteralExpr v _ => Ok (VInt v)
  | FloatLiteralExpr v _ => Ok (VFloat v)
  | StringLiteralExpr v _ => Ok (VString v)
  | BoolLiteralExpr v _ => Ok (VBool v)
  | BinaryExpr op lhs rhs _ =>
      let* a := value c_pow lhs in
      let* b := value c_pow rhs in
      operation c_pow op a b
  | UnaryExpr op operand _ =>
      let* a := value c_pow operand in
      unary_operation op a
  | _ => Throw "not an operator expression"
  end.

(** The program [bc] holds, at the same offsets and indices, the code and
    the constants that the compiler added between the states [before] and
    [after]. *)
Definition holds_code (bc : Bytecode.t) (before after : Compiler.State) : Prop :=
  (forall i,
     current_offset (Compiler.bytecode_ before) <= i
       < current_offset (Compiler.bytecode_ after) ->
     at_ (instructions bc) i = at_ (instructions (Compiler.bytecode_ after)) i) /\
  (forall i,
     Z.of_nat (length (constants (Compiler.bytecode_ before))) <= i
       < Z.of_nat (length (constants (Compiler.bytecode_ after))) ->
     at_ (constants bc) i = at_ (constants (Compiler.bytecode_ after)) i).

(** The compiler state [st'] has the code and the constants of [st], and
    possibly more behind them, and the same scopes. *)
Definition grows (st st' : Compiler.State) : Prop :=
  (exists code,
     instructions (Compiler.bytecode_ st') = instructions (Compiler.bytecode_ st) ++ code) /\
  (exists consts,
     constants (Compiler.bytecode_ st') = constants (Compiler.bytecode_ st) ++ consts) /\
  Compiler.scopes_ st' = Compiler.scopes_ st.

(** The else-branch of an if-expression, which may be missing: the value
    is then [false]. *)
Definition branch_operators (e : option Expr) : bool :=
  match e with
  | Some e' => operators_only e'
  | None => true
  end.

Definition branch_nodes (e : option Expr) : nat :=
  match e with
  | Some e' => nodes e'
  | None => 1%nat
  end.

Definition branch_value (c_pow : float -> float -> float) (e : option Expr)
    : result Value :=
  match e with
  | Some e' => value c_pow e'
  | None => Ok (VBool false)
  end.

(** [1 + 2 * 3] *)
Definition one_plus_two_times_three : Expr :=
  BinaryExpr Add (IntLiteralExpr 1 here)
    (BinaryExpr Mul (IntLiteralExpr 2 here) (IntLiteralExpr 3 here) here) here.

(** The expression of a block that is one expression statement, as the
    branches of an [if] are parsed; any other expression is its own body. *)
Definition body_of (b : Expr) : Expr :=
  match b with
  | BlockExpr [ExprStmt expression _] _ => expression
  | _ => b
  end.

(** [if 1 < 2 { 10 } else { 20 }] *)
Definition small_if : Expr :=
  IfExpr (BinaryExpr Lt (IntLiteralExpr 1 here) (IntLiteralExpr 2 here) here)
    (BlockExpr [ExprStmt (IntLiteralExpr 10 here) here] here)
    (Some (BlockExpr [ExprStmt (IntLiteralExpr 20 here) here] here)) here.

Definition small_if_code : list Z :=
  [ opcode_byte CONSTANT; 0; 0;          (*  0: 1 *)
    opcode_byte CONSTANT; 1; 0;          (*  3: 2 *)
    opcode_byte LT;                      (*  6 *)
    opcode_byte JUMP_IF_FALSE; 7; 0;     (*  7: to 17 *)
    opcode_byte POP;                     (* 10 *)
    opcode_byte CONSTANT; 2; 0;          (* 11: 10 *)
    opcode_byte JUMP; 4; 0;              (* 14: to 21 *)
    opcode_byte POP;                     (* 17 *)
    opcode_byte CONSTANT; 3; 0 ].        (* 18: 20 *)

End OperatorExpressionsTerms.

Section CompilerPassesTerms.
Import Val Bytecode Ast Compiler.

(** The loops of the visitors over the elements of a tuple or list and
    over the arguments of a call, over the statements of a block, and over
    the elements of a tuple pattern. *)
Definition compile_all : list Expr -> State -> result State :=
  fix compile_all (es : list Expr) (st : State) : result State :=
    match es with
    | [] => Ok st
    | x :: es' => let* st := compile_expr x st in compile_all es' st
    end.

Definition compile_block : list Stmt -> State -> result State :=
  fix compile_block (ss : list Stmt) (st : State) : result State :=
    match ss with
    | [] => Ok st
    | last_stmt :: [] =>
        match last_stmt with
        | ExprStmt expression _ => compile_expr expression st
        | _ => compile_stmt last_stmt st
        end
    | s :: ss' => let* st := compile_stmt s st in compile_block ss' st
    end.

Definition compile_elements (is_declaration : bool)
    : nat -> list Pattern -> State -> result State :=
  fix elements_from (i : nat) (ps : list Pattern) (st : State) : result State :=
    match ps with
    | [] => Ok st
    | p :: ps' =>
        let st := emit DUP st in
        let* (idx_const, st) := add_constant (VInt (Z.of_nat i)) st in
        let st := emit_u16 CONSTANT idx_const st in
        let st := emit INDEX st in
        let* st := compile_pattern p is_declaration st in
        elements_from (S i) ps' st
    end.

(** What the first pass fills in and the second pass reads: the function
    table of the bytecode and the compiler's index of names. *)
Definition function_table (st : State) : list FunctionInfo * gmap string nat :=
  (functions (bytecode_ st), function_indices_ st).

End CompilerPassesTerms.

Section CompiledTableTerms.
Import Bytecode Ast.

(** The name and the number of parameters of each entry of a function
    table, and of each function of a program. *)
Definition table_signatures (fs : list FunctionInfo) : list (string * nat) :=
  map (fun f => (fn_name f, fn_param_count f)) fs.

Definition program_signatures (program : Program) : list (string * nat) :=
  map (fun f => (fd_name f, length (fd_parameters f))) (prog_functions program).

(** Whether the program defines a function of that name. *)
Definition defines (program : Program) (name : string) : Prop :=
  exists f, f ∈ prog_functions program /\ fd_name f = name.

End CompiledTableTerms.

Section TypeSafetyTerms.
Import Val Types.

(** The primitive type a runtime value belongs to. *)
Definition kind_of (v : Value) : option PrimitiveKind :=
  match v with
  | VInt _ => Some KInt
  | VFloat _ => Some KFloat
  | VBool _ => Some KBool
  | VString _ => Some KString
  | _ => None
  end.

(** The errors that an operator expression can raise in the VM although
    the checker accepted it. *)
Definition run_time_errors : list string :=
  [ "Division by zero"; "Modulo by zero";
    "Modulo requires two integers, got Int and Float";
    "Modulo requires two integers, got Float and Int";
    "Modulo requires two integers, got Float and Float";
    "Cannot compare Int and Float"; "Cannot compare Float and Int" ].

Definition undefined_quotients : list string := [ "INT64_MIN / -1"; "INT64_MIN % -1" ].

(** The checker [tc'] holds the errors of [tc], in order, and possibly
    more behind them. *)
Definition more_errors (tc tc' : TypeChecker.State) : Prop :=
  exists suffix, TypeChecker.errors tc' = TypeChecker.errors tc ++ suffix.

(** [1 < 2.5] *)
Definition int_less_float : Ast.Expr :=
  Ast.BinaryExpr Ast.Lt (Ast.IntLiteralExpr 1 somewhere)
                 (Ast.FloatLiteralExpr 2.5 somewhere) somewhere.

End TypeSafetyTerms.

Section CheckerPassesTerms.
Import Types Symbols TypeChecker.

(** The loops of the expression visitors, each under the name it is
    written with there. *)
Definition check_all : list Ast.Expr -> State -> list SemanticType * State :=
  fix check_all (es : list Ast.Expr) (tc : State) : list SemanticType * State :=
    match es with
    | [] => ([], tc)
    | e :: es' =>
        let (t, tc) := check_expression e tc in
        let (ts, tc) := check_all es' tc in
        (t :: ts, tc)
    end.

Definition check_rest : SemanticType -> list Ast.Expr -> State -> State :=
  fix check_rest (first_type : SemanticType) (es : list Ast.Expr) (tc : State)
      : State :=
    match es with
    | [] => tc
    | e :: es' =>
        let (t, tc) := check_expression e tc in
        let tc := if negb (equals t first_type)
                  then type_mismatch_error (Ast.expr_location e) first_type t tc
                  else tc in
        check_rest first_type es' tc
    end.

Definition check_args : list Ast.Expr -> list SemanticType -> State -> State :=
  fix check_args (es : list Ast.Expr) (ps : list SemanticType) (tc : State) : State :=
    match es, ps with
    | e :: es', p :: ps' =>
        let (t, tc) := check_expression e tc in
        let tc := if negb (equals t p)
                  then type_mismatch_error (Ast.expr_location e) p t tc else tc in
        check_args es' ps' tc
    | _, _ => tc
    end.

Definition check_strings : list Ast.Expr -> State -> State :=
  fix check_strings (es : list Ast.Expr) (tc : State) : State :=
    match es with
    | [] => tc
    | e :: es' =>
        let (t, tc) := check_expression e tc in
        let tc := if negb (is_string_type t)
                  then type_mismatch_error (Ast.expr_location e)
                         (PrimitiveType KString) t tc
                  else tc in
        check_strings es' tc
    end.

Definition check_statements : list Ast.Stmt -> State -> State :=
  fix check_statements (ss : list Ast.Stmt) (tc : State) : State :=
    match ss with
    | [] => tc
    | s :: ss' => check_statements ss' (check_statement s tc)
    end.

Definition block_type : list Ast.Stmt -> State -> SemanticType * State :=
  fix block_type (ss : list Ast.Stmt) (tc : State) : SemanticType * State :=
    match ss with
    | [] => (UnknownType, tc)
    | last_stmt :: [] =>
        match last_stmt with
        | Ast.ExprStmt expression _ => check_expression expression tc
        | _ => (UnknownType, tc)
        end
    | _ :: ss' => block_type ss' tc
    end.

(** The elements of a tuple pattern against the element types. *)
Definition check_each : list Ast.Pattern -> list SemanticType -> State -> State :=
  fix each (ps : list Ast.Pattern) (ts : list SemanticType) (tc : State) : State :=
    match ps, ts with
    | p :: ps', t :: ts' => each ps' ts' (check_pattern p t tc)
    | _, _ => tc
    end.

(** The parameter loop of [check_function]. *)
Definition declare_parameter (tc : State) (param : Ast.Parameter_) : State :=
  let (ok, tc) := declare (Ast.param_name param) Parameter_k
                    (ast_type_to_semantic (Ast.param_type param))
                    (Ast.param_location param) tc in
  if ok then tc
  else error (Ast.param_location param)
         ("Parameter '" +:+ Ast.param_name param +:+ "' is already declared") tc.

(** The table [t'] is the table [t] with scopes added behind: the current
    scope is the same one and every scope of [t] is as it was; and [t'] is
    well formed when [t] is. *)
Definition scopes_kept (t t' : SymbolTable) : Prop :=
  current_ t' = current_ t /\
  (exists added, scopes_ t' = scopes_ t ++ added) /\
  (well_formed t = true -> well_formed t' = true).

(** The same, but for the current scope, which may have changed: it has
    kept its parent. *)
Definition outer_scopes_kept (t t' : SymbolTable) : Prop :=
  current_ t' = current_ t /\
  (length (scopes_ t) <= length (scopes_ t'))%nat /\
  (forall j, (j < length (scopes_ t))%nat -> j <> current_ t ->
     scopes_ t' !! j = scopes_ t !! j) /\
  (forall s, scopes_ t !! current_ t = Some s ->
     exists s', scopes_ t' !! current_ t = Some s' /\ parent s' = parent s) /\
  (well_formed t = true -> well_formed t' = true).

(** What checking an expression does to the checker: it adds errors
    behind those it has, and scopes behind those of the table. *)
Definition expression_checked (tc tc' : State) : Prop :=
  more_errors tc tc' /\
  scopes_kept (symbol_table_ tc) (symbol_table_ tc') /\
  current_function_return_type_ tc' = current_function_return_type_ tc.

(** What checking a statement does: it may also declare in the current
    scope. *)
Definition statement_checked (tc tc' : State) : Prop :=
  more_errors tc tc' /\
  outer_scopes_kept (symbol_table_ tc) (symbol_table_ tc') /\
  current_function_return_type_ tc' = current_function_return_type_ tc.

(** The invariant of [check_expression] and the one of [check_statement],
    as the induction on expressions and statements carries them. *)
Definition expression_kept (e : Ast.Expr) : Prop :=
  forall tc, expression_checked tc (snd (check_expression e tc)).

Definition statement_kept (s : Ast.Stmt) : Prop :=
  (forall a tc, statement_checked a tc -> statement_checked a (check_statement s tc)) /\
  (forall e l, s = Ast.ExprStmt e l -> expression_kept e).

(** The elements of [xs] that have the name of an earlier one or one of
    [seen]. *)
Fixpoint repeated {A : Type} (name_of : A -> string) (seen : list string) (xs : list A)
    : list A :=
  match xs with
  | [] => []
  | x :: xs' =>
      (if bool_decide (name_of x ∈ seen) then [x] else [])
      ++ repeated name_of (name_of x :: seen) xs'
  end.

(** The error of the first pass for a function whose name is taken, and
    the one of [check_function] for such a parameter. *)
Definition redeclaration_error (f : Ast.FunctionDef) : TypeError :=
  mkTypeError (Ast.fd_location f)
    ("Function '" +:+ Ast.fd_name f +:+ "' is already declared").

Definition parameter_error (p : Ast.Parameter_) : TypeError :=
  mkTypeError (Ast.param_location p)
    ("Parameter '" +:+ Ast.param_name p +:+ "' is already declared").

(** The symbol a function is declared with in the first pass, and the one
    of a parameter. *)
Definition function_symbol (f : Ast.FunctionDef) : Symbol :=
  mkSymbol (Ast.fd_name f) Function_
    (FunctionType
       (map (fun p => ast_type_to_semantic (Ast.param_type p)) (Ast.fd_parameters f))
       (clone (ast_type_to_semantic (Ast.fd_return_type f))))
    (Ast.fd_location f) false.

Definition parameter_symbol (p : Ast.Parameter_) : Symbol :=
  mkSymbol (Ast.param_name p) Parameter_k (ast_type_to_semantic (Ast.param_type p))
    (Ast.param_location p) false.

(** The first function of that name, and the first parameter. *)
Definition function_named (name : string) (fs : list Ast.FunctionDef)
    : option Ast.FunctionDef :=
  find (fun f => String.eqb (Ast.fd_name f) name) fs.

Definition parameter_named (name : string) (ps : list Ast.Parameter_)
    : option Ast.Parameter_ :=
  find (fun p => String.eqb (Ast.param_name p) name) ps.

(** What a name stands for where the body of [f] begins: a parameter of
    [f], else a function of the program. *)
Definition meaning_in (program : Ast.Program) (f : Ast.FunctionDef) (name : string)
    : option Symbol :=
  match parameter_named name (Ast.fd_parameters f) with
  | Some p => Some (parameter_symbol p)
  | None => option_map function_symbol (function_named name (Ast.prog_functions program))
  end.

(** The checker after the first pass of [check_program], the checker when
    the second pass has checked the functions [before], and the checker in
    which [check_function] checks the body of [f]. *)
Definition signatures_declared (program : Ast.Program) : State :=
  fold_left declare_function (Ast.prog_functions program) TypeChecker.new.

Definition checked_before (program : Ast.Program) (before : list Ast.FunctionDef)
    : State :=
  fold_left (fun tc f => check_function f tc) before (signatures_declared program).

Definition body_checker (f : Ast.FunctionDef) (tc : State) : State :=
  fold_left declare_parameter (Ast.fd_parameters f)
    (with_return_type (TypeChecker.enter_scope FunctionScope tc)
       (Some (ast_type_to_semantic (Ast.fd_return_type f)))).

(** [function main() returns Int { return helper(1) }] and
    [function helper(x: Int) returns Int { return x }] *)
Definition main_calls_helper : Ast.FunctionDef :=
  Ast.mkFunctionDef "main" [] (Ast.NamedType "Int" somewhere)
    (Ast.BlockExpr
       [Ast.ReturnStmt
          (Ast.CallExpr (Ast.IdentifierExpr "helper" somewhere)
             [Ast.IntLiteralExpr 1 somewhere] somewhere) somewhere] somewhere)
    somewhere.

Definition helper_function : Ast.FunctionDef :=
  Ast.mkFunctionDef "helper"
    [Ast.mkParameter "x" (Ast.NamedType "Int" somewhere) somewhere]
    (Ast.NamedType "Int" somewhere)
    (Ast.BlockExpr
       [Ast.ReturnStmt (Ast.IdentifierExpr "x" somewhere) somewhere] somewhere)
    somewhere.

Definition helper_after_main : Ast.Program :=
  Ast.mkProgram [main_calls_helper; helper_function] somewhere.

(** [{ let x = 1; x }] *)
Definition let_in_block : Ast.Expr :=
  Ast.BlockExpr
    [ Ast.LetStmt (Ast.IdentifierPattern "x" somewhere) None
        (Ast.IntLiteralExpr 1 somewhere) somewhere;
      Ast.ExprStmt (Ast.IdentifierExpr "x" somewhere) somewhere ] somewhere.

End CheckerPassesTerms.

Section LexerPassesTerms.
Import Tok Lexer.

(** The lexer after [n] calls of [next_token], the token that the call
    after them returns, and the tokens of the first [n] calls. *)
Fixpoint lexer_after (n : nat) (st : State) : State :=
  match n with
  | O => st
  | S n' => lexer_after n' (snd (next_token st))
  end.

Definition nth_token (n : nat) (st : State) : Token :=
  fst (next_token (lexer_after n st)).

Definition first_tokens (n : nat) (st : State) : list Token :=
  map (fun k => nth_token k st) (seq 0 n).

(** The characters that the loops of the lexer run over. *)
Definition is_blank (c : ascii) : bool :=
  is_char c 32 || is_char c 9 || is_char c 13 || is_char c 10.

Definition in_line (c : ascii) : bool := negb (is_char c 10).

Definition is_digit_part (c : ascii) : bool := is_digit c || is_char c 95.

Definition is_identifier_part (c : ascii) : bool := is_alnum c || is_char c 95.

(** [st'] is [st] moved forward over characters that all satisfy [q], up
    to the end of the source or to a character that does not. *)
Definition skipped (q : ascii -> bool) (st st' : State) : Prop :=
  follows st st' /\
  (forall i, (current_ st <= i < current_ st')%nat -> q (char_at st i) = true) /\
  (is_at_end st' = true \/ q (peek st') = false).

(** [st'] is just behind a closing mark of a multi-line comment read
    after [st]. *)
Definition comment_closed (st st' : State) : Prop :=
  (current_ st + 2 <= current_ st')%nat /\
  is_char (char_at st (current_ st' - 2)) 93 = true /\
  is_char (char_at st (current_ st' - 1)) 35 = true.

(** How the loop of [scan_string] ends: with the error of a backslash at
    the end of the source, or at the end of the source, or in front of the
    closing quote. *)
Definition string_loop_ended (r : Token * State + string * State) : Prop :=
  match r with
  | inl (t, st') => type t = Error /\ is_at_end st' = true
  | inr (_, st') => is_at_end st' = true \/ is_char (peek st') 34 = true
  end.

End LexerPassesTerms.

Section DivisionTerms.
Import Val Bytecode VM.

(** A program made of the single instruction [MOD]. *)
Definition mod_only : Bytecode.t := mkBytecode [opcode_byte MOD] [] [].

(** A program that type checks and divides [INT64_MIN] by -1. *)
Definition min_quotient_source : string :=
  "function main() returns Int { return (0 - 9223372036854775807 - 1) / (0 - 1) }".

Definition min_remainder_source : string :=
  "function main() returns Int { return (0 - 9223372036854775807 - 1) % (0 - 1) }".

End DivisionTerms.

Section TuplePatternTerms.
Import Val Bytecode VM Ast.

(** The program [bc] holds the bytes [code] from offset [ip] on. *)
Definition code_at (bc : Bytecode.t) (ip : Z) (code : list Z) : Prop :=
  forall k b, code !! k = Some b -> byte_at bc (ip + Z.of_nat k) b.

(** [let (x) = (10,)] and its code after the initializer. *)
Definition let_one : Stmt :=
  LetStmt (TuplePattern [IdentifierPattern "x" here] here) None
    (TupleExpr [IntLiteralExpr 10 here] here) here.

Definition after_one_tuple : Compiler.State :=
  Compiler.mkCompiler
    (mkBytecode [opcode_byte CONSTANT; 0; 0; opcode_byte BUILD_TUPLE; 1; 0] [VInt 10] [])
    [Compiler.mkScope ∅ 0%nat] ∅.

Definition one_pattern_code : list Z :=
  [opcode_byte DUP; opcode_byte CONSTANT; 1; 0; opcode_byte INDEX;
   opcode_byte STORE_LOCAL; 0; 0; opcode_byte POP].

End TuplePatternTerms.

(* ===================================================================== *)
(** * Properties *)
(* ===================================================================== *)

(** ** How the VM executes single instructions *)

Section VMSteps.
Import Val Bytecode VM.

Variable bc : Bytecode.t.
Variable c_pow : float -> float -> float.
Variable fmt_double : float -> string.

Lemma read_byte_ok stack f frames out h b :
  byte_at bc (instruction_pointer f) b ->
  read_byte bc (running stack f frames out h)
  = Ok (b, running stack (frame_at f (instruction_pointer f + 1)) frames out h).
Proof.
  intros Hb. unfold read_byte, ip, set_ip, current_frame, set_current_frame,
    bind, get, put, ret, running; cbn.
  unfold byte_at in Hb. rewrite Hb. reflexivity.
Qed.

Lemma read_uint16_ok stack f frames out h lo hi :
  byte_at bc (instruction_pointer f) lo ->
  byte_at bc (instruction_pointer f + 1) hi ->
  read_uint16 bc (running stack f frames out h)
  = Ok (Z.lor lo (Z.shiftl hi 8),
        running stack (frame_at f (instruction_pointer f + 1 + 1)) frames out h).
Proof.
  intros Hlo Hhi. unfold read_uint16, bind.
  rewrite (read_byte_ok _ _ _ _ _ lo Hlo).
  rewrite (read_byte_ok _ (frame_at f _) _ _ _ hi Hhi).
  reflexivity.
Qed.

(** A binary operator instruction pops its right then its left operand and
    pushes the result, or raises what the operation raises. *)
Lemma step_binary op g b a s f frames out h :
  byte_at bc (instruction_pointer f) (opcode_byte op) ->
  In (op, g) [ (ADD, binary_add); (SUB, binary_sub); (MUL, binary_mul);
               (DIV, binary_div); (MOD, binary_mod); (POW, binary_pow c_pow) ] ->
  step bc c_pow fmt_double (running (b :: a :: s) f frames out h)
  = match g a b with
    | Ok r => Ok (Continue,
                  running (r :: s) (frame_at f (instruction_pointer f + 1)) frames out h)
    | Throw msg => Throw msg
    | Undefined w => Undefined w
    end.
Proof.
  intros Hb Hin. unfold step, bind at 1.
  rewrite (read_byte_ok _ _ _ _ _ _ Hb).
  cbn in Hin.
  destruct Hin as [Hin | [Hin | [Hin | [Hin | [Hin | [Hin | []]]]]]];
    injection Hin as Hop Hg; subst op g; cbn;
    unfold binary, bind, pop, get, put, lift, push, ret; cbn.
  all: first [ destruct (binary_add a b); reflexivity
             | destruct (binary_sub a b); reflexivity
             | destruct (binary_mul a b); reflexivity
             | destruct (binary_div a b); reflexivity
             | destruct (binary_mod a b); reflexivity
             | destruct (binary_pow c_pow a b); reflexivity ].
Qed.

(** [NOT] replaces the top of the stack. *)
Lemma step_not v s f frames out h :
  byte_at bc (instruction_pointer f) (opcode_byte NOT) ->
  step bc c_pow fmt_double (running (v :: s) f frames out h)
  = Ok (Continue,
        running (VBool (negb (is_truthy v)) :: s)
                (frame_at f (instruction_pointer f + 1)) frames out h).
Proof.
  intros Hb. unfold step, bind at 1.
  rewrite (read_byte_ok _ _ _ _ _ _ Hb). reflexivity.
Qed.

(** [STORE_LOCAL idx] copies the top of the stack into [locals[idx]] and
    leaves the stack as it is. *)
Lemma step_store_local v s f frames out h lo hi :
  byte_at bc (instruction_pointer f) (opcode_byte STORE_LOCAL) ->
  byte_at bc (instruction_pointer f + 1) lo ->
  byte_at bc (instruction_pointer f + 1 + 1) hi ->
  is_Some (at_ (locals f) (Z.lor lo (Z.shiftl hi 8))) ->
  step bc c_pow fmt_double (running (v :: s) f frames out h)
  = Ok (Continue,
        running (v :: s)
          (mkCallFrame (function_index f) (instruction_pointer f + 1 + 1 + 1)
             (stack_base f)
             (<[Z.to_nat (Z.lor lo (Z.shiftl hi 8)) := v]> (locals f)))
          frames out h).
Proof.
  intros Hb Hlo Hhi [old Hold]. unfold step, bind at 1.
  rewrite (read_byte_ok _ _ _ _ _ _ Hb). cbn [opcode_of_byte opcode_byte].
  unfold bind at 1.
  rewrite (read_uint16_ok _ (frame_at f _) _ _ _ lo hi Hlo Hhi).
  cbn. rewrite Hold. reflexivity.
Qed.

Lemma step_jump op stack taken f frames out h lo hi :
  byte_at bc (instruction_pointer f) (opcode_byte op) ->
  byte_at bc (instruction_pointer f + 1) lo ->
  byte_at bc (instruction_pointer f + 1 + 1) hi ->
  jump_taken op stack = Some taken ->
  step bc c_pow fmt_double (running stack f frames out h)
  = Ok (Continue,
        running stack
          (frame_at f
             (if taken
              then Num.to_size_t (instruction_pointer f + 1 + 1 + 1
                                  + Num.int16_of_uint16 (Z.lor lo (Z.shiftl hi 8)))
              else instruction_pointer f + 1 + 1 + 1))
          frames out h).
Proof.
  intros Hb Hlo Hhi Ht. unfold step, bind at 1.
  rewrite (read_byte_ok _ _ _ _ _ _ Hb).
  destruct op; try discriminate Ht; cbn [opcode_of_byte opcode_byte];
    unfold bind at 1;
    rewrite (read_uint16_ok _ (frame_at f _) _ _ _ lo hi Hlo Hhi).
  - injection Ht as <-. reflexivity.
  - destruct stack as [|v s]; [discriminate|]. injection Ht as <-.
    cbn. destruct (is_truthy v); reflexivity.
  - destruct stack as [|v s]; [discriminate|]. injection Ht as <-.
    cbn. destruct (is_truthy v); reflexivity.
Qed.

Lemma step_bool_literal (b : bool) s f frames out h :
  byte_at bc (instruction_pointer f) (opcode_byte (if b then TRUE else FALSE)) ->
  step bc c_pow fmt_double (running s f frames out h)
  = Ok (Continue,
        running (VBool b :: s) (frame_at f (instruction_pointer f + 1)) frames out h).
Proof.
  intros Hb. unfold step, bind at 1.
  rewrite (read_byte_ok _ _ _ _ _ _ Hb). destruct b; reflexivity.
Qed.

Lemma step_pop v s f frames out h :
  byte_at bc (instruction_pointer f) (opcode_byte POP) ->
  step bc c_pow fmt_double (running (v :: s) f frames out h)
  = Ok (Continue, running s (frame_at f (instruction_pointer f + 1)) frames out h).
Proof.
  intros Hb. unfold step, bind at 1.
  rewrite (read_byte_ok _ _ _ _ _ _ Hb). reflexivity.
Qed.

Lemma step_constant v s f frames out h lo hi :
  byte_at bc (instruction_pointer f) (opcode_byte CONSTANT) ->
  byte_at bc (instruction_pointer f + 1) lo ->
  byte_at bc (instruction_pointer f + 1 + 1) hi ->
  at_ (constants bc) (Z.lor lo (Z.shiftl hi 8)) = Some v ->
  step bc c_pow fmt_double (running s f frames out h)
  = Ok (Continue,
        running (v :: s) (frame_at f (instruction_pointer f + 1 + 1 + 1)) frames out h).
Proof.
  intros Hb Hlo Hhi Hc. unfold step, bind at 1.
  rewrite (read_byte_ok _ _ _ _ _ _ Hb). cbn [opcode_of_byte opcode_byte].
  unfold bind at 1.
  rewrite (read_uint16_ok _ (frame_at f _) _ _ _ lo hi Hlo Hhi).
  rewrite Hc. reflexivity.
Qed.

(** [RETURN] in the outermost frame ends the run. *)
Lemma step_return_outermost s f out h :
  byte_at bc (instruction_pointer f) (opcode_byte RETURN) ->
  step bc c_pow fmt_double (running s f [] out h)
  = Ok (Halt, mkState s [] out h).
Proof.
  intros Hb. unfold step, bind at 1.
  rewrite (read_byte_ok _ _ _ _ _ _ Hb). reflexivity.
Qed.

(** An instruction pointer outside the code: the fetch reads past the
    vector. *)
Lemma step_fetch_outside s f frames out h :
  at_ (instructions bc) (instruction_pointer f) = None ->
  step bc c_pow fmt_double (running s f frames out h)
  = Undefined "instruction fetch out of range".
Proof.
  intros Hb. unfold step, bind at 1.
  unfold read_byte, ip, set_ip, current_frame, set_current_frame, bind, get, put, ret,
    running; cbn.
  rewrite Hb. reflexivity.
Qed.
(** A run goes on from where its first [k] instructions lead. *)
Lemma run_after_steps k fuel st st' :
  steps bc c_pow fmt_double k st = Ok st' ->
  run bc c_pow fmt_double (k + fuel) st = run bc c_pow fmt_double fuel st'.
Proof.
  revert st. induction k as [|k IH]; intros st H.
  - injection H as <-. reflexivity.
  - cbn [steps] in H. cbn [Nat.add run].
    destruct (step bc c_pow fmt_double st) as [[[] st1] | msg | w]; try discriminate H.
    now apply IH.
Qed.

End VMSteps.

(** ** The budgets of the lexer's loops *)

Section LexerBudget.
Import Tok Lexer.

Lemma follows_refl st : within st -> follows st st.
Proof. unfold follows, within. auto. Qed.

Lemma follows_trans st1 st2 st3 : follows st1 st2 -> follows st2 st3 -> follows st1 st3.
Proof.
  unfold follows. intros (Hs & Hc & Hw) (Hs' & Hc' & Hw').
  repeat split; [congruence | lia | assumption].
Qed.

Lemma follows_within st st' : follows st st' -> within st'.
Proof. unfold follows, within. tauto. Qed.

Lemma follows_remaining st st' : follows st st' -> (remaining st' <= remaining st)%nat.
Proof. unfold follows, remaining. intros (-> & Hc & Hw). lia. Qed.

Lemma at_end_remaining st : is_at_end st = true <-> remaining st = 0%nat.
Proof.
  unfold is_at_end, remaining. rewrite Nat.leb_le. lia.
Qed.

Lemma not_at_end_remaining st : is_at_end st = false <-> (0 < remaining st)%nat.
Proof.
  unfold is_at_end, remaining. rewrite Nat.leb_gt. lia.
Qed.

Lemma peek_at_end st : is_at_end st = true -> peek st = nul.
Proof. unfold peek. now intros ->. Qed.

Lemma advance_follows st : within st -> follows st (snd (advance st)).
Proof.
  unfold advance, follows, within. intros Hw.
  destruct (is_at_end st) eqn:E; cbn; [auto|].
  apply not_at_end_remaining in E. unfold remaining in E. repeat split; lia.
Qed.

Lemma advance_remaining st :
  is_at_end st = false -> remaining (snd (advance st)) = Nat.pred (remaining st).
Proof.
  unfold advance. intros E. rewrite E. unfold remaining; cbn. lia.
Qed.

Lemma match_follows c st : within st -> follows st (snd (match_ c st)).
Proof.
  unfold match_, follows, within. intros Hw.
  destruct (is_at_end st) eqn:E; cbn; [auto|].
  apply not_at_end_remaining in E. unfold remaining in E.
  destruct (negb _); cbn; repeat split; lia.
Qed.

Lemma new_line_follows st st' n : follows st st' -> follows st (new_line st' n).
Proof. unfold follows, new_line; cbn. tauto. Qed.

Lemma with_start_follows st st' n : follows st st' -> follows st (with_start st' n).
Proof. unfold follows, with_start; cbn. tauto. Qed.


Lemma remaining_new_line st n : remaining (new_line st n) = remaining st.
Proof. reflexivity. Qed.

Lemma remaining_with_start st n : remaining (with_start st n) = remaining st.
Proof. reflexivity. Qed.

Lemma is_at_end_new_line st n : is_at_end (new_line st n) = is_at_end st.
Proof. reflexivity. Qed.

(* ----- skip_whitespace ------------------------------------------------- *)

Lemma skip_whitespace_loop_follows fuel st :
  within st -> follows st (skip_whitespace_loop fuel st).
Proof.
  revert st. induction fuel as [|fuel IH]; intros st Hw; cbn [skip_whitespace_loop].
  - now apply follows_refl.
  - destruct (is_at_end st); [now apply follows_refl|].
    pose proof (advance_follows st Hw) as Ha.
    destruct (_ || _).
    + eapply follows_trans; [exact Ha|]. apply IH. exact (follows_within _ _ Ha).
    + destruct (is_char (peek st) 10); [|now apply follows_refl].
      pose proof (new_line_follows _ _ (current_ (snd (advance st))) Ha) as Hn.
      eapply follows_trans; [exact Hn|]. apply IH. exact (follows_within _ _ Hn).
Qed.

Lemma skip_whitespace_loop_budget f1 f2 st :
  (remaining st <= f1)%nat -> (remaining st <= f2)%nat ->
  skip_whitespace_loop f1 st = skip_whitespace_loop f2 st.
Proof.
  revert f2 st. induction f1 as [|f1 IH]; intros f2 st H1 H2.
  - assert (E : is_at_end st = true) by (apply at_end_remaining; lia).
    destruct f2; cbn [skip_whitespace_loop]; [reflexivity | now rewrite E].
  - destruct f2 as [|f2].
    { assert (E : is_at_end st = true) by (apply at_end_remaining; lia).
      cbn [skip_whitespace_loop]. now rewrite E. }
    cbn [skip_whitespace_loop].
    destruct (is_at_end st) eqn:E; [reflexivity|].
    pose proof (advance_remaining st E) as Hr.
    apply not_at_end_remaining in E.
    destruct (_ || _); [apply IH; lia|].
    destruct (is_char (peek st) 10); [|reflexivity].
    apply IH; rewrite remaining_new_line; lia.
Qed.

Lemma skip_whitespace_follows st : within st -> follows st (skip_whitespace st).
Proof. apply skip_whitespace_loop_follows. Qed.

Lemma skip_whitespace_budget extra st :
  skip_whitespace_loop (remaining st + extra) st = skip_whitespace st.
Proof. apply skip_whitespace_loop_budget; lia. Qed.

(* ----- comments ---------------------------------------------------------- *)

Lemma skip_comment_loop_follows fuel st :
  within st -> follows st (skip_comment_loop fuel st).
Proof.
  revert st. induction fuel as [|fuel IH]; intros st Hw; cbn [skip_comment_loop].
  - now apply follows_refl.
  - destruct (_ && _); [|now apply follows_refl].
    pose proof (advance_follows st Hw) as Ha.
    eapply follows_trans; [exact Ha|]. apply IH. exact (follows_within _ _ Ha).
Qed.

Lemma skip_comment_loop_budget f1 f2 st :
  (remaining st <= f1)%nat -> (remaining st <= f2)%nat ->
  skip_comment_loop f1 st = skip_comment_loop f2 st.
Proof.
  revert f2 st. induction f1 as [|f1 IH]; intros f2 st H1 H2.
  - assert (E : is_at_end st = true) by (apply at_end_remaining; lia).
    destruct f2; cbn [skip_comment_loop]; [reflexivity | now rewrite E].
  - destruct f2 as [|f2].
    { assert (E : is_at_end st = true) by (apply at_end_remaining; lia).
      cbn [skip_comment_loop]. now rewrite E. }
    cbn [skip_comment_loop].
    destruct (is_at_end st) eqn:E; [reflexivity|]. cbn [negb andb].
    pose proof (advance_remaining st E) as Hr.
    apply not_at_end_remaining in E.
    destruct (negb _); [apply IH; lia | reflexivity].
Qed.

Lemma skip_comment_follows st : within st -> follows st (skip_comment st).
Proof. apply skip_comment_loop_follows. Qed.

Lemma skip_multiline_comment_loop_follows fuel st :
  within st -> follows st (skip_multiline_comment_loop fuel st).
Proof.
  revert st. induction fuel as [|fuel IH]; intros st Hw;
    cbn [skip_multiline_comment_loop].
  - now apply follows_refl.
  - destruct (is_at_end st); [now apply follows_refl|].
    pose proof (advance_follows st Hw) as Ha.
    destruct (_ && _).
    + eapply follows_trans; [exact Ha|].
      apply advance_follows. exact (follows_within _ _ Ha).
    + destruct (is_char (peek st) 10).
      * pose proof (new_line_follows _ _ (current_ (snd (advance st))) Ha) as Hn.
        eapply follows_trans; [exact Hn|]. apply IH. exact (follows_within _ _ Hn).
      * eapply follows_trans; [exact Ha|]. apply IH. exact (follows_within _ _ Ha).
Qed.

Lemma skip_multiline_comment_loop_budget f1 f2 st :
  (remaining st <= f1)%nat -> (remaining st <= f2)%nat ->
  skip_multiline_comment_loop f1 st = skip_multiline_comment_loop f2 st.
Proof.
  revert f2 st. induction f1 as [|f1 IH]; intros f2 st H1 H2.
  - assert (E : is_at_end st = true) by (apply at_end_remaining; lia).
    destruct f2; cbn [skip_multiline_comment_loop]; [reflexivity | now rewrite E].
  - destruct f2 as [|f2].
    { assert (E : is_at_end st = true) by (apply at_end_remaining; lia).
      cbn [skip_multiline_comment_loop]. now rewrite E. }
    cbn [skip_multiline_comment_loop].
    destruct (is_at_end st) eqn:E; [reflexivity|].
    pose proof (advance_remaining st E) as Hr.
    apply not_at_end_remaining in E.
    destruct (_ && _); [reflexivity|].
    destruct (is_char (peek st) 10); apply IH; rewrite ?remaining_new_line; lia.
Qed.

Lemma skip_multiline_comment_follows st :
  within st -> follows st (skip_multiline_comment st).
Proof. apply skip_multiline_comment_loop_follows. Qed.


(* ----- digits and identifiers ------------------------------------------------ *)

Lemma skip_digits_loop_follows fuel st :
  within st -> follows st (skip_digits_loop fuel st).
Proof.
  revert st. induction fuel as [|fuel IH]; intros st Hw; cbn [skip_digits_loop].
  - now apply follows_refl.
  - destruct (_ || _); [|now apply follows_refl].
    pose proof (advance_follows st Hw) as Ha.
    eapply follows_trans; [exact Ha|]. apply IH. exact (follows_within _ _ Ha).
Qed.

Lemma skip_digits_loop_budget f1 f2 st :
  (remaining st <= f1)%nat -> (remaining st <= f2)%nat ->
  skip_digits_loop f1 st = skip_digits_loop f2 st.
Proof.
  revert f2 st. induction f1 as [|f1 IH]; intros f2 st H1 H2.
  - assert (E : is_at_end st = true) by (apply at_end_remaining; lia).
    destruct f2; cbn [skip_digits_loop]; [reflexivity | now rewrite (peek_at_end _ E)].
  - destruct f2 as [|f2].
    { assert (E : is_at_end st = true) by (apply at_end_remaining; lia).
      cbn [skip_digits_loop]. now rewrite (peek_at_end _ E). }
    cbn [skip_digits_loop].
    destruct (is_at_end st) eqn:E; [now rewrite (peek_at_end _ E)|].
    pose proof (advance_remaining st E) as Hr.
    apply not_at_end_remaining in E.
    destruct (_ || _); [apply IH; lia | reflexivity].
Qed.

Lemma skip_digits_follows st : within st -> follows st (skip_digits st).
Proof. apply skip_digits_loop_follows. Qed.

Lemma scan_identifier_loop_follows fuel st :
  within st -> follows st (scan_identifier_loop fuel st).
Proof.
  revert st. induction fuel as [|fuel IH]; intros st Hw; cbn [scan_identifier_loop].
  - now apply follows_refl.
  - destruct (_ || _); [|now apply follows_refl].
    pose proof (advance_follows st Hw) as Ha.
    eapply follows_trans; [exact Ha|]. apply IH. exact (follows_within _ _ Ha).
Qed.

Lemma scan_identifier_loop_budget f1 f2 st :
  (remaining st <= f1)%nat -> (remaining st <= f2)%nat ->
  scan_identifier_loop f1 st = scan_identifier_loop f2 st.
Proof.
  revert f2 st. induction f1 as [|f1 IH]; intros f2 st H1 H2.
  - assert (E : is_at_end st = true) by (apply at_end_remaining; lia).
    destruct f2; cbn [scan_identifier_loop]; [reflexivity | now rewrite (peek_at_end _ E)].
  - destruct f2 as [|f2].
    { assert (E : is_at_end st = true) by (apply at_end_remaining; lia).
      cbn [scan_identifier_loop]. now rewrite (peek_at_end _ E). }
    cbn [scan_identifier_loop].
    destruct (is_at_end st) eqn:E; [now rewrite (peek_at_end _ E)|].
    pose proof (advance_remaining st E) as Hr.
    apply not_at_end_remaining in E.
    destruct (_ || _); [apply IH; lia | reflexivity].
Qed.

Lemma scan_identifier_follows st : within st -> follows st (snd (scan_identifier st)).
Proof. intros Hw. unfold scan_identifier. cbn [snd]. now apply scan_identifier_loop_follows. Qed.

Lemma scan_number_follows st : within st -> follows st (snd (scan_number st)).
Proof.
  intros Hw. unfold scan_number.
  pose proof (skip_digits_follows st Hw) as H1.
  set (st1 := skip_digits st) in *.
  assert (H2 : follows st
                 (snd (if is_char (peek st1) 46 && is_digit (peek_next st1)
                       then (true, skip_digits (snd (advance st1)))
                       else (false, st1)))).
  { destruct (_ && _); cbn [snd]; [|exact H1].
    pose proof (advance_follows st1 (follows_within _ _ H1)) as Ha.
    eapply follows_trans; [exact H1|]. eapply follows_trans; [exact Ha|].
    apply skip_digits_follows. exact (follows_within _ _ Ha). }
  destruct (if is_char (peek st1) 46 && is_digit (peek_next st1)
            then (true, skip_digits (snd (advance st1)))
            else (false, st1)) as [is_float st2]. cbn [snd] in H2.
  assert (H3 : follows st
                 (snd (if is_char (peek st2) 101 || is_char (peek st2) 69
                       then
                         let st := snd (advance st2) in
                         let st := if is_char (peek st) 43 || is_char (peek st) 45
                                   then snd (advance st) else st in
                         if negb (is_digit (peek st)) then (None, st)
                         else (Some true, skip_digits st)
                       else (Some is_float, st2)))).
  { destruct (_ || _); cbn [snd]; [|exact H2].
    pose proof (advance_follows st2 (follows_within _ _ H2)) as Ha.
    set (st3 := snd (advance st2)) in *.
    assert (H4 : follows st (if is_char (peek st3) 43 || is_char (peek st3) 45
                             then snd (advance st3) else st3)).
    { destruct (_ || _).
      - eapply follows_trans; [exact H2|]. eapply follows_trans; [exact Ha|].
        apply advance_follows. exact (follows_within _ _ Ha).
      - eapply follows_trans; [exact H2 | exact Ha]. }
    cbv zeta.
    destruct (negb _); cbn [snd]; [exact H4|].
    eapply follows_trans; [exact H4|]. apply skip_digits_follows.
    exact (follows_within _ _ H4). }
  match type of H3 with
  | follows _ (snd ?x) => destruct x as [exponent st4]
  end.
  cbn [snd] in H3.
  destruct exponent as [[]|]; cbn [snd];
    repeat match goal with
           | |- context [match ?x with Some _ => _ | None => _ end] => destruct x
           end; exact H3.
Qed.


(* ----- strings ------------------------------------------------------------- *)

Lemma scan_string_loop_follows fuel value st :
  within st -> follows st (end_state (scan_string_loop fuel value st)).
Proof.
  revert value st. induction fuel as [|fuel IH]; intros value st Hw;
    cbn [scan_string_loop].
  - now apply follows_refl.
  - destruct (_ && _); [|now apply follows_refl].
    pose proof (advance_follows st Hw) as Ha.
    destruct (is_char (peek st) 10).
    + pose proof (follows_refl st Hw) as Hr.
      pose proof (new_line_follows _ _ (current_ st + 1) Hr) as Hn.
      pose proof (advance_follows _ (follows_within _ _ Hn)) as Hb.
      destruct (advance (new_line st (current_ st + 1))) as [c st1]. cbn [snd] in Hb.
      eapply follows_trans; [exact Hn|]. eapply follows_trans; [exact Hb|].
      apply IH. exact (follows_within _ _ Hb).
    + destruct (is_char (peek st) 92).
      * destruct (is_at_end (snd (advance st))); [exact Ha|].
        pose proof (advance_follows _ (follows_within _ _ Ha)) as Hb.
        destruct (advance (snd (advance st))) as [c st1]. cbn [snd] in Hb.
        eapply follows_trans; [exact Ha|]. eapply follows_trans; [exact Hb|].
        apply IH. exact (follows_within _ _ Hb).
      * destruct (advance st) as [c st1]. cbn [snd] in Ha.
        eapply follows_trans; [exact Ha|]. apply IH. exact (follows_within _ _ Ha).
Qed.

Lemma scan_string_loop_budget f1 f2 value st :
  (remaining st <= f1)%nat -> (remaining st <= f2)%nat ->
  scan_string_loop f1 value st = scan_string_loop f2 value st.
Proof.
  revert f2 value st. induction f1 as [|f1 IH]; intros f2 value st H1 H2.
  - assert (E : is_at_end st = true) by (apply at_end_remaining; lia).
    destruct f2; cbn [scan_string_loop]; [reflexivity | now rewrite E].
  - destruct f2 as [|f2].
    { assert (E : is_at_end st = true) by (apply at_end_remaining; lia).
      cbn [scan_string_loop]. now rewrite E. }
    cbn [scan_string_loop].
    destruct (is_at_end st) eqn:E; [reflexivity|]. cbn [negb andb].
    pose proof (advance_remaining st E) as Hr.
    pose proof E as E'. apply not_at_end_remaining in E'.
    destruct (negb _); [|reflexivity].
    destruct (is_char (peek st) 10).
    + pose proof (advance_remaining (new_line st (current_ st + 1)) E) as Hn.
      rewrite remaining_new_line in Hn.
      destruct (advance (new_line st (current_ st + 1))) as [c st1]. cbn [snd] in Hn.
      apply IH; lia.
    + destruct (is_char (peek st) 92).
      * destruct (is_at_end (snd (advance st))) eqn:E2; [reflexivity|].
        pose proof (advance_remaining _ E2) as Hr2.
        destruct (advance (snd (advance st))) as [c st1]. cbn [snd] in Hr2.
        apply IH; lia.
      * destruct (advance st) as [c st1]. cbn [snd] in Hr. apply IH; lia.
Qed.

Lemma scan_string_follows st : within st -> follows st (snd (scan_string st)).
Proof.
  intros Hw. unfold scan_string.
  pose proof (scan_string_loop_follows (remaining st) EmptyString st Hw) as H.
  destruct (scan_string_loop (remaining st) EmptyString st) as [[t st1] | [v st1]];
    cbn [end_state] in H; cbn [snd]; [exact H|].
  destruct (is_at_end st1); cbn [snd]; [exact H|].
  eapply follows_trans; [exact H|]. apply advance_follows. exact (follows_within _ _ H).
Qed.

Lemma two_char_follows c yes no st : within st -> follows st (snd (two_char c yes no st)).
Proof.
  intros Hw. unfold two_char. pose proof (match_follows c st Hw) as H.
  destruct (match_ c st) as [m st1]. exact H.
Qed.


(* ----- scan_token ------------------------------------------------------------- *)

Lemma follows_after_advance st st1 :
  follows st st1 -> is_at_end st1 = false ->
  follows st (snd (advance (with_start st1 (current_ st1)))) /\
  (remaining (snd (advance (with_start st1 (current_ st1)))) < remaining st)%nat.
Proof.
  intros H E.
  pose proof (with_start_follows _ _ (current_ st1) H) as Hs.
  pose proof (advance_follows _ (follows_within _ _ Hs)) as Ha.
  pose proof (advance_remaining (with_start st1 (current_ st1)) E) as Hr.
  rewrite remaining_with_start in Hr.
  apply not_at_end_remaining in E.
  pose proof (follows_remaining _ _ H).
  split; [eapply follows_trans; eassumption | lia].
Qed.

(** [scan_token] stays inside the source, and reads at least one character
    unless it returns the [Eof] token. *)
Lemma scan_token_fuel_follows fuel st :
  within st ->
  follows st (snd (scan_token_fuel fuel st)) /\
  (type (fst (scan_token_fuel fuel st)) <> Eof ->
   (remaining (snd (scan_token_fuel fuel st)) < remaining st)%nat).
Proof.
  revert st. induction fuel as [|fuel IH]; intros st Hw.
  - cbn. split; [now apply follows_refl | congruence].
  - cbn [scan_token_fuel].
    pose proof (skip_whitespace_follows st Hw) as H1.
    set (st1 := skip_whitespace st) in *.
    destruct (is_at_end st1) eqn:E.
    { cbn [fst snd]. split; [exact H1 | cbn; congruence]. }
    destruct (follows_after_advance st st1 H1 E) as [H3 Hlt].
    destruct (advance (with_start st1 (current_ st1))) as [c st3]. cbn [snd] in H3, Hlt.
    assert (Hleaf : forall r : Token * State,
               follows st3 (snd r) ->
               follows st (snd r) /\
               (type (fst r) <> Eof -> (remaining (snd r) < remaining st)%nat)).
    { intros r Hr. split; [eapply follows_trans; eassumption|].
      intros _. pose proof (follows_remaining _ _ Hr). lia. }
    pose proof (follows_within _ _ H3) as Hw3.
    cbv zeta.
    repeat match goal with
           | |- context [if is_char c ?k then _ else _] => destruct (is_char c k)
           | |- context [if is_digit c then _ else _] => destruct (is_digit c)
           | |- context [if is_alpha c || is_char c 95 then _ else _] =>
               destruct (is_alpha c || is_char c 95)
           end;
      try (apply Hleaf; cbn [snd]; now apply follows_refl);
      try (apply Hleaf; now apply two_char_follows);
      try (apply Hleaf; now apply scan_string_follows);
      try (apply Hleaf; now apply scan_number_follows);
      try (apply Hleaf; now apply scan_identifier_follows).
    + pose proof (match_follows (Str.chr 61) st3 Hw3) as Hm.
      destruct (match_ (Str.chr 61) st3) as [m st4]. cbn [snd] in Hm.
      destruct m; apply Hleaf; exact Hm.
    + pose proof (match_follows (Str.chr 91) st3 Hw3) as Hm.
      destruct (match_ (Str.chr 91) st3) as [m st4]. cbn [snd] in Hm.
      pose proof (follows_within _ _ Hm) as Hw4.
      destruct m.
      * pose proof (skip_multiline_comment_follows st4 Hw4) as Hc.
        destruct (IH _ (follows_within _ _ Hc)) as [Hf Hp].
        assert (Hall : follows st3 (snd (scan_token_fuel fuel (skip_multiline_comment st4)))).
        { eapply follows_trans; [exact Hm|]. eapply follows_trans; [exact Hc | exact Hf]. }
        exact (Hleaf _ Hall).
      * pose proof (skip_comment_follows st4 Hw4) as Hc.
        destruct (IH _ (follows_within _ _ Hc)) as [Hf Hp].
        assert (Hall : follows st3 (snd (scan_token_fuel fuel (skip_comment st4)))).
        { eapply follows_trans; [exact Hm|]. eapply follows_trans; [exact Hc | exact Hf]. }
        exact (Hleaf _ Hall).
Qed.


Lemma scan_token_fuel_budget f1 f2 st :
  within st -> (remaining st < f1)%nat -> (remaining st < f2)%nat ->
  scan_token_fuel f1 st = scan_token_fuel f2 st.
Proof.
  revert f2 st. induction f1 as [|f1 IH]; intros f2 st Hw H1 H2; [lia|].
  destruct f2 as [|f2]; [lia|].
  cbn [scan_token_fuel].
  pose proof (skip_whitespace_follows st Hw) as Hs.
  set (st1 := skip_whitespace st) in *.
  destruct (is_at_end st1) eqn:E; [reflexivity|].
  destruct (follows_after_advance st st1 Hs E) as [H3 Hlt].
  destruct (advance (with_start st1 (current_ st1))) as [c st3]. cbn [snd] in H3, Hlt.
  pose proof (follows_within _ _ H3) as Hw3.
  cbv zeta.
  repeat match goal with
         | |- context [if is_char c ?k then _ else _] => destruct (is_char c k)
         | |- context [if is_digit c then _ else _] => destruct (is_digit c)
         | |- context [if is_alpha c || is_char c 95 then _ else _] =>
             destruct (is_alpha c || is_char c 95)
         end;
    try reflexivity.
  pose proof (match_follows (Str.chr 91) st3 Hw3) as Hm.
  destruct (match_ (Str.chr 91) st3) as [m st4]. cbn [snd] in Hm.
  pose proof (follows_within _ _ Hm) as Hw4.
  pose proof (follows_remaining _ _ Hm) as Hr4.
  destruct m.
  - pose proof (skip_multiline_comment_follows st4 Hw4) as Hc.
    pose proof (follows_remaining _ _ Hc).
    apply IH; [exact (follows_within _ _ Hc) | lia | lia].
  - pose proof (skip_comment_follows st4 Hw4) as Hc.
    pose proof (follows_remaining _ _ Hc).
    apply IH; [exact (follows_within _ _ Hc) | lia | lia].
Qed.

Lemma next_token_follows st :
  within st ->
  follows st (snd (next_token st)) /\
  (type (fst (next_token st)) <> Eof ->
   (remaining (snd (next_token st)) < remaining st)%nat).
Proof.
  intros Hw. unfold next_token, scan_token.
  destruct (is_at_end st).
  - cbn. split; [now apply follows_refl | congruence].
  - now apply scan_token_fuel_follows.
Qed.

(** The budget of [tokenize]'s loop: any budget above the number of
    characters left gives the same tokens. *)
Lemma tokenize_loop_budget f1 f2 tokens st :
  within st -> (remaining st < f1)%nat -> (remaining st < f2)%nat ->
  tokenize_loop f1 tokens st = tokenize_loop f2 tokens st.
Proof.
  revert f2 tokens st. induction f1 as [|f1 IH]; intros f2 tokens st Hw H1 H2; [lia|].
  destruct f2 as [|f2]; [lia|].
  cbn [tokenize_loop].
  destruct (is_at_end st); [reflexivity|].
  destruct (next_token_follows st Hw) as [Hf Hp].
  destruct (next_token st) as [token st1]. cbn [fst snd] in Hf, Hp.
  unfold type_eqb at 1 3.
  destruct (TokenType_eq_dec (type token) Eof) as [|Hne]; [reflexivity|].
  cbn [orb].
  destruct (type_eqb (type token) Error); [reflexivity|].
  specialize (Hp Hne).
  apply IH; [exact (follows_within _ _ Hf) | lia | lia].
Qed.

(* ----- the passes of tokenize's loop ------------------------------------ *)

Lemma first_tokens_cons n st :
  first_tokens (S n) st = nth_token 0 st :: first_tokens n (snd (next_token st)).
Proof.
  unfold first_tokens. cbn [seq map]. apply f_equal.
  rewrite <- seq_shift, List.map_map. apply List.map_ext. intros k.
  unfold nth_token. cbn [lexer_after]. reflexivity.
Qed.

(** The loop of [tokenize] makes [n] passes whose tokens do not stop it,
    [n] at most the number of characters left, and then ends: at the end
    of the source, or on the token of one more pass. No budget above the
    number of characters left is used up. *)
Lemma tokenize_loop_passes m :
  forall st, within st -> (remaining st <= m)%nat ->
  exists n,
    (n <= remaining st)%nat /\
    (forall k, (k < n)%nat ->
       is_at_end (lexer_after k st) = false /\ stops (nth_token k st) = false) /\
    ((is_at_end (lexer_after n st) = true /\
      forall fuel tokens, (remaining st < fuel)%nat ->
        tokenize_loop fuel tokens st = (tokens ++ first_tokens n st, lexer_after n st)) \/
     (is_at_end (lexer_after n st) = false /\ stops (nth_token n st) = true /\
      forall fuel tokens, (remaining st < fuel)%nat ->
        tokenize_loop fuel tokens st
        = (tokens ++ first_tokens (S n) st, lexer_after (S n) st))).
Proof.
  induction m as [|m IH]; intros st Hw Hm.
  - exists 0%nat. split; [lia |]. split; [intros k Hk; lia |]. left.
    assert (E : is_at_end st = true) by (apply at_end_remaining; lia).
    split; [exact E |]. intros [|fuel] tokens Hfuel; [lia |].
    cbn [tokenize_loop lexer_after]. rewrite E. unfold first_tokens. cbn [seq map].
    now rewrite app_nil_r.
  - destruct (is_at_end st) eqn:E.
    { exists 0%nat. split; [lia |]. split; [intros k Hk; lia |]. left.
      split; [exact E |]. intros [|fuel] tokens Hfuel; [lia |].
      cbn [tokenize_loop lexer_after]. rewrite E. unfold first_tokens. cbn [seq map].
      now rewrite app_nil_r. }
    destruct (next_token_follows st Hw) as [Hf Hp].
    destruct (stops (fst (next_token st))) eqn:Hstop.
    { exists 0%nat. split; [lia |]. split; [intros k Hk; lia |]. right.
      split; [exact E |]. split; [exact Hstop |].
      intros [|fuel] tokens Hfuel; [lia |].
      cbn [tokenize_loop]. rewrite E.
      unfold stops in Hstop. destruct (next_token st) as [token st1] eqn:Hnext.
      cbn [fst] in Hstop. rewrite Hstop.
      rewrite first_tokens_cons. unfold first_tokens, nth_token.
      cbn [seq map lexer_after]. now rewrite Hnext. }
    assert (Hne : type (fst (next_token st)) <> Eof).
    { unfold stops in Hstop. apply orb_false_elim in Hstop as [H _].
      unfold type_eqb in H. now destruct (TokenType_eq_dec _ Eof). }
    specialize (Hp Hne).
    destruct (IH (snd (next_token st)) (follows_within _ _ Hf) ltac:(lia))
      as (n & Hn & Hbefore & Hend).
    exists (S n). split; [lia |]. split.
    { intros [|k] Hk; [split; [exact E | exact Hstop] |].
      exact (Hbefore k ltac:(lia)). }
    assert (Hloop : forall fuel tokens, (remaining st < fuel)%nat ->
               tokenize_loop fuel tokens st
               = tokenize_loop (Nat.pred fuel) (tokens ++ [nth_token 0 st])
                   (snd (next_token st))).
    { intros [|fuel] tokens Hfuel; [lia |]. cbn [tokenize_loop Nat.pred]. rewrite E.
      unfold nth_token. cbn [lexer_after]. unfold stops in Hstop.
      destruct (next_token st) as [token st1]. cbn [fst snd] in *. now rewrite Hstop. }
    destruct Hend as [(Hat & Hrun) | (Hat & Hst & Hrun)]; [left | right].
    + split; [exact Hat |]. intros fuel tokens Hfuel.
      rewrite Hloop by exact Hfuel. rewrite Hrun by lia.
      rewrite first_tokens_cons, <- app_assoc. reflexivity.
    + split; [exact Hat |]. split; [exact Hst |]. intros fuel tokens Hfuel.
      rewrite Hloop by exact Hfuel. rewrite Hrun by lia.
      rewrite (first_tokens_cons (S n)), <- app_assoc. reflexivity.
Qed.

(** X1. The loop of [tokenize] ends on its own. From a position inside the
    source it makes [n] passes, each of which calls [next_token] on a state
    that is not at the end and gets a token that is neither Eof nor Error,
    with [n] at most the number of characters left; then it leaves through
    one of its two exits, the end of the source or the [break] on an Eof or
    Error token, with exactly the tokens of these calls. This is the result
    for every budget above the number of characters left. *)
Theorem X1_tokenize_loop_ends (st : State) :
  within st ->
  exists n,
    (n <= remaining st)%nat /\
    (forall k, (k < n)%nat ->
       is_at_end (lexer_after k st) = false /\ stops (nth_token k st) = false) /\
    ((is_at_end (lexer_after n st) = true /\
      forall fuel tokens, (remaining st < fuel)%nat ->
        tokenize_loop fuel tokens st = (tokens ++ first_tokens n st, lexer_after n st)) \/
     (is_at_end (lexer_after n st) = false /\ stops (nth_token n st) = true /\
      forall fuel tokens, (remaining st < fuel)%nat ->
        tokenize_loop fuel tokens st
        = (tokens ++ first_tokens (S n) st, lexer_after (S n) st))).
Proof. intros Hw. now apply (tokenize_loop_passes (remaining st)). Qed.

Lemma X1_tokenize_loop_ends_witness :
  exists n,
    (n <= remaining (new "x + 1" "t"))%nat /\
    (forall k, (k < n)%nat ->
       is_at_end (lexer_after k (new "x + 1" "t")) = false /\
       stops (nth_token k (new "x + 1" "t")) = false) /\
    ((is_at_end (lexer_after n (new "x + 1" "t")) = true /\
      forall fuel tokens, (remaining (new "x + 1" "t") < fuel)%nat ->
        tokenize_loop fuel tokens (new "x + 1" "t")
        = (tokens ++ first_tokens n (new "x + 1" "t"),
           lexer_after n (new "x + 1" "t"))) \/
     (is_at_end (lexer_after n (new "x + 1" "t")) = false /\
      stops (nth_token n (new "x + 1" "t")) = true /\
      forall fuel tokens, (remaining (new "x + 1" "t") < fuel)%nat ->
        tokenize_loop fuel tokens (new "x + 1" "t")
        = (tokens ++ first_tokens (S n) (new "x + 1" "t"),
           lexer_after (S n) (new "x + 1" "t")))).
Proof.
  apply (X1_tokenize_loop_ends (new "x + 1" "t")). unfold within; cbn. lia.
Defined.

End LexerBudget.

(* ----- a loop that advances while the next character satisfies [q] ------ *)

Section SkipLoop.
Import Tok Lexer.

Variable loop : nat -> State -> State.
Variable q : ascii -> bool.
Variable next : State -> State.

Hypothesis loop_0 : forall st, loop 0 st = st.
Hypothesis loop_S : forall fuel st,
  loop (S fuel) st
  = if negb (is_at_end st) && q (peek st) then loop fuel (next st) else st.
Hypothesis next_moves : forall st,
  is_at_end st = false ->
  source_ (next st) = source_ st /\ current_ (next st) = S (current_ st).

Lemma loop_skipped fuel :
  forall st, within st -> (remaining st <= fuel)%nat -> skipped q st (loop fuel st).
Proof.
  induction fuel as [|fuel IH]; intros st Hw Hfuel.
  - rewrite loop_0. split; [now apply follows_refl |]. split; [intros i Hi; lia |].
    left. apply at_end_remaining. lia.
  - rewrite loop_S. destruct (is_at_end st) eqn:E; cbn [negb andb].
    { split; [now apply follows_refl |]. split; [intros i Hi; lia | now left]. }
    destruct (q (peek st)) eqn:Hq.
    + destruct (next_moves st E) as [Hs Hc].
      pose proof E as E'. apply not_at_end_remaining in E'. unfold remaining in E'.
      assert (Hw' : within (next st)) by (unfold within; rewrite Hs, Hc; lia).
      assert (Hr : (remaining (next st) <= fuel)%nat).
      { unfold remaining in *. rewrite Hs, Hc. lia. }
      destruct (IH (next st) Hw' Hr) as ((Hs' & Hc' & Hl') & Hall & Hexit).
      split; [| split; [| exact Hexit]].
      * unfold follows. rewrite Hs', Hs in *. repeat split; lia.
      * intros i Hi. destruct (Nat.eq_dec i (current_ st)) as [-> | Hne].
        -- unfold peek in Hq. now rewrite E in Hq.
        -- specialize (Hall i ltac:(lia)). unfold char_at in *. now rewrite Hs in Hall.
    + split; [now apply follows_refl |]. split; [intros i Hi; lia | now right].
Qed.

End SkipLoop.

Section LexerLoops.
Import Tok Lexer.

Lemma advance_moves st :
  is_at_end st = false ->
  source_ (snd (advance st)) = source_ st /\
  current_ (snd (advance st)) = S (current_ st).
Proof. intros E. unfold advance. rewrite E. split; reflexivity. Qed.

Lemma skip_whitespace_skipped st : within st -> skipped is_blank st (skip_whitespace st).
Proof.
  intros Hw.
  apply (loop_skipped skip_whitespace_loop is_blank
           (fun st => if is_char (peek st) 10
                      then new_line (snd (advance st)) (current_ (snd (advance st)))
                      else snd (advance st)));
    [reflexivity | | | exact Hw | apply le_n].
  - intros fuel s. cbn [skip_whitespace_loop]. unfold is_blank, is_char.
    destruct (is_at_end s); [reflexivity |]. cbn [negb andb].
    destruct (Z.eqb_spec (Str.code (peek s)) 32) as [H32 | H32];
      destruct (Z.eqb_spec (Str.code (peek s)) 9) as [H9 | H9];
      destruct (Z.eqb_spec (Str.code (peek s)) 13) as [H13 | H13];
      destruct (Z.eqb_spec (Str.code (peek s)) 10) as [H10 | H10];
      cbn [orb]; try reflexivity; lia.
  - intros s E. destruct (advance_moves s E) as [Hs Hc].
    destruct (is_char (peek s) 10); [unfold new_line; cbn [source_ current_] |];
      split; assumption.
Qed.

Lemma skip_comment_skipped st : within st -> skipped in_line st (skip_comment st).
Proof.
  intros Hw.
  apply (loop_skipped skip_comment_loop in_line (fun st => snd (advance st)));
    [reflexivity | intros; reflexivity | apply advance_moves | exact Hw | apply le_n].
Qed.

Lemma nul_at_end (q : ascii -> bool) st :
  q nul = false -> q (peek st) = negb (is_at_end st) && q (peek st).
Proof.
  intros Hq. unfold peek. destruct (is_at_end st); [exact Hq | reflexivity].
Qed.

Lemma skip_digits_skipped st : within st -> skipped is_digit_part st (skip_digits st).
Proof.
  intros Hw.
  apply (loop_skipped skip_digits_loop is_digit_part (fun st => snd (advance st)));
    [reflexivity | | apply advance_moves | exact Hw | apply le_n].
  intros fuel s. cbn [skip_digits_loop].
  change (is_digit (peek s) || is_char (peek s) 95) with (is_digit_part (peek s)).
  now rewrite <- (nul_at_end is_digit_part s eq_refl).
Qed.

Lemma scan_identifier_skipped st :
  within st -> skipped is_identifier_part st (scan_identifier_loop (remaining st) st).
Proof.
  intros Hw.
  apply (loop_skipped scan_identifier_loop is_identifier_part (fun st => snd (advance st)));
    [reflexivity | | apply advance_moves | exact Hw | apply le_n].
  intros fuel s. cbn [scan_identifier_loop].
  change (is_alnum (peek s) || is_char (peek s) 95) with (is_identifier_part (peek s)).
  now rewrite <- (nul_at_end is_identifier_part s eq_refl).
Qed.

(** The loop of [skip_multiline_comment] ends at the end of the source or
    just behind a closing mark. *)
Lemma skip_multiline_comment_loop_ends fuel :
  forall st, within st -> (remaining st <= fuel)%nat ->
    is_at_end (skip_multiline_comment_loop fuel st) = true \/
    comment_closed st (skip_multiline_comment_loop fuel st).
Proof.
  induction fuel as [|fuel IH]; intros st Hw Hfuel; cbn [skip_multiline_comment_loop].
  - left. apply at_end_remaining. lia.
  - destruct (is_at_end st) eqn:E; [now left |].
    destruct (advance_moves st E) as [Hs Hc].
    pose proof E as E'. apply not_at_end_remaining in E'. unfold remaining in E'.
    destruct (is_char (peek st) 93 && is_char (peek_next st) 35) eqn:Hclose.
    + right. apply andb_prop in Hclose as [H1 H2].
      assert (E2 : is_at_end (snd (advance st)) = false).
      { unfold peek_next in H2. unfold is_at_end. rewrite Hs, Hc.
        destruct (String.length (source_ st) <=? current_ st + 1)%nat eqn:El;
          [discriminate H2 |].
        apply Nat.leb_gt in El. apply Nat.leb_gt. lia. }
      destruct (advance_moves _ E2) as [Hs2 Hc2].
      unfold comment_closed. rewrite Hc2, Hc.
      replace (S (S (current_ st)) - 2)%nat with (current_ st) by lia.
      replace (S (S (current_ st)) - 1)%nat with (current_ st + 1)%nat by lia.
      split; [lia |]. split.
      * unfold peek in H1. now rewrite E in H1.
      * unfold peek_next in H2.
        destruct (String.length (source_ st) <=? current_ st + 1)%nat;
          [discriminate H2 | exact H2].
    + assert (Hstep : forall s, source_ s = source_ st -> current_ s = S (current_ st) ->
                is_at_end (skip_multiline_comment_loop fuel s) = true \/
                comment_closed st (skip_multiline_comment_loop fuel s)).
      { intros s Hss Hsc.
        destruct (IH s) as [Hend | (Hlen & Hc1 & Hc2)].
        - unfold within. rewrite Hss, Hsc. lia.
        - unfold remaining in *. rewrite Hss, Hsc. lia.
        - now left.
        - right. unfold comment_closed, char_at in *. rewrite Hss, Hsc in *.
          split; [lia | split; assumption]. }
      destruct (is_char (peek st) 10); apply Hstep; cbn; assumption.
Qed.

(** The loop of [scan_string] ends with an error at the end of the source,
    at the end of the source, or in front of the closing quote. *)
Lemma scan_string_loop_ends fuel :
  forall value st, within st -> (remaining st <= fuel)%nat ->
    string_loop_ended (scan_string_loop fuel value st).
Proof.
  induction fuel as [|fuel IH]; intros value st Hw Hfuel; cbn [scan_string_loop].
  - left. apply at_end_remaining. lia.
  - destruct (is_at_end st) eqn:E; cbn [negb andb]; [now left |].
    destruct (is_char (peek st) 34) eqn:Hquote; cbn [negb]; [now right |].
    destruct (advance_moves st E) as [Hs Hc].
    pose proof E as E'. apply not_at_end_remaining in E'. unfold remaining in E'.
    destruct (is_char (peek st) 10).
    + assert (En : is_at_end (new_line st (current_ st + 1)) = false) by exact E.
      destruct (advance_moves _ En) as [Hs2 Hc2].
      destruct (advance (new_line st (current_ st + 1))) as [c st1]. cbn [snd] in Hs2, Hc2.
      cbn in Hs2, Hc2.
      apply IH; [unfold within | unfold remaining in *]; rewrite Hs2, Hc2; lia.
    + destruct (is_char (peek st) 92).
      * destruct (is_at_end (snd (advance st))) eqn:E2; [split; [reflexivity | exact E2] |].
        destruct (advance_moves _ E2) as [Hs2 Hc2].
        pose proof E2 as E2'. apply not_at_end_remaining in E2'. unfold remaining in E2'.
        rewrite Hs, Hc in E2'.
        destruct (advance (snd (advance st))) as [c st1]. cbn [snd] in Hs2, Hc2.
        rewrite Hs in Hs2. rewrite Hc in Hc2.
        apply IH; [unfold within | unfold remaining in *]; rewrite Hs2, Hc2; lia.
      * destruct (advance st) as [c st1]. cbn [snd] in Hs, Hc.
        apply IH; [unfold within | unfold remaining in *]; rewrite Hs, Hc; lia.
Qed.

(* ----- the tokens that are not Eof ---------------------------------------- *)

Lemma identifier_type_kind lexeme : identifier_type lexeme <> Eof.
Proof.
  unfold identifier_type, keywords, find_keyword.
  repeat match goal with
         | |- context [if String.eqb ?a ?b then _ else _] => destruct (String.eqb a b)
         end; cbn; discriminate.
Qed.

Lemma scan_identifier_kind st : type (fst (scan_identifier st)) <> Eof.
Proof. unfold scan_identifier. cbn [fst make_token type]. apply identifier_type_kind. Qed.

Lemma scan_number_kind st : type (fst (scan_number st)) <> Eof.
Proof.
  unfold scan_number.
  repeat match goal with
         | |- context [match ?x with pair _ _ => _ end] => destruct x
         | |- context [match ?x with Some _ => _ | None => _ end] => destruct x
         | |- context [if ?b then _ else _] => destruct b
         end; cbn [fst make_token error_token type]; discriminate.
Qed.

Lemma scan_string_kind st : within st -> type (fst (scan_string st)) <> Eof.
Proof.
  intros Hw. unfold scan_string.
  pose proof (scan_string_loop_ends (remaining st) EmptyString st Hw (le_n _)) as H.
  destruct (scan_string_loop (remaining st) EmptyString st) as [[t st1] | [v st1]];
    cbn [string_loop_ended] in H.
  - cbn [fst]. destruct H as [-> _]. discriminate.
  - destruct (is_at_end st1); cbn [fst make_token error_token type]; discriminate.
Qed.

(** [scan_token] returns the Eof token only at the end of the source. *)
Lemma scan_token_fuel_ends fuel :
  forall st, within st -> (remaining st < fuel)%nat ->
    type (fst (scan_token_fuel fuel st)) = Eof ->
    is_at_end (snd (scan_token_fuel fuel st)) = true.
Proof.
  induction fuel as [|fuel IH]; intros st Hw Hfuel; [lia |].
  cbn [scan_token_fuel].
  pose proof (skip_whitespace_follows st Hw) as Hs.
  set (st1 := skip_whitespace st) in *.
  destruct (is_at_end st1) eqn:E; [intros _; exact E |].
  destruct (follows_after_advance st st1 Hs E) as [H3 Hlt].
  destruct (advance (with_start st1 (current_ st1))) as [c st3]. cbn [snd] in H3, Hlt.
  pose proof (follows_within _ _ H3) as Hw3.
  cbv zeta. unfold two_char.
  repeat match goal with
         | |- context [if is_char c ?k then _ else _] => destruct (is_char c k)
         | |- context [if is_digit c then _ else _] => destruct (is_digit c)
         | |- context [if is_alpha c || is_char c 95 then _ else _] =>
             destruct (is_alpha c || is_char c 95)
         end;
    try (cbn [fst make_token error_token type]; discriminate);
    try (intros H; exfalso; revert H;
         first [ apply scan_string_kind; exact Hw3
               | apply scan_number_kind | apply scan_identifier_kind ]);
    try (destruct (match_ _ st3) as [[] st4];
         cbn [fst make_token error_token type]; discriminate).
  pose proof (match_follows (Str.chr 91) st3 Hw3) as Hm.
  destruct (match_ (Str.chr 91) st3) as [m st4]. cbn [snd] in Hm.
  pose proof (follows_within _ _ Hm) as Hw4.
  pose proof (follows_remaining _ _ Hm) as Hr4.
  destruct m.
  - pose proof (skip_multiline_comment_follows st4 Hw4) as Hc.
    pose proof (follows_remaining _ _ Hc).
    apply IH; [exact (follows_within _ _ Hc) | lia].
  - pose proof (skip_comment_follows st4 Hw4) as Hc.
    pose proof (follows_remaining _ _ Hc).
    apply IH; [exact (follows_within _ _ Hc) | lia].
Qed.

(** X2. Every loop inside [scan_token] ends on its own, within the
    characters left. From a position inside the source: [skip_whitespace],
    [skip_comment], the digit runs of [scan_number] and the loop of
    [scan_identifier] move over characters of their kind only and stop at
    the end of the source or in front of the first character of another
    kind; [skip_multiline_comment] stops at the end of the source or just
    behind a closing mark; the loop of [scan_string] stops at the end of
    the source, in front of the closing quote, or with the error of a
    backslash that ends the source; and [scan_token], which calls itself
    after a comment, returns a token other than Eof after reading at least
    one character, and Eof only at the end of the source. A larger budget
    changes none of these results. *)
Theorem X2_scan_token_ends (st : State) (extra : nat) :
  within st ->
  (skipped is_blank st (skip_whitespace st) /\
   skip_whitespace_loop (remaining st + extra) st = skip_whitespace st) /\
  (skipped in_line st (skip_comment st) /\
   skip_comment_loop (remaining st + extra) st = skip_comment st) /\
  (skipped is_digit_part st (skip_digits st) /\
   skip_digits_loop (remaining st + extra) st = skip_digits st) /\
  (skipped is_identifier_part st (scan_identifier_loop (remaining st) st) /\
   scan_identifier_loop (remaining st + extra) st
   = scan_identifier_loop (remaining st) st) /\
  (follows st (skip_multiline_comment st) /\
   (is_at_end (skip_multiline_comment st) = true \/
    comment_closed st (skip_multiline_comment st)) /\
   skip_multiline_comment_loop (remaining st + extra) st = skip_multiline_comment st) /\
  (forall value,
     follows st (end_state (scan_string_loop (remaining st) value st)) /\
     string_loop_ended (scan_string_loop (remaining st) value st) /\
     scan_string_loop (remaining st + extra) value st
     = scan_string_loop (remaining st) value st) /\
  (follows st (snd (scan_token st)) /\
   (type (fst (scan_token st)) = Eof -> is_at_end (snd (scan_token st)) = true) /\
   (type (fst (scan_token st)) <> Eof ->
    (remaining (snd (scan_token st)) < remaining st)%nat) /\
   scan_token_fuel (S (remaining st) + extra) st = scan_token st).
Proof.
  intros Hw.
  split; [split; [now apply skip_whitespace_skipped
                 | apply skip_whitespace_loop_budget; lia] |].
  split; [split; [now apply skip_comment_skipped
                 | apply skip_comment_loop_budget; lia] |].
  split; [split; [now apply skip_digits_skipped
                 | apply skip_digits_loop_budget; lia] |].
  split; [split; [now apply scan_identifier_skipped
                 | apply scan_identifier_loop_budget; lia] |].
  split; [split; [now apply skip_multiline_comment_follows |
                  split; [now apply skip_multiline_comment_loop_ends
                         | apply skip_multiline_comment_loop_budget; lia]] |].
  split; [intros value;
          split; [now apply scan_string_loop_follows |
                  split; [now apply scan_string_loop_ends
                         | apply scan_string_loop_budget; lia]] |].
  split; [exact (proj1 (scan_token_fuel_follows (S (remaining st)) st Hw)) |].
  split; [exact (scan_token_fuel_ends (S (remaining st)) st Hw (Nat.lt_succ_diag_r _)) |].
  split; [exact (proj2 (scan_token_fuel_follows (S (remaining st)) st Hw)) |].
  apply scan_token_fuel_budget; [assumption | lia | lia].
Qed.

Lemma X2_scan_token_ends_witness :
  skipped is_blank (new "  x + 1" "t") (skip_whitespace (new "  x + 1" "t")) /\
  current_ (skip_whitespace (new "  x + 1" "t")) = 2%nat /\
  (type (fst (scan_token (new "  x + 1" "t"))) <> Eof ->
   (remaining (snd (scan_token (new "  x + 1" "t"))) < remaining (new "  x + 1" "t"))%nat) /\
  scan_token_fuel 9 (new "  x + 1" "t") = scan_token (new "  x + 1" "t").
Proof.
  destruct (X2_scan_token_ends (new "  x + 1" "t") 1)
    as ((Hskip & _) & _ & _ & _ & _ & _ & (_ & _ & Hless & Hscan)).
  - unfold within; cbn. lia.
  - split; [exact Hskip |]. split; [reflexivity |]. split; [exact Hless | exact Hscan].
Defined.

End LexerLoops.

(** ** Semantic types *)

(** C4. The semantic Unknown type is never equal to any type: for every
    semantic type [t], Unknown itself included, [equals] between an Unknown
    type and [t] returns false, whichever of the two is the receiver. *)
Theorem C4_unknown_equals_nothing (t : Types.SemanticType) :
  Types.equals Types.UnknownType t = false /\
  Types.equals t Types.UnknownType = false.
Proof.
  split.
  - reflexivity.
  - destruct t; reflexivity.
Qed.

(** ** Division, modulo and truthiness in the VM *)

Section Arithmetic.
Import Val Bytecode VM.

Lemma binary_div_by_zero a b :
  numeric a = true -> zero_valued b = true ->
  binary_div a b = Throw "Division by zero".
Proof.
  intros Ha Hb.
  destruct a; try discriminate Ha; destruct b; try discriminate Hb;
    cbn in Hb |- *; rewrite Hb; reflexivity.
Qed.

Lemma binary_mod_not_int a b :
  is_int a && is_int b = false ->
  binary_mod a b
  = Throw ("Modulo requires two integers, got " +:+ type_name a
           +:+ " and " +:+ type_name b).
Proof.
  intros H. destruct a; destruct b; try discriminate H; reflexivity.
Qed.

(** Without the one overflow the quotient and the remainder of two
    [int64_t] are the mathematical ones. *)
Lemma quot_in_range x y :
  Num.in_int64 x = true -> y <> 0 -> Num.quotient_overflows x y = false ->
  Num.int64_wrap (Z.quot x y) = Z.quot x y.
Proof.
  unfold Num.in_int64, Num.quotient_overflows, Num.int64_wrap, Num.int64_min, Num.int64_max.
  intros Hx Hy Ho.
  apply andb_prop in Hx as [Hlo Hhi]. apply Z.leb_le in Hlo, Hhi.
  assert (Hq : - 2 ^ 63 <= Z.quot x y <= 2 ^ 63 - 1).
  { pose proof (Z.quot_rem' x y) as E.
    destruct (Z.le_gt_cases 0 x) as [Hx0 | Hx0].
    - destruct (Z.lt_trichotomy y 0) as [Hy0 | [Hy0 | Hy0]]; [| contradiction |].
      + pose proof (Z.quot_opp_r x (- y) ltac:(lia)) as E1. rewrite Z.opp_involutive in E1.
        pose proof (Z.quot_pos x (- y) Hx0 ltac:(lia)).
        pose proof (Z.quot_le_upper_bound x (- y) x ltac:(lia) ltac:(nia)). lia.
      + pose proof (Z.quot_pos x y Hx0 ltac:(lia)).
        pose proof (Z.quot_le_upper_bound x y x ltac:(lia) ltac:(nia)). lia.
    - destruct (Z.lt_trichotomy y 0) as [Hy0 | [Hy0 | Hy0]]; [| contradiction |].
      + pose proof (Z.quot_opp_opp (- x) (- y) ltac:(lia)) as E1.
        rewrite !Z.opp_involutive in E1.
        pose proof (Z.quot_pos (- x) (- y) ltac:(lia) ltac:(lia)).
        pose proof (Z.quot_le_upper_bound (- x) (- y) (- x) ltac:(lia) ltac:(nia)).
        destruct (Z.eq_dec y (-1)) as [-> | Hy1].
        * apply andb_false_iff in Ho as [Ho | Ho]; [apply Z.eqb_neq in Ho; lia | discriminate].
        * pose proof (Z.quot_le_upper_bound (- x) (- y) (2 ^ 62) ltac:(lia) ltac:(nia)). lia.
      + pose proof (Z.quot_opp_l x y ltac:(lia)) as E1.
        pose proof (Z.quot_pos (- x) y ltac:(lia) ltac:(lia)).
        pose proof (Z.quot_le_upper_bound (- x) y (- x) ltac:(lia) ltac:(nia)).
        pose proof (Z.quot_opp_l (- x) y ltac:(lia)) as E2. rewrite Z.opp_involutive in E2.
        lia. }
  rewrite Z.mod_small by lia. lia.
Qed.

Lemma rem_in_range x y :
  Num.in_int64 x = true -> y <> 0 ->
  Num.int64_wrap (Z.rem x y) = Z.rem x y.
Proof.
  unfold Num.in_int64, Num.int64_wrap, Num.int64_min, Num.int64_max.
  intros Hx Hy.
  apply andb_prop in Hx as [Hlo Hhi]. apply Z.leb_le in Hlo, Hhi.
  assert (Hr : - 2 ^ 63 <= Z.rem x y <= 2 ^ 63 - 1).
  { assert (Hpos : forall a b, 0 <= a -> b <> 0 -> 0 <= Z.rem a b <= a).
    { intros a b Ha Hb. split; [now apply Z.rem_nonneg|].
      destruct (Z.lt_trichotomy b 0) as [Hb0 | [Hb0 | Hb0]]; [| contradiction |].
      - rewrite <- (Z.opp_involutive b), Z.rem_opp_r by lia. apply Z.rem_le; lia.
      - apply Z.rem_le; lia. }
    destruct (Z.le_gt_cases 0 x) as [Hx0 | Hx0].
    - pose proof (Hpos x y Hx0 Hy). lia.
    - pose proof (Hpos (- x) y ltac:(lia) Hy).
      pose proof (Z.rem_opp_l (- x) y Hy) as E. rewrite Z.opp_involutive in E. lia. }
  rewrite Z.mod_small by lia. lia.
Qed.

(** [INT64_MIN / -1] has no quotient in [int64_t]: the [DIV] instruction
    on these operands is undefined, and so is the run of a program that
    type checks and computes them; likewise for [%]. *)
Lemma C6_counterexample :
  step div_only no_pow no_fmt
    (running [VInt (-1); VInt Num.int64_min] (new_frame 0 0 0 0) [] EmptyString idle_host)
  = Undefined "INT64_MIN / -1" /\
  (exists program, Driver.front_end min_quotient_source "main.lucid" = inr program) /\
  (forall fuel,
     Driver.run no_pow no_fmt (9 + fuel) idle_host min_quotient_source "main.lucid"
     = Some (Driver.UndefinedBehaviour "INT64_MIN / -1")) /\
  (forall fuel,
     Driver.run no_pow no_fmt (9 + fuel) idle_host min_remainder_source "main.lucid"
     = Some (Driver.UndefinedBehaviour "INT64_MIN % -1")).
Proof.
  split; [reflexivity |]. split; [eexists; vm_compute; reflexivity |].
  split; intros fuel; vm_compute; reflexivity.
Qed.

(** C6. The instruction [DIV] on two Int operands with a divisor other
    than zero pushes their quotient truncated toward zero, unless the
    operands are [INT64_MIN] and -1, for which the division is undefined
    and not guarded. A [DIV] whose divisor equals zero, Int 0 or a Float
    that compares equal to 0.0, raises "Division by zero" for every numeric
    dividend. The instruction [MOD] on two Ints raises "Modulo by zero" for
    a zero divisor and otherwise pushes the remainder, which has the sign
    of the dividend, again unless the operands are [INT64_MIN] and -1; as
    soon as an operand is not an Int it raises "Modulo requires two
    integers, got <type> and <type>". *)
Theorem C6_division_and_modulo bc c_pow fmt_double (a b : Value) s f frames out h :
  (byte_at bc (instruction_pointer f) (opcode_byte DIV) ->
   (forall x y, a = VInt x -> b = VInt y -> Num.in_int64 x = true -> y <> 0 ->
      Num.quotient_overflows x y = false ->
      step bc c_pow fmt_double (running (b :: a :: s) f frames out h)
      = Ok (Continue,
            running (VInt (Z.quot x y) :: s)
              (frame_at f (instruction_pointer f + 1)) frames out h)) /\
   (a = VInt Num.int64_min -> b = VInt (-1) ->
      step bc c_pow fmt_double (running (b :: a :: s) f frames out h)
      = Undefined "INT64_MIN / -1") /\
   (numeric a = true -> zero_valued b = true ->
      step bc c_pow fmt_double (running (b :: a :: s) f frames out h)
      = Throw "Division by zero")) /\
  (byte_at bc (instruction_pointer f) (opcode_byte MOD) ->
   (forall x y, a = VInt x -> b = VInt y -> Num.in_int64 x = true -> y <> 0 ->
      Num.quotient_overflows x y = false ->
      step bc c_pow fmt_double (running (b :: a :: s) f frames out h)
      = Ok (Continue,
            running (VInt (Z.rem x y) :: s)
              (frame_at f (instruction_pointer f + 1)) frames out h)) /\
   (a = VInt Num.int64_min -> b = VInt (-1) ->
      step bc c_pow fmt_double (running (b :: a :: s) f frames out h)
      = Undefined "INT64_MIN % -1") /\
   (forall x, a = VInt x -> b = VInt 0 ->
      step bc c_pow fmt_double (running (b :: a :: s) f frames out h)
      = Throw "Modulo by zero") /\
   (is_int a && is_int b = false ->
      step bc c_pow fmt_double (running (b :: a :: s) f frames out h)
      = Throw ("Modulo requires two integers, got " +:+ type_name a
               +:+ " and " +:+ type_name b))).
Proof.
  split; intros Hop.
  - rewrite (step_binary bc c_pow fmt_double DIV binary_div b a s f frames out h Hop)
      by (cbn; tauto).
    split; [| split].
    + intros x y -> -> Hx Hy Ho. cbn [binary_div].
      destruct (Z.eqb_spec y 0); [contradiction |].
      now rewrite Ho, quot_in_range.
    + intros -> ->. reflexivity.
    + intros Ha Hb. now rewrite binary_div_by_zero.
  - rewrite (step_binary bc c_pow fmt_double MOD binary_mod b a s f frames out h Hop)
      by (cbn; tauto).
    split; [| split; [| split]].
    + intros x y -> -> Hx Hy Ho. cbn [binary_mod].
      destruct (Z.eqb_spec y 0); [contradiction |].
      now rewrite Ho, rem_in_range.
    + intros -> ->. reflexivity.
    + intros x -> ->. reflexivity.
    + intros H. now rewrite binary_mod_not_int.
Qed.

Lemma C6_division_and_modulo_witness :
  step div_only no_pow no_fmt
    (running [VInt (-2); VInt 7] (new_frame 0 0 0 0) [] EmptyString idle_host)
  = Ok (Continue,
        running [VInt (-3)] (frame_at (new_frame 0 0 0 0) 1) [] EmptyString idle_host) /\
  step div_only no_pow no_fmt
    (running [VInt 0; VFloat 1.5] (new_frame 0 0 0 0) [] EmptyString idle_host)
  = Throw "Division by zero" /\
  step mod_only no_pow no_fmt
    (running [VInt 2; VInt (-7)] (new_frame 0 0 0 0) [] EmptyString idle_host)
  = Ok (Continue,
        running [VInt (-1)] (frame_at (new_frame 0 0 0 0) 1) [] EmptyString idle_host) /\
  step mod_only no_pow no_fmt
    (running [VInt 0; VInt 7] (new_frame 0 0 0 0) [] EmptyString idle_host)
  = Throw "Modulo by zero" /\
  step mod_only no_pow no_fmt
    (running [VInt 2; VFloat 1.5] (new_frame 0 0 0 0) [] EmptyString idle_host)
  = Throw "Modulo requires two integers, got Float and Int".
Proof.
  split; [| split; [| split; [| split]]].
  - exact (proj1 (proj1 (C6_division_and_modulo div_only no_pow no_fmt
                           (VInt 7) (VInt (-2)) [] (new_frame 0 0 0 0) []
                           EmptyString idle_host) eq_refl)
             7 (-2) eq_refl eq_refl eq_refl ltac:(lia) eq_refl).
  - exact (proj2 (proj2 (proj1 (C6_division_and_modulo div_only no_pow no_fmt
                                  (VFloat 1.5) (VInt 0) [] (new_frame 0 0 0 0) []
                                  EmptyString idle_host) eq_refl))
             eq_refl eq_refl).
  - exact (proj1 (proj2 (C6_division_and_modulo mod_only no_pow no_fmt
                           (VInt (-7)) (VInt 2) [] (new_frame 0 0 0 0) []
                           EmptyString idle_host) eq_refl)
             (-7) 2 eq_refl eq_refl eq_refl ltac:(lia) eq_refl).
  - exact (proj1 (proj2 (proj2 (proj2 (C6_division_and_modulo mod_only no_pow no_fmt
                                         (VInt 7) (VInt 0) [] (new_frame 0 0 0 0) []
                                         EmptyString idle_host) eq_refl)))
             7 eq_refl eq_refl).
  - exact (proj2 (proj2 (proj2 (proj2 (C6_division_and_modulo mod_only no_pow no_fmt
                                         (VFloat 1.5) (VInt 2) [] (new_frame 0 0 0 0) []
                                         EmptyString idle_host) eq_refl)))
             eq_refl).
Defined.

(** C9. Truthiness: a Bool is itself, an Int is truthy when nonzero, a
    Float when it does not compare equal to zero, a String, a List and a
    Tuple when non-empty, a Function always. [JUMP_IF_FALSE] only looks at
    the top of the stack and moves the instruction pointer by its offset
    exactly when that value is falsy; [NOT] replaces the top of the stack
    by the Bool negation of its truthiness. *)
Theorem C9_truthiness (v : Value) :
  (forall b, v = VBool b -> is_truthy v = b) /\
  (forall i, v = VInt i -> (is_truthy v = true <-> i <> 0)) /\
  (forall f, v = VFloat f -> (is_truthy v = true <-> PrimFloat.eqb f PrimFloat.zero = false)) /\
  (forall s, v = VString s -> (is_truthy v = true <-> s <> EmptyString)) /\
  (forall l, v = VList l \/ v = VTuple l -> (is_truthy v = true <-> l <> [])) /\
  (forall i name, v = VFunction i name -> is_truthy v = true) /\
  (forall bc c_pow fmt_double s f frames out h lo hi,
     byte_at bc (instruction_pointer f) (opcode_byte JUMP_IF_FALSE) ->
     byte_at bc (instruction_pointer f + 1) lo ->
     byte_at bc (instruction_pointer f + 1 + 1) hi ->
     step bc c_pow fmt_double (running (v :: s) f frames out h)
     = Ok (Continue,
           running (v :: s)
             (frame_at f
                (if is_truthy v then instruction_pointer f + 1 + 1 + 1
                 else Num.to_size_t
                        (instruction_pointer f + 1 + 1 + 1
                         + Num.int16_of_uint16 (Z.lor lo (Z.shiftl hi 8)))))
             frames out h)) /\
  (forall bc c_pow fmt_double s f frames out h,
     byte_at bc (instruction_pointer f) (opcode_byte NOT) ->
     step bc c_pow fmt_double (running (v :: s) f frames out h)
     = Ok (Continue,
           running (VBool (negb (is_truthy v)) :: s)
             (frame_at f (instruction_pointer f + 1)) frames out h)).
Proof.
  split; [| split; [| split; [| split; [| split; [| split; [| split]]]]]].
  - intros b ->. reflexivity.
  - intros i ->. cbn. destruct (Z.eqb_spec i 0); cbn; split; congruence.
  - intros f ->. cbn. destruct (PrimFloat.eqb f PrimFloat.zero); cbn; split; congruence.
  - intros s ->. destruct s; cbn; split; congruence.
  - intros l [-> | ->]; destruct l; cbn; split; congruence.
  - intros i name ->. reflexivity.
  - intros bc c_pow fmt_double s f frames out h lo hi Hop Hlo Hhi.
    rewrite (step_jump bc c_pow fmt_double JUMP_IF_FALSE (v :: s)
               (negb (is_truthy v)) f frames out h lo hi Hop Hlo Hhi eq_refl).
    destruct (is_truthy v); reflexivity.
  - intros bc c_pow fmt_double s f frames out h Hop.
    apply step_not. exact Hop.
Qed.

Lemma C9_truthiness_witness :
  is_truthy (VInt 0) = false /\
  step jump_then_not no_pow no_fmt
    (running [VInt 0] (new_frame 0 0 0 0) [] EmptyString idle_host)
  = Ok (Continue, running [VInt 0] (frame_at (new_frame 0 0 0 0) 8) []
                    EmptyString idle_host) /\
  step jump_then_not no_pow no_fmt
    (running [VString "x"] (new_frame 0 0 0 0) [] EmptyString idle_host)
  = Ok (Continue, running [VString "x"] (frame_at (new_frame 0 0 0 0) 3) []
                    EmptyString idle_host) /\
  step jump_then_not no_pow no_fmt
    (running [VString "x"] (frame_at (new_frame 0 0 0 0) 3) [] EmptyString idle_host)
  = Ok (Continue, running [VBool false] (frame_at (new_frame 0 0 0 0) 4) []
                    EmptyString idle_host).
Proof.
  destruct (C9_truthiness (VInt 0)) as (_ & Hi & _ & _ & _ & _ & Hj0 & _).
  destruct (C9_truthiness (VString "x")) as (_ & _ & _ & _ & _ & _ & Hj1 & Hn).
  split; [| split; [| split]].
  - apply not_true_is_false. intros E. exact (proj1 (Hi 0 eq_refl) E eq_refl).
  - apply (Hj0 jump_then_not no_pow no_fmt [] (new_frame 0 0 0 0) [] EmptyString
             idle_host 5 0); reflexivity.
  - apply (Hj1 jump_then_not no_pow no_fmt [] (new_frame 0 0 0 0) [] EmptyString
             idle_host 5 0); reflexivity.
  - apply (Hn jump_then_not no_pow no_fmt [] (frame_at (new_frame 0 0 0 0) 3) []
             EmptyString idle_host); reflexivity.
Defined.

End Arithmetic.

(** ** Numeric promotion *)

Section Promotion.
Import Val Bytecode VM.

(** The checker accepts [5.0 % 2] with type Float, and running it raises a
    type error: at the VM level the promotion of the other arithmetic
    operators does not hold for [%]. *)
Lemma C7_counterexample :
  TypeChecker.check_expression float_mod_int TypeChecker.new
    = (Types.PrimitiveType Types.KFloat, TypeChecker.new) /\
  binary_mod (VFloat 5) (VInt 2)
    = Throw "Modulo requires two integers, got Float and Int" /\
  Driver.run no_pow no_fmt 100 idle_host
    "function main() returns Float { return 5.0 % 2 }" "t"
    = Some (Driver.Raised "Modulo requires two integers, got Float and Int").
Proof. repeat split; vm_compute; reflexivity. Qed.

Lemma check_binary_arithmetic_promotes op lhs rhs loc tc tl tc1 tr tc2 :
  TypeChecker.is_arithmetic op = true ->
  TypeChecker.check_expression lhs tc = (tl, tc1) ->
  TypeChecker.check_expression rhs tc1 = (tr, tc2) ->
  TypeChecker.is_numeric tl = true ->
  TypeChecker.is_numeric tr = true ->
  TypeChecker.check_expression (Ast.BinaryExpr op lhs rhs loc) tc
  = (if TypeChecker.is_float_type tl || TypeChecker.is_float_type tr
     then Types.PrimitiveType Types.KFloat
     else Types.PrimitiveType Types.KInt, tc2).
Proof.
  intros Hop Hl Hr Hnl Hnr.
  cbn [TypeChecker.check_expression]. rewrite Hl, Hr, Hop.
  unfold TypeChecker.arithmetic_result. rewrite Hnl, Hnr. cbn.
  destruct (TypeChecker.is_float_type tl || TypeChecker.is_float_type tr); reflexivity.
Qed.

(** C7. For every binary arithmetic expression whose operands
    have numeric types the checker gives Float when at least one operand
    has type Float and Int when both have type Int, for all six operators.
    In the VM, ADD, SUB, MUL and POW on numeric operands yield a Float,
    computed on the operands converted to double, when at least one is a
    Float, and an Int when both are Ints; DIV does so when the divisor is
    not zero and the quotient is not [INT64_MIN / -1]; MOD then yields an
    Int for two Ints. *)
Theorem C7_numeric_promotion (op : Ast.BinaryOp) :
  TypeChecker.is_arithmetic op = true ->
  (forall lhs rhs loc tc tl tc1 tr tc2,
     TypeChecker.check_expression lhs tc = (tl, tc1) ->
     TypeChecker.check_expression rhs tc1 = (tr, tc2) ->
     TypeChecker.is_numeric tl = true ->
     TypeChecker.is_numeric tr = true ->
     TypeChecker.check_expression (Ast.BinaryExpr op lhs rhs loc) tc
     = (if TypeChecker.is_float_type tl || TypeChecker.is_float_type tr
        then Types.PrimitiveType Types.KFloat
        else Types.PrimitiveType Types.KInt, tc2)) /\
  (forall c_pow g a b,
     vm_arithmetic c_pow op = Some g ->
     numeric a = true -> numeric b = true ->
     (op = Ast.Div \/ op = Ast.Mod ->
        zero_valued b = false /\ quotient_undefined a b = false) ->
     (is_float a || is_float b = true -> op <> Ast.Mod ->
        exists x y, as_double a = Some x /\ as_double b = Some y /\
                    g a b = Ok (VFloat (float_operation c_pow op x y))) /\
     (is_int a && is_int b = true -> exists i, g a b = Ok (VInt i))).
Proof.
  intros Hop. split.
  - intros. eapply check_binary_arithmetic_promotes; eassumption.
  - intros c_pow g a b Hg Ha Hb Hz. split.
    + intros Hf Hmod.
      destruct op; try discriminate Hop; try congruence;
        injection Hg as <-;
        destruct a; try discriminate Ha; destruct b; try discriminate Hb;
        try discriminate Hf; cbn;
        try (destruct Hz as [Hz Ho]; [tauto|]; cbn in Hz, Ho; rewrite Hz; try rewrite Ho);
        eexists; eexists; repeat split; reflexivity.
    + intros Hi.
      destruct op; try discriminate Hop; injection Hg as <-;
        destruct a; try discriminate Hi; destruct b; try discriminate Hi; cbn;
        try (destruct Hz as [Hz Ho]; [tauto|]; cbn in Hz, Ho; rewrite Hz; try rewrite Ho);
        eexists; reflexivity.
Qed.

Lemma C7_numeric_promotion_witness :
  TypeChecker.check_expression int_plus_float TypeChecker.new
  = (Types.PrimitiveType Types.KFloat, TypeChecker.new) /\
  (exists x y, as_double (VInt 1) = Some x /\ as_double (VFloat 2) = Some y /\
               binary_add (VInt 1) (VFloat 2)
               = Ok (VFloat (float_operation no_pow Ast.Add x y))) /\
  (exists i, binary_div (VInt 7) (VInt 2) = Ok (VInt i)).
Proof.
  destruct (C7_numeric_promotion Ast.Add eq_refl) as [Htype Hvm].
  destruct (C7_numeric_promotion Ast.Div eq_refl) as [_ Hdiv].
  split; [| split].
  - apply (Htype (Ast.IntLiteralExpr 1 somewhere) (Ast.FloatLiteralExpr 2 somewhere)
             somewhere TypeChecker.new (Types.PrimitiveType Types.KInt) TypeChecker.new
             (Types.PrimitiveType Types.KFloat) TypeChecker.new);
      reflexivity.
  - apply (Hvm no_pow binary_add (VInt 1) (VFloat 2) eq_refl eq_refl eq_refl).
    + intros [H | H]; discriminate H.
    + reflexivity.
    + discriminate.
  - apply (Hdiv no_pow binary_div (VInt 7) (VInt 2) eq_refl eq_refl eq_refl).
    + intros _. split; reflexivity.
    + reflexivity.
Defined.

End Promotion.

(** ** The lexer and lexical errors *)

Section LexicalErrors.
Import Tok Lexer.

(** [tokenize] stops at the standalone [!]: its output for ["! x"] is the
    Error token and the EOF sentinel, with no token for [x], although
    [next_token], called once more, does yield it. *)
Lemma C3_counterexample :
  map type (Lexer.tokenize "! x" "t") = [Error; Eof] /\
  type (fst (Lexer.next_token (snd (Lexer.next_token (Lexer.new "! x" "t")))))
  = Identifier.
Proof. split; vm_compute; reflexivity. Qed.

Lemma not_stops t : stops t = false -> type t <> Eof /\ type t <> Error.
Proof.
  unfold stops. intros H. apply orb_false_elim in H as [H1 H2]. unfold type_eqb in H1, H2.
  destruct (TokenType_eq_dec (type t) Eof); [discriminate |].
  destruct (TokenType_eq_dec (type t) Error); [discriminate |]. split; assumption.
Qed.

Lemma stops_kind t : stops t = true -> type t = Eof \/ type t = Error.
Proof.
  unfold stops, type_eqb. intros H.
  destruct (TokenType_eq_dec (type t) Eof); [now left |].
  destruct (TokenType_eq_dec (type t) Error); [now right | discriminate H].
Qed.

Lemma last_first_tokens n st :
  last (first_tokens (S n) st) = Some (nth_token n st).
Proof.
  unfold first_tokens. rewrite seq_S, map_app. cbn [map Nat.add]. apply last_snoc.
Qed.

(** C3. [tokenize] halts at the first lexical error. For every source
    text its output is, in order, the tokens that successive calls of
    [next_token] return from the start of the source, up to and including
    the first of them that is Eof or Error; when that token is an Error,
    one Eof token follows it, made where the error left the lexer, and ends
    the output. So the tokens before the error are the ones scanned before
    it, and no token of a lexeme after the error is produced. *)
Theorem C3_tokenize_stops_at_error (source filename : string) :
  exists n,
    (n <= String.length source)%nat /\
    (forall k, (k < n)%nat ->
       type (nth_token k (new source filename)) <> Eof /\
       type (nth_token k (new source filename)) <> Error) /\
    ((type (nth_token n (new source filename)) = Eof /\
      tokenize source filename
      = first_tokens n (new source filename) ++ [nth_token n (new source filename)]) \/
     (type (nth_token n (new source filename)) = Error /\
      tokenize source filename
      = first_tokens n (new source filename)
        ++ [nth_token n (new source filename);
            make_token Eof None (lexer_after (S n) (new source filename))])).
Proof.
  set (st := new source filename).
  assert (Hw : within st) by (unfold within, st, new; cbn; lia).
  destruct (tokenize_loop_passes (remaining st) st Hw (le_n _))
    as (n & Hn & Hbefore & Hend).
  exists n. split; [unfold remaining, st, new in Hn; cbn in Hn; lia |].
  split; [intros k Hk; apply not_stops; now apply Hbefore |].
  assert (Hlast : forall t, last (first_tokens n st) = Some t -> type t <> Eof).
  { intros t Ht. destruct n as [|n]; [discriminate Ht |].
    rewrite last_first_tokens in Ht. injection Ht as <-.
    apply not_stops. apply Hbefore. lia. }
  unfold tokenize, tokenize_from. fold st.
  destruct Hend as [(Hat & Hrun) | (Hat & Hstop & Hrun)];
    rewrite (Hrun (S (remaining st)) [] (Nat.lt_succ_diag_r _)); cbn [app].
  - (* the loop ran to the end of the source *)
    left.
    assert (Heof : nth_token n st = make_token Eof None (lexer_after n st)).
    { unfold nth_token, next_token. now rewrite Hat. }
    split; [now rewrite Heof |]. rewrite Heof.
    destruct (last (first_tokens n st)) as [t|] eqn:Ht; [| reflexivity].
    specialize (Hlast t eq_refl). unfold type_eqb.
    destruct (TokenType_eq_dec (type t) Eof); [contradiction | reflexivity].
  - (* the loop broke on the token of pass [n] *)
    rewrite last_first_tokens.
    assert (Hsplit : first_tokens (S n) st = first_tokens n st ++ [nth_token n st]).
    { unfold first_tokens. rewrite seq_S, map_app. reflexivity. }
    unfold type_eqb. destruct (TokenType_eq_dec (type (nth_token n st)) Eof) as [Heof | Hne].
    + left. split; [exact Heof | exact Hsplit].
    + right. destruct (stops_kind _ Hstop) as [Heof | Herr]; [contradiction |].
      split; [exact Herr |]. rewrite Hsplit, <- app_assoc. reflexivity.
Qed.

End LexicalErrors.

(** ** What a let statement leaves on the operand stack *)

Section LetStatements.
Import Val Bytecode VM Ast.

(** The program [unit_let_source] passes the front end, and its let
    statement is compiled to [BUILD_TUPLE 0; POP]: the tuple pattern ends
    in a [POP]. After the initializer the stack holds the empty tuple;
    after the whole statement the stack is as empty as before, the
    initializer's value is gone. *)
Lemma C10_counterexample :
  statement_code let_unit
  = Ok [opcode_byte BUILD_TUPLE; 0; 0; opcode_byte POP] /\
  exists program bc,
    Driver.front_end unit_let_source "main.lucid" = inr program /\
    Compiler.compile program = Ok bc /\
    instructions bc = unit_let_code /\
    (exists st,
       steps bc no_pow no_fmt 1 (at_entry 0) = Ok st /\
       stack_ st = [VTuple []] /\ ip st = Ok (3, st)) /\
    (exists st,
       steps bc no_pow no_fmt 2 (at_entry 0) = Ok st /\
       stack_ st = [] /\ ip st = Ok (4, st)).
Proof.
  split; [reflexivity|].
  do 2 eexists. split; [vm_compute; reflexivity|].
  split; [vm_compute; reflexivity|].
  split; [reflexivity|].
  split; eexists; (split; [vm_compute; reflexivity | split; reflexivity]).
Qed.

(** A let statement binding an identifier is compiled to the code of its
    initializer followed by one [STORE_LOCAL] of the fresh local, and by
    nothing else. *)
Lemma compile_let_identifier name lp ann init loc st st1 scope rest :
  Compiler.compile_expr init st = Ok st1 ->
  Compiler.scopes_ st1 = scope :: rest ->
  exists st2,
    Compiler.compile_stmt (LetStmt (IdentifierPattern name lp) ann init loc) st = Ok st2 /\
    instructions (Compiler.bytecode_ st2)
    = instructions (Compiler.bytecode_ st1)
      ++ [opcode_byte STORE_LOCAL;
          low_byte (Compiler.u16 (Compiler.local_count scope));
          high_byte (Compiler.u16 (Compiler.local_count scope))] /\
    Compiler.resolve_local name st2 = Some (Compiler.local_count scope).
Proof.
  intros Hinit Hscopes. eexists. split; [|split].
  - cbn [Compiler.compile_stmt]. rewrite Hinit. cbn [rbind].
    cbn [Compiler.compile_pattern]. unfold Compiler.declare_local.
    rewrite Hscopes. cbn [rbind]. reflexivity.
  - reflexivity.
  - unfold Compiler.resolve_local. cbn.
    rewrite lookup_insert_eq. reflexivity.
Qed.

(** A let statement with a tuple pattern is compiled to the code of its
    initializer, the code of the elements and one [POP]. *)
Lemma compile_let_tuple ps lp ann init loc st :
  Compiler.compile_stmt (LetStmt (TuplePattern ps lp) ann init loc) st
  = let* st := Compiler.compile_expr init st in
    let* st := compile_elements true 0 ps st in
    Ok (Compiler.emit POP st).
Proof. reflexivity. Qed.

Lemma step_dup bc c_pow fmt_double v s f frames out h :
  byte_at bc (instruction_pointer f) (opcode_byte DUP) ->
  step bc c_pow fmt_double (running (v :: s) f frames out h)
  = Ok (Continue,
        running (v :: v :: s) (frame_at f (instruction_pointer f + 1)) frames out h).
Proof.
  intros Hb. unfold step, bind at 1.
  rewrite (read_byte_ok _ _ _ _ _ _ _ Hb). reflexivity.
Qed.

Lemma step_index_first bc c_pow fmt_double v vs s f frames out h :
  byte_at bc (instruction_pointer f) (opcode_byte INDEX) ->
  step bc c_pow fmt_double (running (VInt 0 :: VTuple (v :: vs) :: s) f frames out h)
  = Ok (Continue, running (v :: s) (frame_at f (instruction_pointer f + 1)) frames out h).
Proof.
  intros Hb. unfold step, bind at 1.
  rewrite (read_byte_ok _ _ _ _ _ _ _ Hb).
  assert (Hat : at_ (v :: vs) 0 = Some v).
  { unfold at_. destruct (Z.ltb_spec 0 (Z.of_nat (length (v :: vs))));
      [reflexivity | cbn [length] in *; lia]. }
  cbn. rewrite Hat. reflexivity.
Qed.

(** The code of the pattern [(x)] run on a tuple: the element is stored,
    and the [POP] removes the copy that [STORE_LOCAL] left. *)
Lemma one_element_pattern_runs bc c_pow fmt_double v vs s f frames out h klo khi slo shi :
  code_at bc (instruction_pointer f)
    [opcode_byte DUP; opcode_byte CONSTANT; klo; khi; opcode_byte INDEX;
     opcode_byte STORE_LOCAL; slo; shi; opcode_byte POP] ->
  at_ (constants bc) (Z.lor klo (Z.shiftl khi 8)) = Some (VInt 0) ->
  is_Some (at_ (locals f) (Z.lor slo (Z.shiftl shi 8))) ->
  steps bc c_pow fmt_double 5 (running (VTuple (v :: vs) :: s) f frames out h)
  = Ok (running (VTuple (v :: vs) :: s)
          (mkCallFrame (function_index f) (instruction_pointer f + 9) (stack_base f)
             (<[Z.to_nat (Z.lor slo (Z.shiftl shi 8)) := v]> (locals f)))
          frames out h).
Proof.
  intros Hcode Hconst Hslot. destruct f as [fi ip sb ls].
  cbn [instruction_pointer function_index stack_base locals] in *.
  pose proof (Hcode 0%nat _ eq_refl) as B0. pose proof (Hcode 1%nat _ eq_refl) as B1.
  pose proof (Hcode 2%nat _ eq_refl) as B2. pose proof (Hcode 3%nat _ eq_refl) as B3.
  pose proof (Hcode 4%nat _ eq_refl) as B4. pose proof (Hcode 5%nat _ eq_refl) as B5.
  pose proof (Hcode 6%nat _ eq_refl) as B6. pose proof (Hcode 7%nat _ eq_refl) as B7.
  pose proof (Hcode 8%nat _ eq_refl) as B8.
  change (Z.of_nat 0) with 0 in B0. change (Z.of_nat 1) with 1 in B1.
  change (Z.of_nat 2) with 2 in B2. change (Z.of_nat 3) with 3 in B3.
  change (Z.of_nat 4) with 4 in B4. change (Z.of_nat 5) with 5 in B5.
  change (Z.of_nat 6) with 6 in B6. change (Z.of_nat 7) with 7 in B7.
  change (Z.of_nat 8) with 8 in B8.
  rewrite Z.add_0_r in B0.
  cbn [steps].
  rewrite (step_dup bc c_pow fmt_double _ _ (mkCallFrame fi ip sb ls)) by exact B0.
  unfold frame_at, with_ip.
  cbn [instruction_pointer function_index stack_base locals].
  rewrite (step_constant bc c_pow fmt_double (VInt 0) _ (mkCallFrame fi (ip + 1) sb ls)
             frames out h klo khi);
    cbn [instruction_pointer]; try assumption;
    [| now replace (ip + 1 + 1) with (ip + 2) by lia
     | now replace (ip + 1 + 1 + 1) with (ip + 3) by lia].
  unfold frame_at, with_ip.
  cbn [instruction_pointer function_index stack_base locals].
  rewrite (step_index_first bc c_pow fmt_double v vs _
             (mkCallFrame fi (ip + 1 + 1 + 1 + 1) sb ls))
    by (cbn [instruction_pointer]; now replace (ip + 1 + 1 + 1 + 1) with (ip + 4) by lia).
  unfold frame_at, with_ip.
  cbn [instruction_pointer function_index stack_base locals].
  rewrite (step_store_local bc c_pow fmt_double v _
             (mkCallFrame fi (ip + 1 + 1 + 1 + 1 + 1) sb ls) frames out h slo shi);
    cbn [instruction_pointer locals]; try assumption;
    [| now replace (ip + 1 + 1 + 1 + 1 + 1) with (ip + 5) by lia
     | now replace (ip + 1 + 1 + 1 + 1 + 1 + 1) with (ip + 6) by lia
     | now replace (ip + 1 + 1 + 1 + 1 + 1 + 1 + 1) with (ip + 7) by lia].
  cbn [instruction_pointer function_index stack_base locals].
  rewrite (step_pop bc c_pow fmt_double v _
             (mkCallFrame fi (ip + 1 + 1 + 1 + 1 + 1 + 1 + 1 + 1) sb
                (<[Z.to_nat (Z.lor slo (Z.shiftl shi 8)) := v]> ls)))
    by (cbn [instruction_pointer];
        now replace (ip + 1 + 1 + 1 + 1 + 1 + 1 + 1 + 1) with (ip + 8) by lia).
  unfold frame_at, with_ip.
  cbn [instruction_pointer function_index stack_base locals].
  do 3 f_equal. lia.
Qed.

(** The let statement [let (x) = init] after its initializer. *)
Lemma compile_let_one name lx lp ann init loc st st1 scope rest :
  Compiler.compile_expr init st = Ok st1 ->
  Compiler.scopes_ st1 = scope :: rest ->
  Z.of_nat (length (constants (Compiler.bytecode_ st1))) < 65535 ->
  exists st2,
    Compiler.compile_stmt
      (LetStmt (TuplePattern [IdentifierPattern name lx] lp) ann init loc) st = Ok st2 /\
    instructions (Compiler.bytecode_ st2)
    = instructions (Compiler.bytecode_ st1)
      ++ [opcode_byte DUP; opcode_byte CONSTANT;
          low_byte (Z.of_nat (length (constants (Compiler.bytecode_ st1))));
          high_byte (Z.of_nat (length (constants (Compiler.bytecode_ st1))));
          opcode_byte INDEX; opcode_byte STORE_LOCAL;
          low_byte (Compiler.u16 (Compiler.local_count scope));
          high_byte (Compiler.u16 (Compiler.local_count scope));
          opcode_byte POP] /\
    constants (Compiler.bytecode_ st2)
    = constants (Compiler.bytecode_ st1) ++ [VInt 0].
Proof.
  intros Hinit Hscopes Hroom. rewrite compile_let_tuple, Hinit. cbn [rbind].
  cbn [compile_elements]. unfold Compiler.add_constant, Bytecode.add_constant.
  cbn [Compiler.emit Compiler.with_bytecode Compiler.bytecode_ Bytecode.emit
       with_instructions instructions constants functions].
  rewrite length_app. cbn [length].
  destruct (Z.ltb_spec UINT16_MAX (Z.of_nat (length (constants (Compiler.bytecode_ st1)) + 1)))
    as [Hfull | _]; [unfold UINT16_MAX in Hfull; lia |].
  cbn [rbind Compiler.compile_pattern]. unfold Compiler.declare_local.
  cbn [Compiler.emit_u16 Compiler.emit Compiler.with_bytecode Compiler.bytecode_
       Compiler.scopes_ Bytecode.emit Bytecode.emit_u16 with_instructions instructions
       constants functions].
  rewrite Hscopes. cbn [rbind]. eexists. split; [reflexivity |].
  cbn [Compiler.emit_u16 Compiler.emit Compiler.with_bytecode Compiler.with_scopes
       Compiler.bytecode_ Bytecode.emit Bytecode.emit_u16 with_instructions instructions
       constants functions].
  replace (Z.of_nat (length (constants (Compiler.bytecode_ st1)) + 1) - 1)
    with (Z.of_nat (length (constants (Compiler.bytecode_ st1)))) by lia.
  split; [| reflexivity]. rewrite <- !app_assoc. reflexivity.
Qed.

(** C10. Executing [STORE_LOCAL idx] writes a copy of the top-of-stack value
    into [locals[idx]] of the current frame and does not pop it: the
    operand stack is unchanged and execution continues after the operand.
    A let statement that binds an identifier is compiled to the code of
    its initializer followed by that one [STORE_LOCAL], with no [POP]
    after it, so the initializer's value stays on the stack. A let
    statement with a tuple pattern is compiled to the code of its
    initializer, the code of the elements of the pattern and one final
    [POP]. With the empty pattern that [POP] is all there is after the
    initializer, and it removes the initializer's value. With the pattern
    [(x)] the code after the initializer is [DUP], [CONSTANT] of the index
    0, [INDEX], [STORE_LOCAL] of [x] and [POP]; run on a tuple with at
    least one element it stores the first element, the [POP] removes the
    copy that [STORE_LOCAL] left, and the tuple stays on the stack. *)
Theorem C10_store_local_keeps_value :
  (forall bc c_pow fmt_double v s f frames out h lo hi,
     byte_at bc (instruction_pointer f) (opcode_byte STORE_LOCAL) ->
     byte_at bc (instruction_pointer f + 1) lo ->
     byte_at bc (instruction_pointer f + 1 + 1) hi ->
     is_Some (at_ (locals f) (Z.lor lo (Z.shiftl hi 8))) ->
     step bc c_pow fmt_double (running (v :: s) f frames out h)
     = Ok (Continue,
           running (v :: s)
             (mkCallFrame (function_index f) (instruction_pointer f + 1 + 1 + 1)
                (stack_base f)
                (<[Z.to_nat (Z.lor lo (Z.shiftl hi 8)) := v]> (locals f)))
             frames out h)) /\
  (forall name lp ann init loc st st1 scope rest,
     Compiler.compile_expr init st = Ok st1 ->
     Compiler.scopes_ st1 = scope :: rest ->
     exists st2,
       Compiler.compile_stmt (LetStmt (IdentifierPattern name lp) ann init loc) st
       = Ok st2 /\
       instructions (Compiler.bytecode_ st2)
       = instructions (Compiler.bytecode_ st1)
         ++ [opcode_byte STORE_LOCAL;
             low_byte (Compiler.u16 (Compiler.local_count scope));
             high_byte (Compiler.u16 (Compiler.local_count scope))] /\
       Compiler.resolve_local name st2 = Some (Compiler.local_count scope)) /\
  (forall ps lp ann init loc st st',
     Compiler.compile_stmt (LetStmt (TuplePattern ps lp) ann init loc) st = Ok st' ->
     exists st1 st2,
       Compiler.compile_expr init st = Ok st1 /\
       compile_elements true 0 ps st1 = Ok st2 /\
       st' = Compiler.emit POP st2 /\
       instructions (Compiler.bytecode_ st')
       = instructions (Compiler.bytecode_ st2) ++ [opcode_byte POP]) /\
  (forall lp ann init loc st st1,
     Compiler.compile_expr init st = Ok st1 ->
     Compiler.compile_stmt (LetStmt (TuplePattern [] lp) ann init loc) st
     = Ok (Compiler.emit POP st1) /\
     instructions (Compiler.bytecode_ (Compiler.emit POP st1))
     = instructions (Compiler.bytecode_ st1) ++ [opcode_byte POP] /\
     forall bc c_pow fmt_double v s f frames out h,
       byte_at bc (instruction_pointer f) (opcode_byte POP) ->
       step bc c_pow fmt_double (running (v :: s) f frames out h)
       = Ok (Continue,
             running s (frame_at f (instruction_pointer f + 1)) frames out h)) /\
  (forall name lx lp ann init loc st st1 scope rest,
     Compiler.compile_expr init st = Ok st1 ->
     Compiler.scopes_ st1 = scope :: rest ->
     Z.of_nat (length (constants (Compiler.bytecode_ st1))) < 65535 ->
     exists st2,
       Compiler.compile_stmt
         (LetStmt (TuplePattern [IdentifierPattern name lx] lp) ann init loc) st
       = Ok st2 /\
       instructions (Compiler.bytecode_ st2)
       = instructions (Compiler.bytecode_ st1)
         ++ [opcode_byte DUP; opcode_byte CONSTANT;
             low_byte (Z.of_nat (length (constants (Compiler.bytecode_ st1))));
             high_byte (Z.of_nat (length (constants (Compiler.bytecode_ st1))));
             opcode_byte INDEX; opcode_byte STORE_LOCAL;
             low_byte (Compiler.u16 (Compiler.local_count scope));
             high_byte (Compiler.u16 (Compiler.local_count scope));
             opcode_byte POP] /\
       constants (Compiler.bytecode_ st2)
       = constants (Compiler.bytecode_ st1) ++ [VInt 0]) /\
  (forall bc c_pow fmt_double v vs s f frames out h klo khi slo shi,
     code_at bc (instruction_pointer f)
       [opcode_byte DUP; opcode_byte CONSTANT; klo; khi; opcode_byte INDEX;
        opcode_byte STORE_LOCAL; slo; shi; opcode_byte POP] ->
     at_ (constants bc) (Z.lor klo (Z.shiftl khi 8)) = Some (VInt 0) ->
     is_Some (at_ (locals f) (Z.lor slo (Z.shiftl shi 8))) ->
     steps bc c_pow fmt_double 5 (running (VTuple (v :: vs) :: s) f frames out h)
     = Ok (running (VTuple (v :: vs) :: s)
             (mkCallFrame (function_index f) (instruction_pointer f + 9) (stack_base f)
                (<[Z.to_nat (Z.lor slo (Z.shiftl shi 8)) := v]> (locals f)))
             frames out h)).
Proof.
  split; [intros; now apply step_store_local |].
  split; [intros; eapply compile_let_identifier; eassumption |].
  split.
  { intros ps lp ann init loc st st' H. rewrite compile_let_tuple in H.
    destruct (Compiler.compile_expr init st) as [st1 | |] eqn:E1; cbn [rbind] in H;
      try discriminate H.
    destruct (compile_elements true 0 ps st1) as [st2 | |] eqn:E2; cbn [rbind] in H;
      try discriminate H.
    injection H as <-. exists st1, st2.
    split; [reflexivity |]. split; [exact E2 |]. split; reflexivity. }
  split.
  { intros lp ann init loc st st1 Hinit. rewrite compile_let_tuple, Hinit.
    split; [reflexivity |]. split; [reflexivity |].
    intros. now apply step_pop. }
  split; [intros; eapply compile_let_one; eassumption |].
  intros bc c_pow fmt_double v vs s f frames out h klo khi slo shi Hcode Hconst Hslot.
  exact (one_element_pattern_runs bc c_pow fmt_double v vs s f frames out h klo khi slo shi
           Hcode Hconst Hslot).
Qed.

Lemma C10_store_local_keeps_value_witness :
  step (mkBytecode let_x_code [VInt 42] []) no_pow no_fmt
    (running [VInt 42] (new_frame 0 3 0 1) [] EmptyString idle_host)
  = Ok (Continue,
        running [VInt 42] (mkCallFrame 0 6 0 [VInt 42]) [] EmptyString idle_host) /\
  (exists st2,
     Compiler.compile_stmt let_x (Compiler.enter_scope Compiler.initial) = Ok st2 /\
     instructions (Compiler.bytecode_ st2) = let_x_code /\
     Compiler.resolve_local "x" st2 = Some 0%nat) /\
  (exists st2,
     Compiler.compile_stmt let_one (Compiler.enter_scope Compiler.initial) = Ok st2 /\
     instructions (Compiler.bytecode_ st2)
     = instructions (Compiler.bytecode_ after_one_tuple) ++ one_pattern_code /\
     constants (Compiler.bytecode_ st2) = [VInt 10; VInt 0]) /\
  steps (mkBytecode one_pattern_code [VInt 10; VInt 0] []) no_pow no_fmt 5
    (running [VTuple [VInt 10]] (new_frame 0 0 0 1) [] EmptyString idle_host)
  = Ok (running [VTuple [VInt 10]] (mkCallFrame 0 9 0 [VInt 10]) [] EmptyString idle_host).
Proof.
  destruct C10_store_local_keeps_value as (Hstore & Hid & _ & _ & Hone & Hrun).
  split; [| split; [| split]].
  - exact (Hstore (mkBytecode let_x_code [VInt 42] []) no_pow no_fmt
             (VInt 42) [] (new_frame 0 3 0 1) [] EmptyString idle_host 0 0
             eq_refl eq_refl eq_refl (ex_intro _ (VInt 0) eq_refl)).
  - exact (Hid "x" here None (IntLiteralExpr 42 here) here
             (Compiler.enter_scope Compiler.initial) after_initializer
             (Compiler.mkScope ∅ 0%nat) [] eq_refl eq_refl).
  - exact (Hone "x" here here None (TupleExpr [IntLiteralExpr 10 here] here) here
             (Compiler.enter_scope Compiler.initial) after_one_tuple
             (Compiler.mkScope ∅ 0%nat) [] eq_refl eq_refl eq_refl).
  - apply (Hrun (mkBytecode one_pattern_code [VInt 10; VInt 0] []) no_pow no_fmt
             (VInt 10) [] [] (new_frame 0 0 0 1) [] EmptyString idle_host 1 0 0 0).
    + intros k b Hk.
      do 9 (destruct k as [|k]; [injection Hk as <-; reflexivity |]). discriminate Hk.
    + reflexivity.
    + exists (VInt 0). reflexivity.
Defined.

End LetStatements.

(** ** Tuple patterns and calls: what the kept value does *)

Section KeptValues.
Import Val Bytecode VM.

Variable c_pow : float -> float -> float.
Variable fmt_double : float -> string.
Variable host : Host.

(** C1. The program [let (x, y) = (10, 20) return x + y] passes the front
    end and is compiled to [tuple_let_code]. Executing it does not bind
    [y] and does not return 30: the [STORE_LOCAL] of [x] leaves the
    element 10 above the tuple, the [DUP] of the second element duplicates
    that 10 instead of the tuple, and the following [INDEX] raises
    "Cannot index into Int", which is how the run ends whatever the budget
    beyond ten instructions. *)
Theorem C1_tuple_let_raises :
  exists program bc,
    Driver.front_end tuple_let_source "main.lucid" = inr program /\
    Compiler.compile program = Ok bc /\
    instructions bc = tuple_let_code /\
    constants bc = [VInt 10; VInt 20; VInt 0; VInt 1] /\
    find_function bc "main" = Some 0%nat /\
    stack_after c_pow fmt_double host bc 0 4 = Ok [pair_10_20; pair_10_20] /\
    stack_after c_pow fmt_double host bc 0 7 = Ok [VInt 10; pair_10_20] /\
    frames_after c_pow fmt_double host bc 0 7 = Ok [17] /\
    stack_after c_pow fmt_double host bc 0 8 = Ok [VInt 10; VInt 10; pair_10_20] /\
    stack_after c_pow fmt_double host bc 0 9 = Ok [VInt 1; VInt 10; VInt 10; pair_10_20] /\
    stack_after c_pow fmt_double host bc 0 10 = Throw "Cannot index into Int" /\
    forall fuel,
      Driver.run c_pow fmt_double (10 + fuel) host tuple_let_source "main.lucid"
      = Some (Driver.Raised "Cannot index into Int").
Proof.
  do 2 eexists.
  split; [vm_compute; reflexivity|].
  split; [vm_compute; reflexivity|].
  repeat (apply conj; [vm_compute; reflexivity|]).
  intros fuel. vm_compute. reflexivity.
Qed.

(** C2. In the program [return 10 - f()] with [f] made of [let x = 1] and
    [return x], the [CALL] of [f] has no argument and is executed with one
    value on the stack. The callee's [STORE_LOCAL] leaves the 1 of the let
    on the stack, [RETURN] only drops the frame, and the caller resumes
    after the [CALL] with three values on its stack instead of
    1 - 0 + 1 = 2; the subtraction then takes the two copies of 1, and
    [main] returns 0 instead of 9. *)
Theorem C2_call_leaves_callee_values :
  exists program bc,
    Driver.front_end call_source "main.lucid" = inr program /\
    Compiler.compile program = Ok bc /\
    instructions bc = call_code /\
    find_function bc "main" = Some 1%nat /\
    stack_after c_pow fmt_double host bc 1 1 = Ok [VInt 10] /\
    frames_after c_pow fmt_double host bc 1 1 = Ok [13] /\
    frames_after c_pow fmt_double host bc 1 2 = Ok [0; 17] /\
    stack_after c_pow fmt_double host bc 1 5 = Ok [VInt 1; VInt 1; VInt 10] /\
    frames_after c_pow fmt_double host bc 1 5 = Ok [9; 17] /\
    stack_after c_pow fmt_double host bc 1 6 = Ok [VInt 1; VInt 1; VInt 10] /\
    frames_after c_pow fmt_double host bc 1 6 = Ok [17] /\
    forall fuel,
      Driver.run c_pow fmt_double (8 + fuel) host call_source "main.lucid"
      = Some (Driver.Returned (VInt 0) EmptyString).
Proof.
  do 2 eexists.
  split; [vm_compute; reflexivity|].
  split; [vm_compute; reflexivity|].
  repeat (apply conj; [vm_compute; reflexivity|]).
  intros fuel. vm_compute. reflexivity.
Qed.

End KeptValues.

(** ** Jumps: the operand the compiler writes and the target the VM takes *)

Section JumpPatching.
Import Val Bytecode VM Ast.

Lemma low_high_bytes k :
  Z.lor (low_byte k) (Z.shiftl (high_byte k) 8) = k mod 65536.
Proof.
  unfold low_byte, high_byte.
  change 255 with (Z.ones 8). change 65536 with (2 ^ 16).
  rewrite <- (Z.land_ones k 16) by lia.
  apply Z.bits_inj'. intros n Hn.
  rewrite Z.lor_spec, !Z.land_spec.
  destruct (Z.lt_ge_cases n 8) as [Hlt | Hge].
  - rewrite Z.shiftl_spec_low by lia.
    rewrite (Z.ones_spec_low 8 n) by lia.
    rewrite (Z.ones_spec_low 16 n) by lia.
    now rewrite orb_false_r.
  - rewrite (Z.ones_spec_high 8 n) by lia.
    rewrite Z.shiftl_spec by lia.
    rewrite Z.land_spec, Z.shiftr_spec by lia.
    replace (n - 8 + 8) with n by lia.
    rewrite andb_false_r. cbn [orb].
    destruct (Z.lt_ge_cases n 16) as [Hlt | Hge'].
    + rewrite (Z.ones_spec_low 8 (n - 8)) by lia.
      now rewrite (Z.ones_spec_low 16 n) by lia.
    + rewrite (Z.ones_spec_high 8 (n - 8)) by lia.
      now rewrite (Z.ones_spec_high 16 n) by lia.
Qed.

(** The VM reads back the [int16_t] that was written. *)
Lemma decoded_patched distance :
  decoded_offset (low_byte (patched_offset distance))
                 (high_byte (patched_offset distance))
  = patched_offset distance.
Proof.
  unfold decoded_offset. rewrite low_high_bytes.
  unfold patched_offset, Num.int16_of_size_t, Num.int16_of_uint16.
  pose proof (Z.mod_pos_bound (Num.to_size_t distance) 65536 ltac:(lia)) as Hb.
  destruct (Z.ltb_spec (Num.to_size_t distance mod 65536) 32768).
  - rewrite Z.mod_small by lia.
    destruct (Z.ltb_spec (Num.to_size_t distance mod 65536) 32768); [reflexivity | lia].
  - replace ((Num.to_size_t distance mod 65536 - 65536) mod 65536)
      with (Num.to_size_t distance mod 65536).
    + destruct (Z.ltb_spec (Num.to_size_t distance mod 65536) 32768); [lia | reflexivity].
    + apply (Z.mod_unique _ _ (-1)); lia.
Qed.

Lemma patched_offset_small distance :
  0 <= distance <= 32767 -> patched_offset distance = distance.
Proof.
  intros H. unfold patched_offset, Num.int16_of_size_t, Num.to_size_t, Num.int16_of_uint16.
  rewrite (Z.mod_small distance (2 ^ 64)) by lia.
  rewrite Z.mod_small by lia.
  destruct (Z.ltb_spec distance 32768); [reflexivity | lia].
Qed.

Lemma patched_offset_large distance :
  32768 <= distance <= 65535 -> patched_offset distance = distance - 65536.
Proof.
  intros H. unfold patched_offset, Num.int16_of_size_t, Num.to_size_t, Num.int16_of_uint16.
  rewrite (Z.mod_small distance (2 ^ 64)) by lia.
  rewrite Z.mod_small by lia.
  destruct (Z.ltb_spec distance 32768); [lia | reflexivity].
Qed.

Lemma at_app_middle {A} (pre l : list A) (i : nat) (x : A) :
  l !! i = Some x ->
  at_ (pre ++ l) (Z.of_nat (length pre) + Z.of_nat i) = Some x.
Proof.
  intros Hl. pose proof (lookup_lt_Some _ _ _ Hl) as Hlt.
  unfold at_. rewrite length_app.
  destruct (Z.leb_spec 0 (Z.of_nat (length pre) + Z.of_nat i)); [|lia].
  destruct (Z.ltb_spec (Z.of_nat (length pre) + Z.of_nat i)
              (Z.of_nat (length pre + length l))); [|lia].
  cbn [andb].
  replace (Z.to_nat (Z.of_nat (length pre) + Z.of_nat i)) with (length pre + i)%nat by lia.
  rewrite lookup_app_r by lia.
  now replace (length pre + i - length pre)%nat with i by lia.
Qed.

(** [patch_jump] on a jump instruction that is followed by [body]. *)
Lemma patch_jump_at st pre opb x y body offset :
  instructions (Compiler.bytecode_ st) = pre ++ [opb; x; y] ++ body ->
  offset = Z.of_nat (length pre) ->
  Compiler.patch_jump offset st
  = Ok (Compiler.with_bytecode st
          (with_instructions (Compiler.bytecode_ st)
             (pre ++ [opb;
                      low_byte (patched_offset (Z.of_nat (length body)));
                      high_byte (patched_offset (Z.of_nat (length body)))] ++ body))).
Proof.
  intros Hi ->. unfold Compiler.patch_jump, Bytecode.patch_jump, current_offset.
  rewrite Hi, !length_app. cbn [length].
  match goal with
  | |- context [?a <=? ?b] => destruct (Z.leb_spec a b); [lia|]
  end.
  cbn [rbind]. do 3 f_equal.
  match goal with
  | |- context [Num.to_size_t ?d] =>
      replace d with (Z.of_nat (length body)) by lia
  end.
  replace (Z.to_nat (Z.of_nat (length pre) + 1)) with (length pre + 1)%nat by lia.
  replace (Z.to_nat (Z.of_nat (length pre) + 2)) with (length pre + 2)%nat by lia.
  rewrite !insert_app_r. reflexivity.
Qed.

Arguments true_pops : simpl never.

(* ----- a long then-block -------------------------------------------- *)

Lemma compile_block_cons s x xs l st :
  Compiler.compile_expr (BlockExpr (s :: x :: xs) l) st
  = let* st' := Compiler.compile_stmt s st in Compiler.compile_expr (BlockExpr (x :: xs) l) st'.
Proof. reflexivity. Qed.

Lemma append_code_app c1 c2 st :
  append_code c2 (append_code c1 st) = append_code (c1 ++ c2) st.
Proof.
  unfold append_code, Compiler.with_bytecode, with_instructions; cbn.
  now rewrite app_assoc.
Qed.

Lemma compile_true_statement st :
  Compiler.compile_stmt true_statement st
  = Ok (append_code [opcode_byte TRUE; opcode_byte POP] st).
Proof.
  cbn. unfold append_code, Compiler.emit, Compiler.with_bytecode, Bytecode.emit,
    with_instructions; cbn.
  now rewrite <- app_assoc.
Qed.

Lemma compile_true_statements n tail l st :
  tail <> [] ->
  Compiler.compile_expr (BlockExpr (repeat true_statement n ++ tail) l) st
  = Compiler.compile_expr (BlockExpr tail l) (append_code (true_pops n) st).
Proof.
  intros Htail. revert st. induction n as [|n IH]; intros st.
  - cbn [repeat app]. unfold true_pops, append_code; cbn.
    rewrite app_nil_r. now destruct st as [[] ? ?].
  - cbn [repeat app].
    destruct (repeat true_statement n ++ tail) as [|x xs] eqn:E.
    { destruct n; cbn in E; [contradiction | discriminate]. }
    rewrite compile_block_cons.
    rewrite compile_true_statement.
    cbn [rbind]. rewrite IH, append_code_app. reflexivity.
Qed.


Lemma compile_if_eq c t e l st :
  Compiler.compile_expr (IfExpr c t (Some e) l) st
  = let* st := Compiler.compile_expr c st in
    let (else_jump, st) := Compiler.emit_jump JUMP_IF_FALSE st in
    let st := Compiler.emit POP st in
    let* st := Compiler.compile_expr t st in
    let (end_jump, st) := Compiler.emit_jump JUMP st in
    let* st := Compiler.patch_jump else_jump st in
    let st := Compiler.emit POP st in
    let* st := Compiler.compile_expr e st in
    Compiler.patch_jump end_jump st.
Proof. reflexivity. Qed.

Lemma true_pops_length n : length (true_pops n) = (2 * n)%nat.
Proof.
  unfold true_pops. induction n as [|n IH]; [reflexivity|].
  cbn [repeat concat]. rewrite length_app, IH. cbn [length]. lia.
Qed.

Lemma compile_long_block n code :
  Compiler.compile_expr (long_block n) (in_main code [])
  = Ok (in_main (code ++ then_code n) [VInt 1]).
Proof.
  unfold long_block. rewrite compile_true_statements by discriminate.
  unfold then_code, in_main, append_code. cbn.
  unfold Compiler.add_constant, Bytecode.add_constant, UINT16_MAX; cbn.
  change (65535 <? Z.of_nat 1) with false. cbn.
  unfold Compiler.emit_u16, Compiler.with_bytecode, Bytecode.emit_u16, with_instructions; cbn.
  now rewrite <- app_assoc.
Qed.

Lemma compile_else_block code :
  Compiler.compile_expr (BlockExpr [ExprStmt (IntLiteralExpr 2 here) here] here)
    (in_main code [VInt 1])
  = Ok (in_main (code ++ [opcode_byte CONSTANT; 1; 0]) [VInt 1; VInt 2]).
Proof.
  unfold in_main. cbn.
  unfold Compiler.add_constant, Bytecode.add_constant, UINT16_MAX; cbn.
  change (65535 <? Z.of_nat 2) with false. reflexivity.
Qed.

Lemma then_code_length n : length (then_code n) = (2 * n + 3)%nat.
Proof.
  unfold then_code. rewrite length_app, true_pops_length. cbn [length]. lia.
Qed.

Lemma compile_long_if_expr n :
  Compiler.compile_expr (long_if_expr n) (in_main [] [])
  = Ok (in_main (long_if_code n) [VInt 1; VInt 2]).
Proof.
  unfold long_if_expr. rewrite compile_if_eq.
  change (Compiler.compile_expr (BoolLiteralExpr false here) (in_main [] []))
    with (Ok (in_main [opcode_byte FALSE] [])).
  cbn [rbind]. unfold Compiler.emit_jump at 1.
  change (Compiler.emit POP (Compiler.emit_u16 JUMP_IF_FALSE 65535 (in_main [opcode_byte FALSE] [])))
    with (in_main [opcode_byte FALSE; opcode_byte JUMP_IF_FALSE; 255; 255; opcode_byte POP] []).
  rewrite compile_long_block. cbn [rbind].
  unfold Compiler.emit_jump. cbv beta iota.
  set (jif := [opcode_byte FALSE; opcode_byte JUMP_IF_FALSE; 255; 255; opcode_byte POP]).
  change (Compiler.emit_u16 JUMP 65535 (in_main (jif ++ then_code n) [VInt 1]))
    with (in_main ((jif ++ then_code n) ++ [opcode_byte JUMP; 255; 255]) [VInt 1]).
  rewrite (patch_jump_at _ [opcode_byte FALSE] (opcode_byte JUMP_IF_FALSE) 255 255
             (opcode_byte POP :: then_code n ++ [opcode_byte JUMP; 255; 255]) _);
    [| reflexivity | reflexivity].
  cbn [rbind].
  assert (Hbody : length (opcode_byte POP :: then_code n ++ [opcode_byte JUMP; 255; 255])
                  = (2 * n + 7)%nat).
  { cbn [length]. rewrite length_app, then_code_length. cbn [length]. lia. }
  rewrite Hbody.
  set (pre := [opcode_byte FALSE; opcode_byte JUMP_IF_FALSE;
               low_byte (patched_offset (Z.of_nat (2 * n + 7)));
               high_byte (patched_offset (Z.of_nat (2 * n + 7)));
               opcode_byte POP] ++ then_code n).
  match goal with
  | |- context [Compiler.emit POP ?s] =>
      replace (Compiler.emit POP s)
        with (in_main (pre ++ [opcode_byte JUMP; 255; 255; opcode_byte POP]) [VInt 1])
  end.
  2:{ unfold in_main, Compiler.emit, Compiler.with_bytecode, Bytecode.emit,
        with_instructions, pre. cbn. rewrite <- ?app_assoc; reflexivity. }
  rewrite compile_else_block. cbn [rbind].
  rewrite (patch_jump_at _ pre (opcode_byte JUMP) 255 255
             [opcode_byte POP; opcode_byte CONSTANT; 1; 0] _).
  - unfold in_main, Compiler.with_bytecode, with_instructions, long_if_code, pre. cbn.
    rewrite <- ?app_assoc; reflexivity.
  - unfold in_main. cbn [Compiler.bytecode_ instructions]. rewrite <- ?app_assoc; reflexivity.
  - unfold current_offset, in_main, pre, jif. cbn [Compiler.bytecode_ instructions].
    rewrite !length_app. cbn [length]. lia.
Qed.

Lemma compile_return_block e l l' st :
  Compiler.compile_expr (BlockExpr [ReturnStmt e l] l') st
  = let* st := Compiler.compile_expr e st in Ok (Compiler.emit RETURN st).
Proof. reflexivity. Qed.

Lemma compile_long_if n :
  Compiler.compile (long_if n)
  = Ok (mkBytecode (long_if_program_code n) [VInt 1; VInt 2]
          [mkFunctionInfo "main" 0 0 0]).
Proof.
  unfold Compiler.compile, long_if.
  cbn [prog_functions Compiler.collect_functions Compiler.compile_functions].
  unfold Compiler.compile_function.
  cbn [fd_name fd_body fd_parameters Compiler.declare_parameters rbind].
  rewrite compile_return_block.
  fold (long_if_expr n).
  match goal with
  | |- context [Compiler.compile_expr (long_if_expr n) ?s] => change s with (in_main [] [])
  end.
  rewrite compile_long_if_expr. cbn [rbind].
  change (Compiler.emit RETURN (in_main (long_if_code n) [VInt 1; VInt 2]))
    with (in_main (long_if_code n ++ [opcode_byte RETURN]) [VInt 1; VInt 2]).
  cbn [in_main Compiler.bytecode_ instructions].
  rewrite last_snoc.
  change (opcode_byte RETURN =? opcode_byte RETURN) with true. cbv beta iota.
  match goal with
  | |- context [default 0%nat ?x] => change (default 0%nat x) with 0%nat
  end.
  unfold in_main. cbn [Compiler.scopes_ rbind].
  unfold Compiler.exit_scope, Compiler.update_function, Compiler.emit,
    Compiler.with_bytecode, Compiler.with_scopes, Bytecode.emit, with_instructions,
    with_functions, long_if_program_code.
  cbn. now rewrite <- app_assoc.
Qed.


Lemma long_if_code_split n :
  long_if_program_code n
  = ([opcode_byte FALSE; opcode_byte JUMP_IF_FALSE;
      low_byte (patched_offset (Z.of_nat (2 * n + 7)));
      high_byte (patched_offset (Z.of_nat (2 * n + 7)));
      opcode_byte POP] ++ then_code n ++ [opcode_byte JUMP; 4; 0])
    ++ [opcode_byte POP; opcode_byte CONSTANT; 1; 0; opcode_byte RETURN; opcode_byte HALT].
Proof.
  unfold long_if_program_code, long_if_code. cbn [app].
  rewrite <- !app_assoc. reflexivity.
Qed.

Lemma long_if_code_length n : length (long_if_program_code n) = (2 * n + 17)%nat.
Proof.
  rewrite long_if_code_split, !length_app, then_code_length. cbn [length]. lia.
Qed.

Lemma long_if_head n i b :
  [opcode_byte FALSE; opcode_byte JUMP_IF_FALSE;
   low_byte (patched_offset (Z.of_nat (2 * n + 7)));
   high_byte (patched_offset (Z.of_nat (2 * n + 7)))] !! i = Some b ->
  byte_at (long_if_bytecode n) (Z.of_nat i) b.
Proof.
  intros Hi. unfold byte_at. apply (at_app_middle [] _ i b).
  unfold long_if_bytecode, long_if_program_code, long_if_code.
  cbn [instructions app].
  destruct i as [|[|[|[|i]]]]; try exact Hi. discriminate Hi.
Qed.

Lemma long_if_else n i b :
  [opcode_byte POP; opcode_byte CONSTANT; 1; 0; opcode_byte RETURN] !! i = Some b ->
  byte_at (long_if_bytecode n) (Z.of_nat (2 * n + 11) + Z.of_nat i) b.
Proof.
  intros Hi. unfold byte_at, long_if_bytecode. cbn [instructions].
  rewrite long_if_code_split.
  replace (Z.of_nat (2 * n + 11))
    with (Z.of_nat (length ([opcode_byte FALSE; opcode_byte JUMP_IF_FALSE;
                             low_byte (patched_offset (Z.of_nat (2 * n + 7)));
                             high_byte (patched_offset (Z.of_nat (2 * n + 7)));
                             opcode_byte POP] ++ then_code n ++ [opcode_byte JUMP; 4; 0]))).
  - apply at_app_middle.
    destruct i as [|[|[|[|[|i]]]]]; try exact Hi. discriminate Hi.
  - rewrite !length_app, then_code_length. cbn [length]. lia.
Qed.


(** The first two instructions: [FALSE], and the [JUMP_IF_FALSE] taken. *)
Lemma long_if_jumps c_pow fmt_double n out host :
  steps (long_if_bytecode n) c_pow fmt_double 2
    (running [] (new_frame 0 0 0 0) [] out host)
  = Ok (running [VBool false]
          (frame_at (new_frame 0 0 0 0)
             (Num.to_size_t (4 + patched_offset (Z.of_nat (2 * n + 7)))))
          [] out host).
Proof.
  cbn [steps].
  rewrite (step_bool_literal _ c_pow fmt_double false); [| exact (long_if_head n 0 _ eq_refl)].
  rewrite (step_jump _ c_pow fmt_double JUMP_IF_FALSE [VBool false] true _ _ _ _
             (low_byte (patched_offset (Z.of_nat (2 * n + 7))))
             (high_byte (patched_offset (Z.of_nat (2 * n + 7)))));
    [| exact (long_if_head n 1 _ eq_refl) | exact (long_if_head n 2 _ eq_refl)
     | exact (long_if_head n 3 _ eq_refl) | reflexivity].
  fold (decoded_offset (low_byte (patched_offset (Z.of_nat (2 * n + 7))))
          (high_byte (patched_offset (Z.of_nat (2 * n + 7))))).
  rewrite decoded_patched. reflexivity.
Qed.

Lemma call_long_if c_pow fmt_double n fuel out host :
  call_function (long_if_bytecode n) c_pow fmt_double fuel out host "main" []
  = match run (long_if_bytecode n) c_pow fmt_double fuel
            (running [] (new_frame 0 0 0 0) [] out host) with
    | None => None
    | Some (Ok st) =>
        match stack_ st with
        | [] => Some (Throw "Function returned without a value")
        | v :: rest => Some (Ok (v, with_stack st rest))
        end
    | Some (Throw msg) => Some (Throw msg)
    | Some (Undefined w) => Some (Undefined w)
    end.
Proof. reflexivity. Qed.

(** Up to the range of [int16_t] the jump lands on the else branch, and
    [main] returns 2. *)
Lemma long_if_returns c_pow fmt_double n fuel out host :
  Z.of_nat n <= 16380 ->
  call_function (long_if_bytecode n) c_pow fmt_double (5 + fuel) out host "main" []
  = Some (Ok (VInt 2, mkState [] [] out host)).
Proof.
  intros Hn. rewrite call_long_if.
  change (5 + fuel)%nat with (2 + (3 + fuel))%nat.
  rewrite (run_after_steps _ c_pow fmt_double 2 _ _ _ (long_if_jumps c_pow fmt_double n out host)).
  rewrite patched_offset_small by lia.
  replace (Num.to_size_t (4 + Z.of_nat (2 * n + 7))) with (Z.of_nat (2 * n + 11) + Z.of_nat 0)
    by (unfold Num.to_size_t; rewrite Z.mod_small; lia).
  cbn [Nat.add run].
  rewrite (step_pop _ c_pow fmt_double (VBool false)); [| exact (long_if_else n 0 _ eq_refl)].
  unfold frame_at, with_ip; cbn [instruction_pointer function_index stack_base locals].
  replace (Z.of_nat (2 * n + 11) + Z.of_nat 0 + 1) with (Z.of_nat (2 * n + 11) + Z.of_nat 1)
    by lia.
  rewrite (step_constant _ c_pow fmt_double (VInt 2) _ _ _ _ _ 1 0);
    [| exact (long_if_else n 1 _ eq_refl) | | | reflexivity].
  2:{ cbn [instruction_pointer].
      replace (Z.of_nat (2 * n + 11) + Z.of_nat 1 + 1)
        with (Z.of_nat (2 * n + 11) + Z.of_nat 2) by lia.
      exact (long_if_else n 2 _ eq_refl). }
  2:{ cbn [instruction_pointer].
      replace (Z.of_nat (2 * n + 11) + Z.of_nat 1 + 1 + 1)
        with (Z.of_nat (2 * n + 11) + Z.of_nat 3) by lia.
      exact (long_if_else n 3 _ eq_refl). }
  unfold frame_at, with_ip; cbn [instruction_pointer function_index stack_base locals].
  replace (Z.of_nat (2 * n + 11) + Z.of_nat 1 + 1 + 1 + 1)
    with (Z.of_nat (2 * n + 11) + Z.of_nat 4) by lia.
  rewrite step_return_outermost; [reflexivity | exact (long_if_else n 4 _ eq_refl)].
Qed.

(** From 32768 bytes on the operand wraps, and the jump leaves the code. *)
Lemma long_if_leaves_code c_pow fmt_double n fuel out host :
  16381 <= Z.of_nat n <= 32762 ->
  call_function (long_if_bytecode n) c_pow fmt_double (3 + fuel) out host "main" []
  = Some (Undefined "instruction fetch out of range").
Proof.
  intros Hn. rewrite call_long_if.
  change (3 + fuel)%nat with (2 + (1 + fuel))%nat.
  rewrite (run_after_steps _ c_pow fmt_double 2 _ _ _ (long_if_jumps c_pow fmt_double n out host)).
  rewrite patched_offset_large by lia.
  cbn [Nat.add run].
  rewrite step_fetch_outside; [reflexivity|].
  unfold frame_at, with_ip; cbn [instruction_pointer].
  unfold at_, long_if_bytecode. cbn [instructions].
  rewrite long_if_code_length.
  replace (Num.to_size_t (4 + (Z.of_nat (2 * n + 7) - 65536)))
    with (2 ^ 64 + Z.of_nat (2 * n + 7) - 65532).
  - destruct (Z.ltb_spec (2 ^ 64 + Z.of_nat (2 * n + 7) - 65532) (Z.of_nat (2 * n + 17)));
      [lia|]. now rewrite andb_false_r.
  - unfold Num.to_size_t. apply (Z.mod_unique _ _ (-1)); lia.
Qed.

(** A jump patched [distance] bytes after its operand, and the target the
    VM takes for it. *)
Lemma patched_jump_target
    (st : Compiler.State) (pre : list Z) (op : OpCode) (x y : Z) (body : list Z) :
  instructions (Compiler.bytecode_ st) = pre ++ [opcode_byte op; x; y] ++ body ->
  current_offset (Compiler.bytecode_ st) < 2 ^ 64 ->
  let offset := Z.of_nat (length pre) in
  let distance := current_offset (Compiler.bytecode_ st) - (offset + 3) in
  exists st',
    Compiler.patch_jump offset st = Ok st' /\
    (forall c_pow fmt_double stack f frames out h,
       instruction_pointer f = offset ->
       jump_taken op stack = Some true ->
       step (Compiler.bytecode_ st') c_pow fmt_double (running stack f frames out h)
       = Ok (Continue,
             running stack
               (frame_at f (Num.to_size_t (offset + 3 + patched_offset distance)))
               frames out h)) /\
    (distance <= 32767 ->
       patched_offset distance = distance /\
       Num.to_size_t (offset + 3 + patched_offset distance)
       = current_offset (Compiler.bytecode_ st)) /\
    (32768 <= distance <= 65535 ->
       patched_offset distance = distance - 65536 /\
       Num.to_size_t (offset + 3 + patched_offset distance)
       = Num.to_size_t (current_offset (Compiler.bytecode_ st) - 65536) /\
       Num.to_size_t (offset + 3 + patched_offset distance)
       <> current_offset (Compiler.bytecode_ st)).
Proof.
  intros Hi Hsize offset distance.
  pose proof (patch_jump_at st pre _ x y body offset Hi eq_refl) as Hpatch.
  assert (Hd : distance = Z.of_nat (length body)).
  { unfold distance, offset, current_offset. rewrite Hi, !length_app. cbn [length]. lia. }
  assert (Hcur : current_offset (Compiler.bytecode_ st) = offset + 3 + distance)
    by (unfold distance; lia).
  eexists. split; [exact Hpatch|]. split; [|split].
  - intros c_pow fmt_double stack f frames out h Hip Htaken.
    rewrite <- (decoded_patched distance). unfold decoded_offset.
    rewrite Hd.
    assert (Hat : forall i b,
               [opcode_byte op;
                low_byte (patched_offset (Z.of_nat (length body)));
                high_byte (patched_offset (Z.of_nat (length body)))] !! i = Some b ->
               byte_at (Compiler.bytecode_
                          (Compiler.with_bytecode st
                             (with_instructions (Compiler.bytecode_ st)
                                (pre ++ [opcode_byte op;
                                         low_byte (patched_offset (Z.of_nat (length body)));
                                         high_byte (patched_offset (Z.of_nat (length body)))]
                                     ++ body))))
                 (instruction_pointer f + Z.of_nat i) b).
    { intros i b Hl. unfold byte_at. rewrite Hip.
      cbn [Compiler.bytecode_ Compiler.with_bytecode instructions with_instructions].
      apply at_app_middle. now apply lookup_app_l_Some. }
    pose proof (Hat 0%nat _ eq_refl) as H0.
    pose proof (Hat 1%nat _ eq_refl) as H1.
    pose proof (Hat 2%nat _ eq_refl) as H2.
    replace (instruction_pointer f + Z.of_nat 0) with (instruction_pointer f) in H0 by lia.
    change (Z.of_nat 1) with 1 in H1.
    replace (instruction_pointer f + Z.of_nat 2) with (instruction_pointer f + 1 + 1) in H2
      by lia.
    rewrite (step_jump _ c_pow fmt_double op stack true f frames out h _ _ H0 H1 H2 Htaken).
    rewrite Hip.
    replace (offset + 1 + 1 + 1) with (offset + 3) by lia. reflexivity.
  - intros Hsmall.
    rewrite patched_offset_small by lia.
    split; [reflexivity|].
    unfold Num.to_size_t. rewrite Z.mod_small by lia. lia.
  - intros Hlarge.
    rewrite patched_offset_large by lia.
    split; [reflexivity|]. split; [f_equal; lia|].
    unfold Num.to_size_t.
    pose proof (Z.mod_pos_bound (offset + 3 + (distance - 65536)) (2 ^ 64) ltac:(lia)) as Hb.
    destruct (Z.lt_ge_cases (offset + 3 + (distance - 65536)) 0) as [Hneg | Hpos].
    + rewrite <- (Z.mod_unique (offset + 3 + (distance - 65536)) (2 ^ 64) (-1)
                    (offset + 3 + (distance - 65536) + 2 ^ 64)) by lia.
      lia.
    + rewrite Z.mod_small by lia. lia.
Qed.

(** C5. A taken [JUMP], [JUMP_IF_FALSE] or [JUMP_IF_TRUE] whose operand
    bytes decode to the signed offset [k] sets the instruction pointer to
    the offset after the operand plus [k]. [patch_jump] on a jump at
    [offset] that is followed by [distance] bytes of code writes the
    [int16_t] cast of [distance] = current_offset - (offset + 3). Up to
    32767 bytes the patched jump lands on the offset that was current when
    [patch_jump] was called. From 32768 to 65535 bytes the cast wraps: the
    operand is [distance - 65536], and the taken jump lands 65536 bytes
    before that offset (modulo the width of [size_t]), not on it.
    So it is with [return if false { true ... true 1 } else { 2 }] in
    [main]: it is well typed and compiled whatever the number [n] of
    statements [true];
    up to 16380 of them [main] returns 2; from 16381 on the jump over the
    then-block leaves the code and the next fetch reads outside the
    instruction vector. *)
Theorem C5_jump_patching :
  (forall (st : Compiler.State) (pre : list Z) (op : OpCode) (x y : Z) (body : list Z),
     instructions (Compiler.bytecode_ st) = pre ++ [opcode_byte op; x; y] ++ body ->
     current_offset (Compiler.bytecode_ st) < 2 ^ 64 ->
     let offset := Z.of_nat (length pre) in
     let distance := current_offset (Compiler.bytecode_ st) - (offset + 3) in
     exists st',
       Compiler.patch_jump offset st = Ok st' /\
       (forall c_pow fmt_double stack f frames out h,
          instruction_pointer f = offset ->
          jump_taken op stack = Some true ->
          step (Compiler.bytecode_ st') c_pow fmt_double (running stack f frames out h)
          = Ok (Continue,
                running stack
                  (frame_at f (Num.to_size_t (offset + 3 + patched_offset distance)))
                  frames out h)) /\
       (distance <= 32767 ->
          patched_offset distance = distance /\
          Num.to_size_t (offset + 3 + patched_offset distance)
          = current_offset (Compiler.bytecode_ st)) /\
       (32768 <= distance <= 65535 ->
          patched_offset distance = distance - 65536 /\
          Num.to_size_t (offset + 3 + patched_offset distance)
          = Num.to_size_t (current_offset (Compiler.bytecode_ st) - 65536) /\
          Num.to_size_t (offset + 3 + patched_offset distance)
          <> current_offset (Compiler.bytecode_ st))) /\
  TypeChecker.success (TypeChecker.check_program (long_if far_count)) = true /\
  (forall n, Compiler.compile (long_if n) = Ok (long_if_bytecode n)) /\
  (forall c_pow fmt_double n fuel out host,
     Z.of_nat n <= 16380 ->
     call_function (long_if_bytecode n) c_pow fmt_double (5 + fuel) out host "main" []
     = Some (Ok (VInt 2, mkState [] [] out host))) /\
  (forall c_pow fmt_double n fuel out host,
     16381 <= Z.of_nat n <= 32762 ->
     call_function (long_if_bytecode n) c_pow fmt_double (3 + fuel) out host "main" []
     = Some (Undefined "instruction fetch out of range")).
Proof.
  split; [| split; [| split; [| split]]].
  - intros st pre op x y body. apply patched_jump_target.
  - vm_compute. reflexivity.
  - apply compile_long_if.
  - intros. now apply long_if_returns.
  - intros. now apply long_if_leaves_code.
Qed.

Lemma far_state_offset : current_offset (Compiler.bytecode_ far_state) = 32772.
Proof.
  unfold current_offset, far_state, far_body. cbn [Compiler.bytecode_ instructions].
  rewrite !length_app, repeat_length. reflexivity.
Qed.

Lemma far_count_value : Z.of_nat far_count = 16381.
Proof. reflexivity. Qed.

Lemma C5_jump_patching_witness :
  (exists st',
     Compiler.patch_jump 1 far_state = Ok st' /\
     step (Compiler.bytecode_ st') no_pow no_fmt
       (running [VBool false] (new_frame 0 1 0 0) [] EmptyString idle_host)
     = Ok (Continue,
           running [VBool false] (new_frame 0 (2 ^ 64 - 32764) 0 0) []
             EmptyString idle_host) /\
     2 ^ 64 - 32764 <> current_offset (Compiler.bytecode_ far_state)) /\
  call_function (long_if_bytecode 2) no_pow no_fmt 5 EmptyString idle_host "main" []
  = Some (Ok (VInt 2, mkState [] [] EmptyString idle_host)) /\
  Compiler.compile (long_if far_count) = Ok (long_if_bytecode far_count) /\
  call_function (long_if_bytecode far_count) no_pow no_fmt 3 EmptyString idle_host
    "main" []
  = Some (Undefined "instruction fetch out of range").
Proof.
  destruct C5_jump_patching as (Hpatched & _ & Hcompile & Hnear & Hfar).
  split; [| split; [| split]].
  - destruct (Hpatched far_state [opcode_byte FALSE] JUMP_IF_FALSE 255 255 far_body
                eq_refl ltac:(rewrite far_state_offset; reflexivity))
      as (st' & Hpatch & Hstep & _ & Hlarge).
    rewrite far_state_offset in Hstep, Hlarge.
    destruct (Hlarge ltac:(cbn; lia)) as (Hk & _ & Hne).
    exists st'. split; [exact Hpatch|]. split.
    + rewrite (Hstep no_pow no_fmt [VBool false] (new_frame 0 1 0 0) [] EmptyString idle_host
                 eq_refl eq_refl).
      cbn [length Z.of_nat] in Hk |- *. rewrite Hk. reflexivity.
    + rewrite far_state_offset. cbn [length Z.of_nat] in Hk, Hne. rewrite Hk in Hne.
      lia.
  - apply (Hnear no_pow no_fmt 2%nat 0%nat). lia.
  - apply Hcompile.
  - apply (Hfar no_pow no_fmt far_count 0%nat). rewrite far_count_value. lia.
Defined.

End JumpPatching.

(** ** Precedence and associativity of binary operators *)

Section Precedence.
Import Tok Ast Parser.

(* ----- the equations of the routines ----------------------------------- *)

Lemma parse_precedence_eq fuel min_prec :
  parse_precedence (S fuel) min_prec
  = bind (parse_prefix fuel) (fun lhs =>
      match lhs with
      | None => ret None
      | Some lhs =>
          bind (parse_postfix fuel lhs) (fun lhs =>
            match lhs with
            | None => ret None
            | Some lhs => infix_loop fuel min_prec lhs
            end)
      end).
Proof. reflexivity. Qed.

Lemma peek_at_current st t : token_at st 0 t -> peek st = t.
Proof.
  unfold token_at, peek, peek_at. rewrite Nat.add_0_r. now intros ->.
Qed.

Lemma token_at_moved st i j t : token_at st (i + j) t -> token_at (moved st i) j t.
Proof.
  unfold token_at, moved; cbn. now rewrite Nat.add_assoc.
Qed.

Lemma moved_moved st i j : moved (moved st i) j = moved st (i + j).
Proof.
  unfold moved, with_current; cbn. f_equal. lia.
Qed.

Lemma advance_moved st t :
  token_at st 0 t -> type_eqb (type t) Eof = false ->
  advance st = POk t (moved st 1).
Proof.
  intros H He. unfold advance, is_at_end. rewrite (peek_at_current _ _ H), He.
  unfold previous, moved, with_current; cbn. rewrite Nat.add_1_r.
  unfold token_at in H. rewrite Nat.add_0_r in H. now rewrite H.
Qed.

Lemma check_current st t ty :
  token_at st 0 t ->
  check ty st = if type_eqb (type t) Eof then false else type_eqb (type t) ty.
Proof.
  intros H. unfold check, is_at_end. now rewrite (peek_at_current _ _ H).
Qed.

Lemma match_other st t ty :
  token_at st 0 t -> type_eqb (type t) ty = false -> match_ ty st = POk false st.
Proof.
  intros H Hty. unfold match_, bind, get. rewrite (check_current _ _ _ H), Hty.
  now destruct (type_eqb (type t) Eof).
Qed.

Lemma skip_newlines_none st t :
  token_at st 0 t -> type_eqb (type t) Newline = false -> skip_newlines st = POk tt st.
Proof.
  intros H Hty. unfold skip_newlines. destruct (tokens_left st); [reflexivity|].
  cbn [skip_newlines_loop]. rewrite (check_current _ _ _ H), Hty.
  now destruct (type_eqb (type t) Eof).
Qed.

(* ----- what the kinds of tokens exclude --------------------------------- *)

Lemma atom_type t e :
  atom t = Some e ->
  is_unary_operator (type t) = false /\ type_eqb (type t) Eof = false.
Proof.
  unfold atom. destruct (type t); try discriminate; intros _; split; reflexivity.
Qed.

Lemma operator_type t o :
  binary_op_from_token (type t) = Some o ->
  is_binary_operator (type t) = true /\
  type_eqb (type t) Eof = false /\
  type_eqb (type t) Newline = false /\
  starts_postfix (type t) = false /\
  0 <= get_binary_precedence (type t).
Proof.
  destruct (type t); try discriminate; intros _; repeat split; discriminate.
Qed.

Lemma ends_expression_type ty :
  ends_expression ty = true ->
  is_binary_operator ty = false /\ starts_postfix ty = false /\
  type_eqb ty Newline = false.
Proof.
  unfold ends_expression. intros H.
  apply andb_prop in H as [H Hn]. apply andb_prop in H as [Hb Hp].
  apply negb_true_iff in Hb. apply negb_true_iff in Hp. apply negb_true_iff in Hn.
  auto.
Qed.

(* ----- the routines on operands and operators ---------------------------- *)

Lemma parse_prefix_atom fuel st t e :
  (2 <= fuel)%nat -> token_at st 0 t -> atom t = Some e ->
  parse_prefix fuel st = POk (Some e) (moved st 1).
Proof.
  intros Hf Ht Ha. destruct fuel as [|[|fuel]]; try lia.
  destruct (atom_type _ _ Ha) as [Hu He].
  cbn [parse_prefix]. unfold bind at 1, get.
  rewrite (peek_at_current _ _ Ht), Hu.
  cbn [parse_primary]. unfold bind at 1, get.
  rewrite (peek_at_current _ _ Ht).
  pose proof (advance_moved _ _ Ht He) as Hadvance.
  unfold atom in Ha.
  destruct (type t) eqn:Ety; try discriminate Ha;
    unfold bind; rewrite Hadvance.
  - unfold int_payload. destruct (value t) as [[v|v|v]|]; try discriminate Ha.
    now injection Ha as <-.
  - unfold float_payload. destruct (value t) as [[v|v|v]|]; try discriminate Ha.
    now injection Ha as <-.
  - unfold string_payload. destruct (value t) as [[v|v|v]|]; try discriminate Ha.
    now injection Ha as <-.
  - now injection Ha as <-.
  - now injection Ha as <-.
  - now injection Ha as <-.
Qed.

Lemma parse_postfix_none fuel st t e :
  (1 <= fuel)%nat -> token_at st 0 t -> starts_postfix (type t) = false ->
  parse_postfix fuel e st = POk (Some e) st.
Proof.
  intros Hf Ht Hp. destruct fuel as [|fuel]; try lia.
  unfold starts_postfix in Hp.
  apply orb_false_elim in Hp as [Hp Hbracket]. apply orb_false_elim in Hp as [Hparen Hdot].
  cbn [parse_postfix]. unfold bind.
  rewrite (match_other _ _ _ Ht Hparen), (match_other _ _ _ Ht Hdot),
    (match_other _ _ _ Ht Hbracket).
  reflexivity.
Qed.

(** An operand token followed by a token that starts no postfix operation:
    [parse_precedence] enters its loop with the leaf. *)
Lemma parse_precedence_atom fuel st t t' min_prec e :
  (2 <= fuel)%nat -> token_at st 0 t -> atom t = Some e ->
  token_at st 1 t' -> starts_postfix (type t') = false ->
  parse_precedence (S fuel) min_prec st = infix_loop fuel min_prec e (moved st 1).
Proof.
  intros Hf Ht Ha Ht' Hp. rewrite parse_precedence_eq. unfold bind at 1.
  rewrite (parse_prefix_atom _ _ _ _ Hf Ht Ha). unfold bind at 1.
  rewrite (parse_postfix_none _ (moved st 1) t' e); [reflexivity | lia | | exact Hp].
  now apply token_at_moved.
Qed.

(** The loop stops in front of a token that is no operator, or whose
    precedence is below the minimum. *)
Lemma infix_loop_stops fuel st t min_prec lhs :
  (1 <= fuel)%nat -> token_at st 0 t -> type_eqb (type t) Newline = false ->
  is_binary_operator (type t) = false \/ get_binary_precedence (type t) < min_prec ->
  infix_loop fuel min_prec lhs st = POk (Some lhs) st.
Proof.
  intros Hf Ht Hn Hstop. destruct fuel as [|fuel]; try lia.
  cbn [infix_loop]. unfold bind at 1, get.
  destruct (is_at_end st); [reflexivity|].
  unfold bind at 1. rewrite (skip_newlines_none _ _ Ht Hn).
  unfold bind at 1. rewrite (peek_at_current _ _ Ht).
  destruct (is_binary_operator (type t)); [|reflexivity].
  destruct Hstop as [Hstop | Hstop]; [discriminate|].
  cbn [negb].
  destruct (Z.ltb_spec (get_binary_precedence (type t)) min_prec); [reflexivity | lia].
Qed.

(** The loop takes an operator whose precedence reaches the minimum, and
    parses its right operand with the operator's own minimum. *)
Lemma infix_loop_takes fuel st t t' min_prec lhs o :
  token_at st 0 t -> binary_op_from_token (type t) = Some o ->
  min_prec <= get_binary_precedence (type t) ->
  token_at st 1 t' -> type_eqb (type t') Newline = false ->
  infix_loop (S fuel) min_prec lhs st
  = bind (parse_precedence fuel
            (if negb (is_right_associative (type t))
             then get_binary_precedence (type t) + 1
             else get_binary_precedence (type t)))
      (fun rhs =>
         match rhs with
         | None => ret None
         | Some rhs => infix_loop fuel min_prec (BinaryExpr o lhs rhs (location t))
         end) (moved st 1).
Proof.
  intros Ht Ho Hprec Ht' Hn'.
  destruct (operator_type _ _ Ho) as (Hb & He & Hn & _ & _).
  cbn [infix_loop]. unfold bind at 1, get.
  unfold is_at_end. rewrite (peek_at_current _ _ Ht), He.
  unfold bind at 1. rewrite (skip_newlines_none _ _ Ht Hn).
  unfold bind at 1. rewrite (peek_at_current _ _ Ht), Hb. cbn [negb].
  destruct (Z.ltb_spec (get_binary_precedence (type t)) min_prec); [lia|].
  unfold bind at 1. rewrite (advance_moved _ _ Ht He).
  unfold bind at 1.
  rewrite (skip_newlines_none (moved st 1) t'); [| now apply token_at_moved | exact Hn'].
  rewrite Ho. reflexivity.
Qed.

(** The parse of [a op1 b op2 c] in front of a token that ends the
    expression, whatever the operators. *)
Lemma parse_two_operators st a op1 b op2 c stop ea eb ec o1 o2 fuel :
  token_at st 0 a -> token_at st 1 op1 -> token_at st 2 b ->
  token_at st 3 op2 -> token_at st 4 c -> token_at st 5 stop ->
  atom a = Some ea -> atom b = Some eb -> atom c = Some ec ->
  binary_op_from_token (type op1) = Some o1 ->
  binary_op_from_token (type op2) = Some o2 ->
  ends_expression (type stop) = true ->
  parse_expression (7 + fuel) st
  = POk (Some (if binds_right (type op1) (type op2)
               then right_nested o1 o2 op1 op2 ea eb ec
               else left_nested o1 o2 op1 op2 ea eb ec))
        (moved st 5).
Proof.
  intros Ha Hop1 Hb Hop2 Hc Hstop Aa Ab Ac O1 O2 Hend.
  destruct (operator_type _ _ O1) as (B1 & E1 & N1 & P1 & G1).
  destruct (operator_type _ _ O2) as (B2 & E2 & N2 & P2 & G2).
  destruct (ends_expression_type _ Hend) as (Bs & Ps & Ns).
  destruct (atom_type _ _ Ab) as [_ Eb]. destruct (atom_type _ _ Ac) as [_ Ec].
  assert (Nb : type_eqb (type b) Newline = false)
    by (unfold atom in Ab; destruct (type b); try discriminate; reflexivity).
  assert (Nc : type_eqb (type c) Newline = false)
    by (unfold atom in Ac; destruct (type c); try discriminate; reflexivity).
  unfold parse_expression. cbn [Nat.add].
  (* the operand [a] *)
  rewrite (parse_precedence_atom _ st a op1 _ ea); [| lia | assumption..].
  (* the operator [op1] *)
  rewrite (infix_loop_takes _ (moved st 1) op1 b _ ea o1);
    [| now apply token_at_moved | assumption | unfold PREC_LOWEST; lia
     | now apply token_at_moved | assumption].
  rewrite moved_moved. cbn [Nat.add]. unfold bind at 1.
  (* the operand [b] *)
  rewrite (parse_precedence_atom _ (moved st 2) b op2 _ eb);
    [| lia | now apply token_at_moved | assumption | now apply token_at_moved | assumption].
  rewrite moved_moved. cbn [Nat.add].
  unfold binds_right.
  set (next := if negb (is_right_associative (type op1))
               then get_binary_precedence (type op1) + 1
               else get_binary_precedence (type op1)).
  destruct (Z.leb_spec next (get_binary_precedence (type op2))) as [Hright | Hleft].
  - (* [op2] belongs to the right operand of [op1] *)
    rewrite (infix_loop_takes _ (moved st 3) op2 c _ eb o2);
      [| now apply token_at_moved | assumption | assumption
       | now apply token_at_moved | assumption].
    rewrite moved_moved. cbn [Nat.add]. unfold bind at 1.
    rewrite (parse_precedence_atom _ (moved st 4) c stop _ ec);
      [| lia | now apply token_at_moved | assumption | now apply token_at_moved | assumption].
    rewrite moved_moved. cbn [Nat.add].
    rewrite (infix_loop_stops _ (moved st 5) stop);
      [| lia | now apply token_at_moved | assumption | now left].
    rewrite (infix_loop_stops _ (moved st 5) stop);
      [| lia | now apply token_at_moved | assumption | now left].
    rewrite (infix_loop_stops _ (moved st 5) stop);
      [| lia | now apply token_at_moved | assumption | now left].
    reflexivity.
  - (* [op2] is left to the loop that took [op1] *)
    rewrite (infix_loop_stops _ (moved st 3) op2);
      [| lia | now apply token_at_moved | assumption | now right].
    rewrite (infix_loop_takes _ (moved st 3) op2 c _ _ o2);
      [| now apply token_at_moved | assumption | unfold PREC_LOWEST; lia
       | now apply token_at_moved | assumption].
    rewrite moved_moved. cbn [Nat.add]. unfold bind at 1.
    rewrite (parse_precedence_atom _ (moved st 4) c stop _ ec);
      [| lia | now apply token_at_moved | assumption | now apply token_at_moved | assumption].
    rewrite moved_moved. cbn [Nat.add].
    rewrite (infix_loop_stops _ (moved st 5) stop);
      [| lia | now apply token_at_moved | assumption | now left].
    rewrite (infix_loop_stops _ (moved st 5) stop);
      [| lia | now apply token_at_moved | assumption | now left].
    reflexivity.
Qed.

(** C8. The tokens [a op1 b op2 c], with operand tokens [a], [b], [c] and
    binary operators [op1], [op2], in front of a token that ends the
    expression: [parse_expression] returns, consumes the five tokens, and
    its tree has [op1] at the root with [op2] in the right subtree whenever
    [op2] has strictly higher precedence than [op1]. When both are [**]
    the right one is deeper (right-associative); when both are [+] the
    left one is deeper, as for any [op2] of at most the precedence of an
    [op1] other than [**] (left-associative). *)
Theorem C8_precedence_and_associativity
    st a op1 b op2 c stop ea eb ec o1 o2 fuel :
  token_at st 0 a -> token_at st 1 op1 -> token_at st 2 b ->
  token_at st 3 op2 -> token_at st 4 c -> token_at st 5 stop ->
  atom a = Some ea -> atom b = Some eb -> atom c = Some ec ->
  binary_op_from_token (type op1) = Some o1 ->
  binary_op_from_token (type op2) = Some o2 ->
  ends_expression (type stop) = true ->
  (get_binary_precedence (type op1) < get_binary_precedence (type op2) ->
     parse_expression (7 + fuel) st
     = POk (Some (right_nested o1 o2 op1 op2 ea eb ec)) (moved st 5)) /\
  (type op1 = Power -> type op2 = Power ->
     parse_expression (7 + fuel) st
     = POk (Some (right_nested o1 o2 op1 op2 ea eb ec)) (moved st 5)) /\
  (type op1 = Plus -> type op2 = Plus ->
     parse_expression (7 + fuel) st
     = POk (Some (left_nested o1 o2 op1 op2 ea eb ec)) (moved st 5)) /\
  (get_binary_precedence (type op2) <= get_binary_precedence (type op1) ->
     type op1 <> Power ->
     parse_expression (7 + fuel) st
     = POk (Some (left_nested o1 o2 op1 op2 ea eb ec)) (moved st 5)).
Proof.
  intros Ha Hop1 Hb Hop2 Hc Hstop Aa Ab Ac O1 O2 Hend.
  rewrite (parse_two_operators st a op1 b op2 c stop ea eb ec o1 o2 fuel)
    by assumption.
  unfold binds_right. repeat apply conj.
  - intros Hlt.
    destruct (negb (is_right_associative (type op1)));
      match goal with
      | |- context [?x <=? ?y] => destruct (Z.leb_spec x y); [reflexivity | lia]
      end.
  - intros -> ->. reflexivity.
  - intros -> ->. reflexivity.
  - intros Hle Hne.
    assert (Hr : is_right_associative (type op1) = false).
    { unfold is_right_associative, type_eqb.
      destruct (TokenType_eq_dec (type op1) Power); [contradiction | reflexivity]. }
    rewrite Hr. cbn [negb].
    match goal with
    | |- context [?x <=? ?y] => destruct (Z.leb_spec x y); [lia | reflexivity]
    end.
Qed.

Lemma C8_precedence_and_associativity_witness :
  parse_expression 7 sum_product
  = POk (Some (BinaryExpr Add (leaf sum_product 0)
                 (BinaryExpr Mul (leaf sum_product 2) (leaf sum_product 4)
                    (location (token sum_product 3)))
                 (location (token sum_product 1))))
        (moved sum_product 5) /\
  parse_expression 7 power_power
  = POk (Some (BinaryExpr Pow (leaf power_power 0)
                 (BinaryExpr Pow (leaf power_power 2) (leaf power_power 4)
                    (location (token power_power 3)))
                 (location (token power_power 1))))
        (moved power_power 5) /\
  parse_expression 7 sum_sum
  = POk (Some (BinaryExpr Add
                 (BinaryExpr Add (leaf sum_sum 0) (leaf sum_sum 2)
                    (location (token sum_sum 1)))
                 (leaf sum_sum 4)
                 (location (token sum_sum 3))))
        (moved sum_sum 5).
Proof.
  split; [|split].
  - refine (proj1 (C8_precedence_and_associativity sum_product
               (token sum_product 0) (token sum_product 1) (token sum_product 2) (token sum_product 3)
               (token sum_product 4) (token sum_product 5) (leaf sum_product 0) (leaf sum_product 2) (leaf sum_product 4)
               Add Mul 0 _ _ _ _ _ _ _ _ _ _ _ _) _);
      vm_compute; reflexivity.
  - refine (proj1 (proj2 (C8_precedence_and_associativity power_power
               (token power_power 0) (token power_power 1) (token power_power 2) (token power_power 3)
               (token power_power 4) (token power_power 5) (leaf power_power 0) (leaf power_power 2) (leaf power_power 4)
               Pow Pow 0 _ _ _ _ _ _ _ _ _ _ _ _)) _ _);
      vm_compute; reflexivity.
  - refine (proj1 (proj2 (proj2 (C8_precedence_and_associativity sum_sum
               (token sum_sum 0) (token sum_sum 1) (token sum_sum 2) (token sum_sum 3)
               (token sum_sum 4) (token sum_sum 5) (leaf sum_sum 0) (leaf sum_sum 2) (leaf sum_sum 4)
               Add Add 0 _ _ _ _ _ _ _ _ _ _ _ _))) _ _);
      vm_compute; reflexivity.
Defined.

End Precedence.

(** ** The bytecode container: operands, constants, functions, patches *)

Section BytecodeContainer.
Import Val Bytecode VM.

Lemma at_app_l {A} (l post : list A) (i : Z) (x : A) :
  at_ l i = Some x -> at_ (l ++ post) i = Some x.
Proof.
  unfold at_. rewrite length_app.
  destruct (Z.leb_spec 0 i); [|discriminate].
  destruct (Z.ltb_spec i (Z.of_nat (length l))); [|discriminate].
  destruct (Z.ltb_spec i (Z.of_nat (length l + length post))); [|lia].
  cbn [andb]. intros Hx. now apply lookup_app_l_Some.
Qed.

Lemma at_length {A} (l : list A) (i : Z) (x : A) :
  at_ l i = Some x -> 0 <= i < Z.of_nat (length l).
Proof.
  unfold at_.
  destruct (Z.leb_spec 0 i); [|discriminate].
  destruct (Z.ltb_spec i (Z.of_nat (length l))); [|discriminate]. lia.
Qed.

Lemma at_lookup {A} (l : list A) (i : nat) :
  at_ l (Z.of_nat i) = l !! i.
Proof.
  unfold at_.
  destruct (Z.leb_spec 0 (Z.of_nat i)); [|lia].
  destruct (Z.ltb_spec (Z.of_nat i) (Z.of_nat (length l))); cbn [andb].
  - now rewrite Nat2Z.id.
  - symmetry. apply lookup_ge_None. lia.
Qed.

Lemma at_app_offset {A} (pre l : list A) (i : Z) :
  0 <= i -> at_ (pre ++ l) (Z.of_nat (length pre) + i) = at_ l i.
Proof.
  intros Hi. unfold at_. rewrite length_app.
  destruct (Z.leb_spec 0 (Z.of_nat (length pre) + i)); [|lia].
  destruct (Z.leb_spec 0 i); [|lia]. cbn [andb].
  destruct (Z.ltb_spec i (Z.of_nat (length l)));
    destruct (Z.ltb_spec (Z.of_nat (length pre) + i)
                (Z.of_nat (length pre + length l))); try lia; [|reflexivity].
  replace (Z.to_nat (Z.of_nat (length pre) + i)) with (length pre + Z.to_nat i)%nat by lia.
  rewrite lookup_app_r by lia. f_equal. lia.
Qed.

(** X3. An instruction written by [emit] with a 16-bit operand is read back
    by the VM as it was written: [read_byte] at the offset where it was
    emitted yields the opcode's byte, which decodes to the opcode, and
    [read_uint16] then yields the operand and leaves the instruction
    pointer three bytes further. *)
Theorem X3_emitted_operand_is_read_back (bc : Bytecode.t) (op : OpCode) (operand : Z)
    stack f frames out h :
  0 <= operand <= 65535 ->
  instruction_pointer f = current_offset bc ->
  opcode_of_byte (opcode_byte op) = Some op /\
  read_byte (emit_u16 bc op operand) (running stack f frames out h)
  = Ok (opcode_byte op,
        running stack (frame_at f (current_offset bc + 1)) frames out h) /\
  read_uint16 (emit_u16 bc op operand)
    (running stack (frame_at f (current_offset bc + 1)) frames out h)
  = Ok (operand, running stack (frame_at f (current_offset bc + 3)) frames out h).
Proof.
  intros Hop Hip.
  assert (Hat : forall i, 0 <= i ->
            at_ (instructions (emit_u16 bc op operand)) (current_offset bc + i)
            = at_ [opcode_byte op; low_byte operand; high_byte operand] i).
  { intros i Hi. unfold emit_u16, with_instructions, current_offset. cbn [instructions].
    now apply at_app_offset. }
  split; [destruct op; reflexivity|]. split.
  - rewrite (read_byte_ok _ _ _ _ _ _ (opcode_byte op)).
    + now rewrite Hip.
    + unfold byte_at. rewrite Hip, <- (Z.add_0_r (current_offset bc)).
      now rewrite Hat.
  - rewrite (read_uint16_ok _ _ _ _ _ _ (low_byte operand) (high_byte operand)).
    + rewrite low_high_bytes, Z.mod_small by lia. cbn [frame_at with_ip instruction_pointer].
      unfold frame_at, with_ip; cbn. do 4 f_equal. lia.
    + unfold byte_at. cbn. now rewrite Hat.
    + unfold byte_at. cbn. rewrite <- Z.add_assoc. now rewrite Hat.
Qed.

Lemma X3_emitted_operand_is_read_back_witness :
  opcode_of_byte (opcode_byte JUMP) = Some JUMP /\
  read_byte (emit_u16 Bytecode.empty JUMP 513)
    (running [] (new_frame 0 0 0 0) [] EmptyString idle_host)
  = Ok (opcode_byte JUMP,
        running [] (frame_at (new_frame 0 0 0 0) (current_offset Bytecode.empty + 1)) []
          EmptyString idle_host) /\
  read_uint16 (emit_u16 Bytecode.empty JUMP 513)
    (running [] (frame_at (new_frame 0 0 0 0) (current_offset Bytecode.empty + 1)) []
       EmptyString idle_host)
  = Ok (513, running [] (frame_at (new_frame 0 0 0 0) (current_offset Bytecode.empty + 3)) []
               EmptyString idle_host).
Proof.
  apply (X3_emitted_operand_is_read_back Bytecode.empty JUMP 513 []
           (new_frame 0 0 0 0) [] EmptyString idle_host); [lia | reflexivity].
Defined.

(** X4. [Bytecode::patch_jump] refuses an offset whose operand bytes are not
    inside the code, with "Invalid jump patch offset". Otherwise it changes
    exactly the two bytes after [offset], keeps the length of the code, the
    constants and the functions, and the VM decodes the two bytes back to
    the signed 16-bit [jump_offset] that was written. *)
Theorem X4_patch_jump_writes_operand (bc : Bytecode.t) (offset jump_offset : Z) :
  0 <= offset < 2 ^ 64 - 2 ->
  - 32768 <= jump_offset <= 32767 ->
  (current_offset bc <= offset + 2 ->
   patch_jump bc offset jump_offset = Throw "Invalid jump patch offset") /\
  (offset + 2 < current_offset bc ->
   exists bc',
     patch_jump bc offset jump_offset = Ok bc' /\
     current_offset bc' = current_offset bc /\
     constants bc' = constants bc /\ functions bc' = functions bc /\
     (forall i, i <> offset + 1 -> i <> offset + 2 ->
                at_ (instructions bc') i = at_ (instructions bc) i) /\
     exists lo hi,
       at_ (instructions bc') (offset + 1) = Some lo /\
       at_ (instructions bc') (offset + 2) = Some hi /\
       decoded_offset lo hi = jump_offset).
Proof.
  intros Hoff Hjump. unfold patch_jump, current_offset. split; intros Hlen.
  - destruct (Z.leb_spec (Z.of_nat (length (instructions bc))) (offset + 2)); [reflexivity | lia].
  - destruct (Z.leb_spec (Z.of_nat (length (instructions bc))) (offset + 2)); [lia |].
    eexists. split; [reflexivity |]. cbn [instructions constants functions with_instructions].
    rewrite !length_insert.
    split; [reflexivity |]. split; [reflexivity |]. split; [reflexivity |]. split.
    + intros i H1 H2. unfold at_. rewrite !length_insert.
      destruct ((0 <=? i) && (i <? Z.of_nat (length (instructions bc)))) eqn:E; [|reflexivity].
      apply andb_prop in E as [E1 E2]. apply Z.leb_le in E1. apply Z.ltb_lt in E2.
      rewrite !list_lookup_insert_ne by lia. reflexivity.
    + exists (low_byte jump_offset), (high_byte jump_offset).
      unfold at_. rewrite !length_insert.
      destruct (Z.leb_spec 0 (offset + 1)); [|lia].
      destruct (Z.leb_spec 0 (offset + 2)); [|lia].
      destruct (Z.ltb_spec (offset + 1) (Z.of_nat (length (instructions bc)))); [|lia].
      destruct (Z.ltb_spec (offset + 2) (Z.of_nat (length (instructions bc)))); [|lia].
      cbn [andb]. split; [|split].
      * rewrite list_lookup_insert_ne by lia.
        apply list_lookup_insert_eq. lia.
      * apply list_lookup_insert_eq. rewrite length_insert. lia.
      * unfold decoded_offset. rewrite low_high_bytes.
        unfold Num.int16_of_uint16.
        destruct (Z.lt_ge_cases jump_offset 0) as [Hneg | Hpos].
        -- replace (jump_offset mod 65536) with (jump_offset + 65536)
             by (apply (Z.mod_unique _ _ (-1)); lia).
           destruct (Z.ltb_spec (jump_offset + 65536) 32768); lia.
        -- rewrite Z.mod_small by lia.
           destruct (Z.ltb_spec jump_offset 32768); lia.
Qed.

Lemma X4_patch_jump_writes_operand_witness :
  patch_jump (mkBytecode [opcode_byte JUMP; 255] [] []) 0 (-3)
  = Throw "Invalid jump patch offset" /\
  exists bc',
    patch_jump (mkBytecode [opcode_byte JUMP; 255; 255] [] []) 0 (-3) = Ok bc' /\
    current_offset bc' = current_offset (mkBytecode [opcode_byte JUMP; 255; 255] [] []) /\
    constants bc' = [] /\ functions bc' = [] /\
    (forall i, i <> 0 + 1 -> i <> 0 + 2 ->
               at_ (instructions bc') i = at_ [opcode_byte JUMP; 255; 255] i) /\
    exists lo hi,
      at_ (instructions bc') (0 + 1) = Some lo /\
      at_ (instructions bc') (0 + 2) = Some hi /\
      decoded_offset lo hi = -3.
Proof.
  split.
  - apply (X4_patch_jump_writes_operand (mkBytecode [opcode_byte JUMP; 255] [] []) 0 (-3));
      [lia | lia | vm_compute; discriminate].
  - apply (X4_patch_jump_writes_operand (mkBytecode [opcode_byte JUMP; 255; 255] [] []) 0 (-3));
      [lia | lia | vm_compute; reflexivity].
Defined.

(** X5. [Bytecode::add_constant] appends: while the pool holds fewer than
    65535 values it returns the index of the new value, which is the old
    size of the pool and where the value is then found; the constants that
    were there keep their index, and the code and the function table are
    untouched. With 65535 or more values in the pool it throws
    "Too many constants". *)
Theorem X5_add_constant_appends (bc : Bytecode.t) (value : Value) :
  (Z.of_nat (length (constants bc)) < 65535 ->
   exists bc',
     add_constant bc value = Ok (Z.of_nat (length (constants bc)), bc') /\
     at_ (constants bc') (Z.of_nat (length (constants bc))) = Some value /\
     (forall i c, at_ (constants bc) i = Some c -> at_ (constants bc') i = Some c) /\
     instructions bc' = instructions bc /\ functions bc' = functions bc) /\
  (65535 <= Z.of_nat (length (constants bc)) ->
   add_constant bc value = Throw "Too many constants").
Proof.
  unfold add_constant, UINT16_MAX. rewrite length_app. cbn [length]. split; intros Hlen.
  - destruct (Z.ltb_spec 65535 (Z.of_nat (length (constants bc) + 1))); [lia |].
    eexists. split; [do 2 f_equal; lia |]. cbn [constants instructions functions].
    split; [|split; [|split; reflexivity]].
    + rewrite at_lookup. rewrite lookup_app_r by lia.
      now rewrite Nat.sub_diag.
    + intros i c Hc. now apply at_app_l.
  - destruct (Z.ltb_spec 65535 (Z.of_nat (length (constants bc) + 1))); [reflexivity | lia].
Qed.

Lemma X5_add_constant_appends_witness :
  exists bc',
    add_constant (mkBytecode [] [VInt 7] []) (VBool true)
    = Ok (Z.of_nat (length (constants (mkBytecode [] [VInt 7] []))), bc') /\
    at_ (constants bc') (Z.of_nat (length (constants (mkBytecode [] [VInt 7] []))))
    = Some (VBool true) /\
    (forall i c, at_ (constants (mkBytecode [] [VInt 7] [])) i = Some c ->
                 at_ (constants bc') i = Some c) /\
    instructions bc' = instructions (mkBytecode [] [VInt 7] []) /\
    functions bc' = functions (mkBytecode [] [VInt 7] []).
Proof.
  apply (X5_add_constant_appends (mkBytecode [] [VInt 7] []) (VBool true)).
  vm_compute. reflexivity.
Defined.

(** What the loop of [find_function] returns, counting from [i]. *)
Lemma find_from_spec fs name i :
  match find_from fs name i with
  | Some k =>
      exists j f, k = (i + j)%nat /\ fs !! j = Some f /\ fn_name f = name /\
                  forall j' f', (j' < j)%nat -> fs !! j' = Some f' -> fn_name f' <> name
  | None => forall j f, fs !! j = Some f -> fn_name f <> name
  end.
Proof.
  revert i. induction fs as [|g fs IH]; intros i; cbn [find_from].
  - intros j f Hj. discriminate Hj.
  - destruct (String.eqb_spec (fn_name g) name) as [Heq | Hne].
    + exists 0%nat, g. repeat apply conj; [lia | reflexivity | assumption |].
      intros j' f' Hlt. lia.
    + specialize (IH (S i)). destruct (find_from fs name (S i)) as [k|].
      * destruct IH as (j & f & -> & Hj & Hf & Hfirst).
        exists (S j), f. repeat apply conj; [lia | exact Hj | exact Hf |].
        intros [|j'] f' Hlt Hj'.
        -- injection Hj' as <-. exact Hne.
        -- apply (Hfirst j' f'); [lia | exact Hj'].
      * intros [|j] f Hj.
        -- injection Hj as <-. exact Hne.
        -- exact (IH j f Hj).
Qed.

(** X6. [Bytecode::find_function] returns the index of the first entry of
    the function table with the given name, and reports that there is none
    exactly when no entry has that name. *)
Theorem X6_find_function_first_match (bc : Bytecode.t) (name : string) :
  match find_function bc name with
  | Some k =>
      exists f, functions bc !! k = Some f /\ fn_name f = name /\
                forall j f', (j < k)%nat -> functions bc !! j = Some f' ->
                             fn_name f' <> name
  | None => forall j f, functions bc !! j = Some f -> fn_name f <> name
  end.
Proof.
  unfold find_function. pose proof (find_from_spec (functions bc) name 0) as H.
  destruct (find_from (functions bc) name 0) as [k|]; [|exact H].
  destruct H as (j & f & -> & Hj & Hf & Hfirst). exists f. auto.
Qed.

Lemma find_from_app fs gs name i :
  find_from (fs ++ gs) name i
  = match find_from fs name i with
    | Some k => Some k
    | None => find_from gs name (i + length fs)
    end.
Proof.
  revert i. induction fs as [|f fs IH]; intros i; cbn [find_from app length].
  - now rewrite Nat.add_0_r.
  - destruct (String.eqb (fn_name f) name); [reflexivity |].
    rewrite IH. now replace (S i + length fs)%nat with (i + S (length fs))%nat by lia.
Qed.

(** X7. [Bytecode::add_function] appends an entry and returns its index,
    the old size of the table. A later [find_function] of that name
    returns the new index only if the name was not in the table before: an
    older entry of the same name keeps being the one found. The look-up of
    every other name is unchanged. *)
Theorem X7_add_function_then_find (bc : Bytecode.t) (name : string) (offset : Z)
    (param_count local_count : nat) :
  let idx := fst (add_function bc name offset param_count local_count) in
  let bc' := snd (add_function bc name offset param_count local_count) in
  idx = length (functions bc) /\
  functions bc' !! idx = Some (mkFunctionInfo name offset param_count local_count) /\
  find_function bc' name = Some (default idx (find_function bc name)) /\
  (forall other, other <> name -> find_function bc' other = find_function bc other) /\
  instructions bc' = instructions bc /\ constants bc' = constants bc.
Proof.
  cbn zeta. unfold add_function, find_function.
  cbn [fst snd functions with_functions instructions constants].
  rewrite length_app. cbn [length].
  replace (length (functions bc) + 1 - 1)%nat with (length (functions bc)) by lia.
  repeat apply conj; try reflexivity.
  - rewrite lookup_app_r by lia. now rewrite Nat.sub_diag.
  - rewrite find_from_app. destruct (find_from (functions bc) name 0); [reflexivity |].
    cbn [find_from fn_name default]. now rewrite String.eqb_refl.
  - intros other Hne. rewrite find_from_app.
    destruct (find_from (functions bc) other 0); [reflexivity |].
    cbn [find_from fn_name].
    destruct (String.eqb_spec name other); [congruence | reflexivity].
Qed.

End BytecodeContainer.

(** ** The VM: collections, locals and calls *)

Section VMCollections.
Import Val Bytecode VM.

Variable bc : Bytecode.t.
Variable c_pow : float -> float -> float.
Variable fmt_double : float -> string.

Lemma pop_n_ok popped s cs out h :
  pop_n (length popped) (mkState (popped ++ s) cs out h)
  = Ok (popped, mkState s cs out h).
Proof.
  revert s. induction popped as [|v popped IH]; intros s; [reflexivity |].
  cbn [length pop_n app]. unfold bind at 1, pop, bind, get, put, ret, with_stack. cbn.
  rewrite IH. reflexivity.
Qed.

Lemma pop_n_underflow n stack cs out h :
  (length stack < n)%nat ->
  pop_n n (mkState stack cs out h) = Throw "Stack underflow".
Proof.
  revert stack. induction n as [|n IH]; intros stack Hlen; [lia |].
  cbn [pop_n]. destruct stack as [|v stack].
  - reflexivity.
  - unfold bind at 1, pop, bind, get, put, ret, with_stack. cbn.
    cbn [length] in Hlen. rewrite IH by lia. reflexivity.
Qed.

(** The loop that pops [count] values gives them back in the order in
    which they were pushed. *)
Lemma pop_args_ok vs s cs out h :
  pop_args (Z.of_nat (length vs)) (mkState (rev vs ++ s) cs out h)
  = Ok (vs, mkState s cs out h).
Proof.
  unfold pop_args, bind. rewrite Nat2Z.id, <- length_rev.
  rewrite pop_n_ok. unfold ret. now rewrite rev_involutive.
Qed.

Lemma pop_args_underflow count stack cs out h :
  Z.of_nat (length stack) < count ->
  pop_args count (mkState stack cs out h) = Throw "Stack underflow".
Proof.
  intros Hlen. unfold pop_args, bind. rewrite pop_n_underflow by lia. reflexivity.
Qed.

(** X8. [BUILD_LIST count] and [BUILD_TUPLE count] take the [count] topmost
    values off the stack and push one collection that holds them in the
    order in which they were pushed (the deepest first). When the stack
    holds fewer than [count] values the instruction throws
    "Stack underflow". *)
Theorem X8_build_collection (tuple : bool) vs stack f frames out h lo hi :
  byte_at bc (instruction_pointer f)
    (opcode_byte (if tuple then BUILD_TUPLE else BUILD_LIST)) ->
  byte_at bc (instruction_pointer f + 1) lo ->
  byte_at bc (instruction_pointer f + 1 + 1) hi ->
  (Z.lor lo (Z.shiftl hi 8) = Z.of_nat (length vs) ->
   step bc c_pow fmt_double (running (rev vs ++ stack) f frames out h)
   = Ok (Continue,
         running ((if tuple then VTuple vs else VList vs) :: stack)
           (frame_at f (instruction_pointer f + 1 + 1 + 1)) frames out h)) /\
  (Z.of_nat (length stack) < Z.lor lo (Z.shiftl hi 8) ->
   step bc c_pow fmt_double (running stack f frames out h) = Throw "Stack underflow").
Proof.
  intros Hb Hlo Hhi.
  split; intros Hcount; unfold step, bind at 1;
    rewrite (read_byte_ok _ _ _ _ _ _ _ Hb);
    destruct tuple; cbn [opcode_of_byte opcode_byte]; unfold bind at 1;
    rewrite (read_uint16_ok _ _ (frame_at f _) _ _ _ lo hi Hlo Hhi);
    unfold bind at 1, running.
  1, 2: rewrite Hcount, pop_args_ok; reflexivity.
  1, 2: rewrite pop_args_underflow by exact Hcount; reflexivity.
Qed.

Lemma step_load_local v s f frames out h lo hi :
  byte_at bc (instruction_pointer f) (opcode_byte LOAD_LOCAL) ->
  byte_at bc (instruction_pointer f + 1) lo ->
  byte_at bc (instruction_pointer f + 1 + 1) hi ->
  at_ (locals f) (Z.lor lo (Z.shiftl hi 8)) = Some v ->
  step bc c_pow fmt_double (running s f frames out h)
  = Ok (Continue,
        running (v :: s) (frame_at f (instruction_pointer f + 1 + 1 + 1)) frames out h).
Proof.
  intros Hb Hlo Hhi Hv. unfold step, bind at 1.
  rewrite (read_byte_ok _ _ _ _ _ _ _ Hb). cbn [opcode_of_byte opcode_byte].
  unfold bind at 1.
  rewrite (read_uint16_ok _ _ (frame_at f _) _ _ _ lo hi Hlo Hhi).
  cbn. rewrite Hv. reflexivity.
Qed.

(** X9. [INDEX] pops the index, then the collection. With an Int index
    inside the bounds of a list or tuple it pushes that element; a negative
    index or one at or past the size throws the "index out of bounds"
    error that names the index and the size. *)
Theorem X9_index_bounds (tuple : bool) idx l stack f frames out h :
  byte_at bc (instruction_pointer f) (opcode_byte INDEX) ->
  (0 <= idx < Z.of_nat (length l) ->
   exists v,
     l !! Z.to_nat idx = Some v /\
     step bc c_pow fmt_double
       (running (VInt idx :: (if tuple then VTuple l else VList l) :: stack) f frames out h)
     = Ok (Continue,
           running (v :: stack) (frame_at f (instruction_pointer f + 1)) frames out h)) /\
  (idx < 0 \/ Z.of_nat (length l) <= idx ->
   step bc c_pow fmt_double
     (running (VInt idx :: (if tuple then VTuple l else VList l) :: stack) f frames out h)
   = Throw ((if tuple then "Tuple" else "List") +:+ " index out of bounds: "
            +:+ Str.of_Z idx +:+ " (size: " +:+ Str.of_nat (length l) +:+ ")")).
Proof.
  intros Hb. split; intros Hidx.
  - destruct (lookup_lt_is_Some_2 l (Z.to_nat idx) ltac:(lia)) as [v Hv].
    exists v. split; [exact Hv |].
    unfold step, bind at 1. rewrite (read_byte_ok _ _ _ _ _ _ _ Hb).
    assert (Hat : at_ l idx = Some v).
    { unfold at_. destruct (Z.leb_spec 0 idx); [|lia].
      destruct (Z.ltb_spec idx (Z.of_nat (length l))); [exact Hv | lia]. }
    destruct tuple; cbn; rewrite Hat; reflexivity.
  - unfold step, bind at 1. rewrite (read_byte_ok _ _ _ _ _ _ _ Hb).
    assert (Hat : at_ l idx = None).
    { unfold at_. destruct (Z.leb_spec 0 idx); [|reflexivity].
      destruct (Z.ltb_spec idx (Z.of_nat (length l))); [lia | reflexivity]. }
    destruct tuple; cbn; rewrite Hat; reflexivity.
Qed.

(** X10. A [STORE_LOCAL idx] followed by a [LOAD_LOCAL idx] of the same
    slot pushes the value that was stored: the value that was on top of
    the stack is then on the stack twice, and the slot holds it. *)
Theorem X10_store_then_load v stack f frames out h lo hi :
  byte_at bc (instruction_pointer f) (opcode_byte STORE_LOCAL) ->
  byte_at bc (instruction_pointer f + 1) lo ->
  byte_at bc (instruction_pointer f + 2) hi ->
  byte_at bc (instruction_pointer f + 3) (opcode_byte LOAD_LOCAL) ->
  byte_at bc (instruction_pointer f + 4) lo ->
  byte_at bc (instruction_pointer f + 5) hi ->
  0 <= Z.lor lo (Z.shiftl hi 8) < Z.of_nat (length (locals f)) ->
  steps bc c_pow fmt_double 2 (running (v :: stack) f frames out h)
  = Ok (running (v :: v :: stack)
          (mkCallFrame (function_index f) (instruction_pointer f + 6) (stack_base f)
             (<[Z.to_nat (Z.lor lo (Z.shiftl hi 8)) := v]> (locals f)))
          frames out h).
Proof.
  intros Hs Hlo Hhi Hl Hlo' Hhi' Hidx.
  set (idx := Z.lor lo (Z.shiftl hi 8)) in *.
  assert (Hold : is_Some (at_ (locals f) idx)).
  { unfold at_. destruct (Z.leb_spec 0 idx); [|lia].
    destruct (Z.ltb_spec idx (Z.of_nat (length (locals f)))); [|lia].
    apply lookup_lt_is_Some_2. lia. }
  replace (instruction_pointer f + 2) with (instruction_pointer f + 1 + 1) in Hhi by lia.
  cbn [steps].
  rewrite (step_store_local bc c_pow fmt_double v stack f frames out h lo hi Hs Hlo Hhi Hold).
  fold idx.
  set (f1 := mkCallFrame _ _ _ _).
  assert (E : instruction_pointer f1 = instruction_pointer f + 3) by (cbn; lia).
  rewrite (step_load_local v (v :: stack) f1 frames out h lo hi).
  - unfold frame_at, with_ip, f1. cbn. do 3 f_equal. lia.
  - now rewrite E.
  - rewrite E. now replace (instruction_pointer f + 3 + 1) with (instruction_pointer f + 4) by lia.
  - rewrite E. now replace (instruction_pointer f + 3 + 1 + 1) with (instruction_pointer f + 5) by lia.
  - fold idx. unfold f1. cbn [locals]. unfold at_. rewrite length_insert.
    destruct (Z.leb_spec 0 idx); [|lia].
    destruct (Z.ltb_spec idx (Z.of_nat (length (locals f)))); [|lia].
    apply list_lookup_insert_eq. lia.
Qed.

(** The loop that copies the arguments of a call into the first locals of
    the new frame. *)
Lemma store_args_ok pre old args :
  (length args <= length old)%nat ->
  store_args (pre ++ old) (length pre) args
  = Ok (pre ++ args ++ drop (length args) old).
Proof.
  revert pre old. induction args as [|a args IH]; intros pre old Hlen.
  - cbn [store_args app length]. now rewrite drop_0.
  - cbn [store_args length] in *. destruct old as [|o old]; [cbn in Hlen; lia |].
    rewrite length_app. cbn [length].
    destruct (Nat.ltb_spec (length pre) (length pre + S (length old))); [|lia].
    rewrite insert_app_r_alt by lia. rewrite Nat.sub_diag. cbn [insert list_insert].
    specialize (IH (pre ++ [a]) old ltac:(cbn in Hlen; lia)).
    rewrite length_app, Nat.add_1_r in IH. cbn [length] in IH.
    rewrite <- app_assoc in IH. cbn [app] in IH. rewrite IH.
    rewrite <- app_assoc. reflexivity.
Qed.

Lemma store_args_short pre old args :
  (length old < length args)%nat ->
  store_args (pre ++ old) (length pre) args = Undefined "locals[i] out of range".
Proof.
  revert pre old. induction args as [|a args IH]; intros pre old Hlen.
  - cbn in Hlen. lia.
  - cbn [store_args length] in *. rewrite length_app.
    destruct old as [|o old].
    + cbn [length]. destruct (Nat.ltb_spec (length pre) (length pre + 0)); [lia | reflexivity].
    + cbn [length] in *.
      destruct (Nat.ltb_spec (length pre) (length pre + S (length old))); [|lia].
      rewrite insert_app_r_alt by lia. rewrite Nat.sub_diag. cbn [insert list_insert].
      specialize (IH (pre ++ [a]) old ltac:(lia)).
      rewrite length_app, Nat.add_1_r in IH. cbn [length] in IH.
      rewrite <- app_assoc in IH. exact IH.
Qed.

(** X11. [CALL func_idx argc] with as many arguments as the callee has
    parameters pops the arguments and starts a frame at the callee's
    offset whose first locals are the arguments in the order they were
    pushed, the other locals being Int 0; the caller's frame is kept with
    the address after the operands. With another number of arguments the
    instruction throws the arity error, whatever is on the stack. *)
Theorem X11_call_binds_arguments args stack f frames out h lo hi argc info :
  byte_at bc (instruction_pointer f) (opcode_byte CALL) ->
  byte_at bc (instruction_pointer f + 1) lo ->
  byte_at bc (instruction_pointer f + 1 + 1) hi ->
  byte_at bc (instruction_pointer f + 1 + 1 + 1) argc ->
  at_ (functions bc) (Z.lor lo (Z.shiftl hi 8)) = Some info ->
  (argc = Z.of_nat (length args) ->
   fn_param_count info = length args ->
   (length args <= fn_local_count info)%nat ->
   step bc c_pow fmt_double (running (rev args ++ stack) f frames out h)
   = Ok (Continue,
         running stack
           (mkCallFrame (Z.to_nat (Z.lor lo (Z.shiftl hi 8))) (fn_offset info)
              (length stack)
              (args ++ replicate (fn_local_count info - length args) (VInt 0)))
           (frame_at f (instruction_pointer f + 1 + 1 + 1 + 1) :: frames) out h)) /\
  (argc <> Z.of_nat (fn_param_count info) ->
   step bc c_pow fmt_double (running stack f frames out h)
   = Throw ("Function '" +:+ fn_name info +:+ "' expects "
            +:+ Str.of_nat (fn_param_count info)
            +:+ " arguments, got " +:+ Str.of_Z argc)).
Proof.
  intros Hb Hlo Hhi Hn Hinfo.
  split.
  - intros Hargc Hparams Hlocals. unfold step, bind at 1.
    rewrite (read_byte_ok _ _ _ _ _ _ _ Hb). cbn [opcode_of_byte opcode_byte].
    unfold bind at 1.
    rewrite (read_uint16_ok _ _ (frame_at f _) _ _ _ lo hi Hlo Hhi).
    unfold bind at 1.
    erewrite read_byte_ok by exact Hn.
    rewrite Hinfo, Hparams, Hargc, Z.eqb_refl. cbn [negb].
    unfold bind at 1, running. rewrite pop_args_ok.
    unfold bind, ip, current_frame, get, ret, lift, set_ip, set_current_frame, put,
      new_frame, with_locals, with_call_stack, with_ip, frame_at. cbn.
    pose proof (store_args_ok [] (replicate (fn_local_count info) (VInt 0)) args) as Hstore.
    rewrite length_replicate in Hstore. cbn [app length] in Hstore.
    rewrite Hstore by exact Hlocals. rewrite drop_replicate. reflexivity.
  - intros Hargc. unfold step, bind at 1.
    rewrite (read_byte_ok _ _ _ _ _ _ _ Hb). cbn [opcode_of_byte opcode_byte].
    unfold bind at 1.
    rewrite (read_uint16_ok _ _ (frame_at f _) _ _ _ lo hi Hlo Hhi).
    unfold bind at 1.
    erewrite read_byte_ok by exact Hn.
    rewrite Hinfo. destruct (Z.eqb_spec argc (Z.of_nat (fn_param_count info))); [contradiction |].
    reflexivity.
Qed.

End VMCollections.

Section VMCollectionsWitnesses.
Import Val Bytecode VM.

Lemma X8_build_collection_witness :
  step (mkBytecode [opcode_byte BUILD_TUPLE; 2; 0] [] []) no_pow no_fmt
    (running (rev [VInt 1; VBool true] ++ [VInt 9]) (new_frame 0 0 0 0) [] EmptyString
       idle_host)
  = Ok (Continue,
        running (VTuple [VInt 1; VBool true] :: [VInt 9])
          (frame_at (new_frame 0 0 0 0) (0 + 1 + 1 + 1)) [] EmptyString idle_host) /\
  step (mkBytecode [opcode_byte BUILD_TUPLE; 2; 0] [] []) no_pow no_fmt
    (running [VInt 9] (new_frame 0 0 0 0) [] EmptyString idle_host)
  = Throw "Stack underflow".
Proof.
  split.
  - apply (X8_build_collection (mkBytecode [opcode_byte BUILD_TUPLE; 2; 0] [] [])
             no_pow no_fmt true [VInt 1; VBool true] [VInt 9] (new_frame 0 0 0 0) []
             EmptyString idle_host 2 0); reflexivity.
  - apply (X8_build_collection (mkBytecode [opcode_byte BUILD_TUPLE; 2; 0] [] [])
             no_pow no_fmt true [] [VInt 9] (new_frame 0 0 0 0) []
             EmptyString idle_host 2 0); reflexivity.
Defined.

Lemma X9_index_bounds_witness :
  (exists v,
     [VInt 5; VInt 6] !! Z.to_nat 1 = Some v /\
     step (mkBytecode [opcode_byte INDEX] [] []) no_pow no_fmt
       (running [VInt 1; VList [VInt 5; VInt 6]] (new_frame 0 0 0 0) [] EmptyString
          idle_host)
     = Ok (Continue,
           running [v] (frame_at (new_frame 0 0 0 0) (0 + 1)) [] EmptyString idle_host)) /\
  step (mkBytecode [opcode_byte INDEX] [] []) no_pow no_fmt
    (running [VInt (-1); VList [VInt 5; VInt 6]] (new_frame 0 0 0 0) [] EmptyString
       idle_host)
  = Throw ("List" +:+ " index out of bounds: " +:+ Str.of_Z (-1) +:+ " (size: "
           +:+ Str.of_nat (length [VInt 5; VInt 6]) +:+ ")").
Proof.
  split.
  - apply (X9_index_bounds (mkBytecode [opcode_byte INDEX] [] []) no_pow no_fmt false 1
             [VInt 5; VInt 6] [] (new_frame 0 0 0 0) [] EmptyString idle_host);
      [reflexivity | cbn; lia].
  - apply (X9_index_bounds (mkBytecode [opcode_byte INDEX] [] []) no_pow no_fmt false (-1)
             [VInt 5; VInt 6] [] (new_frame 0 0 0 0) [] EmptyString idle_host);
      [reflexivity | left; lia].
Defined.

Lemma X10_store_then_load_witness :
  steps (mkBytecode [opcode_byte STORE_LOCAL; 1; 0; opcode_byte LOAD_LOCAL; 1; 0] [] [])
    no_pow no_fmt 2
    (running [VInt 42] (new_frame 0 0 0 2) [] EmptyString idle_host)
  = Ok (running [VInt 42; VInt 42]
          (mkCallFrame 0 (0 + 6) 0 (<[Z.to_nat (Z.lor 1 (Z.shiftl 0 8)) := VInt 42]>
                                      (locals (new_frame 0 0 0 2))))
          [] EmptyString idle_host).
Proof.
  apply (X10_store_then_load
           (mkBytecode [opcode_byte STORE_LOCAL; 1; 0; opcode_byte LOAD_LOCAL; 1; 0] [] [])
           no_pow no_fmt (VInt 42) [] (new_frame 0 0 0 2) [] EmptyString idle_host 1 0);
    try reflexivity.
  vm_compute. split; [discriminate | reflexivity].
Defined.

Lemma X11_call_binds_arguments_witness :
  step (mkBytecode [opcode_byte CALL; 0; 0; 2] [] [mkFunctionInfo "f" 0 2 3]) no_pow no_fmt
    (running (rev [VInt 1; VInt 2] ++ [VInt 9]) (new_frame 0 0 0 0) [] EmptyString
       idle_host)
  = Ok (Continue,
        running [VInt 9]
          (mkCallFrame (Z.to_nat (Z.lor 0 (Z.shiftl 0 8))) 0 (length [VInt 9])
             ([VInt 1; VInt 2] ++ replicate (3 - length [VInt 1; VInt 2]) (VInt 0)))
          [frame_at (new_frame 0 0 0 0) (0 + 1 + 1 + 1 + 1)] EmptyString idle_host) /\
  step (mkBytecode [opcode_byte CALL; 0; 0; 1] [] [mkFunctionInfo "f" 0 2 3]) no_pow no_fmt
    (running [VInt 9] (new_frame 0 0 0 0) [] EmptyString idle_host)
  = Throw ("Function '" +:+ "f" +:+ "' expects " +:+ Str.of_nat 2
           +:+ " arguments, got " +:+ Str.of_Z 1).
Proof.
  split.
  - apply (X11_call_binds_arguments
             (mkBytecode [opcode_byte CALL; 0; 0; 2] [] [mkFunctionInfo "f" 0 2 3])
             no_pow no_fmt [VInt 1; VInt 2] [VInt 9] (new_frame 0 0 0 0) [] EmptyString
             idle_host 0 0 2 (mkFunctionInfo "f" 0 2 3)); try reflexivity.
    cbn. lia.
  - apply (X11_call_binds_arguments
             (mkBytecode [opcode_byte CALL; 0; 0; 1] [] [mkFunctionInfo "f" 0 2 3])
             no_pow no_fmt [] [VInt 9] (new_frame 0 0 0 0) [] EmptyString
             idle_host 0 0 1 (mkFunctionInfo "f" 0 2 3)); try reflexivity.
    cbn. lia.
Defined.

End VMCollectionsWitnesses.

(** ** Runtime values: equality and ordering *)

From Stdlib Require Import FloatAxioms.

Section ValueComparison.
Import Val.

(** Induction on values that reaches the elements of lists and tuples. *)
Lemma Value_nested_ind (P : Value -> Prop) :
  (forall i, P (VInt i)) -> (forall f, P (VFloat f)) -> (forall b, P (VBool b)) ->
  (forall s, P (VString s)) ->
  (forall l, Forall P l -> P (VList l)) ->
  (forall l, Forall P l -> P (VTuple l)) ->
  (forall i n, P (VFunction i n)) ->
  forall v, P v.
Proof.
  intros Hi Hf Hb Hs Hl Ht Hfn. fix IH 1. intros [i | f | b | s | l | l | i n].
  - apply Hi.
  - apply Hf.
  - apply Hb.
  - apply Hs.
  - apply Hl. induction l as [|a l IHl]; constructor; [apply IH | exact IHl].
  - apply Ht. induction l as [|a l IHl]; constructor; [apply IH | exact IHl].
  - apply Hfn.
Qed.

Lemma SFcompare_antisym a b :
  SFcompare b a = option_map CompOpp (SFcompare a b).
Proof.
  unfold SFcompare.
  destruct a as [s1 | s1 | | s1 m1 e1], b as [s2 | s2 | | s2 m2 e2]; try reflexivity;
    try (destruct s1, s2; reflexivity).
  destruct s1, s2; try reflexivity;
    rewrite (Z.compare_antisym e1 e2); destruct (e1 ?= e2)%Z; cbn; try reflexivity;
    change (PosDef.Pos.compare_cont Eq m1 m2) with (m1 ?= m2)%positive;
    change (PosDef.Pos.compare_cont Eq m2 m1) with (m2 ?= m1)%positive;
    rewrite (Pos.compare_antisym m1 m2); destruct (m1 ?= m2)%positive; reflexivity.
Qed.

Lemma float_eqb_sym x y : PrimFloat.eqb x y = PrimFloat.eqb y x.
Proof.
  rewrite !eqb_spec. unfold SFeqb. rewrite (SFcompare_antisym (Prim2SF y) (Prim2SF x)).
  destruct (SFcompare (Prim2SF y) (Prim2SF x)) as [[]|]; reflexivity.
Qed.

Lemma float_ltb_asym x y :
  PrimFloat.ltb x y = true -> PrimFloat.ltb y x = false /\ PrimFloat.eqb x y = false.
Proof.
  rewrite !ltb_spec, eqb_spec. unfold SFltb, SFeqb.
  rewrite (SFcompare_antisym (Prim2SF x) (Prim2SF y)).
  destruct (SFcompare (Prim2SF x) (Prim2SF y)) as [[]|]; cbn; intros H;
    try discriminate H; split; reflexivity.
Qed.

Lemma string_ltb_asym s t :
  String.ltb s t = true -> String.ltb t s = false /\ String.eqb s t = false.
Proof.
  unfold String.ltb. rewrite (String.compare_antisym s t).
  destruct (String.compare t s) eqn:E; intros H; try discriminate H. split; [reflexivity |].
  apply String.eqb_neq. intros ->.
  pose proof (String.compare_antisym t t) as A. rewrite E in A. discriminate A.
Qed.

(** X12. [Value::operator==] is symmetric, and two values it finds equal
    have the same type: an Int is never equal to a Float, nor a list to a
    tuple with the same elements. *)
Theorem X12_equality_symmetric (a b : Value) :
  equal a b = equal b a /\ (equal a b = true -> same_type a b = true).
Proof.
  split.
  - revert b. induction a as [i | f | x | s | l IH | l IH | i n] using Value_nested_ind;
      intros [j | g | y | t | r | r | j m]; try reflexivity.
    + apply Z.eqb_sym.
    + apply float_eqb_sym.
    + destruct x, y; reflexivity.
    + apply String.eqb_sym.
    + cbn [equal]. revert r. induction IH as [|a l Ha _ IHl]; intros [|b r]; try reflexivity.
      rewrite Ha. f_equal. apply IHl.
    + cbn [equal]. revert r. induction IH as [|a l Ha _ IHl]; intros [|b r]; try reflexivity.
      rewrite Ha. f_equal. apply IHl.
    + apply Nat.eqb_sym.
  - destruct a, b; cbn; intros H; try discriminate H; reflexivity.
Qed.

Lemma X12_equality_symmetric_witness :
  equal (VList [VInt 1]) (VTuple [VInt 1]) = equal (VTuple [VInt 1]) (VList [VInt 1]) /\
  same_type (VList [VInt 1]) (VList [VInt 1]) = true.
Proof.
  split.
  - apply (X12_equality_symmetric (VList [VInt 1]) (VTuple [VInt 1])).
  - apply (X12_equality_symmetric (VList [VInt 1]) (VList [VInt 1])). reflexivity.
Defined.

(** X13. [Value::operator<] throws "Cannot compare ..." on operands of two
    different types. Where it holds it is asymmetric and excludes
    equality: from [a < b] follow that [b < a] is false and that
    [a == b] is false. *)
Theorem X13_ordering_asymmetric (a b : Value) :
  (same_type a b = false ->
   less a b = Throw ("Cannot compare " +:+ type_name a +:+ " and " +:+ type_name b)) /\
  (less a b = Ok true -> less b a = Ok false /\ equal a b = false).
Proof.
  split.
  - intros H. unfold less. now rewrite H.
  - destruct a, b; cbn; intros H; try discriminate H; injection H as H.
    + apply Z.ltb_lt in H. split; [f_equal; apply Z.ltb_ge; lia | apply Z.eqb_neq; lia].
    + apply float_ltb_asym in H as [-> ->]. split; reflexivity.
    + apply string_ltb_asym in H as [-> ->]. split; reflexivity.
Qed.

Lemma X13_ordering_asymmetric_witness :
  less (VInt 1) (VBool true)
  = Throw ("Cannot compare " +:+ type_name (VInt 1) +:+ " and " +:+ type_name (VBool true)) /\
  less (VString "b") (VString "a") = Ok false /\
  equal (VString "a") (VString "b") = false.
Proof.
  split.
  - apply (X13_ordering_asymmetric (VInt 1) (VBool true)). reflexivity.
  - apply (X13_ordering_asymmetric (VString "a") (VString "b")). reflexivity.
Defined.

End ValueComparison.

(** ** Built-in methods of lists and strings *)

Section BuiltinMethods.
Import Val VM.

Variable fmt_double : float -> string.

(** X14. The list methods build new lists and agree with one another:
    reversing twice gives the list back; [append] and [concat] lengthen
    the list by one and by the length of the argument; on an empty list
    [head] and [tail] throw, and on any other list they split it into its
    first element and the rest. *)
Theorem X14_list_methods (l other : list Value) (x : Value) :
  (let* r := call_builtin_method fmt_double "reverse" (VList l) [] in
   call_builtin_method fmt_double "reverse" r []) = Ok (VList l) /\
  (let* r := call_builtin_method fmt_double "append" (VList l) [x] in
   call_builtin_method fmt_double "length" r [])
  = Ok (VInt (Z.of_nat (length l) + 1)) /\
  (let* r := call_builtin_method fmt_double "concat" (VList l) [VList other] in
   call_builtin_method fmt_double "length" r [])
  = Ok (VInt (Z.of_nat (length l) + Z.of_nat (length other))) /\
  (call_builtin_method fmt_double "is_empty" (VList l) [] = Ok (VBool true) ->
   call_builtin_method fmt_double "head" (VList l) [] = Throw "List.head() on empty list" /\
   call_builtin_method fmt_double "tail" (VList l) [] = Throw "List.tail() on empty list") /\
  (call_builtin_method fmt_double "is_empty" (VList l) [] = Ok (VBool false) ->
   exists first rest,
     call_builtin_method fmt_double "head" (VList l) [] = Ok first /\
     call_builtin_method fmt_double "tail" (VList l) [] = Ok (VList rest) /\
     l = first :: rest).
Proof.
  repeat apply conj.
  - cbn. now rewrite rev_involutive.
  - cbn. rewrite length_app. cbn [length]. do 2 f_equal. lia.
  - cbn. rewrite length_app. do 2 f_equal. lia.
  - destruct l; cbn; intros H; [split; reflexivity | discriminate H].
  - destruct l as [|first rest]; cbn; intros H; [discriminate H |].
    exists first, rest. repeat split.
Qed.

(* ----- strings --------------------------------------------------------- *)

Lemma to_list_of_list l : Str.to_list (Str.of_list l) = l.
Proof. induction l as [|c l IH]; [reflexivity | cbn; now rewrite IH]. Qed.

Lemma of_list_to_list s : Str.of_list (Str.to_list s) = s.
Proof. induction s as [|c s IH]; [reflexivity | cbn; now rewrite IH]. Qed.

Lemma drop_space_clean l : starts_clean (Str.drop_space l).
Proof.
  induction l as [|c l IH]; [exact I |].
  cbn [Str.drop_space]. destruct (Str.is_space c) eqn:E; [exact IH | exact E].
Qed.

Lemma drop_space_of_clean l : starts_clean l -> Str.drop_space l = l.
Proof. destruct l as [|c l]; [reflexivity |]. cbn. now intros ->. Qed.

Lemma drop_space_suffix l : exists pre, l = pre ++ Str.drop_space l.
Proof.
  induction l as [|c l [pre IH]]; [now exists [] |].
  cbn [Str.drop_space]. destruct (Str.is_space c).
  - exists (c :: pre). cbn. now f_equal.
  - now exists [].
Qed.

Lemma trimmed_clean l :
  let b := Str.drop_space (rev (Str.drop_space l)) in
  starts_clean b /\ starts_clean (rev b).
Proof.
  cbn zeta. split; [apply drop_space_clean |].
  destruct (drop_space_suffix (rev (Str.drop_space l))) as [pre Hpre].
  pose proof (drop_space_clean l) as Ha.
  set (a := Str.drop_space l) in *. set (b := Str.drop_space (rev a)) in *.
  assert (E : a = rev b ++ rev pre).
  { rewrite <- (rev_involutive a), Hpre. now rewrite rev_app_distr. }
  destruct (rev b) as [|c r]; [exact I |].
  rewrite E in Ha. exact Ha.
Qed.

Lemma trim_idempotent s : Str.trim (Str.trim s) = Str.trim s.
Proof.
  unfold Str.trim. rewrite to_list_of_list.
  destruct (trimmed_clean (Str.to_list s)) as [Hb Hrb]. cbn zeta in Hb, Hrb.
  rewrite (drop_space_of_clean _ Hrb), rev_involutive.
  now rewrite (drop_space_of_clean _ Hb).
Qed.

Lemma toupper_idempotent c : Str.toupper (Str.toupper c) = Str.toupper c.
Proof. destruct c as [[] [] [] [] [] [] [] []]; reflexivity. Qed.

Lemma map_length f s : String.length (Str.map f s) = String.length s.
Proof. induction s as [|c s IH]; [reflexivity | cbn; now rewrite IH]. Qed.

(** X15. The string methods: [trim] is idempotent and its result neither
    starts nor ends with a space, tab, newline or carriage return;
    [to_upper] is idempotent and keeps the length; a string that
    [starts_with] a prefix also [contains] it. *)
Theorem X15_string_methods (s : string) :
  (let* r := call_builtin_method fmt_double "trim" (VString s) [] in
   call_builtin_method fmt_double "trim" r [])
  = call_builtin_method fmt_double "trim" (VString s) [] /\
  (exists t, call_builtin_method fmt_double "trim" (VString s) [] = Ok (VString t) /\
             starts_clean (Str.to_list t) /\ starts_clean (rev (Str.to_list t))) /\
  (let* r := call_builtin_method fmt_double "to_upper" (VString s) [] in
   call_builtin_method fmt_double "to_upper" r [])
  = call_builtin_method fmt_double "to_upper" (VString s) [] /\
  (let* r := call_builtin_method fmt_double "to_upper" (VString s) [] in
   call_builtin_method fmt_double "length" r [])
  = call_builtin_method fmt_double "length" (VString s) [] /\
  (forall prefix,
     call_builtin_method fmt_double "starts_with" (VString s) [VString prefix]
     = Ok (VBool true) ->
     call_builtin_method fmt_double "contains" (VString s) [VString prefix]
     = Ok (VBool true)).
Proof.
  repeat apply conj.
  - cbn. now rewrite trim_idempotent.
  - exists (Str.trim s). split; [reflexivity |].
    unfold Str.trim. rewrite to_list_of_list, rev_involutive.
    destruct (trimmed_clean (Str.to_list s)) as [Hb Hrb]. split; assumption.
  - cbn. do 2 f_equal. induction s as [|c s IH]; [reflexivity |].
    cbn. now rewrite toupper_idempotent, IH.
  - cbn. now rewrite map_length.
  - intros prefix. cbn. unfold Str.starts_with. intros H. injection H as H.
    destruct s; cbn [Str.contains]; rewrite H; reflexivity.
Qed.

End BuiltinMethods.

Section BuiltinMethodsWitnesses.
Import Val VM.

Lemma X14_list_methods_witness :
  (call_builtin_method no_fmt "head" (VList []) [] = Throw "List.head() on empty list" /\
   call_builtin_method no_fmt "tail" (VList []) [] = Throw "List.tail() on empty list") /\
  exists first rest,
    call_builtin_method no_fmt "head" (VList [VInt 1; VInt 2]) [] = Ok first /\
    call_builtin_method no_fmt "tail" (VList [VInt 1; VInt 2]) [] = Ok (VList rest) /\
    [VInt 1; VInt 2] = first :: rest.
Proof.
  split.
  - apply (X14_list_methods no_fmt [] [] (VInt 0)). reflexivity.
  - apply (X14_list_methods no_fmt [VInt 1; VInt 2] [] (VInt 0)). reflexivity.
Defined.

Lemma X15_string_methods_witness :
  call_builtin_method no_fmt "contains" (VString "lucid") [VString "lu"] = Ok (VBool true).
Proof.
  apply (X15_string_methods no_fmt "lucid"). reflexivity.
Defined.

End BuiltinMethodsWitnesses.

(** ** Semantic types: what [equals] decides *)

Section SemanticTypes.
Import Types.

(** Induction on types that reaches the elements of tuples and the
    parameters of functions. *)
Lemma SemanticType_nested_ind (P : SemanticType -> Prop) :
  (forall pk, P (PrimitiveType pk)) ->
  (forall e, P e -> P (ListType e)) ->
  (forall es, Forall P es -> P (TupleType es)) ->
  (forall ps r, Forall P ps -> P r -> P (FunctionType ps r)) ->
  (forall n, P (TypeVariable n)) ->
  P UnknownType ->
  forall t, P t.
Proof.
  intros Hp Hl Ht Hf Hv Hu. fix IH 1. intros [pk | e | es | ps r | n |].
  - apply Hp.
  - apply Hl, IH.
  - apply Ht. induction es as [|a es IHes]; constructor; [apply IH | exact IHes].
  - apply Hf; [| apply IH].
    induction ps as [|a ps IHps]; constructor; [apply IH | exact IHps].
  - apply Hv.
  - apply Hu.
Qed.

Lemma equals_iff (a b : SemanticType) :
  equals a b = true <-> a = b /\ known a = true.
Proof.
  revert b. induction a as [pk | e IH | es IH | ps r IHps IHr | n |]
    using SemanticType_nested_ind; intros b.
  - destruct b as [pk' | | | | |]; cbn; try (split; [discriminate | intros [[=] _]]).
    destruct pk, pk'; cbn; split; try discriminate; try (intros [[=] _]); auto.
  - destruct b as [| e' | | | |]; cbn; try (split; [discriminate | intros [[=] _]]).
    rewrite IH. split; [intros [-> Hk] | intros [[= ->] Hk]]; auto.
  - destruct b as [| | es' | | |]; cbn [equals known];
      try (split; [discriminate | intros [[=] _]]).
    revert es'. induction IH as [|a es Ha _ IHes]; intros [|b es']; cbn;
      try (split; [discriminate | intros [[=] _]]); [split; auto |].
    rewrite andb_true_iff, Ha, IHes, andb_true_iff.
    split.
    + intros [[-> Hka] [[= ->] Hkes]]. auto.
    + intros [[= -> ->] [Hka Hkes]]. auto.
  - destruct b as [| | | ps' r' | |]; cbn [equals known];
      try (split; [discriminate | intros [[=] _]]).
    rewrite !andb_true_iff, IHr.
    assert (Hps : forall ps',
      (fix all_equal (xs ys : list SemanticType) {struct xs} : bool :=
         match xs with
         | [] => match ys with [] => true | _ :: _ => false end
         | x :: xs' =>
             match ys with
             | [] => false
             | y :: ys' => equals x y && all_equal xs' ys'
             end
         end) ps ps' = true <-> ps = ps' /\ forallb known ps = true).
    { clear ps'. induction IHps as [|a ps Ha _ IH]; intros [|b ps']; cbn;
        try (split; [discriminate | intros [[=] _]]); [split; auto |].
      rewrite andb_true_iff, Ha, IH, andb_true_iff.
      split.
      - intros [[-> Hka] [-> Hk]]. auto.
      - intros [[= -> ->] [Hka Hk]]. auto. }
    rewrite Hps. split.
    + intros [[-> Hk] [-> Hr]]. auto.
    + intros [[= -> ->] [Hk Hr]]. auto.
  - destruct b as [| | | | n' |]; cbn; try (split; [discriminate | intros [[=] _]]).
    rewrite String.eqb_eq. split; [intros ->; auto | intros [[= ->] _]; reflexivity].
  - cbn. split; [discriminate | intros [_ [=]]].
Qed.

(** X16. [equals] on semantic types is structural identity restricted to
    types with no Unknown inside: it returns true exactly when the two
    types are the same type and that type contains no Unknown, also deep
    inside a list, tuple or function type. It is therefore symmetric, and
    reflexive only on such types. *)
Theorem X16_equals_is_identity_of_known (a b : SemanticType) :
  (equals a b = true <-> a = b /\ known a = true) /\
  equals a b = equals b a /\
  equals a a = known a.
Proof.
  split; [apply equals_iff |]. split.
  - destruct (equals a b) eqn:E1, (equals b a) eqn:E2; try reflexivity.
    + apply equals_iff in E1 as [-> Hk].
      assert (H : equals b b = true) by (apply equals_iff; auto). congruence.
    + apply equals_iff in E2 as [-> Hk].
      assert (H : equals a a = true) by (apply equals_iff; auto). congruence.
  - destruct (equals a a) eqn:E1, (known a) eqn:E2; try reflexivity.
    + apply equals_iff in E1 as [_ Hk]. congruence.
    + assert (H : equals a a = true) by (apply equals_iff; auto). congruence.
Qed.

(** X17. [unify_types] returns one of its two arguments or Unknown. On two
    types that are neither type variables nor Unknown at the root it
    succeeds exactly when they are the same type with no Unknown inside,
    and then returns that type: two lists of Unknown do not unify. *)
Theorem X17_unify_types (a b : SemanticType) :
  (forall c, unify_types a b = Some c -> c = a \/ c = b \/ c = UnknownType) /\
  (concrete a = true -> concrete b = true ->
   forall c, unify_types a b = Some c <-> a = b /\ c = a /\ known a = true).
Proof.
  unfold unify_types, clone. split.
  - intros c. destruct (equals a b); [intros [= <-]; auto |].
    destruct a, b; intros [= <-]; auto.
  - intros Ha Hb c. destruct (equals a b) eqn:E.
    + apply equals_iff in E as [-> Hk]. split; [intros [= <-]; auto | intros (_ & -> & _)];
        reflexivity.
    + split.
      * destruct a, b; try discriminate Ha; try discriminate Hb; discriminate.
      * intros (-> & -> & Hk).
        assert (H : equals b b = true) by (apply equals_iff; auto). congruence.
Qed.

Lemma X17_unify_types_witness :
  unify_types (ListType (PrimitiveType KInt)) (ListType (PrimitiveType KInt))
  = Some (ListType (PrimitiveType KInt)) <->
  ListType (PrimitiveType KInt) = ListType (PrimitiveType KInt) /\
  ListType (PrimitiveType KInt) = ListType (PrimitiveType KInt) /\
  known (ListType (PrimitiveType KInt)) = true.
Proof.
  apply (X17_unify_types (ListType (PrimitiveType KInt)) (ListType (PrimitiveType KInt)));
    reflexivity.
Defined.

End SemanticTypes.

(** ** The symbol table: declarations, look-up and scopes *)

Section SymbolTableScopes.
Import Types Symbols.

Lemma parents_below_spec scopes i :
  parents_below i scopes = true <->
  forall j s p, scopes !! j = Some s -> parent s = Some p -> (p < i + j)%nat.
Proof.
  revert i. induction scopes as [|s0 scopes IH]; intros i; cbn [parents_below].
  - split; [intros _ j s p Hj; discriminate Hj | reflexivity].
  - rewrite andb_true_iff, IH. split.
    + intros [H0 Hrest] [|j] s p Hj Hp.
      * injection Hj as <-. rewrite Hp in H0. apply Nat.ltb_lt in H0. lia.
      * specialize (Hrest j s p Hj Hp). lia.
    + intros H. split.
      * destruct (parent s0) as [p|] eqn:Hp; [|reflexivity].
        apply Nat.ltb_lt. specialize (H 0%nat s0 p eq_refl Hp). lia.
      * intros j s p Hj Hp. specialize (H (S j) s p Hj Hp). lia.
Qed.

Lemma well_formed_spec t :
  well_formed t = true <->
  (current_ t < length (scopes_ t))%nat /\
  forall j s p, scopes_ t !! j = Some s -> parent s = Some p -> (p < j)%nat.
Proof.
  unfold well_formed. rewrite andb_true_iff, Nat.ltb_lt, parents_below_spec. reflexivity.
Qed.

(** The walk up the parent chain from scope [i] ends within [i + 1]
    steps: more fuel changes nothing. *)
Lemma lookup_from_enough scopes name :
  (forall j s p, scopes !! j = Some s -> parent s = Some p -> (p < j)%nat) ->
  forall fuel i, (i < fuel)%nat ->
    lookup_from fuel scopes i name = lookup_from (S i) scopes i name.
Proof.
  intros Hwf fuel. induction fuel as [fuel IH] using lt_wf_ind. intros i Hi.
  destruct fuel as [|fuel]; [lia |]. cbn [lookup_from].
  destruct (scopes !! i) as [s|] eqn:Hs; [|reflexivity].
  destruct (symbols s !! name); [reflexivity |].
  destruct (parent s) as [p|] eqn:Hp; [|reflexivity].
  pose proof (Hwf i s p Hs Hp) as Hlt.
  rewrite (IH fuel ltac:(lia) p ltac:(lia)).
  symmetry. apply (IH i ltac:(lia) p Hlt).
Qed.

(** A walk that starts inside [scopes] does not see scopes added behind. *)
Lemma lookup_from_app scopes extra name :
  (forall j s p, scopes !! j = Some s -> parent s = Some p -> (p < j)%nat) ->
  forall fuel i, (i < length scopes)%nat ->
    lookup_from fuel (scopes ++ extra) i name = lookup_from fuel scopes i name.
Proof.
  intros Hwf fuel. induction fuel as [|fuel IH]; intros i Hi; [reflexivity |].
  cbn [lookup_from]. rewrite lookup_app_l by exact Hi.
  destruct (scopes !! i) as [s|] eqn:Hs; [|reflexivity].
  destruct (symbols s !! name); [reflexivity |].
  destruct (parent s) as [p|] eqn:Hp; [|reflexivity].
  apply IH. pose proof (Hwf i s p Hs Hp). lia.
Qed.

(** A change to the symbols of one scope is seen only by the look-ups of
    the names that changed. *)
Lemma lookup_from_insert scopes k s s' name :
  scopes !! k = Some s -> parent s' = parent s ->
  symbols s' !! name = symbols s !! name ->
  forall fuel i,
    lookup_from fuel (<[k := s']> scopes) i name = lookup_from fuel scopes i name.
Proof.
  intros Hk Hparent Hsym fuel. induction fuel as [|fuel IH]; intros i; [reflexivity |].
  cbn [lookup_from]. destruct (Nat.eq_dec k i) as [<- | Hne].
  - rewrite list_lookup_insert_eq by (eapply lookup_lt_Some; exact Hk).
    rewrite Hk, Hsym, Hparent.
    destruct (symbols s !! name); [reflexivity |].
    destruct (parent s); [apply IH | reflexivity].
  - rewrite list_lookup_insert_ne by exact Hne.
    destruct (scopes !! i) as [si|]; [|reflexivity].
    destruct (symbols si !! name); [reflexivity |].
    destruct (parent si); [apply IH | reflexivity].
Qed.

Lemma new_well_formed : well_formed new = true.
Proof. reflexivity. Qed.

Lemma enter_scope_well_formed k t :
  well_formed t = true -> well_formed (enter_scope k t) = true.
Proof.
  rewrite !well_formed_spec. intros [Hc Hp]. unfold enter_scope. cbn [scopes_ current_].
  rewrite length_app. cbn [length]. split; [lia |].
  intros j s p Hj Hs. apply lookup_app_Some in Hj as [Hj | [Hlen Hj]].
  - exact (Hp j s p Hj Hs).
  - destruct (j - length (scopes_ t))%nat eqn:E; [|discriminate Hj].
    injection Hj as <-. cbn in Hs. injection Hs as <-. lia.
Qed.

Lemma exit_scope_well_formed t :
  well_formed t = true -> well_formed (exit_scope t) = true.
Proof.
  intros Hwf. pose proof Hwf as Hwf'. rewrite well_formed_spec in Hwf'.
  destruct Hwf' as [Hc Hp].
  unfold exit_scope, current_scope.
  destruct (scopes_ t !! current_ t) as [s|] eqn:Hs; [|exact Hwf].
  destruct (parent s) as [p|] eqn:Hparent; [|exact Hwf].
  apply well_formed_spec. cbn [scopes_ current_]. split; [|exact Hp].
  pose proof (Hp _ _ _ Hs Hparent). lia.
Qed.

Lemma declare_well_formed name k ty loc t :
  well_formed t = true -> well_formed (snd (declare name k ty loc t)) = true.
Proof.
  intros Hwf. pose proof Hwf as Hwf'. rewrite well_formed_spec in Hwf'.
  destruct Hwf' as [Hc Hp].
  unfold declare, current_scope, scope_declare.
  destruct (scopes_ t !! current_ t) as [s|] eqn:Hs; [|exact Hwf].
  destruct (symbols s !! name); [exact Hwf |].
  cbn [snd]. apply well_formed_spec. cbn [scopes_ current_].
  rewrite length_insert. split; [exact Hc |].
  intros j s' p Hj Hs'. destruct (Nat.eq_dec (current_ t) j) as [<- | Hne].
  - rewrite list_lookup_insert_eq in Hj by exact Hc. injection Hj as <-.
    cbn in Hs'. exact (Hp _ _ _ Hs Hs').
  - rewrite list_lookup_insert_ne in Hj by exact Hne. exact (Hp _ _ _ Hj Hs').
Qed.

(** X18. The table made by the constructor is well formed (its current
    scope exists and every scope was created after its parent), and
    [enter_scope], [exit_scope] and [declare] keep it so. *)
Theorem X18_table_stays_well_formed (t : SymbolTable) :
  well_formed new = true /\
  (well_formed t = true ->
   (forall k, well_formed (enter_scope k t) = true) /\
   well_formed (exit_scope t) = true /\
   (forall name k ty loc, well_formed (snd (declare name k ty loc t)) = true)).
Proof.
  split; [reflexivity |]. intros Hwf. repeat apply conj.
  - intros k. now apply enter_scope_well_formed.
  - now apply exit_scope_well_formed.
  - intros name k ty loc. now apply declare_well_formed.
Qed.

Lemma X18_table_stays_well_formed_witness :
  well_formed (exit_scope (snd (declare "x" Variable_ (PrimitiveType KInt) somewhere
                                  (enter_scope Block new)))) = true.
Proof.
  apply (X18_table_stays_well_formed
           (snd (declare "x" Variable_ (PrimitiveType KInt) somewhere
                   (enter_scope Block new)))).
  apply (X18_table_stays_well_formed (enter_scope Block new)).
  apply (X18_table_stays_well_formed new). reflexivity.
Defined.

(** A declaration of a name that the current scope does not hold. *)
Lemma declare_fresh name k ty loc (t : SymbolTable) :
  well_formed t = true ->
  declared_here name t = false ->
  fst (declare name k ty loc t) = true /\
  lookup name (snd (declare name k ty loc t)) = Some (mkSymbol name k ty loc false) /\
  declared_here name (snd (declare name k ty loc t)) = true /\
  forall other, other <> name ->
    lookup other (snd (declare name k ty loc t)) = lookup other t.
Proof.
  intros Hwf. apply well_formed_spec in Hwf as [Hc Hp].
  unfold declared_here, declare, current_scope, scope_declare.
  destruct (lookup_lt_is_Some_2 _ _ Hc) as [s Hs]. rewrite Hs.
  destruct (symbols s !! name) as [sym|] eqn:Hsym; intros Hd.
  - rewrite bool_decide_eq_false in Hd. exfalso. apply Hd. eexists; reflexivity.
  - cbn [fst snd]. split; [reflexivity |]. unfold lookup, current_scope. cbn [scopes_ current_].
    rewrite length_insert. repeat apply conj.
    + destruct (length (scopes_ t)) as [|n] eqn:Hlen; [lia |]. cbn [lookup_from].
      rewrite list_lookup_insert_eq by lia. cbn [symbols].
      now rewrite lookup_insert_eq.
    + rewrite list_lookup_insert_eq by lia. cbn [symbols].
      rewrite lookup_insert_eq. apply bool_decide_eq_true. eexists; reflexivity.
    + intros other Hne. apply (lookup_from_insert _ _ s); [exact Hs | reflexivity |].
      cbn [symbols]. now rewrite lookup_insert_ne.
Qed.

(** X19. [declare] refuses a name that the current scope already holds and
    leaves the table as it was; otherwise it succeeds, the name then looks
    up to the declared symbol, a second declaration of it is refused, and
    the look-up of every other name is unchanged. *)
Theorem X19_declare_then_lookup name k ty loc (t : SymbolTable) :
  well_formed t = true ->
  (declared_here name t = true -> declare name k ty loc t = (false, t)) /\
  (declared_here name t = false ->
   fst (declare name k ty loc t) = true /\
   lookup name (snd (declare name k ty loc t)) = Some (mkSymbol name k ty loc false) /\
   declared_here name (snd (declare name k ty loc t)) = true /\
   forall other, other <> name ->
     lookup other (snd (declare name k ty loc t)) = lookup other t).
Proof.
  intros Hwf. split; [| now apply declare_fresh].
  unfold declared_here, declare, current_scope, scope_declare.
  destruct (scopes_ t !! current_ t) as [s|]; [| discriminate].
  destruct (symbols s !! name) as [sym|]; [reflexivity |].
  intros Hd. rewrite bool_decide_eq_true in Hd. destruct Hd as [? [=]].
Qed.

Lemma X19_declare_then_lookup_witness :
  fst (declare "x" Variable_ (PrimitiveType KInt) somewhere new) = true /\
  lookup "x" (snd (declare "x" Variable_ (PrimitiveType KInt) somewhere new))
  = Some (mkSymbol "x" Variable_ (PrimitiveType KInt) somewhere false) /\
  declared_here "x" (snd (declare "x" Variable_ (PrimitiveType KInt) somewhere new)) = true /\
  forall other, other <> "x" ->
    lookup other (snd (declare "x" Variable_ (PrimitiveType KInt) somewhere new))
    = lookup other new.
Proof.
  apply (X19_declare_then_lookup "x" Variable_ (PrimitiveType KInt) somewhere new);
    reflexivity.
Defined.

(** X20. Scopes nest: a scope just entered sees every symbol of the scopes
    around it, it may declare a name that an outer scope holds, and what is
    declared in it is gone after [exit_scope], where every name looks up as
    it did before the scope was entered. *)
Theorem X20_scopes_nest kind name k ty loc (t : SymbolTable) :
  well_formed t = true ->
  (forall n, lookup n (enter_scope kind t) = lookup n t) /\
  fst (declare name k ty loc (enter_scope kind t)) = true /\
  lookup name (snd (declare name k ty loc (enter_scope kind t)))
  = Some (mkSymbol name k ty loc false) /\
  (forall n, lookup n (exit_scope (snd (declare name k ty loc (enter_scope kind t))))
             = lookup n t).
Proof.
  intros Hwf. pose proof (enter_scope_well_formed kind t Hwf) as Hwf1.
  pose proof Hwf as Hwf'. apply well_formed_spec in Hwf' as [Hc Hp].
  assert (Henter : forall n, lookup n (enter_scope kind t) = lookup n t).
  { intros n. unfold lookup, enter_scope. cbn [scopes_ current_].
    rewrite length_app. cbn [length]. rewrite Nat.add_1_r. cbn [lookup_from].
    rewrite lookup_app_r by lia. rewrite Nat.sub_diag. cbn.
    now apply lookup_from_app. }
  assert (Hhere : declared_here name (enter_scope kind t) = false).
  { unfold declared_here, current_scope, enter_scope. cbn [scopes_ current_].
    rewrite lookup_app_r by lia. rewrite Nat.sub_diag. cbn. reflexivity. }
  destruct (declare_fresh name k ty loc (enter_scope kind t) Hwf1 Hhere) as (Hok & Hlook & _).
  split; [exact Henter |]. split; [exact Hok |]. split; [exact Hlook |].
  assert (Hd : snd (declare name k ty loc (enter_scope kind t))
               = mkTable (scopes_ t ++ [mkScope kind (<[name := mkSymbol name k ty loc false]> ∅)
                                          (Some (current_ t))])
                         (length (scopes_ t))).
  { unfold declare, current_scope, scope_declare, enter_scope. cbn [scopes_ current_].
    rewrite lookup_app_r by lia. rewrite Nat.sub_diag.
    change ([mkScope kind ∅ (Some (current_ t))] !! 0%nat)
      with (Some (mkScope kind ∅ (Some (current_ t)))).
    cbn [symbols]. rewrite lookup_empty. cbn [snd scope_kind parent]. f_equal.
    rewrite insert_app_r_alt by lia. now rewrite Nat.sub_diag. }
  intros n. rewrite Hd. unfold exit_scope, current_scope. cbn [scopes_ current_].
  rewrite lookup_app_r by lia. rewrite Nat.sub_diag.
  match goal with
  | |- context [[?x] !! 0%nat] => change ([x] !! 0%nat) with (Some x)
  end.
  cbn [parent]. unfold lookup. cbn [scopes_ current_]. rewrite length_app. cbn [length].
  rewrite Nat.add_1_r.
  rewrite (lookup_from_app _ _ _ Hp) by exact Hc.
  rewrite (lookup_from_enough _ _ Hp (S (length (scopes_ t)))) by lia.
  now rewrite (lookup_from_enough _ _ Hp (length (scopes_ t))) by lia.
Qed.

Lemma X20_scopes_nest_witness :
  (forall n, lookup n (enter_scope Block new) = lookup n new) /\
  fst (declare "x" Variable_ (PrimitiveType KInt) somewhere (enter_scope Block new)) = true /\
  lookup "x" (snd (declare "x" Variable_ (PrimitiveType KInt) somewhere
                     (enter_scope Block new)))
  = Some (mkSymbol "x" Variable_ (PrimitiveType KInt) somewhere false) /\
  (forall n, lookup n (exit_scope (snd (declare "x" Variable_ (PrimitiveType KInt) somewhere
                                          (enter_scope Block new))))
             = lookup n new).
Proof.
  apply (X20_scopes_nest Block "x" Variable_ (PrimitiveType KInt) somewhere new).
  reflexivity.
Defined.

End SymbolTableScopes.

(** ** The compiler: locals, parameters and the function table *)

Section CompilerScopes.
Import Val Bytecode Ast Compiler.

(** X21. [declare_local] throws outside of any scope. Inside one it gives
    the name the next free slot of the innermost scope, whether or not the
    name was declared before: the name then resolves to the new slot, the
    other names resolve as before, the scope counts one more local and the
    bytecode is untouched. *)
Theorem X21_declare_local_numbers_slots (name : string) (st : State) :
  (scopes_ st = [] ->
   declare_local name st = Throw "Cannot declare local outside of scope") /\
  (forall scope rest,
     scopes_ st = scope :: rest ->
     exists st' scope',
       declare_local name st = Ok (local_count scope, st') /\
       scopes_ st' = scope' :: rest /\
       local_count scope' = S (local_count scope) /\
       resolve_local name st' = Some (local_count scope) /\
       (forall other, other <> name -> resolve_local other st' = resolve_local other st) /\
       bytecode_ st' = bytecode_ st /\ function_indices_ st' = function_indices_ st).
Proof.
  unfold declare_local, resolve_local. split.
  - intros ->. reflexivity.
  - intros scope rest ->. do 2 eexists. split; [reflexivity |].
    cbn [scopes_ with_scopes local_count bytecode_ function_indices_ resolve_in locals].
    split; [reflexivity |]. split; [reflexivity |]. split.
    + now rewrite lookup_insert_eq.
    + split; [| split; reflexivity].
      intros other Hne. now rewrite lookup_insert_ne.
Qed.

Lemma X21_declare_local_numbers_slots_witness :
  declare_local "x" initial = Throw "Cannot declare local outside of scope" /\
  exists st' scope',
    declare_local "x" (enter_scope initial) = Ok (local_count (mkScope ∅ 0%nat), st') /\
    scopes_ st' = scope' :: [] /\
    local_count scope' = S (local_count (mkScope ∅ 0%nat)) /\
    resolve_local "x" st' = Some (local_count (mkScope ∅ 0%nat)) /\
    (forall other, other <> "x" ->
                   resolve_local other st' = resolve_local other (enter_scope initial)) /\
    bytecode_ st' = bytecode_ (enter_scope initial) /\
    function_indices_ st' = function_indices_ (enter_scope initial).
Proof.
  split.
  - apply (X21_declare_local_numbers_slots "x" initial). reflexivity.
  - apply (X21_declare_local_numbers_slots "x" (enter_scope initial)). reflexivity.
Defined.

(** The parameters declared after [k] locals of the innermost scope. *)
Lemma declare_parameters_from ps st scope rest :
  scopes_ st = scope :: rest ->
  exists st' scope',
    declare_parameters ps st = Ok st' /\
    scopes_ st' = scope' :: rest /\
    local_count scope' = (local_count scope + length ps)%nat /\
    bytecode_ st' = bytecode_ st /\
    (forall i p, ps !! i = Some p ->
       (forall j q, (i < j)%nat -> ps !! j = Some q -> param_name q <> param_name p) ->
       locals scope' !! param_name p = Some (local_count scope + i)%nat) /\
    (forall n, (forall p, p ∈ ps -> param_name p <> n) ->
       locals scope' !! n = locals scope !! n).
Proof.
  revert st scope. induction ps as [|p0 ps IH]; intros st scope Hs.
  - exists st, scope. cbn [declare_parameters length]. rewrite Nat.add_0_r.
    repeat apply conj; try reflexivity; try assumption.
    intros i p Hi. discriminate Hi.
  - cbn [declare_parameters]. unfold declare_local. rewrite Hs. cbn [rbind].
    set (st1 := with_scopes st _).
    destruct (IH st1 (mkScope (<[param_name p0 := local_count scope]> (locals scope))
                        (S (local_count scope))) eq_refl)
      as (st' & scope' & Hd & Hs' & Hc & Hb & Hres & Hkeep).
    exists st', scope'. cbn [local_count locals] in *.
    repeat apply conj.
    + exact Hd.
    + exact Hs'.
    + cbn [length]. lia.
    + exact Hb.
    + intros [|i] p Hi Hlater.
      * injection Hi as <-. rewrite Hkeep.
        -- rewrite lookup_insert_eq. f_equal. lia.
        -- intros q Hq. apply list_elem_of_lookup in Hq as [j Hj].
           apply (Hlater (S j) q); [lia | exact Hj].
      * rewrite (Hres i p Hi).
        -- f_equal. lia.
        -- intros j q Hlt Hj. apply (Hlater (S j) q); [lia | exact Hj].
    + intros n Hn. rewrite Hkeep.
      * apply lookup_insert_ne. apply Hn. apply list_elem_of_here.
      * intros q Hq. apply Hn. now apply list_elem_of_further.
Qed.

(** X22. The parameters of a function are its first locals, in order: after
    [enter_scope] and [declare_parameters], the scope counts as many locals
    as there are parameters and the i-th parameter resolves to slot i,
    provided no later parameter has its name. This is where [CALL] puts
    the i-th argument. *)
Theorem X22_parameters_are_first_locals (ps : list Parameter_) (st : State) :
  exists st' scope',
    declare_parameters ps (enter_scope st) = Ok st' /\
    scopes_ st' = scope' :: scopes_ st /\
    local_count scope' = length ps /\
    bytecode_ st' = bytecode_ st /\
    forall i p, ps !! i = Some p ->
      (forall j q, (i < j)%nat -> ps !! j = Some q -> param_name q <> param_name p) ->
      resolve_local (param_name p) st' = Some i.
Proof.
  destruct (declare_parameters_from ps (enter_scope st) (mkScope ∅ 0%nat) (scopes_ st) eq_refl)
    as (st' & scope' & Hd & Hs' & Hc & Hb & Hres & _).
  exists st', scope'. repeat apply conj; try assumption.
  intros i p Hi Hlater. unfold resolve_local. rewrite Hs'. cbn [resolve_in].
  now rewrite (Hres i p Hi Hlater).
Qed.

Lemma collect_functions_table fs st :
  functions (bytecode_ (collect_functions fs st))
  = functions (bytecode_ st) ++ map (signature (current_offset (bytecode_ st))) fs /\
  instructions (bytecode_ (collect_functions fs st)) = instructions (bytecode_ st) /\
  constants (bytecode_ (collect_functions fs st)) = constants (bytecode_ st) /\
  scopes_ (collect_functions fs st) = scopes_ st.
Proof.
  revert st. induction fs as [|f fs IH]; intros st; cbn [collect_functions map].
  - now rewrite app_nil_r.
  - unfold add_function. cbn [fst snd].
    match goal with |- context [collect_functions fs ?s] => specialize (IH s) end.
    cbn [bytecode_ with_functions functions instructions constants scopes_] in IH.
    destruct IH as (Hf & Hi & Hc & Hs). rewrite Hf, Hi, Hc, Hs.
    rewrite <- app_assoc. repeat split.
Qed.

Lemma collect_functions_indices fs st :
  (forall i f, fs !! i = Some f ->
     (forall j g, (i < j)%nat -> fs !! j = Some g -> fd_name g <> fd_name f) ->
     function_indices_ (collect_functions fs st) !! fd_name f
     = Some (length (functions (bytecode_ st)) + i)%nat) /\
  (forall n, (forall f, f ∈ fs -> fd_name f <> n) ->
     function_indices_ (collect_functions fs st) !! n = function_indices_ st !! n).
Proof.
  revert st. induction fs as [|f0 fs IH]; intros st; cbn [collect_functions].
  - split; [intros i f Hi; discriminate Hi | reflexivity].
  - unfold add_function. cbn [fst snd].
    rewrite length_app. cbn [length].
    replace (length (functions (bytecode_ st)) + 1 - 1)%nat
      with (length (functions (bytecode_ st))) by lia.
    match goal with |- context [collect_functions fs ?s] => specialize (IH s) end.
    cbn [bytecode_ with_functions functions function_indices_] in IH.
    rewrite length_app in IH. cbn [length] in IH.
    destruct IH as [Hres Hkeep]. split.
    + intros [|i] f Hi Hlater.
      * injection Hi as <-. rewrite Hkeep.
        -- rewrite lookup_insert_eq. f_equal. lia.
        -- intros g Hg. apply list_elem_of_lookup in Hg as [j Hj].
           apply (Hlater (S j) g); [lia | exact Hj].
      * rewrite (Hres i f Hi).
        -- f_equal. lia.
        -- intros j g Hlt Hj. apply (Hlater (S j) g); [lia | exact Hj].
    + intros n Hn. rewrite Hkeep.
      * apply lookup_insert_ne. apply Hn. apply list_elem_of_here.
      * intros g Hg. apply Hn. now apply list_elem_of_further.
Qed.

Lemma find_from_signatures fs offset k i f :
  fs !! i = Some f ->
  (forall j g, (j < i)%nat -> fs !! j = Some g -> fd_name g <> fd_name f) ->
  find_from (map (signature offset) fs) (fd_name f) k = Some (k + i)%nat.
Proof.
  revert k i. induction fs as [|g fs IH]; intros k i Hi Hfirst; [discriminate Hi |].
  cbn [map find_from signature fn_name]. destruct i as [|i].
  - injection Hi as <-. rewrite String.eqb_refl. f_equal. lia.
  - destruct (String.eqb_spec (fd_name g) (fd_name f)) as [Heq | Hne].
    + exfalso. apply (Hfirst 0%nat g); [lia | reflexivity | exact Heq].
    + rewrite (IH (S k) i Hi).
      * f_equal. lia.
      * intros j h Hlt Hj. apply (Hfirst (S j) h); [lia | exact Hj].
Qed.

(** X23. The first pass of the compiler, [collect_functions], gives the
    i-th function of the program the i-th entry of the function table,
    with its name and its number of parameters, and emits no code. A name
    that only one function has is found at that index both by the
    compiler's [resolve_function] and by [find_function], which the VM and
    the driver use; of two functions with one name the compiler resolves
    the name to the later one, [find_function] to the earlier one. *)
Theorem X23_collect_functions (fs : list FunctionDef) :
  functions (bytecode_ (collect_functions fs initial)) = map (signature 0) fs /\
  instructions (bytecode_ (collect_functions fs initial)) = [] /\
  forall i f, fs !! i = Some f ->
    ((forall j g, (j < i)%nat -> fs !! j = Some g -> fd_name g <> fd_name f) ->
     find_function (bytecode_ (collect_functions fs initial)) (fd_name f) = Some i) /\
    ((forall j g, (i < j)%nat -> fs !! j = Some g -> fd_name g <> fd_name f) ->
     resolve_function (fd_name f) (collect_functions fs initial) = Some i).
Proof.
  destruct (collect_functions_table fs initial) as (Hf & Hi & _).
  split; [exact Hf |]. split; [exact Hi |].
  intros i f Hlook. split; intros Hother.
  - unfold find_function. rewrite Hf. cbn [initial bytecode_ Bytecode.empty functions app].
    now rewrite (find_from_signatures fs _ 0 i f Hlook Hother).
  - unfold resolve_function.
    now rewrite (proj1 (collect_functions_indices fs initial) i f Hlook Hother).
Qed.

End CompilerScopes.

(** ** Code generation for operator expressions *)

Section OperatorCode.
Import Val Bytecode VM Ast.

Lemma steps_add bc c_pow fmt_double n m st :
  steps bc c_pow fmt_double (n + m) st
  = let* st1 := steps bc c_pow fmt_double n st in steps bc c_pow fmt_double m st1.
Proof.
  revert st. induction n as [|n IH]; intros st; [reflexivity |].
  cbn [Nat.add steps].
  destruct (step bc c_pow fmt_double st) as [[[] st1] | msg | w]; try reflexivity.
  apply IH.
Qed.

(** Every binary operator instruction pops the right, then the left operand
    and pushes the result of its operation. *)
Lemma step_operation bc c_pow fmt_double op b a s f frames out h :
  byte_at bc (instruction_pointer f) (opcode_byte (Compiler.binary_opcode op)) ->
  step bc c_pow fmt_double (running (b :: a :: s) f frames out h)
  = match operation c_pow op a b with
    | Ok r => Ok (Continue,
                  running (r :: s) (frame_at f (instruction_pointer f + 1)) frames out h)
    | Throw msg => Throw msg
    | Undefined w => Undefined w
    end.
Proof.
  intros Hb. unfold step, bind at 1.
  rewrite (read_byte_ok _ _ _ _ _ _ _ Hb).
  destruct op; cbn [Compiler.binary_opcode opcode_of_byte opcode_byte operation];
    unfold binary, bind, pop, get, put, lift, push, ret; cbn;
    match goal with
    | |- context [match ?g a b with _ => _ end] => destruct (g a b); reflexivity
    | |- _ => reflexivity
    end.
Qed.

Lemma step_unary_operation bc c_pow fmt_double op a s f frames out h :
  byte_at bc (instruction_pointer f) (opcode_byte (Compiler.unary_opcode op)) ->
  step bc c_pow fmt_double (running (a :: s) f frames out h)
  = match unary_operation op a with
    | Ok r => Ok (Continue,
                  running (r :: s) (frame_at f (instruction_pointer f + 1)) frames out h)
    | Throw msg => Throw msg
    | Undefined w => Undefined w
    end.
Proof.
  intros Hb. unfold step, bind at 1.
  rewrite (read_byte_ok _ _ _ _ _ _ _ Hb).
  destruct op; cbn [Compiler.unary_opcode opcode_of_byte opcode_byte unary_operation];
    unfold unary, bind, pop, get, put, lift, push, ret; cbn;
    match goal with
    | |- context [match ?g a with _ => _ end] => destruct (g a); reflexivity
    | |- _ => reflexivity
    end.
Qed.

Lemma grows_refl st : grows st st.
Proof.
  repeat split; [exists [] | exists []]; now rewrite app_nil_r.
Qed.

Lemma grows_trans st1 st2 st3 : grows st1 st2 -> grows st2 st3 -> grows st1 st3.
Proof.
  intros ([c1 H1] & [k1 K1] & S1) ([c2 H2] & [k2 K2] & S2). repeat split.
  - exists (c1 ++ c2). now rewrite H2, H1, app_assoc.
  - exists (k1 ++ k2). now rewrite K2, K1, app_assoc.
  - congruence.
Qed.

Lemma grows_offset st st' :
  grows st st' ->
  current_offset (Compiler.bytecode_ st) <= current_offset (Compiler.bytecode_ st') /\
  (length (constants (Compiler.bytecode_ st))
   <= length (constants (Compiler.bytecode_ st')))%nat.
Proof.
  intros ([c H] & [k K] & _). unfold current_offset. rewrite H, K, !length_app. lia.
Qed.

Lemma grows_emit op st : grows st (Compiler.emit op st).
Proof.
  repeat split; [eexists; reflexivity | exists []; cbn; now rewrite app_nil_r].
Qed.

Lemma at_app_lt {A} (l post : list A) (i : Z) :
  i < Z.of_nat (length l) -> at_ (l ++ post) i = at_ l i.
Proof.
  intros Hi. unfold at_. rewrite length_app.
  destruct (Z.leb_spec 0 i); [|reflexivity]. cbn [andb].
  destruct (Z.ltb_spec i (Z.of_nat (length l))); [|lia].
  destruct (Z.ltb_spec i (Z.of_nat (length l + length post))); [|lia].
  apply lookup_app_l. lia.
Qed.

(** A program that holds what was compiled between two states holds what
    was compiled between any two states in between. *)
Lemma holds_code_between bc st0 st1 st2 st3 :
  grows st0 st1 -> grows st1 st2 -> grows st2 st3 ->
  holds_code bc st0 st3 -> holds_code bc st1 st2.
Proof.
  intros G01 G12 G23 [Hcode Hconsts].
  pose proof (grows_offset _ _ G01) as [O01 L01].
  pose proof (grows_offset _ _ G12) as [O12 L12].
  pose proof (grows_offset _ _ G23) as [O23 L23].
  destruct G23 as ([c H] & [k K] & _). split; intros i Hi.
  - rewrite Hcode by lia. rewrite H. apply at_app_lt. unfold current_offset in Hi. lia.
  - rewrite Hconsts by lia. rewrite K. apply at_app_lt. lia.
Qed.

(** A literal: one constant and one [CONSTANT] instruction. *)
Lemma literal_code v st st' :
  (let* (const_idx, st1) := Compiler.add_constant v st in
   Ok (Compiler.emit_u16 CONSTANT const_idx st1)) = Ok st' ->
  grows st st' /\
  forall bc c_pow fmt_double stack f frames out h,
    holds_code bc st st' ->
    instruction_pointer f = current_offset (Compiler.bytecode_ st) ->
    steps bc c_pow fmt_double 1 (running stack f frames out h)
    = Ok (running (v :: stack)
            (frame_at f (current_offset (Compiler.bytecode_ st'))) frames out h).
Proof.
  unfold Compiler.add_constant, Bytecode.add_constant, UINT16_MAX.
  rewrite length_app. cbn [length].
  destruct (Z.ltb_spec 65535 (Z.of_nat (length (constants (Compiler.bytecode_ st)) + 1)))
    as [Hbig | Hsmall]; [discriminate |].
  cbn [rbind]. intros [= <-]. split.
  - repeat split; eexists; reflexivity.
  - intros bc c_pow fmt_double stack f frames out h [Hcode Hconsts] Hip.
    set (idx := Z.of_nat (length (constants (Compiler.bytecode_ st)) + 1) - 1) in *.
    cbn [Compiler.emit_u16 Compiler.with_bytecode Compiler.bytecode_ Bytecode.emit_u16
         with_instructions instructions constants] in Hcode, Hconsts.
    unfold current_offset in *.
    cbn [Compiler.emit_u16 Compiler.with_bytecode Compiler.bytecode_ Bytecode.emit_u16
         with_instructions instructions constants] in *.
    rewrite length_app in *. cbn [length] in *.
    assert (Hbyte : forall k b,
              [opcode_byte CONSTANT; low_byte idx; high_byte idx] !! k = Some b ->
              byte_at bc (instruction_pointer f + Z.of_nat k) b).
    { intros k b Hk. pose proof (lookup_lt_Some _ _ _ Hk) as Hlt. cbn [length] in Hlt.
      unfold byte_at. rewrite Hcode by lia. rewrite Hip.
      now apply at_app_middle. }
    cbn [steps].
    rewrite (step_constant bc c_pow fmt_double v stack f frames out h
               (low_byte idx) (high_byte idx)).
    + unfold frame_at, with_ip. do 3 f_equal. lia.
    + rewrite <- (Z.add_0_r (instruction_pointer f)). now apply (Hbyte 0%nat).
    + now apply (Hbyte 1%nat).
    + rewrite <- Z.add_assoc. now apply (Hbyte 2%nat).
    + rewrite low_high_bytes, Z.mod_small by lia.
      rewrite Hconsts by lia. unfold idx.
      replace (Z.of_nat (length (constants (Compiler.bytecode_ st)) + 1) - 1)
        with (Z.of_nat (length (constants (Compiler.bytecode_ st))) + Z.of_nat 0) by lia.
      now apply at_app_middle.
Qed.

Lemma frame_at_twice f x y : frame_at (frame_at f x) y = frame_at f y.
Proof. reflexivity. Qed.

Lemma operator_code (e : Expr) :
  forall st st',
    operators_only e = true ->
    Compiler.compile_expr e st = Ok st' ->
    grows st st' /\
    forall bc c_pow fmt_double stack f frames out h,
      holds_code bc st st' ->
      instruction_pointer f = current_offset (Compiler.bytecode_ st) ->
      match value c_pow e with
      | Ok v =>
          steps bc c_pow fmt_double (nodes e) (running stack f frames out h)
          = Ok (running (v :: stack)
                  (frame_at f (current_offset (Compiler.bytecode_ st'))) frames out h)
      | Throw msg =>
          exists n, (n <= nodes e)%nat /\
            steps bc c_pow fmt_double n (running stack f frames out h) = Throw msg
      | Undefined w =>
          exists n, (n <= nodes e)%nat /\
            steps bc c_pow fmt_double n (running stack f frames out h) = Undefined w
      end.
Proof.
  induction e as [v l | v l | v l | v l | | | | op lhs IHl rhs IHr l | op operand IH l
                  | | | | | |]; intros st st' Hop Hc; try discriminate Hop.
  - (* Int literal *)
    destruct (literal_code (VInt v) st st' Hc) as [Hg Hrun]. split; [exact Hg |].
    intros. now apply Hrun.
  - destruct (literal_code (VFloat v) st st' Hc) as [Hg Hrun]. split; [exact Hg |].
    intros. now apply Hrun.
  - destruct (literal_code (VString v) st st' Hc) as [Hg Hrun]. split; [exact Hg |].
    intros. now apply Hrun.
  - (* Bool literal *)
    cbn [Compiler.compile_expr] in Hc. injection Hc as <-.
    split; [apply grows_emit |].
    intros bc c_pow fmt_double stack f frames out h [Hcode _] Hip.
    cbn [value nodes steps].
    rewrite (step_bool_literal bc c_pow fmt_double v stack f frames out h).
    + unfold frame_at, with_ip, current_offset. cbn. rewrite length_app. cbn [length].
      do 3 f_equal. unfold current_offset in Hip. lia.
    + unfold byte_at. rewrite Hcode.
      * cbn. rewrite Hip. unfold current_offset.
        rewrite <- (Z.add_0_r (Z.of_nat _)). now apply (at_app_middle _ _ 0%nat).
      * unfold current_offset in *. cbn. rewrite length_app. cbn [length]. lia.
  - (* binary operator *)
    cbn [operators_only] in Hop. apply andb_prop in Hop as [Hopl Hopr].
    change (Compiler.compile_expr (BinaryExpr op lhs rhs l) st)
      with (let* st1 := Compiler.compile_expr lhs st in
            let* st2 := Compiler.compile_expr rhs st1 in
            Ok (Compiler.emit (Compiler.binary_opcode op) st2)) in Hc.
    destruct (Compiler.compile_expr lhs st) as [st1 | |] eqn:Hl; try discriminate Hc.
    cbn [rbind] in Hc.
    destruct (Compiler.compile_expr rhs st1) as [st2 | |] eqn:Hr; try discriminate Hc.
    cbn [rbind] in Hc. injection Hc as <-.
    destruct (IHl st st1 Hopl Hl) as [G1 Hrun1].
    destruct (IHr st1 st2 Hopr Hr) as [G2 Hrun2].
    pose proof (grows_emit (Compiler.binary_opcode op) st2) as G3.
    split; [exact (grows_trans _ _ _ (grows_trans _ _ _ G1 G2) G3) |].
    intros bc c_pow fmt_double stack f frames out h Hholds Hip.
    pose proof (holds_code_between bc st st st1 _ (grows_refl st) G1
                  (grows_trans _ _ _ G2 G3) Hholds) as H1.
    pose proof (holds_code_between bc st st1 st2 _ G1 G2 G3 Hholds) as H2.
    specialize (Hrun1 bc c_pow fmt_double stack f frames out h H1 Hip).
    cbn [value nodes].
    destruct (value c_pow lhs) as [a | msg | w]; cbn [rbind].
    2: { destruct Hrun1 as (n & Hn & Hrun1). exists n. split; [lia | exact Hrun1]. }
    2: { destruct Hrun1 as (n & Hn & Hrun1). exists n. split; [lia | exact Hrun1]. }
    specialize (Hrun2 bc c_pow fmt_double (a :: stack)
                  (frame_at f (current_offset (Compiler.bytecode_ st1))) frames out h
                  H2 eq_refl).
    rewrite frame_at_twice in Hrun2.
    destruct (value c_pow rhs) as [b | msg | w]; cbn [rbind].
    2: { destruct Hrun2 as (n & Hn & Hrun2). exists (nodes lhs + n)%nat.
         split; [lia |]. rewrite steps_add, Hrun1. exact Hrun2. }
    2: { destruct Hrun2 as (n & Hn & Hrun2). exists (nodes lhs + n)%nat.
         split; [lia |]. rewrite steps_add, Hrun1. exact Hrun2. }
    assert (Hstep :
      steps bc c_pow fmt_double (nodes lhs + nodes rhs + 1) (running stack f frames out h)
      = match operation c_pow op a b with
        | Ok r =>
            Ok (running (r :: stack)
                  (frame_at f (current_offset
                                 (Compiler.bytecode_
                                    (Compiler.emit (Compiler.binary_opcode op) st2))))
                  frames out h)
        | Throw msg => Throw msg
        | Undefined w => Undefined w
        end).
    { rewrite steps_add, steps_add, Hrun1. cbn [rbind]. rewrite Hrun2. cbn [rbind steps].
      rewrite (step_operation bc c_pow fmt_double op b a stack).
      - destruct (operation c_pow op a b); try reflexivity.
        rewrite frame_at_twice. unfold current_offset. cbn. rewrite length_app.
        cbn [length]. do 3 f_equal. lia.
      - destruct Hholds as [Hcode _]. unfold byte_at. cbn [frame_at with_ip instruction_pointer].
        pose proof (grows_offset _ _ (grows_trans _ _ _ G1 G2)) as [Hoff _].
        rewrite Hcode.
        + cbn. unfold current_offset. rewrite <- (Z.add_0_r (Z.of_nat _)).
          now apply (at_app_middle _ _ 0%nat).
        + unfold current_offset in *. cbn. rewrite length_app. cbn [length]. lia. }
    destruct (operation c_pow op a b) as [r | msg | w].
    + exact Hstep.
    + exists (nodes lhs + nodes rhs + 1)%nat. split; [lia | exact Hstep].
    + exists (nodes lhs + nodes rhs + 1)%nat. split; [lia | exact Hstep].
  - (* unary operator *)
    cbn [operators_only] in Hop.
    change (Compiler.compile_expr (UnaryExpr op operand l) st)
      with (let* st1 := Compiler.compile_expr operand st in
            Ok (Compiler.emit (Compiler.unary_opcode op) st1)) in Hc.
    destruct (Compiler.compile_expr operand st) as [st1 | |] eqn:Ho; try discriminate Hc.
    cbn [rbind] in Hc. injection Hc as <-.
    destruct (IH st st1 Hop Ho) as [G1 Hrun1].
    pose proof (grows_emit (Compiler.unary_opcode op) st1) as G2.
    split; [exact (grows_trans _ _ _ G1 G2) |].
    intros bc c_pow fmt_double stack f frames out h Hholds Hip.
    pose proof (holds_code_between bc st st st1 _ (grows_refl st) G1 G2 Hholds) as H1.
    specialize (Hrun1 bc c_pow fmt_double stack f frames out h H1 Hip).
    cbn [value nodes].
    destruct (value c_pow operand) as [a | msg | w]; cbn [rbind].
    2: { destruct Hrun1 as (n & Hn & Hrun1). exists n. split; [lia | exact Hrun1]. }
    2: { destruct Hrun1 as (n & Hn & Hrun1). exists n. split; [lia | exact Hrun1]. }
    assert (Hstep :
      steps bc c_pow fmt_double (nodes operand + 1) (running stack f frames out h)
      = match unary_operation op a with
        | Ok r =>
            Ok (running (r :: stack)
                  (frame_at f (current_offset
                                 (Compiler.bytecode_
                                    (Compiler.emit (Compiler.unary_opcode op) st1))))
                  frames out h)
        | Throw msg => Throw msg
        | Undefined w => Undefined w
        end).
    { rewrite steps_add, Hrun1. cbn [rbind steps].
      rewrite (step_unary_operation bc c_pow fmt_double op a stack).
      - destruct (unary_operation op a); try reflexivity.
        rewrite frame_at_twice. unfold current_offset. cbn. rewrite length_app.
        cbn [length]. do 3 f_equal. lia.
      - destruct Hholds as [Hcode _]. unfold byte_at. cbn [frame_at with_ip instruction_pointer].
        pose proof (grows_offset _ _ G1) as [Hoff _].
        rewrite Hcode.
        + cbn. unfold current_offset. rewrite <- (Z.add_0_r (Z.of_nat _)).
          now apply (at_app_middle _ _ 0%nat).
        + unfold current_offset in *. cbn. rewrite length_app. cbn [length]. lia. }
    destruct (unary_operation op a) as [r | msg | w].
    + exact Hstep.
    + exists (nodes operand + 1)%nat. split; [lia | exact Hstep].
    + exists (nodes operand + 1)%nat. split; [lia | exact Hstep].
Qed.

(** X24. The code of an operator expression computes its value. For an
    expression made of literals, unary and binary operators, the compiler
    only appends code and constants; and in any program that holds them,
    the VM started at the first byte of that code executes one instruction
    per literal and operator and ends behind the code with one more value
    on the stack, the result of the VM operations applied from the leaves
    up, left operand first. If one of the operations fails, the run fails
    the same way: both operands of [and] and [or] are always evaluated. *)
Theorem X24_operator_code_computes_value (e : Expr) (st st' : Compiler.State) :
  operators_only e = true ->
  Compiler.compile_expr e st = Ok st' ->
  grows st st' /\
  forall bc c_pow fmt_double stack f frames out h,
    holds_code bc st st' ->
    instruction_pointer f = current_offset (Compiler.bytecode_ st) ->
    match value c_pow e with
    | Ok v =>
        steps bc c_pow fmt_double (nodes e) (running stack f frames out h)
        = Ok (running (v :: stack)
                (frame_at f (current_offset (Compiler.bytecode_ st'))) frames out h)
    | Throw msg =>
        exists n, (n <= nodes e)%nat /\
          steps bc c_pow fmt_double n (running stack f frames out h) = Throw msg
    | Undefined w =>
        exists n, (n <= nodes e)%nat /\
          steps bc c_pow fmt_double n (running stack f frames out h) = Undefined w
    end.
Proof. apply operator_code. Qed.

Lemma X24_operator_code_computes_value_witness :
  steps (mkBytecode
           [opcode_byte CONSTANT; 0; 0; opcode_byte CONSTANT; 1; 0;
            opcode_byte CONSTANT; 2; 0; opcode_byte MUL; opcode_byte ADD]
           [VInt 1; VInt 2; VInt 3] [])
    no_pow no_fmt (nodes one_plus_two_times_three)
    (running [] (new_frame 0 0 0 0) [] EmptyString idle_host)
  = Ok (running [VInt 7] (frame_at (new_frame 0 0 0 0) 11) [] EmptyString idle_host).
Proof.
  exact (proj2 (X24_operator_code_computes_value one_plus_two_times_three
                  (Compiler.enter_scope Compiler.initial)
                  (Compiler.mkCompiler
                     (mkBytecode
                        [opcode_byte CONSTANT; 0; 0; opcode_byte CONSTANT; 1; 0;
                         opcode_byte CONSTANT; 2; 0; opcode_byte MUL; opcode_byte ADD]
                        [VInt 1; VInt 2; VInt 3] [])
                     [Compiler.mkScope ∅ 0%nat] ∅)
                  eq_refl eq_refl)
           _ no_pow no_fmt [] (new_frame 0 0 0 0) [] EmptyString idle_host
           (conj (fun _ _ => eq_refl) (fun _ _ => eq_refl)) eq_refl).
Defined.

End OperatorCode.

(** ** The function table through the second pass *)

(** Opens the next step of a compilation that succeeded: [x] is its
    result and [E] says so. *)
Ltac next_step H x E :=
  match type of H with
  | rbind ?m _ = Ok _ =>
      destruct m as [x | ? | ?] eqn:E; cbn [rbind] in H; [| discriminate H | discriminate H]
  end.

Section FunctionTable.
Import Val Bytecode Ast Compiler.

(** Induction on expressions and statements that reaches the elements,
    the arguments, the else-branch and the statements of a block. *)
Lemma Expr_Stmt_ind (P : Expr -> Prop) (Q : Stmt -> Prop) :
  (forall v l, P (IntLiteralExpr v l)) ->
  (forall v l, P (FloatLiteralExpr v l)) ->
  (forall v l, P (StringLiteralExpr v l)) ->
  (forall v l, P (BoolLiteralExpr v l)) ->
  (forall n l, P (IdentifierExpr n l)) ->
  (forall es l, Forall P es -> P (TupleExpr es l)) ->
  (forall es l, Forall P es -> P (ListExpr es l)) ->
  (forall op a b l, P a -> P b -> P (BinaryExpr op a b l)) ->
  (forall op a l, P a -> P (UnaryExpr op a l)) ->
  (forall c args l, P c -> Forall P args -> P (CallExpr c args l)) ->
  (forall o m args l, P o -> Forall P args -> P (MethodCallExpr o m args l)) ->
  (forall o i l, P o -> P i -> P (IndexExpr o i l)) ->
  (forall ps b l, P b -> P (LambdaExpr ps b l)) ->
  (forall c t e l, P c -> P t -> (forall e', e = Some e' -> P e') -> P (IfExpr c t e l)) ->
  (forall ss l, Forall Q ss -> P (BlockExpr ss l)) ->
  (forall p a i l, P i -> Q (LetStmt p a i l)) ->
  (forall v l, P v -> Q (ReturnStmt v l)) ->
  (forall e l, P e -> Q (ExprStmt e l)) ->
  (forall e, P e) /\ (forall s, Q s).
Proof.
  intros Hint Hfloat Hstring Hbool Hid Htuple Hlist Hbin Hun Hcall Hmethod Hindex Hlambda
    Hif Hblock Hlet Hreturn Hexpr.
  assert (H : forall e, P e); [| split; [exact H |]].
  - fix IHe 1. intros e.
    assert (IHs : forall s, Q s).
    { intros [p a i l | v l | x l]; [apply Hlet | apply Hreturn | apply Hexpr]; apply IHe. }
    destruct e as [v l | v l | v l | v l | n l | es l | es l | op a b l | op a l
                   | c args l | o m args l | o i l | ps b l | c t e l | ss l].
    + apply Hint.
    + apply Hfloat.
    + apply Hstring.
    + apply Hbool.
    + apply Hid.
    + apply Htuple. induction es as [|x es IH]; constructor; [apply IHe | exact IH].
    + apply Hlist. induction es as [|x es IH]; constructor; [apply IHe | exact IH].
    + apply Hbin; apply IHe.
    + apply Hun; apply IHe.
    + apply Hcall; [apply IHe |].
      induction args as [|x es IH]; constructor; [apply IHe | exact IH].
    + apply Hmethod; [apply IHe |].
      induction args as [|x es IH]; constructor; [apply IHe | exact IH].
    + apply Hindex; apply IHe.
    + apply Hlambda; apply IHe.
    + apply Hif; [apply IHe | apply IHe |].
      destruct e as [e1|]; intros e' Heq; [| discriminate Heq].
      injection Heq as <-. apply IHe.
    + apply Hblock. induction ss as [|s ss IH]; constructor; [apply IHs | exact IH].
  - intros [p a i l | v l | x l]; [apply Hlet | apply Hreturn | apply Hexpr]; apply H.
Qed.

Lemma Pattern_nested_ind (P : Pattern -> Prop) :
  (forall n l, P (IdentifierPattern n l)) ->
  (forall ps l, Forall P ps -> P (TuplePattern ps l)) ->
  forall p, P p.
Proof.
  intros Hid Htuple. fix IH 1. intros [n l | ps l]; [apply Hid |].
  apply Htuple. induction ps as [|p ps IHps]; constructor; [apply IH | exact IHps].
Qed.

(* ----- the visitors, loop by loop ------------------------------------- *)

Lemma compile_tuple_eq es l st :
  compile_expr (TupleExpr es l) st
  = let* st := compile_all es st in Ok (emit_u16 BUILD_TUPLE (u16 (length es)) st).
Proof. reflexivity. Qed.

Lemma compile_list_eq es l st :
  compile_expr (ListExpr es l) st
  = let* st := compile_all es st in Ok (emit_u16 BUILD_LIST (u16 (length es)) st).
Proof. reflexivity. Qed.

Lemma compile_binary_eq op a b l st :
  compile_expr (BinaryExpr op a b l) st
  = let* st := compile_expr a st in
    let* st := compile_expr b st in
    Ok (emit (binary_opcode op) st).
Proof. reflexivity. Qed.

Lemma compile_unary_eq op a l st :
  compile_expr (UnaryExpr op a l) st
  = let* st := compile_expr a st in Ok (emit (unary_opcode op) st).
Proof. reflexivity. Qed.

Lemma compile_index_eq o i l st :
  compile_expr (IndexExpr o i l) st
  = let* st := compile_expr o st in
    let* st := compile_expr i st in
    Ok (emit INDEX st).
Proof. reflexivity. Qed.

Lemma compile_call_eq callee args l st :
  compile_expr (CallExpr callee args l) st
  = match match callee with
          | IdentifierExpr name _ => builtin_of_name name
          | _ => None
          end with
    | Some id =>
        let* st := compile_all args st in
        Ok (emit_u16_u8 CALL_BUILTIN (builtin_id id) (u8 (length args)) st)
    | None =>
        let* st := compile_all args st in
        let* st := compile_expr callee st in
        match match callee with
              | IdentifierExpr name _ => resolve_function name st
              | _ => None
              end with
        | Some func_idx =>
            Ok (emit_u16_u8 CALL (u16 func_idx) (u8 (length args)) (pop_back3 st))
        | None => Throw "Only direct function calls supported in Day 2"
        end
    end.
Proof. reflexivity. Qed.

Lemma compile_method_eq o m args l st :
  compile_expr (MethodCallExpr o m args l) st
  = let* st := compile_expr o st in
    let* st := compile_all args st in
    let* (name_idx, st) := add_constant (VString m) st in
    Ok (emit_u16_u8 CALL_METHOD name_idx (u8 (length args)) st).
Proof. reflexivity. Qed.

Lemma compile_if_else_eq c t e l st :
  compile_expr (IfExpr c t e l) st
  = let* st := compile_expr c st in
    let (else_jump, st) := emit_jump JUMP_IF_FALSE st in
    let st := emit POP st in
    let* st := compile_expr t st in
    let (end_jump, st) := emit_jump JUMP st in
    let* st := patch_jump else_jump st in
    let st := emit POP st in
    let* st := match e with
               | Some e' => compile_expr e' st
               | None => Ok (emit FALSE st)
               end in
    patch_jump end_jump st.
Proof. reflexivity. Qed.

Lemma compile_block_eq ss l st :
  compile_expr (BlockExpr ss l) st
  = match ss with
    | [] => Ok (emit FALSE st)
    | _ => compile_block ss st
    end.
Proof. reflexivity. Qed.

Lemma compile_let_eq p a i l st :
  compile_stmt (LetStmt p a i l) st
  = let* st := compile_expr i st in compile_pattern p true st.
Proof. reflexivity. Qed.

Lemma compile_tuple_pattern_eq ps l d st :
  compile_pattern (TuplePattern ps l) d st
  = let* st := compile_elements d 0 ps st in Ok (emit POP st).
Proof. reflexivity. Qed.

(* ----- what the visitors leave alone ---------------------------------- *)

Lemma add_constant_table v st idx st' :
  add_constant v st = Ok (idx, st') -> function_table st' = function_table st.
Proof.
  unfold add_constant, Bytecode.add_constant.
  destruct (_ <? _); [discriminate |]. cbn [rbind]. now intros [= <- <-].
Qed.

Lemma patch_jump_table offset st st' :
  patch_jump offset st = Ok st' -> function_table st' = function_table st.
Proof.
  unfold patch_jump, Bytecode.patch_jump.
  destruct (_ <=? _); [discriminate |]. cbn [rbind]. now intros [= <-].
Qed.

Lemma declare_local_table name st idx st' :
  declare_local name st = Ok (idx, st') -> function_table st' = function_table st.
Proof.
  unfold declare_local. destruct (scopes_ st); [discriminate |]. now intros [= <- <-].
Qed.

Lemma compile_pattern_table p :
  forall d st st', compile_pattern p d st = Ok st' -> function_table st' = function_table st.
Proof.
  induction p as [n l | ps l IH] using Pattern_nested_ind; intros d st st' H.
  - cbn [compile_pattern] in H. destruct d.
    + next_step H r E. destruct r as [idx st1]. injection H as <-.
      now apply declare_local_table in E.
    + destruct (resolve_local n st); [| discriminate H]. now injection H as <-.
  - rewrite compile_tuple_pattern_eq in H. next_step H s1 E. injection H as <-.
    change (function_table (emit POP s1)) with (function_table s1).
    clear l. revert E. generalize 0%nat. revert st.
    induction IH as [|p ps Hp _ IHps]; intros st i E; cbn [compile_elements] in E.
    + now injection E as <-.
    + next_step E r E1. destruct r as [idx st1]. next_step E s2 E2.
      apply IHps in E. apply Hp in E2. apply add_constant_table in E1.
      rewrite E, E2. exact E1.
Qed.

Lemma compile_all_table es :
  Forall (fun e => forall st st', compile_expr e st = Ok st' ->
                                  function_table st' = function_table st) es ->
  forall st st', compile_all es st = Ok st' -> function_table st' = function_table st.
Proof.
  induction 1 as [|x es Hx _ IHes]; intros st st' E;
    cbn [compile_all] in E; [now injection E as <- |].
  next_step E s1 E1. apply IHes in E. apply Hx in E1. congruence.
Qed.

Lemma compile_table :
  (forall e st st', compile_expr e st = Ok st' -> function_table st' = function_table st) /\
  (forall s st st', compile_stmt s st = Ok st' -> function_table st' = function_table st).
Proof.
  apply Expr_Stmt_ind.
  - intros v l st st' H. cbn [compile_expr] in H. next_step H r E. destruct r as [idx st1].
    injection H as <-. now apply add_constant_table in E.
  - intros v l st st' H. cbn [compile_expr] in H. next_step H r E. destruct r as [idx st1].
    injection H as <-. now apply add_constant_table in E.
  - intros v l st st' H. cbn [compile_expr] in H. next_step H r E. destruct r as [idx st1].
    injection H as <-. now apply add_constant_table in E.
  - intros v l st st' H. cbn [compile_expr] in H. now injection H as <-.
  - intros n l st st' H. cbn [compile_expr] in H. unfold visit_identifier in H.
    destruct (resolve_local n st); [now injection H as <- |].
    destruct (resolve_function n st); [now injection H as <- | discriminate H].
  - intros es l IH st st' H. rewrite compile_tuple_eq in H. next_step H s1 E.
    injection H as <-. now apply (compile_all_table es IH) in E.
  - intros es l IH st st' H. rewrite compile_list_eq in H. next_step H s1 E.
    injection H as <-. now apply (compile_all_table es IH) in E.
  - intros op a b l IHa IHb st st' H. rewrite compile_binary_eq in H.
    next_step H s1 E1. next_step H s2 E2. injection H as <-.
    apply IHa in E1. apply IHb in E2.
    change (function_table (emit (binary_opcode op) s2)) with (function_table s2). congruence.
  - intros op a l IHa st st' H. rewrite compile_unary_eq in H.
    next_step H s1 E1. injection H as <-. now apply IHa in E1.
  - intros c args l IHc IHargs st st' H. rewrite compile_call_eq in H.
    pose proof (compile_all_table args IHargs) as Hall.
    destruct (match c with IdentifierExpr name _ => builtin_of_name name | _ => None end).
    + next_step H s1 E1. injection H as <-. now apply Hall in E1.
    + next_step H s1 E1. next_step H s2 E2. apply Hall in E1. apply IHc in E2.
      destruct (match c with IdentifierExpr name _ => resolve_function name s2 | _ => None end);
        [| discriminate H].
      injection H as <-.
      change (function_table (emit_u16_u8 CALL (u16 n) (u8 (length args)) (pop_back3 s2)))
        with (function_table s2).
      congruence.
  - intros o m args l IHo IHargs st st' H. rewrite compile_method_eq in H.
    pose proof (compile_all_table args IHargs) as Hall.
    next_step H s1 E1. next_step H s2 E2. next_step H r E3. destruct r as [idx s3].
    injection H as <-.
    apply IHo in E1. apply Hall in E2. apply add_constant_table in E3.
    change (function_table (emit_u16_u8 CALL_METHOD idx (u8 (length args)) s3))
      with (function_table s3).
    congruence.
  - intros o i l IHo IHi st st' H. rewrite compile_index_eq in H.
    next_step H s1 E1. next_step H s2 E2. injection H as <-.
    apply IHo in E1. apply IHi in E2.
    change (function_table (emit INDEX s2)) with (function_table s2). congruence.
  - intros ps b l _ st st' H. discriminate H.
  - intros c t e l IHc IHt IHe st st' H. rewrite compile_if_else_eq in H.
    next_step H s1 E1. unfold emit_jump in H. next_step H s2 E2. next_step H s3 E3.
    next_step H s4 E4.
    apply IHc in E1. apply IHt in E2. apply patch_jump_table in E3, H.
    assert (E5 : function_table s4 = function_table s3).
    { destruct e as [e'|]; [now apply (IHe e' eq_refl) in E4 | now injection E4 as <-]. }
    change (function_table (emit_u16 JUMP 65535 s2)) with (function_table s2) in E3.
    change (function_table (emit POP (emit_u16 JUMP_IF_FALSE 65535 s1)))
      with (function_table s1) in E2.
    congruence.
  - intros ss l IH st st' H. rewrite compile_block_eq in H.
    destruct ss as [|s0 ss]; [now injection H as <- |].
    revert st H. generalize (s0 :: ss) IH. clear s0 ss IH l.
    induction 1 as [|s rest Hs _ IHrest]; intros st H; [now injection H as <- |].
    cbn [compile_block] in H. destruct rest as [|s1 rest].
    + destruct s as [p a i loc | v loc | x loc]; [now apply Hs | now apply Hs |].
      assert (Hx : compile_stmt (ExprStmt x loc) st = Ok (emit POP st')).
      { cbn [compile_stmt]. now rewrite H. }
      now apply Hs in Hx.
    + next_step H s2 E2. apply Hs in E2. apply IHrest in H. congruence.
  - intros p a i l IHi st st' H. rewrite compile_let_eq in H. next_step H s1 E1.
    apply IHi in E1. apply compile_pattern_table in H. congruence.
  - intros v l IHv st st' H. cbn [compile_stmt] in H. next_step H s1 E1.
    injection H as <-. now apply IHv in E1.
  - intros e l IHe st st' H. cbn [compile_stmt] in H. next_step H s1 E1.
    injection H as <-. now apply IHe in E1.
Qed.

Lemma signatures_alter g i fs :
  (forall f, fn_name (g f) = fn_name f /\ fn_param_count (g f) = fn_param_count f) ->
  table_signatures (alter g i fs) = table_signatures fs.
Proof.
  intros Hg. unfold table_signatures. revert i.
  induction fs as [|f fs IH]; intros [|i]; cbn; try reflexivity.
  - destruct (Hg f) as [-> ->]. reflexivity.
  - now rewrite IH.
Qed.

Lemma declare_parameters_table ps st st' :
  declare_parameters ps st = Ok st' -> function_table st' = function_table st.
Proof.
  revert st. induction ps as [|p ps IH]; intros st H; cbn [declare_parameters] in H.
  - now injection H as <-.
  - next_step H r E. destruct r as [idx st1]. apply IH in H.
    apply declare_local_table in E. congruence.
Qed.

Lemma compile_function_signatures function st st' :
  compile_function function st = Ok st' ->
  table_signatures (functions (bytecode_ st')) = table_signatures (functions (bytecode_ st)) /\
  function_indices_ st' = function_indices_ st.
Proof.
  unfold compile_function. intros H.
  set (idx := default 0%nat (function_indices_ st !! fd_name function)) in *.
  next_step H s1 E1. next_step H s2 E2.
  apply declare_parameters_table in E1. apply (proj1 compile_table) in E2.
  assert (E3 : exists s3, function_table s3 = function_table s2 /\
                 match scopes_ s3 with
                 | [] => Undefined "back() of an empty scope stack"
                 | scope :: _ =>
                     Ok (exit_scope (update_function idx (set_local_count (local_count scope))
                                       s3))
                 end = Ok st').
  { destruct (last (instructions (bytecode_ s2))) as [b|];
      [destruct (b =? opcode_byte RETURN) |]; eexists; (split; [| exact H]); reflexivity. }
  destruct E3 as (s3 & E3 & H3).
  destruct (scopes_ s3) as [|scope rest] eqn:Hscopes; [discriminate H3 |].
  injection H3 as <-.
  assert (Efn : functions (bytecode_ s3)
                = alter (set_offset (current_offset (bytecode_ st))) idx
                    (functions (bytecode_ st)) /\
                function_indices_ s3 = function_indices_ st).
  { unfold function_table in *.
    cbn [enter_scope update_function with_scopes with_bytecode with_functions bytecode_
         functions function_indices_] in E1.
    split; congruence. }
  destruct Efn as [Efn Eidx]. split.
  - unfold exit_scope. cbn [scopes_ update_function with_bytecode]. rewrite Hscopes.
    unfold update_function.
    cbn [bytecode_ with_scopes with_bytecode with_functions functions].
    rewrite signatures_alter by (intros f; split; reflexivity).
    rewrite Efn. apply signatures_alter. intros f; split; reflexivity.
  - unfold exit_scope. cbn [scopes_ update_function with_bytecode]. rewrite Hscopes.
    exact Eidx.
Qed.

Lemma compile_functions_signatures fs st st' :
  compile_functions fs st = Ok st' ->
  table_signatures (functions (bytecode_ st')) = table_signatures (functions (bytecode_ st)).
Proof.
  revert st. induction fs as [|f fs IH]; intros st H; cbn [compile_functions] in H.
  - now injection H as <-.
  - next_step H s1 E1. apply IH in H. apply compile_function_signatures in E1 as [E1 _].
    congruence.
Qed.

Lemma compile_signatures program bc :
  compile program = Ok bc ->
  table_signatures (functions bc) = program_signatures program.
Proof.
  unfold compile. intros H. next_step H s1 E1. injection H as <-.
  apply compile_functions_signatures in E1.
  change (functions (Bytecode.emit (bytecode_ s1) HALT)) with (functions (bytecode_ s1)).
  rewrite E1. destruct (collect_functions_table (prog_functions program) initial) as [-> _].
  unfold table_signatures, program_signatures, signature.
  change (functions (bytecode_ initial)) with (@nil FunctionInfo). cbn [app].
  rewrite List.map_map. reflexivity.
Qed.

Lemma find_function_none bc name :
  find_function bc name = None <-> name ∉ map fn_name (functions bc).
Proof.
  unfold find_function. pose proof (find_from_spec (functions bc) name 0) as H.
  destruct (find_from (functions bc) name 0) as [k|].
  - destruct H as (j & f & _ & Hj & Hf & _). split; [discriminate |].
    intros Hnot. exfalso. apply Hnot. rewrite <- Hf.
    apply list_elem_of_fmap_2. now apply list_elem_of_lookup_2 in Hj.
  - split; [| reflexivity]. intros _ Hin.
    apply list_elem_of_fmap in Hin as (f & -> & Hf).
    apply list_elem_of_lookup in Hf as [j Hj]. now apply (H j f Hj).
Qed.

(** X25. The second pass keeps what the first pass entered: in the
    bytecode of a compiled program the function table has, in order, the
    name and the number of parameters of each function of the program (the
    pass only fills in offsets and local counts). So [find_function] finds
    no entry exactly for the names the program does not define, and the
    driver reports a missing [main] exactly for the programs that pass the
    front end, compile, and define no function [main]. *)
Theorem X25_compiled_function_table (program : Program) (bc : Bytecode.t) :
  compile program = Ok bc ->
  table_signatures (functions bc) = program_signatures program /\
  (forall name, find_function bc name = None <-> ~ defines program name) /\
  forall c_pow fmt_double fuel host source filename,
    Driver.front_end source filename = inr program ->
    (Driver.run c_pow fmt_double fuel host source filename = Some Driver.NoMain
     <-> ~ defines program "main").
Proof.
  intros Hc. pose proof (compile_signatures program bc Hc) as Hsig.
  assert (Hnames : map fn_name (functions bc) = map fd_name (prog_functions program)).
  { apply (f_equal (map fst)) in Hsig. unfold table_signatures, program_signatures in Hsig.
    now rewrite !List.map_map in Hsig. }
  assert (Hfind : forall name, find_function bc name = None <-> ~ defines program name).
  { intros name. rewrite find_function_none, Hnames. unfold defines. split.
    - intros Hnot (f & Hf & <-). apply Hnot. now apply list_elem_of_fmap_2.
    - intros Hnot Hin. apply list_elem_of_fmap in Hin as (f & -> & Hf).
      apply Hnot. now exists f. }
  split; [exact Hsig |]. split; [exact Hfind |].
  intros c_pow fmt_double fuel host source filename Hfront.
  unfold Driver.run. rewrite Hfront, Hc. rewrite <- Hfind.
  destruct (find_function bc "main"); [| split; reflexivity].
  split; [| discriminate].
  destruct (VM.call_function _ _ _ _ _ _ _ _) as [[[v st] | msg | w] |]; discriminate.
Qed.

Lemma X25_compiled_function_table_witness :
  table_signatures (functions (long_if_bytecode 0)) = program_signatures (long_if 0) /\
  (forall name, find_function (long_if_bytecode 0) name = None
                <-> ~ defines (long_if 0) name).
Proof.
  split; apply (X25_compiled_function_table (long_if 0) (long_if_bytecode 0));
    vm_compute; reflexivity.
Defined.

End FunctionTable.

(** ** Checked operator expressions at run time *)

Section TypeSafety.
Import Val Bytecode VM Ast Types TypeChecker.

Lemma check_binary_eq op lhs rhs loc tc :
  check_expression (BinaryExpr op lhs rhs loc) tc
  = let (left_type, tc) := check_expression lhs tc in
    let (right_type, tc) := check_expression rhs tc in
    if is_arithmetic op then
      arithmetic_result (expr_location lhs) (expr_location rhs) left_type right_type tc
    else if is_ordering op || is_equality op then
      comparison_result op loc (expr_location rhs) left_type right_type tc
    else
      logical_result (expr_location lhs) (expr_location rhs) left_type right_type tc.
Proof. reflexivity. Qed.

Lemma check_unary_eq op operand loc tc :
  check_expression (UnaryExpr op operand loc) tc
  = let (operand_type, tc) := check_expression operand tc in
    match op with
    | Pos | Neg =>
        if negb (is_numeric operand_type) then
          (UnknownType,
           error (expr_location operand)
             ("Unary arithmetic operator requires numeric type, got '"
              +:+ to_string operand_type +:+ "'") tc)
        else (operand_type, tc)
    | Not =>
        (PrimitiveType KBool,
         if negb (equals operand_type (PrimitiveType KBool))
         then type_mismatch_error (expr_location operand) (PrimitiveType KBool)
                operand_type tc
         else tc)
    end.
Proof. reflexivity. Qed.

Lemma more_errors_refl tc : more_errors tc tc.
Proof. exists []. now rewrite app_nil_r. Qed.

Lemma more_errors_trans tc1 tc2 tc3 :
  more_errors tc1 tc2 -> more_errors tc2 tc3 -> more_errors tc1 tc3.
Proof. intros [s1 H1] [s2 H2]. exists (s1 ++ s2). now rewrite H2, H1, app_assoc. Qed.

Lemma more_errors_error loc msg tc : more_errors tc (error loc msg tc).
Proof. eexists. reflexivity. Qed.

Lemma more_errors_same tc tc' :
  more_errors tc tc' -> length (errors tc') = length (errors tc) -> errors tc' = errors tc.
Proof.
  intros [s H] Hlen. rewrite H, length_app in Hlen.
  destruct s; [now rewrite H, app_nil_r | cbn in Hlen; lia].
Qed.

Lemma more_errors_length tc tc' :
  more_errors tc tc' -> (length (errors tc) <= length (errors tc'))%nat.
Proof. intros [s H]. rewrite H, length_app. lia. Qed.

Lemma arithmetic_result_errors l r tl tr tc :
  more_errors tc (snd (arithmetic_result l r tl tr tc)).
Proof.
  unfold arithmetic_result.
  destruct (negb (is_numeric tl)); [apply more_errors_error |].
  destruct (negb (is_numeric tr)); [apply more_errors_error |].
  destruct (_ || _); apply more_errors_refl.
Qed.

Lemma comparison_result_errors op l r tl tr tc :
  more_errors tc (snd (comparison_result op l r tl tr tc)).
Proof.
  unfold comparison_result.
  destruct (_ && _); [apply more_errors_error |]. cbn [snd].
  destruct (_ && _); [apply more_errors_error | apply more_errors_refl].
Qed.

Lemma logical_result_errors l r tl tr tc :
  more_errors tc (snd (logical_result l r tl tr tc)).
Proof.
  unfold logical_result. cbn [snd].
  destruct (negb (equals tl _)), (negb (equals tr _)); unfold type_mismatch_error;
    eauto using more_errors_refl, more_errors_error, more_errors_trans.
Qed.

Lemma check_operators_errors e :
  operators_only e = true -> forall tc, more_errors tc (snd (check_expression e tc)).
Proof.
  induction e as [v l | v l | v l | v l | | | | op lhs IHl rhs IHr l | op operand IH l
                  | | | | | |]; intros Hop tc; try discriminate Hop;
    try apply more_errors_refl.
  - cbn [operators_only] in Hop. apply andb_prop in Hop as [Hopl Hopr].
    rewrite check_binary_eq.
    specialize (IHl Hopl tc). destruct (check_expression lhs tc) as [tl tc1].
    specialize (IHr Hopr tc1). destruct (check_expression rhs tc1) as [tr tc2].
    cbn [snd] in IHl, IHr.
    apply (more_errors_trans _ _ _ (more_errors_trans _ _ _ IHl IHr)).
    destruct (is_arithmetic op); [apply arithmetic_result_errors |].
    destruct (_ || _); [apply comparison_result_errors | apply logical_result_errors].
  - cbn [operators_only] in Hop. rewrite check_unary_eq.
    specialize (IH Hop tc). destruct (check_expression operand tc) as [t tc1].
    cbn [snd] in IH. apply (more_errors_trans _ _ _ IH).
    destruct op; cbn [snd].
    + destruct (negb _); [apply more_errors_error | apply more_errors_refl].
    + destruct (negb _); [apply more_errors_error | apply more_errors_refl].
    + destruct (negb _); [apply more_errors_error | apply more_errors_refl].
Qed.

(** An error was added: the count is not what it was. *)
Ltac no_new_error H :=
  exfalso; apply (f_equal (@length _)) in H;
  unfold type_mismatch_error, error in H; cbn [errors] in H;
  rewrite ?length_app in H; cbn [length] in H; lia.

Ltac listed := unfold run_time_errors, undefined_quotients; cbn [In]; tauto.

Lemma checked_binary_runs c_pow op k1 k2 a b loc l r tc ty tc' :
  kind_of a = Some k1 -> kind_of b = Some k2 ->
  (if is_arithmetic op then
     arithmetic_result l r (PrimitiveType k1) (PrimitiveType k2) tc
   else if is_ordering op || is_equality op then
     comparison_result op loc r (PrimitiveType k1) (PrimitiveType k2) tc
   else
     logical_result l r (PrimitiveType k1) (PrimitiveType k2) tc) = (ty, tc') ->
  errors tc' = errors tc ->
  exists k, ty = PrimitiveType k /\
    match operation c_pow op a b with
    | Ok v => kind_of v = Some k
    | Throw msg => In msg run_time_errors
    | Undefined w => In w undefined_quotients
    end.
Proof.
  intros Ha Hb H He.
  destruct a; try discriminate Ha; injection Ha as <-;
    destruct b; try discriminate Hb; injection Hb as <-;
    destruct op;
    cbn in H; injection H as <- <-; try (no_new_error He);
    eexists; (split; [reflexivity |]); cbn;
    repeat match goal with
           | |- context [if ?c then _ else _] => destruct c
           end;
    first [reflexivity | listed].
Qed.

Lemma checked_unary_runs op k a loc tc ty tc' :
  kind_of a = Some k ->
  match op with
  | Pos | Neg =>
      if negb (is_numeric (PrimitiveType k)) then
        (UnknownType,
         error loc ("Unary arithmetic operator requires numeric type, got '"
                    +:+ to_string (PrimitiveType k) +:+ "'") tc)
      else (PrimitiveType k, tc)
  | Not =>
      (PrimitiveType KBool,
       if negb (equals (PrimitiveType k) (PrimitiveType KBool))
       then type_mismatch_error loc (PrimitiveType KBool) (PrimitiveType k) tc
       else tc)
  end = (ty, tc') ->
  errors tc' = errors tc ->
  exists k', ty = PrimitiveType k' /\
    match unary_operation op a with
    | Ok v => kind_of v = Some k'
    | Throw msg => In msg run_time_errors
    | Undefined w => In w undefined_quotients
    end.
Proof.
  intros Ha H He.
  destruct a; try discriminate Ha; injection Ha as <-;
    destruct op; cbn in H; injection H as <- <-; try (no_new_error He);
    eexists; (split; [reflexivity |]); reflexivity.
Qed.

Lemma kind_inhabited k : exists v, kind_of v = Some k.
Proof.
  destruct k; [exists (VInt 0) | exists (VFloat 0) | exists (VString EmptyString)
               | exists (VBool false)]; reflexivity.
Qed.

Lemma checked_operators_run c_pow (e : Expr) :
  operators_only e = true ->
  forall tc ty tc',
    check_expression e tc = (ty, tc') ->
    errors tc' = errors tc ->
    exists k, ty = PrimitiveType k /\
      match value c_pow e with
      | Ok v => kind_of v = Some k
      | Throw msg => In msg run_time_errors
      | Undefined w => In w undefined_quotients
      end.
Proof.
  induction e as [v l | v l | v l | v l | | | | op lhs IHl rhs IHr l | op operand IH l
                  | | | | | |]; intros Hop tc ty tc' Hc He; try discriminate Hop.
  - injection Hc as <- <-. now exists KInt.
  - injection Hc as <- <-. now exists KFloat.
  - injection Hc as <- <-. now exists KString.
  - injection Hc as <- <-. now exists KBool.
  - cbn [operators_only] in Hop. apply andb_prop in Hop as [Hopl Hopr].
    rewrite check_binary_eq in Hc.
    pose proof (check_operators_errors lhs Hopl tc) as M1.
    destruct (check_expression lhs tc) as [tl tc1] eqn:Hl.
    pose proof (check_operators_errors rhs Hopr tc1) as M2.
    destruct (check_expression rhs tc1) as [tr tc2] eqn:Hr.
    cbn [snd] in M1, M2.
    assert (M3 : more_errors tc2 tc').
    { destruct (is_arithmetic op);
        [pose proof (arithmetic_result_errors (expr_location lhs) (expr_location rhs)
                       tl tr tc2) as M
        | destruct (is_ordering op || is_equality op);
          [pose proof (comparison_result_errors op l (expr_location rhs) tl tr tc2) as M
          | pose proof (logical_result_errors (expr_location lhs) (expr_location rhs)
                          tl tr tc2) as M]];
        rewrite Hc in M; exact M. }
    pose proof (more_errors_length _ _ M1) as L1.
    pose proof (more_errors_length _ _ M2) as L2.
    pose proof (more_errors_length _ _ M3) as L3.
    pose proof (f_equal (@length _) He) as Le.
    pose proof (more_errors_same _ _ M1 ltac:(lia)) as E1.
    pose proof (more_errors_same _ _ M2 ltac:(lia)) as E2.
    pose proof (more_errors_same _ _ M3 ltac:(lia)) as E3.
    destruct (IHl Hopl tc tl tc1 Hl E1) as (k1 & -> & V1).
    destruct (IHr Hopr tc1 tr tc2 Hr E2) as (k2 & -> & V2).
    destruct (kind_inhabited k1) as [a0 Ha0]. destruct (kind_inhabited k2) as [b0 Hb0].
    cbn [value].
    destruct (value c_pow lhs) as [a | msg | w]; cbn [rbind].
    2: { destruct (checked_binary_runs c_pow op k1 k2 a0 b0 l (expr_location lhs)
                     (expr_location rhs) tc2 ty tc')
           as (k & -> & _); [exact Ha0 | exact Hb0 | exact Hc | exact E3 |].
         exists k. split; [reflexivity | exact V1]. }
    2: { destruct (checked_binary_runs c_pow op k1 k2 a0 b0 l (expr_location lhs)
                     (expr_location rhs) tc2 ty tc')
           as (k & -> & _); [exact Ha0 | exact Hb0 | exact Hc | exact E3 |].
         exists k. split; [reflexivity | exact V1]. }
    destruct (value c_pow rhs) as [b | msg | w]; cbn [rbind].
    + exact (checked_binary_runs c_pow op k1 k2 a b l (expr_location lhs)
               (expr_location rhs) tc2 ty tc' V1 V2 Hc E3).
    + destruct (checked_binary_runs c_pow op k1 k2 a b0 l (expr_location lhs)
                  (expr_location rhs) tc2 ty tc')
        as (k & -> & _); [exact V1 | exact Hb0 | exact Hc | exact E3 |].
      exists k. split; [reflexivity | exact V2].
    + destruct (checked_binary_runs c_pow op k1 k2 a b0 l (expr_location lhs)
                  (expr_location rhs) tc2 ty tc')
        as (k & -> & _); [exact V1 | exact Hb0 | exact Hc | exact E3 |].
      exists k. split; [reflexivity | exact V2].
  - cbn [operators_only] in Hop. rewrite check_unary_eq in Hc.
    pose proof (check_operators_errors operand Hop tc) as M1.
    destruct (check_expression operand tc) as [t tc1] eqn:Ho. cbn [snd] in M1.
    assert (M2 : more_errors tc1 tc').
    { destruct op.
      - injection Hc as _ <-.
        destruct (negb _); [apply more_errors_error | apply more_errors_refl].
      - destruct (negb _); injection Hc as _ <-;
          [apply more_errors_error | apply more_errors_refl].
      - destruct (negb _); injection Hc as _ <-;
          [apply more_errors_error | apply more_errors_refl]. }
    pose proof (more_errors_length _ _ M1) as L1.
    pose proof (more_errors_length _ _ M2) as L2.
    pose proof (f_equal (@length _) He) as Le.
    pose proof (more_errors_same _ _ M1 ltac:(lia)) as E1.
    pose proof (more_errors_same _ _ M2 ltac:(lia)) as E2.
    destruct (IH Hop tc t tc1 Ho E1) as (k1 & -> & V1).
    destruct (kind_inhabited k1) as [a0 Ha0].
    cbn [value].
    destruct (value c_pow operand) as [a | msg | w]; cbn [rbind].
    + exact (checked_unary_runs op k1 a (expr_location operand) tc1 ty tc' V1 Hc E2).
    + destruct (checked_unary_runs op k1 a0 (expr_location operand) tc1 ty tc')
        as (k & -> & _); [exact Ha0 | exact Hc | exact E2 |].
      exists k. split; [reflexivity | exact V1].
    + destruct (checked_unary_runs op k1 a0 (expr_location operand) tc1 ty tc')
        as (k & -> & _); [exact Ha0 | exact Hc | exact E2 |].
      exists k. split; [reflexivity | exact V1].
Qed.

(** X26. What a checked operator expression can do at run time. If the
    type checker accepts an expression made of literals, unary and binary
    operators without reporting an error, it gives it a primitive type, and
    the value the VM computes for it has that type, unless the computation
    stops with one of seven errors: a division or modulo by zero, the
    modulo of a Float operand, which the checker types as Float, or the
    ordering comparison of an Int with a Float, which the checker accepts;
    or with the undefined quotient or remainder of [INT64_MIN] by -1. No
    other run-time type error is possible. *)
Theorem X26_checked_operators_at_run_time (e : Expr) c_pow tc ty tc' :
  operators_only e = true ->
  check_expression e tc = (ty, tc') ->
  errors tc' = errors tc ->
  exists k, ty = PrimitiveType k /\
    match value c_pow e with
    | Ok v => kind_of v = Some k
    | Throw msg => In msg run_time_errors
    | Undefined w => In w undefined_quotients
    end.
Proof. intros Hop. now apply checked_operators_run. Qed.

Lemma X26_checked_operators_at_run_time_witness :
  exists k, PrimitiveType KBool = PrimitiveType k /\
    match value no_pow int_less_float with
    | Ok v => kind_of v = Some k
    | Throw msg => In msg run_time_errors
    | Undefined w => In w undefined_quotients
    end.
Proof.
  apply (X26_checked_operators_at_run_time int_less_float no_pow TypeChecker.new
           (PrimitiveType KBool) TypeChecker.new); reflexivity.
Defined.

End TypeSafety.

(** ** Code generation for if-expressions *)

Section IfCode.
Import Val Bytecode VM Ast.

Lemma Ok_inj {A} (a b : A) : Ok a = Ok b -> a = b.
Proof. now intros [= ->]. Qed.

(** The else-branch, or the [FALSE] emitted in its place. *)
Lemma branch_code (e : option Expr) st st' :
  branch_operators e = true ->
  match e with
  | Some e' => Compiler.compile_expr e' st
  | None => Ok (Compiler.emit FALSE st)
  end = Ok st' ->
  grows st st' /\
  forall bc c_pow fmt_double stack f frames out h,
    holds_code bc st st' ->
    instruction_pointer f = current_offset (Compiler.bytecode_ st) ->
    match branch_value c_pow e with
    | Ok v =>
        steps bc c_pow fmt_double (branch_nodes e) (running stack f frames out h)
        = Ok (running (v :: stack)
                (frame_at f (current_offset (Compiler.bytecode_ st'))) frames out h)
    | Throw msg =>
        exists n, (n <= branch_nodes e)%nat /\
          steps bc c_pow fmt_double n (running stack f frames out h) = Throw msg
    | Undefined w =>
        exists n, (n <= branch_nodes e)%nat /\
          steps bc c_pow fmt_double n (running stack f frames out h) = Undefined w
    end.
Proof.
  destruct e as [e'|]; intros Hop Hc.
  - now apply operator_code.
  - exact (operator_code (BoolLiteralExpr false here) st st' eq_refl Hc).
Qed.

(** The bytes of what was compiled, read in the program that holds it. *)
Lemma held_bytes bc st st' pre l :
  holds_code bc st st' ->
  instructions (Compiler.bytecode_ st') = pre ++ l ->
  (length (instructions (Compiler.bytecode_ st)) <= length pre)%nat ->
  forall k b, l !! k = Some b ->
    byte_at bc (Z.of_nat (length pre) + Z.of_nat k) b.
Proof.
  intros [Hcode _] Hi Hpre k b Hk. pose proof (lookup_lt_Some _ _ _ Hk) as Hlt.
  unfold byte_at. rewrite Hcode.
  - rewrite Hi. now apply at_app_middle.
  - unfold current_offset. rewrite Hi, length_app. lia.
Qed.

(** A program that holds what was compiled holds each part of it. *)
Lemma held_part bc st st' a b pre pre' code post kpre consts kpost :
  holds_code bc st st' ->
  instructions (Compiler.bytecode_ st') = pre ++ code ++ post ->
  constants (Compiler.bytecode_ st') = kpre ++ consts ++ kpost ->
  (length (instructions (Compiler.bytecode_ st)) <= length pre)%nat ->
  (length (constants (Compiler.bytecode_ st)) <= length kpre)%nat ->
  length (instructions (Compiler.bytecode_ a)) = length pre ->
  instructions (Compiler.bytecode_ b) = pre' ++ code ->
  length pre' = length pre ->
  constants (Compiler.bytecode_ a) = kpre ->
  constants (Compiler.bytecode_ b) = kpre ++ consts ->
  holds_code bc a b.
Proof.
  intros [Hcode Hconsts] Hi Hk Hpre Hkpre Hia Hib Hlen Hka Hkb.
  unfold holds_code, current_offset in *. rewrite Hia, Hib, Hka, Hkb, !length_app.
  rewrite Hi, Hk, !length_app in *. split; intros i Hrange.
  - rewrite Hcode by lia.
    replace i with (Z.of_nat (length pre) + (i - Z.of_nat (length pre))) at 1 by lia.
    replace i with (Z.of_nat (length pre') + (i - Z.of_nat (length pre'))) at 2 by lia.
    rewrite !at_app_offset by lia. rewrite Hlen. apply at_app_lt. lia.
  - rewrite Hconsts by lia. rewrite app_assoc. apply at_app_lt. rewrite length_app. lia.
Qed.

(** The states the compiler goes through for an if-expression, and the
    code it ends with: the condition, a [JUMP_IF_FALSE] over the [POP], the
    then-branch and the [JUMP]; then the [POP] and the else-branch. *)
Lemma if_code_shape c t e l st st' :
  operators_only c = true -> operators_only t = true -> branch_operators e = true ->
  Compiler.compile_expr (IfExpr c t e l) st = Ok st' ->
  exists s1 s2 s3 s4 C T E Kc Kt Ke,
    Compiler.compile_expr c st = Ok s1 /\
    Compiler.compile_expr t
      (Compiler.emit POP (Compiler.emit_u16 JUMP_IF_FALSE 65535 s1)) = Ok s2 /\
    match e with
    | Some e' => Compiler.compile_expr e' (Compiler.emit POP s3)
    | None => Ok (Compiler.emit FALSE (Compiler.emit POP s3))
    end = Ok s4 /\
    instructions (Compiler.bytecode_ s1) = instructions (Compiler.bytecode_ st) ++ C /\
    instructions (Compiler.bytecode_ s2)
    = (instructions (Compiler.bytecode_ st) ++ C
       ++ [opcode_byte JUMP_IF_FALSE; 255; 255; opcode_byte POP]) ++ T /\
    instructions (Compiler.bytecode_ s3)
    = instructions (Compiler.bytecode_ st) ++ C
      ++ [opcode_byte JUMP_IF_FALSE;
          low_byte (patched_offset (Z.of_nat (length T + 4)));
          high_byte (patched_offset (Z.of_nat (length T + 4)));
          opcode_byte POP]
      ++ T ++ [opcode_byte JUMP; 255; 255] /\
    instructions (Compiler.bytecode_ s4)
    = (instructions (Compiler.bytecode_ s3) ++ [opcode_byte POP]) ++ E /\
    instructions (Compiler.bytecode_ st')
    = instructions (Compiler.bytecode_ st) ++ C
      ++ [opcode_byte JUMP_IF_FALSE;
          low_byte (patched_offset (Z.of_nat (length T + 4)));
          high_byte (patched_offset (Z.of_nat (length T + 4)));
          opcode_byte POP]
      ++ T
      ++ [opcode_byte JUMP;
          low_byte (patched_offset (Z.of_nat (length E + 1)));
          high_byte (patched_offset (Z.of_nat (length E + 1)));
          opcode_byte POP]
      ++ E /\
    constants (Compiler.bytecode_ s1) = constants (Compiler.bytecode_ st) ++ Kc /\
    constants (Compiler.bytecode_ s2) = (constants (Compiler.bytecode_ st) ++ Kc) ++ Kt /\
    constants (Compiler.bytecode_ s3) = (constants (Compiler.bytecode_ st) ++ Kc) ++ Kt /\
    constants (Compiler.bytecode_ s4)
    = ((constants (Compiler.bytecode_ st) ++ Kc) ++ Kt) ++ Ke /\
    constants (Compiler.bytecode_ st')
    = ((constants (Compiler.bytecode_ st) ++ Kc) ++ Kt) ++ Ke /\
    Compiler.scopes_ st' = Compiler.scopes_ st.
Proof.
  intros Hc Ht He H. rewrite compile_if_else_eq in H.
  next_step H s1 E1. unfold Compiler.emit_jump in H. next_step H s2 E2.
  next_step H s3 E3. next_step H s4 E4.
  destruct (operator_code c st s1 Hc E1) as [([C HC] & [Kc HKc] & Sc) _].
  destruct (operator_code t _ s2 Ht E2) as [([T HT] & [Kt HKt] & St) _].
  destruct (branch_code e _ s4 He E4) as [([E HE] & [Ke HKe] & Se) _].
  cbn [Compiler.emit Compiler.emit_u16 Compiler.with_bytecode Compiler.bytecode_
       Bytecode.emit Bytecode.emit_u16 with_instructions instructions constants
       Compiler.scopes_] in HT, HKt, St, HE, HKe, Se.
  change (low_byte 65535) with 255 in HT.
  change (high_byte 65535) with 255 in HT.
  (* the first patch *)
  rewrite (patch_jump_at (Compiler.emit_u16 JUMP 65535 s2)
             (instructions (Compiler.bytecode_ st) ++ C)
             (opcode_byte JUMP_IF_FALSE) 255 255
             ([opcode_byte POP] ++ T ++ [opcode_byte JUMP; 255; 255])) in E3.
  2: { cbn [Compiler.emit_u16 Compiler.with_bytecode Compiler.bytecode_
            Bytecode.emit_u16 with_instructions instructions].
       rewrite HT, HC, <- ?app_assoc. reflexivity. }
  2: { unfold current_offset.
       cbn [Compiler.emit_u16 Compiler.with_bytecode Compiler.bytecode_
            Bytecode.emit_u16 with_instructions instructions].
       rewrite HC, !length_app. cbn [length]. lia. }
  assert (I3 : instructions (Compiler.bytecode_ s3)
               = instructions (Compiler.bytecode_ st) ++ C
                 ++ [opcode_byte JUMP_IF_FALSE;
                     low_byte (patched_offset (Z.of_nat (length T + 4)));
                     high_byte (patched_offset (Z.of_nat (length T + 4)));
                     opcode_byte POP]
                 ++ T ++ [opcode_byte JUMP; 255; 255]).
  { apply Ok_inj in E3. rewrite <- E3.
    cbn [Compiler.with_bytecode Compiler.bytecode_ with_instructions instructions].
    replace (length ([opcode_byte POP] ++ T ++ [opcode_byte JUMP; 255; 255]))
      with (length T + 4)%nat by (rewrite !length_app; cbn [length]; lia).
    rewrite <- ?app_assoc. reflexivity. }
  assert (K3 : constants (Compiler.bytecode_ s3) = constants (Compiler.bytecode_ s2)).
  { apply Ok_inj in E3. rewrite <- E3. reflexivity. }
  assert (S3 : Compiler.scopes_ s3 = Compiler.scopes_ s2).
  { apply Ok_inj in E3. rewrite <- E3. reflexivity. }
  clear E3.
  (* the second patch *)
  rewrite (patch_jump_at s4
             (instructions (Compiler.bytecode_ st) ++ C
              ++ [opcode_byte JUMP_IF_FALSE;
                  low_byte (patched_offset (Z.of_nat (length T + 4)));
                  high_byte (patched_offset (Z.of_nat (length T + 4)));
                  opcode_byte POP] ++ T)
             (opcode_byte JUMP) 255 255 ([opcode_byte POP] ++ E)) in H.
  2: { rewrite HE, I3, <- !app_assoc. cbn [app]. rewrite <- ?app_assoc. reflexivity. }
  2: { unfold current_offset.
       cbn [Compiler.emit_u16 Compiler.with_bytecode Compiler.bytecode_
            Bytecode.emit_u16 with_instructions instructions].
       rewrite HT, HC, !length_app. cbn [length]. rewrite ?length_app. cbn [length]. lia. }
  exists s1, s2, s3, s4, C, T, E, Kc, Kt, Ke.
  repeat apply conj; try reflexivity.
  - now rewrite E2.
  - exact E4.
  - exact HC.
  - rewrite HT, HC, <- ?app_assoc. reflexivity.
  - exact I3.
  - exact HE.
  - apply Ok_inj in H. rewrite <- H.
    cbn [Compiler.with_bytecode Compiler.bytecode_ with_instructions instructions].
    replace (length ([opcode_byte POP] ++ E)) with (length E + 1)%nat
      by (rewrite !length_app; cbn [length]; lia).
    rewrite <- ?app_assoc. reflexivity.
  - exact HKc.
  - now rewrite HKt, HKc.
  - now rewrite K3, HKt, HKc.
  - now rewrite HKe, K3, HKt, HKc.
  - apply Ok_inj in H. rewrite <- H.
    cbn [Compiler.with_bytecode Compiler.bytecode_ with_instructions constants].
    now rewrite HKe, K3, HKt, HKc.
  - apply Ok_inj in H. rewrite <- H. cbn [Compiler.with_bytecode Compiler.scopes_].
    congruence.
Qed.

Lemma steps_next bc c_pow fmt_double n st st1 :
  step bc c_pow fmt_double st = Ok (Continue, st1) ->
  steps bc c_pow fmt_double (1 + n) st = steps bc c_pow fmt_double n st1.
Proof. intros H. cbn [Nat.add steps]. now rewrite H. Qed.

Lemma decoded_small d :
  0 <= d <= 32767 ->
  Num.int16_of_uint16
    (Z.lor (low_byte (patched_offset d)) (Z.shiftl (high_byte (patched_offset d)) 8))
  = d.
Proof.
  intros Hd. change (decoded_offset (low_byte (patched_offset d))
                       (high_byte (patched_offset d)) = d).
  rewrite decoded_patched. now apply patched_offset_small.
Qed.

Lemma if_code_runs c t e l st st' :
  operators_only c = true -> operators_only t = true -> branch_operators e = true ->
  Compiler.compile_expr (IfExpr c t e l) st = Ok st' ->
  current_offset (Compiler.bytecode_ st') - current_offset (Compiler.bytecode_ st) <= 32767 ->
  current_offset (Compiler.bytecode_ st') < 2 ^ 64 ->
  forall bc c_pow fmt_double stack f frames out h vc,
    holds_code bc st st' ->
    instruction_pointer f = current_offset (Compiler.bytecode_ st) ->
    value c_pow c = Ok vc ->
    match (if is_truthy vc then value c_pow t else branch_value c_pow e) with
    | Ok v =>
        steps bc c_pow fmt_double
          (nodes c + (if is_truthy vc then nodes t + 3 else branch_nodes e + 2))
          (running stack f frames out h)
        = Ok (running (v :: stack)
                (frame_at f (current_offset (Compiler.bytecode_ st'))) frames out h)
    | Throw msg =>
        exists n, steps bc c_pow fmt_double n (running stack f frames out h) = Throw msg
    | Undefined w =>
        exists n, steps bc c_pow fmt_double n (running stack f frames out h) = Undefined w
    end.
Proof.
  intros Hc Ht He Hcomp Hshort Hsize bc c_pow fmt_double stack f frames out h vc Hholds Hip Hvc.
  destruct (if_code_shape c t e l st st' Hc Ht He Hcomp)
    as (s1 & s2 & s3 & s4 & C & T & E & Kc & Kt & Ke & E1 & E2 & E4 & I1 & I2 & I3 & I4 & I'
        & K1 & K2 & K3 & K4 & K' & _).
  set (I := instructions (Compiler.bytecode_ st)) in *.
  set (K := constants (Compiler.bytecode_ st)) in *.
  set (d1 := Z.of_nat (length T + 4)) in *.
  set (d2 := Z.of_nat (length E + 1)) in *.
  assert (Hlen : current_offset (Compiler.bytecode_ st')
                 = Z.of_nat (length I + length C + 4 + length T + 4 + length E)).
  { unfold current_offset. rewrite I'. repeat (rewrite length_app || cbn [length]). lia. }
  assert (Hoff : current_offset (Compiler.bytecode_ st) = Z.of_nat (length I)) by reflexivity.
  assert (Hd1 : 0 <= d1 <= 32767) by (unfold d1; lia).
  assert (Hd2 : 0 <= d2 <= 32767) by (unfold d2; lia).
  (* the condition *)
  destruct (operator_code c st s1 Hc E1) as [_ Hrun1].
  assert (H1 : holds_code bc st s1).
  { apply (held_part bc st st' st s1 I I C
             ([opcode_byte JUMP_IF_FALSE; low_byte (patched_offset d1);
               high_byte (patched_offset d1); opcode_byte POP] ++ T
              ++ [opcode_byte JUMP; low_byte (patched_offset d2);
                  high_byte (patched_offset d2); opcode_byte POP] ++ E)
             K Kc (Kt ++ Ke)); try reflexivity; try assumption; try lia.
    rewrite K', <- !app_assoc. reflexivity. }
  specialize (Hrun1 bc c_pow fmt_double stack f frames out h H1 Hip). rewrite Hvc in Hrun1.
  set (f1 := frame_at f (current_offset (Compiler.bytecode_ s1))) in *.
  assert (Hip1 : instruction_pointer f1 = Z.of_nat (length (I ++ C))).
  { unfold f1, current_offset. cbn. now rewrite I1. }
  (* the bytes of the code *)
  assert (Hjump1 : forall k b,
            ([opcode_byte JUMP_IF_FALSE; low_byte (patched_offset d1);
              high_byte (patched_offset d1); opcode_byte POP] ++ T
             ++ [opcode_byte JUMP; low_byte (patched_offset d2);
                 high_byte (patched_offset d2); opcode_byte POP] ++ E) !! k = Some b ->
            byte_at bc (instruction_pointer f1 + Z.of_nat k) b).
  { intros k b Hk. rewrite Hip1.
    eapply (held_bytes bc st st' (I ++ C)); [exact Hholds | | | exact Hk].
    - rewrite I', <- ?app_assoc. reflexivity.
    - rewrite length_app. fold I. lia. }
  assert (Hjump2 : forall k b,
            ([opcode_byte JUMP; low_byte (patched_offset d2);
              high_byte (patched_offset d2); opcode_byte POP] ++ E) !! k = Some b ->
            byte_at bc (Z.of_nat (length (I ++ C) + 4 + length T) + Z.of_nat k) b).
  { intros k b Hk.
    replace (length (I ++ C) + 4 + length T)%nat
      with (length (I ++ C
                    ++ [opcode_byte JUMP_IF_FALSE; low_byte (patched_offset d1);
                        high_byte (patched_offset d1); opcode_byte POP] ++ T))
      by (repeat (rewrite length_app || cbn [length]); lia).
    eapply (held_bytes bc st st'); [exact Hholds | | | exact Hk].
    - rewrite I', <- ?app_assoc. reflexivity.
    - rewrite length_app. fold I. lia. }
  (* the conditional jump *)
  assert (Hjif :
    step bc c_pow fmt_double (running (vc :: stack) f1 frames out h)
    = Ok (Continue,
          running (vc :: stack)
            (frame_at f (if is_truthy vc
                         then Z.of_nat (length (I ++ C) + 3)
                         else Z.of_nat (length (I ++ C) + 4 + length T + 3)))
            frames out h)).
  { rewrite (step_jump bc c_pow fmt_double JUMP_IF_FALSE (vc :: stack)
               (negb (is_truthy vc)) f1 frames out h
               (low_byte (patched_offset d1)) (high_byte (patched_offset d1))).
    - rewrite decoded_small by exact Hd1. rewrite Hip1. unfold f1.
      rewrite frame_at_twice. unfold Num.to_size_t.
      rewrite Hlen in Hsize. rewrite length_app.
      destruct (is_truthy vc); cbn [negb].
      + now replace (Z.of_nat (length I + length C)%nat + 1 + 1 + 1)
          with (Z.of_nat (length I + length C + 3)) by lia.
      + rewrite Z.mod_small by (unfold d1; lia).
        now replace (Z.of_nat (length I + length C)%nat + 1 + 1 + 1 + d1)
          with (Z.of_nat (length I + length C + 4 + length T + 3)) by (unfold d1; lia).
    - rewrite <- (Z.add_0_r (instruction_pointer f1)). now apply (Hjump1 0%nat).
    - now apply (Hjump1 1%nat).
    - rewrite <- Z.add_assoc. now apply (Hjump1 2%nat).
    - reflexivity. }
  destruct (is_truthy vc).
  - (* the then-branch *)
    destruct (operator_code t _ s2 Ht E2) as [_ Hrun2].
    assert (H2 : holds_code bc
                   (Compiler.emit POP (Compiler.emit_u16 JUMP_IF_FALSE 65535 s1)) s2).
    { apply (held_part bc st st' _ s2
               (I ++ C ++ [opcode_byte JUMP_IF_FALSE; low_byte (patched_offset d1);
                           high_byte (patched_offset d1); opcode_byte POP])
               (I ++ C ++ [opcode_byte JUMP_IF_FALSE; 255; 255; opcode_byte POP])
               T
               ([opcode_byte JUMP; low_byte (patched_offset d2);
                 high_byte (patched_offset d2); opcode_byte POP] ++ E)
               (K ++ Kc) Kt Ke); try assumption.
      - rewrite I', <- ?app_assoc. reflexivity.
      - rewrite K', <- ?app_assoc. reflexivity.
      - rewrite length_app. fold I. lia.
      - rewrite length_app. fold K. lia.
      - cbn [Compiler.emit Compiler.emit_u16 Compiler.with_bytecode Compiler.bytecode_
             Bytecode.emit Bytecode.emit_u16 with_instructions instructions].
        rewrite I1. repeat (rewrite length_app || cbn [length]). lia.
      - repeat (rewrite length_app || cbn [length]). lia. }
    specialize (Hrun2 bc c_pow fmt_double stack
                  (frame_at f (Z.of_nat (length (I ++ C) + 4))) frames out h H2).
    assert (Hpop :
      step bc c_pow fmt_double
        (running (vc :: stack) (frame_at f (Z.of_nat (length (I ++ C) + 3))) frames out h)
      = Ok (Continue,
            running stack (frame_at f (Z.of_nat (length (I ++ C) + 4))) frames out h)).
    { rewrite (step_pop bc c_pow fmt_double vc stack).
      - rewrite frame_at_twice. cbn [frame_at with_ip instruction_pointer].
        do 3 f_equal. unfold frame_at, with_ip. f_equal. lia.
      - cbn [frame_at with_ip instruction_pointer].
        replace (Z.of_nat (length (I ++ C) + 3))
          with (instruction_pointer f1 + Z.of_nat 3) by (rewrite Hip1; lia).
        now apply Hjump1. }
    assert (Hip2 : instruction_pointer (frame_at f (Z.of_nat (length (I ++ C) + 4)))
                   = current_offset
                       (Compiler.bytecode_
                          (Compiler.emit POP (Compiler.emit_u16 JUMP_IF_FALSE 65535 s1)))).
    { unfold current_offset.
      cbn [Compiler.emit Compiler.emit_u16 Compiler.with_bytecode Compiler.bytecode_
           Bytecode.emit Bytecode.emit_u16 with_instructions instructions
           frame_at with_ip instruction_pointer].
      rewrite I1. repeat (rewrite length_app || cbn [length]). lia. }
    specialize (Hrun2 Hip2).
    destruct (value c_pow t) as [v | msg | w].
    + rewrite steps_add, Hrun1. cbn [rbind].
      replace (nodes t + 3)%nat with (1 + (1 + (nodes t + 1)))%nat by lia.
      rewrite (steps_next _ _ _ _ _ _ Hjif), (steps_next _ _ _ _ _ _ Hpop).
      rewrite steps_add, Hrun2. cbn [rbind steps].
      rewrite frame_at_twice.
      rewrite (step_jump bc c_pow fmt_double JUMP (v :: stack) true _ frames out h
                 (low_byte (patched_offset d2)) (high_byte (patched_offset d2))).
      * rewrite decoded_small by exact Hd2. rewrite frame_at_twice.
        cbn [frame_at with_ip instruction_pointer]. unfold Num.to_size_t, current_offset.
        rewrite I2, I'. repeat (rewrite length_app || cbn [length]).
        rewrite Z.mod_small by (unfold d2; unfold current_offset in Hlen, Hsize;
                                rewrite Hlen in Hsize; fold I; lia).
        do 3 f_equal. unfold frame_at, with_ip. f_equal. unfold d2. fold I. lia.
      * cbn [frame_at with_ip instruction_pointer]. unfold current_offset. rewrite I2.
        replace (Z.of_nat (length ((I ++ C ++ [opcode_byte JUMP_IF_FALSE; 255; 255;
                                               opcode_byte POP]) ++ T)))
          with (Z.of_nat (length (I ++ C) + 4 + length T) + Z.of_nat 0)
          by (repeat (rewrite length_app || cbn [length]); lia).
        now apply Hjump2.
      * cbn [frame_at with_ip instruction_pointer]. unfold current_offset. rewrite I2.
        replace (Z.of_nat (length ((I ++ C ++ [opcode_byte JUMP_IF_FALSE; 255; 255;
                                               opcode_byte POP]) ++ T)) + 1)
          with (Z.of_nat (length (I ++ C) + 4 + length T) + Z.of_nat 1)
          by (repeat (rewrite length_app || cbn [length]); lia).
        now apply Hjump2.
      * cbn [frame_at with_ip instruction_pointer]. unfold current_offset. rewrite I2.
        replace (Z.of_nat (length ((I ++ C ++ [opcode_byte JUMP_IF_FALSE; 255; 255;
                                               opcode_byte POP]) ++ T)) + 1 + 1)
          with (Z.of_nat (length (I ++ C) + 4 + length T) + Z.of_nat 2)
          by (repeat (rewrite length_app || cbn [length]); lia).
        now apply Hjump2.
      * reflexivity.
    + destruct Hrun2 as (n & _ & Hrun2). exists (nodes c + (1 + (1 + n)))%nat.
      rewrite steps_add, Hrun1. cbn [rbind].
      rewrite (steps_next _ _ _ _ _ _ Hjif), (steps_next _ _ _ _ _ _ Hpop). exact Hrun2.
    + destruct Hrun2 as (n & _ & Hrun2). exists (nodes c + (1 + (1 + n)))%nat.
      rewrite steps_add, Hrun1. cbn [rbind].
      rewrite (steps_next _ _ _ _ _ _ Hjif), (steps_next _ _ _ _ _ _ Hpop). exact Hrun2.
  - (* the else-branch *)
    destruct (branch_code e _ s4 He E4) as [_ Hrun3].
    assert (H3 : holds_code bc (Compiler.emit POP s3) s4).
    { apply (held_part bc st st' _ s4
               (I ++ C ++ [opcode_byte JUMP_IF_FALSE; low_byte (patched_offset d1);
                           high_byte (patched_offset d1); opcode_byte POP]
                ++ T ++ [opcode_byte JUMP; low_byte (patched_offset d2);
                         high_byte (patched_offset d2); opcode_byte POP])
               (instructions (Compiler.bytecode_ s3) ++ [opcode_byte POP])
               E [] ((K ++ Kc) ++ Kt) Ke []); try assumption.
      - rewrite I', <- ?app_assoc, app_nil_r. reflexivity.
      - rewrite K', <- ?app_assoc, app_nil_r. reflexivity.
      - rewrite length_app. fold I. lia.
      - rewrite !length_app. fold K. lia.
      - cbn [Compiler.emit Compiler.with_bytecode Compiler.bytecode_
             Bytecode.emit with_instructions instructions].
        rewrite I3. repeat (rewrite length_app || cbn [length]). lia.
      - rewrite I3. repeat (rewrite length_app || cbn [length]). lia. }
    specialize (Hrun3 bc c_pow fmt_double stack
                  (frame_at f (Z.of_nat (length (I ++ C) + 4 + length T + 4)))
                  frames out h H3).
    assert (Hpop :
      step bc c_pow fmt_double
        (running (vc :: stack)
           (frame_at f (Z.of_nat (length (I ++ C) + 4 + length T + 3))) frames out h)
      = Ok (Continue,
            running stack
              (frame_at f (Z.of_nat (length (I ++ C) + 4 + length T + 4))) frames out h)).
    { rewrite (step_pop bc c_pow fmt_double vc stack).
      - rewrite frame_at_twice. cbn [frame_at with_ip instruction_pointer].
        do 3 f_equal. unfold frame_at, with_ip. f_equal. lia.
      - cbn [frame_at with_ip instruction_pointer].
        replace (Z.of_nat (length (I ++ C) + 4 + length T + 3))
          with (Z.of_nat (length (I ++ C) + 4 + length T) + Z.of_nat 3) by lia.
        now apply Hjump2. }
    assert (Hip3 : instruction_pointer
                     (frame_at f (Z.of_nat (length (I ++ C) + 4 + length T + 4)))
                   = current_offset (Compiler.bytecode_ (Compiler.emit POP s3))).
    { unfold current_offset.
      cbn [Compiler.emit Compiler.with_bytecode Compiler.bytecode_
           Bytecode.emit with_instructions instructions
           frame_at with_ip instruction_pointer].
      rewrite I3. repeat (rewrite length_app || cbn [length]). lia. }
    specialize (Hrun3 Hip3).
    assert (Hend : current_offset (Compiler.bytecode_ s4)
                   = current_offset (Compiler.bytecode_ st')).
    { unfold current_offset. rewrite I4, I3, I'.
      repeat (rewrite length_app || cbn [length]). lia. }
    destruct (branch_value c_pow e) as [v | msg | w].
    + rewrite steps_add, Hrun1. cbn [rbind].
      replace (branch_nodes e + 2)%nat with (1 + (1 + branch_nodes e))%nat by lia.
      rewrite (steps_next _ _ _ _ _ _ Hjif), (steps_next _ _ _ _ _ _ Hpop).
      rewrite Hrun3, frame_at_twice, Hend. reflexivity.
    + destruct Hrun3 as (n & _ & Hrun3). exists (nodes c + (1 + (1 + n)))%nat.
      rewrite steps_add, Hrun1. cbn [rbind].
      rewrite (steps_next _ _ _ _ _ _ Hjif), (steps_next _ _ _ _ _ _ Hpop). exact Hrun3.
    + destruct Hrun3 as (n & _ & Hrun3). exists (nodes c + (1 + (1 + n)))%nat.
      rewrite steps_add, Hrun1. cbn [rbind].
      rewrite (steps_next _ _ _ _ _ _ Hjif), (steps_next _ _ _ _ _ _ Hpop). exact Hrun3.
Qed.

(** A block of one expression statement compiles to the code of its
    expression. *)
Lemma compile_body b st : Compiler.compile_expr b st = Compiler.compile_expr (body_of b) st.
Proof.
  destruct b as [| | | | | | | | | | | | | | ss lb]; try reflexivity.
  destruct ss as [|[| |x lx] [|]]; reflexivity.
Qed.

Lemma compile_if_bodies c t e l st :
  Compiler.compile_expr (IfExpr c t e l) st
  = Compiler.compile_expr (IfExpr c (body_of t) (option_map body_of e) l) st.
Proof.
  rewrite !compile_if_else_eq.
  destruct (Compiler.compile_expr c st) as [s1| |]; [|reflexivity..]. cbn [rbind].
  unfold Compiler.emit_jump. rewrite <- compile_body.
  destruct (Compiler.compile_expr t _) as [s2| |]; [|reflexivity..]. cbn [rbind].
  destruct (Compiler.patch_jump _ _) as [s3| |]; [|reflexivity..]. cbn [rbind].
  destruct e as [e'|]; cbn [option_map]; [now rewrite <- compile_body | reflexivity].
Qed.

(** X27. The code of an if-expression runs the chosen branch. For a
    condition and branches made of literals and operators, each branch
    alone or as the block of one expression that the parser makes, and
    code of at most 32767 bytes ending below 2^64: in any program that
    holds the code, the VM started at its first byte evaluates the
    condition, then only the then-branch when the condition is truthy and
    only the else-branch (or [false] when there is none) otherwise, and
    ends behind the code with the value of that branch as the one new
    value on the stack; the condition's value is popped on both paths. If
    the chosen branch fails, the run fails the same way. *)
Theorem X27_if_code_runs_chosen_branch c t e l st st' :
  operators_only c = true ->
  operators_only (body_of t) = true ->
  branch_operators (option_map body_of e) = true ->
  Compiler.compile_expr (IfExpr c t e l) st = Ok st' ->
  current_offset (Compiler.bytecode_ st') - current_offset (Compiler.bytecode_ st) <= 32767 ->
  current_offset (Compiler.bytecode_ st') < 2 ^ 64 ->
  forall bc c_pow fmt_double stack f frames out h vc,
    holds_code bc st st' ->
    instruction_pointer f = current_offset (Compiler.bytecode_ st) ->
    value c_pow c = Ok vc ->
    match (if is_truthy vc then value c_pow (body_of t)
           else branch_value c_pow (option_map body_of e)) with
    | Ok v =>
        steps bc c_pow fmt_double
          (nodes c + (if is_truthy vc then nodes (body_of t) + 3
                      else branch_nodes (option_map body_of e) + 2))
          (running stack f frames out h)
        = Ok (running (v :: stack)
                (frame_at f (current_offset (Compiler.bytecode_ st'))) frames out h)
    | Throw msg =>
        exists n, steps bc c_pow fmt_double n (running stack f frames out h) = Throw msg
    | Undefined w =>
        exists n, steps bc c_pow fmt_double n (running stack f frames out h) = Undefined w
    end.
Proof.
  intros Hc Ht He Hcomp. rewrite compile_if_bodies in Hcomp.
  now apply (if_code_runs c (body_of t) (option_map body_of e) l).
Qed.

Lemma X27_if_code_runs_chosen_branch_witness :
  steps (mkBytecode small_if_code [VInt 1; VInt 2; VInt 10; VInt 20] [])
    no_pow no_fmt 7 (running [] (new_frame 0 0 0 0) [] EmptyString idle_host)
  = Ok (running [VInt 10] (frame_at (new_frame 0 0 0 0) 21) [] EmptyString idle_host).
Proof.
  exact (X27_if_code_runs_chosen_branch
           (BinaryExpr Lt (IntLiteralExpr 1 here) (IntLiteralExpr 2 here) here)
           (BlockExpr [ExprStmt (IntLiteralExpr 10 here) here] here)
           (Some (BlockExpr [ExprStmt (IntLiteralExpr 20 here) here] here)) here
           (Compiler.enter_scope Compiler.initial)
           (Compiler.mkCompiler
              (mkBytecode small_if_code [VInt 1; VInt 2; VInt 10; VInt 20] [])
              [Compiler.mkScope ∅ 0%nat] ∅)
           eq_refl eq_refl eq_refl eq_refl
           ltac:(vm_compute; discriminate) ltac:(vm_compute; reflexivity)
           _ no_pow no_fmt [] (new_frame 0 0 0 0) [] EmptyString idle_host (VBool true)
           (conj (fun _ _ => eq_refl) (fun _ _ => eq_refl)) eq_refl eq_refl).
Defined.

End IfCode.
(** ** The scopes and the errors of the type checker *)

Section CheckerScopes.
Import Ast Types Symbols TypeChecker.

(* ----- tables ---------------------------------------------------------- *)

Lemma scopes_kept_refl t : scopes_kept t t.
Proof. repeat split; [exists []; now rewrite app_nil_r | tauto]. Qed.

Lemma scopes_kept_trans t1 t2 t3 : scopes_kept t1 t2 -> scopes_kept t2 t3 -> scopes_kept t1 t3.
Proof.
  intros (C1 & [a1 S1] & W1) (C2 & [a2 S2] & W2). repeat split.
  - congruence.
  - exists (a1 ++ a2). now rewrite S2, S1, app_assoc.
  - tauto.
Qed.

Lemma outer_scopes_kept_refl t : outer_scopes_kept t t.
Proof. repeat split; eauto. Qed.

Lemma outer_scopes_kept_trans t1 t2 t3 :
  outer_scopes_kept t1 t2 -> outer_scopes_kept t2 t3 -> outer_scopes_kept t1 t3.
Proof.
  intros (C1 & L1 & O1 & P1 & W1) (C2 & L2 & O2 & P2 & W2). repeat split.
  - congruence.
  - lia.
  - intros j Hj Hne. rewrite O2 by (rewrite ?C1; lia || exact Hne). now apply O1.
  - intros s Hs. destruct (P1 s Hs) as (s' & Hs' & Hp'). rewrite <- C1 in Hs'.
    destruct (P2 s' Hs') as (s'' & Hs'' & Hp''). rewrite C1 in Hs''.
    exists s''. split; [exact Hs'' | congruence].
  - tauto.
Qed.

Lemma scopes_kept_outer t t' : scopes_kept t t' -> outer_scopes_kept t t'.
Proof.
  intros (C & [a S] & W). repeat split.
  - exact C.
  - rewrite S, length_app. lia.
  - intros j Hj _. rewrite S. now apply lookup_app_l.
  - intros s Hs. exists s. split; [| reflexivity].
    rewrite S. rewrite lookup_app_l; [exact Hs | now apply lookup_lt_Some in Hs].
  - exact W.
Qed.

Lemma declare_outer name k ty loc t :
  outer_scopes_kept t (snd (Symbols.declare name k ty loc t)).
Proof.
  pose proof (declare_well_formed name k ty loc t) as W.
  unfold Symbols.declare, current_scope, scope_declare in *.
  destruct (scopes_ t !! current_ t) as [s|] eqn:Hs; [| apply outer_scopes_kept_refl].
  destruct (symbols s !! name); [apply outer_scopes_kept_refl |].
  cbn [snd scopes_ current_] in *. repeat split; cbn [scopes_ current_].
  - now rewrite length_insert.
  - intros j Hj Hne. now apply list_lookup_insert_ne.
  - intros s0 Hs0. eexists. split.
    + apply list_lookup_insert_eq. now apply lookup_lt_Some in Hs.
    + cbn [parent]. congruence.
  - exact W.
Qed.

(** Entering a scope, declaring in it, checking in it and leaving it. *)
Lemma scoped_kept k t t2 t3 :
  outer_scopes_kept (Symbols.enter_scope k t) t2 -> scopes_kept t2 t3 ->
  scopes_kept t (Symbols.exit_scope t3).
Proof.
  intros (C2 & L2 & O2 & P2 & W2) (C3 & [a3 S3] & W3).
  unfold Symbols.enter_scope in *. cbn [scopes_ current_] in *.
  rewrite length_app in L2, O2. cbn [length] in L2, O2.
  destruct (P2 (mkScope k ∅ (Some (current_ t)))) as (s' & Hs' & Hp').
  { rewrite lookup_app_r by lia. now rewrite Nat.sub_diag. }
  cbn [parent] in Hp'.
  assert (Hcur : scopes_ t3 !! current_ t3 = Some s').
  { rewrite C3, C2, S3. rewrite lookup_app_l; [exact Hs' | now apply lookup_lt_Some in Hs']. }
  assert (Hexit : Symbols.exit_scope t3 = mkTable (scopes_ t3) (current_ t)).
  { unfold Symbols.exit_scope, current_scope. now rewrite Hcur, Hp'. }
  rewrite Hexit. repeat split; cbn [scopes_ current_].
  - exists (drop (length (scopes_ t)) (scopes_ t3)).
    rewrite <- (take_drop (length (scopes_ t)) (scopes_ t3)) at 1. f_equal.
    apply list_eq. intros j. destruct (decide (j < length (scopes_ t))%nat) as [Hj | Hj].
    + rewrite lookup_take_lt by exact Hj. rewrite S3, lookup_app_l by lia.
      rewrite O2 by lia. now apply lookup_app_l.
    + rewrite lookup_take_ge by lia. symmetry. apply lookup_ge_None. lia.
  - intros W. rewrite <- Hexit. apply exit_scope_well_formed, W3, W2.
    now apply (enter_scope_well_formed k).
Qed.

(* ----- checkers -------------------------------------------------------- *)

Lemma expression_checked_refl tc : expression_checked tc tc.
Proof.
  split; [apply more_errors_refl | split; [apply scopes_kept_refl | reflexivity]].
Qed.

Lemma expression_checked_trans a b c :
  expression_checked a b -> expression_checked b c -> expression_checked a c.
Proof.
  intros (E1 & S1 & R1) (E2 & S2 & R2). split; [| split].
  - exact (more_errors_trans _ _ _ E1 E2).
  - exact (scopes_kept_trans _ _ _ S1 S2).
  - congruence.
Qed.

Lemma statement_checked_refl tc : statement_checked tc tc.
Proof.
  split; [apply more_errors_refl | split; [apply outer_scopes_kept_refl | reflexivity]].
Qed.

Lemma statement_checked_trans a b c :
  statement_checked a b -> statement_checked b c -> statement_checked a c.
Proof.
  intros (E1 & S1 & R1) (E2 & S2 & R2). split; [| split].
  - exact (more_errors_trans _ _ _ E1 E2).
  - exact (outer_scopes_kept_trans _ _ _ S1 S2).
  - congruence.
Qed.

Lemma expression_statement a b : expression_checked a b -> statement_checked a b.
Proof.
  intros (E & S & R). split; [exact E | split; [now apply scopes_kept_outer | exact R]].
Qed.

Lemma expression_checked_error a loc msg tc :
  expression_checked a tc -> expression_checked a (error loc msg tc).
Proof.
  intros H. apply (expression_checked_trans _ _ _ H).
  split; [apply more_errors_error | split; [apply scopes_kept_refl | reflexivity]].
Qed.

Lemma statement_checked_error a loc msg tc :
  statement_checked a tc -> statement_checked a (error loc msg tc).
Proof.
  intros H. apply (statement_checked_trans _ _ _ H), expression_statement.
  apply expression_checked_error, expression_checked_refl.
Qed.

Lemma statement_checked_declare a name k ty loc tc :
  statement_checked a tc -> statement_checked a (snd (TypeChecker.declare name k ty loc tc)).
Proof.
  intros H. apply (statement_checked_trans _ _ _ H).
  pose proof (declare_outer name k ty loc (symbol_table_ tc)) as D.
  unfold TypeChecker.declare. destruct (Symbols.declare _ _ _ _ _) as [ok t].
  cbn [snd] in *.
  split; [exists []; cbn; now rewrite app_nil_r | split; [exact D | reflexivity]].
Qed.

(** A scope entered, filled and left around a check. *)
Lemma expression_checked_scoped k tc tc2 tc3 :
  statement_checked (TypeChecker.enter_scope k tc) tc2 -> expression_checked tc2 tc3 ->
  expression_checked tc (TypeChecker.exit_scope tc3).
Proof.
  intros (E2 & S2 & R2) (E3 & S3 & R3). split; [| split].
  - exact (more_errors_trans _ _ _ E2 E3).
  - exact (scoped_kept k _ _ _ S2 S3).
  - unfold TypeChecker.exit_scope, TypeChecker.enter_scope, with_table in *.
    cbn [current_function_return_type_] in *. congruence.
Qed.

(* ----- the visitors, loop by loop -------------------------------------- *)

Lemma check_tuple_eq elements l tc :
  check_expression (TupleExpr elements l) tc
  = let (elem_types, tc) := check_all elements tc in (TupleType elem_types, tc).
Proof. reflexivity. Qed.

Lemma check_list_eq elements l tc :
  check_expression (ListExpr elements l) tc
  = match elements with
    | [] => (ListType UnknownType, tc)
    | first :: rest =>
        let (first_type, tc) := check_expression first tc in
        let tc := check_rest first_type rest tc in
        (ListType first_type, tc)
    end.
Proof. reflexivity. Qed.

Lemma check_call_eq callee arguments loc tc :
  check_expression (CallExpr callee arguments loc) tc
  =
    match callee with
    | Ast.IdentifierExpr func_name _ =>
        let nargs := length arguments in
        if String.eqb func_name "print" || String.eqb func_name "println" then
          match arguments with
          | [a] => let (_, tc) := check_expression a tc in (PrimitiveType KInt, tc)
          | _ => (UnknownType,
                  error loc (arity_message "Function" func_name "1 argument" nargs) tc)
          end
        else if String.eqb func_name "to_string" then
          match arguments with
          | [a] => let (_, tc) := check_expression a tc in (PrimitiveType KString, tc)
          | _ => (UnknownType,
                  error loc (arity_message "Function" "to_string" "1 argument" nargs) tc)
          end
        else if String.eqb func_name "read_file" then
          match arguments with
          | [_] => (PrimitiveType KString, check_strings arguments tc)
          | _ => (UnknownType,
                  error loc (arity_message "Function" "read_file" "1 argument" nargs) tc)
          end
        else if String.eqb func_name "write_file"
                || String.eqb func_name "append_file" then
          match arguments with
          | [_; _] => (PrimitiveType KBool, check_strings arguments tc)
          | _ => (UnknownType,
                  error loc (arity_message "Function" func_name "2 arguments" nargs) tc)
          end
        else if String.eqb func_name "file_exists" then
          match arguments with
          | [_] => (PrimitiveType KBool, check_strings arguments tc)
          | _ => (UnknownType,
                  error loc (arity_message "Function" "file_exists" "1 argument" nargs) tc)
          end
        else
          match lookup func_name (symbol_table_ tc) with
          | None =>
              (UnknownType,
               error loc ("Undefined function '" +:+ func_name +:+ "'") tc)
          | Some func_symbol =>
              match sym_type func_symbol with
              | FunctionType param_types return_type =>
                  if negb (nargs =? length param_types)%nat then
                    (UnknownType,
                     error loc
                       (arity_message "Function" func_name
                          (Str.of_nat (length param_types) +:+ " arguments") nargs) tc)
                  else (clone return_type, check_args arguments param_types tc)
              | _ =>
                  (UnknownType,
                   error loc ("'" +:+ func_name +:+ "' is not a function") tc)
              end
          end
    | _ => (UnknownType, error loc "Only function names can be called for now" tc)
    end.
Proof. reflexivity. Qed.

Lemma check_method_eq object method_name arguments loc tc :
  check_expression (MethodCallExpr object method_name arguments loc) tc
  =
    let (object_type, tc) := check_expression object tc in
    let nargs := length arguments in
    let is_ (m : string) := String.eqb method_name m in
    let no_method (what : string) :=
      (UnknownType,
       error loc (what +:+ " type has no method '" +:+ method_name +:+ "'") tc) in
    let no_methods :=
      (UnknownType,
       error loc ("Type '" +:+ to_string object_type +:+ "' has no methods") tc) in
    match object_type with
    | ListType element_type =>
        if is_ "append" then
          match arguments with
          | [a] =>
              let (arg_type, tc) := check_expression a tc in
              let tc := if negb (equals arg_type element_type)
                        then type_mismatch_error (Ast.expr_location a)
                               element_type arg_type tc
                        else tc in
              (ListType (clone element_type), tc)
          | _ => (UnknownType,
                  error loc (arity_message "Method" "append" "1 argument" nargs) tc)
          end
        else if is_ "length" then nullary loc "length" nargs (PrimitiveType KInt) tc
        else if is_ "head" then nullary loc "head" nargs (clone element_type) tc
        else if is_ "tail" then
          nullary loc "tail" nargs (ListType (clone element_type)) tc
        else if is_ "is_empty" then nullary loc "is_empty" nargs (PrimitiveType KBool) tc
        else if is_ "reverse" then
          nullary loc "reverse" nargs (ListType (clone element_type)) tc
        else if is_ "concat" then
          match arguments with
          | [a] =>
              let (arg_type, tc) := check_expression a tc in
              let tc :=
                match arg_type with
                | ListType arg_element =>
                    if negb (equals arg_element element_type)
                    then type_mismatch_error (Ast.expr_location a)
                           object_type arg_type tc
                    else tc
                | _ =>
                    error (Ast.expr_location a)
                      ("Method 'concat' expects List argument, got "
                       +:+ to_string arg_type) tc
                end in
              (ListType (clone element_type), tc)
          | _ => (UnknownType,
                  error loc (arity_message "Method" "concat" "1 argument" nargs) tc)
          end
        else no_method "List"
    | PrimitiveType KString =>
        if is_ "length" then nullary loc "length" nargs (PrimitiveType KInt) tc
        else if is_ "is_empty" then nullary loc "is_empty" nargs (PrimitiveType KBool) tc
        else if is_ "contains" || is_ "starts_with" || is_ "ends_with" then
          match arguments with
          | [_] => (PrimitiveType KBool, check_strings arguments tc)
          | _ => (PrimitiveType KBool,
                  error loc (arity_message "Method" method_name "1 argument" nargs) tc)
          end
        else if is_ "to_upper" || is_ "to_lower" || is_ "trim" then
          nullary loc method_name nargs (PrimitiveType KString) tc
        else no_method "String"
    | PrimitiveType KInt =>
        if is_ "to_string" then nullary loc "to_string" nargs (PrimitiveType KString) tc
        else if is_ "abs" then nullary loc "abs" nargs (PrimitiveType KInt) tc
        else no_method "Int"
    | PrimitiveType KFloat =>
        if is_ "to_string" then nullary loc "to_string" nargs (PrimitiveType KString) tc
        else if is_ "abs" then nullary loc "abs" nargs (PrimitiveType KFloat) tc
        else if is_ "floor" || is_ "ceil" || is_ "round" then
          nullary loc method_name nargs (PrimitiveType KInt) tc
        else no_method "Float"
    | PrimitiveType KBool => no_methods
    | TupleType _ =>
        if is_ "length" then nullary loc "length" nargs (PrimitiveType KInt) tc
        else no_method "Tuple"
    | _ => no_methods
    end.
Proof. reflexivity. Qed.

Lemma check_index_eq object index loc tc :
  check_expression (IndexExpr object index loc) tc
  =
    let (object_type, tc) := check_expression object tc in
    let (index_type, tc) := check_expression index tc in
    let int_type := PrimitiveType KInt in
    let tc := if negb (equals index_type int_type)
              then type_mismatch_error (Ast.expr_location index) int_type index_type tc
              else tc in
    match object_type with
    | ListType element_type => (clone element_type, tc)
    | TupleType element_types =>
        match index with
        | Ast.IntLiteralExpr i _ =>
            match Bytecode.at_ element_types i with
            | Some t => (clone t, tc)
            | None =>
                (UnknownType,
                 error (Ast.expr_location index)
                   ("Tuple index " +:+ Str.of_Z i +:+ " out of bounds (tuple has "
                    +:+ Str.of_nat (length element_types) +:+ " elements)") tc)
            end
        | _ =>
            (UnknownType,
             error loc "Tuple indexing requires a constant integer literal index" tc)
        end
    | _ =>
        (UnknownType,
         error (Ast.expr_location object)
           ("Cannot index into type '" +:+ to_string object_type +:+ "'") tc)
    end.
Proof. reflexivity. Qed.

Lemma check_lambda_eq parameters body loc tc :
  check_expression (LambdaExpr parameters body loc) tc
  = let tc := TypeChecker.enter_scope Lambda tc in
    let tc := fold_left
                (fun tc param =>
                   snd (TypeChecker.declare param Parameter_k UnknownType loc tc))
                parameters tc in
    let (body_type, tc) := check_expression body tc in
    let tc := TypeChecker.exit_scope tc in
    (FunctionType (map (fun _ => UnknownType) parameters) body_type, tc).
Proof. reflexivity. Qed.

Lemma check_if_eq condition then_branch else_branch l tc :
  check_expression (IfExpr condition then_branch else_branch l) tc
  =
    let (cond_type, tc) := check_expression condition tc in
    let bool_type := PrimitiveType KBool in
    let tc := if negb (equals cond_type bool_type)
              then type_mismatch_error (Ast.expr_location condition)
                     bool_type cond_type tc
              else tc in
    let (then_type, tc) := check_expression then_branch tc in
    match else_branch with
    | Some else_expr =>
        let (else_type, tc) := check_expression else_expr tc in
        if negb (equals then_type else_type) then
          (UnknownType,
           error (Ast.expr_location else_expr)
             ("If expression branches have incompatible types: '"
              +:+ to_string then_type +:+ "' and '" +:+ to_string else_type +:+ "'") tc)
        else (then_type, tc)
    | None => (then_type, tc)
    end.
Proof. reflexivity. Qed.

Lemma check_block_eq statements l tc :
  check_expression (BlockExpr statements l) tc
  = let tc := TypeChecker.enter_scope Block tc in
    let tc := check_statements statements tc in
    let (t, tc) := block_type statements tc in
    (t, TypeChecker.exit_scope tc).
Proof. reflexivity. Qed.

Lemma check_let_eq pattern type_annotation initializer l tc :
  check_statement (LetStmt pattern type_annotation initializer l) tc
  = let (init_type, tc) := check_expression initializer tc in
    let (init_type, tc) :=
      match type_annotation with
      | Some annotation =>
          let declared_type := ast_type_to_semantic annotation in
          if negb (equals init_type declared_type) then
            (declared_type,
             type_mismatch_error (expr_location initializer) declared_type init_type tc)
          else (init_type, tc)
      | None => (init_type, tc)
      end in
    check_pattern pattern init_type tc.
Proof. reflexivity. Qed.

Lemma check_return_eq value loc tc :
  check_statement (ReturnStmt value loc) tc
  = match current_function_return_type_ tc with
    | None => error loc "Return statement outside of function" tc
    | Some expected =>
        let (return_type, tc) := check_expression value tc in
        if negb (equals return_type expected)
        then type_mismatch_error (expr_location value) expected return_type tc
        else tc
    end.
Proof. reflexivity. Qed.

Lemma check_expr_stmt_eq expression l tc :
  check_statement (ExprStmt expression l) tc = snd (check_expression expression tc).
Proof. reflexivity. Qed.

Lemma check_tuple_pattern_eq elements loc expected_type tc :
  check_pattern (TuplePattern elements loc) expected_type tc
  = match expected_type with
    | TupleType element_types =>
        if negb (length elements =? length element_types)%nat then
          error loc ("Tuple pattern has " +:+ Str.of_nat (length elements)
                     +:+ " elements but type has "
                     +:+ Str.of_nat (length element_types) +:+ " elements") tc
        else check_each elements element_types tc
    | _ =>
        error loc ("Cannot destructure non-tuple type '" +:+ to_string expected_type
                   +:+ "' with tuple pattern") tc
    end.
Proof. reflexivity. Qed.

(* ----- what every visitor keeps ----------------------------------------- *)

Lemma check_pattern_checked p :
  forall ty a tc, statement_checked a tc -> statement_checked a (check_pattern p ty tc).
Proof.
  induction p as [name loc | ps loc IH] using Pattern_nested_ind; intros ty a tc H.
  - cbn [check_pattern].
    pose proof (statement_checked_declare a name Variable_ (clone ty) loc tc H) as D.
    destruct (TypeChecker.declare _ _ _ _ _) as [ok tc1]. cbn [snd] in D.
    destruct ok; [exact D | now apply statement_checked_error].
  - rewrite check_tuple_pattern_eq.
    destruct ty as [| | ts | | |]; try now apply statement_checked_error.
    destruct (negb _); [now apply statement_checked_error |].
    revert ts tc H. induction IH as [|p ps Hp _ IHps]; intros ts tc H.
    + exact H.
    + destruct ts as [|t ts]; [exact H |]. cbn [check_each].
      apply IHps, Hp, H.
Qed.

Lemma expression_kept_after e a tc :
  expression_kept e -> expression_checked a tc ->
  expression_checked a (snd (check_expression e tc)).
Proof. intros He H. exact (expression_checked_trans _ _ _ H (He tc)). Qed.

Lemma mismatch_checked a (b : bool) loc expected actual tc :
  expression_checked a tc ->
  expression_checked a (if b then type_mismatch_error loc expected actual tc else tc).
Proof. intros H. destruct b; [now apply expression_checked_error | exact H]. Qed.

Lemma check_all_checked es :
  Forall expression_kept es ->
  forall a tc, expression_checked a tc -> expression_checked a (snd (check_all es tc)).
Proof.
  induction 1 as [|e es He _ IH]; intros a tc H; [exact H |]. cbn [check_all].
  pose proof (expression_kept_after e a tc He H) as H1.
  destruct (check_expression e tc) as [t tc1]. cbn [snd] in H1.
  specialize (IH a tc1 H1). now destruct (check_all es tc1).
Qed.

Lemma check_rest_checked es :
  Forall expression_kept es ->
  forall first_type a tc,
    expression_checked a tc -> expression_checked a (check_rest first_type es tc).
Proof.
  induction 1 as [|e es He _ IH]; intros first_type a tc H; [exact H |]. cbn [check_rest].
  pose proof (expression_kept_after e a tc He H) as H1.
  destruct (check_expression e tc) as [t tc1]. cbn [snd] in H1.
  now apply IH, mismatch_checked.
Qed.

Lemma check_args_checked es :
  Forall expression_kept es ->
  forall ps a tc, expression_checked a tc -> expression_checked a (check_args es ps tc).
Proof.
  induction 1 as [|e es He _ IH]; intros ps a tc H; [exact H |].
  destruct ps as [|p ps]; [exact H |]. cbn [check_args].
  pose proof (expression_kept_after e a tc He H) as H1.
  destruct (check_expression e tc) as [t tc1]. cbn [snd] in H1.
  now apply IH, mismatch_checked.
Qed.

Lemma check_strings_checked es :
  Forall expression_kept es ->
  forall a tc, expression_checked a tc -> expression_checked a (check_strings es tc).
Proof.
  induction 1 as [|e es He _ IH]; intros a tc H; [exact H |]. cbn [check_strings].
  pose proof (expression_kept_after e a tc He H) as H1.
  destruct (check_expression e tc) as [t tc1]. cbn [snd] in H1.
  now apply IH, mismatch_checked.
Qed.

Lemma check_statements_checked ss :
  Forall statement_kept ss ->
  forall a tc, statement_checked a tc -> statement_checked a (check_statements ss tc).
Proof.
  induction 1 as [|s ss Hs _ IH]; intros a tc H; [exact H |]. cbn [check_statements].
  apply IH, Hs, H.
Qed.

Lemma block_type_checked ss :
  Forall statement_kept ss ->
  forall a tc, expression_checked a tc -> expression_checked a (snd (block_type ss tc)).
Proof.
  induction 1 as [|s ss Hs Hss IH]; intros a tc H; [exact H |].
  destruct ss as [|s' ss].
  - cbn [block_type]. destruct s as [| | e l]; try exact H.
    apply expression_kept_after; [| exact H]. now apply (proj2 Hs e l).
  - now apply IH.
Qed.

Lemma declare_parameters_checked loc ps :
  forall a tc, statement_checked a tc ->
    statement_checked a
      (fold_left (fun tc param =>
                    snd (TypeChecker.declare param Parameter_k UnknownType loc tc)) ps tc).
Proof.
  induction ps as [|p ps IH]; intros a tc H; [exact H |]. cbn [fold_left].
  now apply IH, statement_checked_declare.
Qed.

(** Closes a goal from the steps taken so far. *)
Ltac chk :=
  cbn [fst snd];
  lazymatch goal with
  | |- expression_checked ?a ?a => apply expression_checked_refl
  | |- expression_checked _ (error _ _ _) => apply expression_checked_error; chk
  | |- expression_checked _ (type_mismatch_error _ _ _ _) =>
      apply expression_checked_error; chk
  | |- expression_checked _ (if _ then type_mismatch_error _ _ _ _ else _) =>
      apply mismatch_checked; chk
  | |- expression_checked _ (check_strings _ _) =>
      apply check_strings_checked; [assumption | chk]
  | |- expression_checked _ (check_args _ _ _) =>
      apply check_args_checked; [assumption | chk]
  | |- expression_checked _ (check_rest _ _ _) =>
      apply check_rest_checked; [first [assumption | eapply Forall_inv_tail; eassumption] | chk]
  | |- expression_checked ?a ?b =>
      lazymatch goal with
      | H : expression_checked ?c b |- _ =>
          apply (expression_checked_trans a c b); [chk | exact H]
      end
  end.

(** Runs the next check of the goal, or decides its next test. *)
Ltac open_checks :=
  repeat match goal with
  | H : expression_kept ?e |- context [check_expression ?e ?tc] =>
      let K := fresh "K" in
      pose proof (H tc) as K; destruct (check_expression e tc) as [? ?]; cbn [fst snd] in K |- *
  | H : Forall expression_kept (?e :: _) |- context [check_expression ?e ?tc] =>
      let K := fresh "K" in
      pose proof (Forall_inv H tc) as K;
      destruct (check_expression e tc) as [? ?]; cbn [fst snd] in K |- *
  | |- context [if ?b then (_, _) else _] => destruct b; cbn [fst snd]
  | |- context [match ?x with _ => _ end] =>
      lazymatch x with
      | context [check_expression] => fail
      | _ => destruct x; cbn [fst snd]
      end
  end.

Lemma checked_everywhere :
  (forall e, expression_kept e) /\ (forall s, statement_kept s).
Proof.
  apply Expr_Stmt_ind.
  - intros v l tc. apply expression_checked_refl.
  - intros v l tc. apply expression_checked_refl.
  - intros v l tc. apply expression_checked_refl.
  - intros v l tc. apply expression_checked_refl.
  - intros n l tc. cbn [check_expression]. open_checks; chk.
  - intros es l H tc. rewrite check_tuple_eq.
    pose proof (check_all_checked es H tc tc (expression_checked_refl tc)) as K.
    now destruct (check_all es tc).
  - intros es l H tc. rewrite check_list_eq. cbv zeta. open_checks; chk.
  - intros op a b l Ha Hb tc. rewrite check_binary_eq.
    unfold arithmetic_result, comparison_result, logical_result. cbv zeta.
    open_checks; chk.
  - intros op a l Ha tc. rewrite check_unary_eq. open_checks; chk.
  - intros c args l Hc Hargs tc. rewrite check_call_eq. clear Hc. cbv zeta.
    open_checks; chk.
  - intros o m args l Ho Hargs tc. rewrite check_method_eq. unfold nullary. cbv zeta.
    open_checks; chk.
  - intros o i l Ho Hi tc. rewrite check_index_eq. cbv zeta. open_checks; chk.
  - intros ps b l Hb tc. rewrite check_lambda_eq. cbv zeta.
    pose proof (declare_parameters_checked l ps _ _
                  (statement_checked_refl (TypeChecker.enter_scope Lambda tc))) as D.
    pose proof (Hb (fold_left
                      (fun tc param =>
                         snd (TypeChecker.declare param Parameter_k UnknownType l tc))
                      ps (TypeChecker.enter_scope Lambda tc))) as K.
    destruct (check_expression b _) as [t tc3]. cbn [snd] in *.
    exact (expression_checked_scoped Lambda tc _ tc3 D K).
  - intros c t e l Hc Ht He tc. rewrite check_if_eq. cbv zeta.
    destruct e as [e'|]; [specialize (He e' eq_refl) |]; open_checks; chk.
  - intros ss l H tc. rewrite check_block_eq. cbv zeta.
    pose proof (check_statements_checked ss H _ _
                  (statement_checked_refl (TypeChecker.enter_scope Block tc))) as D.
    pose proof (block_type_checked ss H _ _
                  (expression_checked_refl
                     (check_statements ss (TypeChecker.enter_scope Block tc)))) as K.
    destruct (block_type ss _) as [t tc3]. cbn [snd] in *.
    exact (expression_checked_scoped Block tc _ tc3 D K).
  - intros p a i l Hi. split; [| discriminate]. intros a0 tc H. rewrite check_let_eq.
    pose proof (Hi tc) as K.
    destruct (check_expression i tc) as [t tc1]. cbn [snd] in K.
    apply expression_statement in K. apply (statement_checked_trans _ _ _ H) in K.
    destruct a as [annotation|]; cbv zeta;
      [destruct (negb (equals t (ast_type_to_semantic annotation))) |];
      apply check_pattern_checked; try exact K.
    now apply statement_checked_error.
  - intros v l Hv. split; [| discriminate]. intros a tc H. rewrite check_return_eq.
    destruct (current_function_return_type_ tc); [| now apply statement_checked_error].
    pose proof (Hv tc) as K. destruct (check_expression v tc) as [t tc1]. cbn [snd] in K.
    apply expression_statement in K.
    pose proof (statement_checked_trans _ _ _ H K) as K'.
    destruct (negb _); [now apply statement_checked_error | exact K'].
  - intros e l He. split.
    + intros a tc H. rewrite check_expr_stmt_eq.
      apply (statement_checked_trans _ _ _ H), expression_statement, He.
    + now intros e' l' [= <- <-].
Qed.

End CheckerScopes.
(** ** The two passes of check_program *)

Section DeclareLoop.
Import Ast Types Symbols TypeChecker.

(** A declaration in a table whose current scope is its last one. *)
Lemma declare_in_last S k m par errs rt name kd ty loc :
  TypeChecker.declare name kd ty loc
    (mkChecker (mkTable (S ++ [mkScope k m par]) (length S)) errs rt)
  = match m !! name with
    | Some _ => (false, mkChecker (mkTable (S ++ [mkScope k m par]) (length S)) errs rt)
    | None =>
        (true,
         mkChecker
           (mkTable (S ++ [mkScope k (<[name := mkSymbol name kd ty loc false]> m) par])
              (length S)) errs rt)
    end.
Proof.
  unfold TypeChecker.declare, Symbols.declare, current_scope, scope_declare, with_table.
  cbn [symbol_table_ scopes_ current_ errors current_function_return_type_].
  rewrite list_lookup_middle by reflexivity. cbn [symbols scope_kind parent].
  destruct (m !! name); [reflexivity |].
  rewrite insert_app_r_alt by lia. rewrite Nat.sub_diag. reflexivity.
Qed.

(** A lookup in such a table. *)
Lemma lookup_in_last S k m par name :
  (forall j s p, S !! j = Some s -> parent s = Some p -> (p < j)%nat) ->
  match par with Some c => (c < length S)%nat | None => True end ->
  lookup name (mkTable (S ++ [mkScope k m par]) (length S))
  = match m !! name with
    | Some s => Some s
    | None =>
        match par with
        | Some c => lookup name (mkTable S c)
        | None => None
        end
    end.
Proof.
  intros Hp Hc. unfold lookup. cbn [scopes_ current_].
  rewrite length_app. cbn [length]. rewrite Nat.add_1_r. cbn [lookup_from].
  rewrite list_lookup_middle by reflexivity. cbn [symbols parent].
  destruct (m !! name); [reflexivity |]. destruct par as [c|]; [| reflexivity].
  now apply lookup_from_app.
Qed.

Lemma repeated_nil {A} (name_of : A -> string) xs :
  forall seen, repeated name_of seen xs = [] ->
    NoDup (map name_of xs) /\ forall x, x ∈ xs -> name_of x ∉ seen.
Proof.
  induction xs as [|x xs IH]; intros seen H; cbn [repeated map] in *.
  - split; [constructor | intros x Hx; inversion Hx].
  - apply app_eq_nil in H as [Hx Hxs].
    destruct (bool_decide (name_of x ∈ seen)) eqn:Hseen; [discriminate Hx |].
    apply bool_decide_eq_false in Hseen.
    destruct (IH _ Hxs) as [Hnodup Hout]. split.
    + constructor; [| exact Hnodup]. intros Hin.
      apply list_elem_of_fmap in Hin as (y & Hy & Hyin).
      apply (Hout y Hyin). rewrite <- Hy. apply list_elem_of_here.
    + intros y Hy. apply elem_of_cons in Hy as [-> | Hy]; [exact Hseen |].
      intros Hin. apply (Hout y Hy). now apply list_elem_of_further.
Qed.

Lemma error_eta e : mkTypeError (error_location e) (error_message e) = e.
Proof. now destruct e. Qed.

(* ----- a loop that declares its elements, reporting the repeated ones --- *)

Variable A : Type.
Variable name_of : A -> string.
Variable symbol_of : A -> Symbol.
Variable error_of : A -> TypeError.
Variable step : State -> A -> State.

Hypothesis step_eq : forall tc x,
  step tc x
  = let (ok, tc') := TypeChecker.declare (name_of x) (sym_kind (symbol_of x))
                       (sym_type (symbol_of x)) (sym_location (symbol_of x)) tc in
    if ok then tc'
    else error (error_location (error_of x)) (error_message (error_of x)) tc'.

Hypothesis symbol_eq : forall x,
  symbol_of x = mkSymbol (name_of x) (sym_kind (symbol_of x)) (sym_type (symbol_of x))
                  (sym_location (symbol_of x)) false.

Lemma declare_loop xs :
  forall S k m par errs rt seen,
    (forall n, n ∈ seen <-> is_Some (m !! n)) ->
    exists m',
      fold_left step xs (mkChecker (mkTable (S ++ [mkScope k m par]) (length S)) errs rt)
      = mkChecker (mkTable (S ++ [mkScope k m' par]) (length S))
          (errs ++ map error_of (repeated name_of seen xs)) rt /\
      forall name,
        m' !! name
        = match m !! name with
          | Some s => Some s
          | None => option_map symbol_of (find (fun x => String.eqb (name_of x) name) xs)
          end.
Proof.
  induction xs as [|x xs IH]; intros S k m par errs rt seen Hseen.
  - exists m. cbn [fold_left repeated map]. rewrite app_nil_r. split; [reflexivity |].
    intros name. now destruct (m !! name).
  - cbn [fold_left repeated]. rewrite step_eq, declare_in_last.
    destruct (m !! name_of x) as [sym|] eqn:Hm.
    + rewrite bool_decide_eq_true_2 by (apply Hseen; now rewrite Hm).
      unfold error. cbn [symbol_table_ errors current_function_return_type_].
      rewrite error_eta.
      destruct (IH S k m par (errs ++ [error_of x]) rt (name_of x :: seen))
        as (m' & Hfold & Hlook).
      { intros n. rewrite elem_of_cons, Hseen. split; [| tauto].
        intros [-> | H]; [now rewrite Hm | exact H]. }
      exists m'. split.
      * rewrite Hfold. cbn [map app]. now rewrite <- app_assoc.
      * intros name. rewrite Hlook. destruct (m !! name) eqn:Hname; [reflexivity |].
        cbn [find]. destruct (String.eqb_spec (name_of x) name) as [Heq | Hne];
          [congruence | reflexivity].
    + rewrite bool_decide_eq_false_2
        by (rewrite Hseen, Hm; intros [? H]; discriminate H).
      destruct (IH S k (<[name_of x := mkSymbol (name_of x) (sym_kind (symbol_of x))
                                         (sym_type (symbol_of x))
                                         (sym_location (symbol_of x)) false]> m)
                  par errs rt (name_of x :: seen)) as (m' & Hfold & Hlook).
      { intros n. rewrite elem_of_cons, Hseen.
        destruct (decide (n = name_of x)) as [-> | Hne].
        - rewrite lookup_insert_eq. split; [eauto | tauto].
        - rewrite lookup_insert_ne by congruence. tauto. }
      exists m'. split; [exact Hfold |].
      intros name. rewrite Hlook. cbn [find].
      destruct (String.eqb_spec (name_of x) name) as [<- | Hne].
      * rewrite lookup_insert_eq, Hm. cbn [option_map]. now rewrite <- symbol_eq.
      * rewrite lookup_insert_ne by exact Hne. reflexivity.
Qed.

End DeclareLoop.

Section CheckProgram.
Import Ast Types Symbols TypeChecker.

(** Scopes added behind do not change what a name stands for. *)
Lemma lookup_kept t t' :
  scopes_kept t t' -> well_formed t = true ->
  forall name, lookup name t' = lookup name t.
Proof.
  intros (C & [added S] & W) Hwf name. specialize (W Hwf).
  apply well_formed_spec in Hwf as [Hc Hp]. apply well_formed_spec in W as [Hc' Hp'].
  unfold lookup. rewrite C.
  rewrite (lookup_from_enough _ _ Hp' (length (scopes_ t'))) by (rewrite <- C; exact Hc').
  rewrite (lookup_from_enough _ _ Hp (length (scopes_ t))) by exact Hc.
  rewrite S. now apply lookup_from_app.
Qed.

Lemma declare_function_eq tc f :
  declare_function tc f
  = let (ok, tc') := TypeChecker.declare (fd_name f) (sym_kind (function_symbol f))
                       (sym_type (function_symbol f)) (sym_location (function_symbol f))
                       tc in
    if ok then tc'
    else error (error_location (redeclaration_error f))
           (error_message (redeclaration_error f)) tc'.
Proof. reflexivity. Qed.

Lemma declare_parameter_eq tc p :
  declare_parameter tc p
  = let (ok, tc') := TypeChecker.declare (param_name p) (sym_kind (parameter_symbol p))
                       (sym_type (parameter_symbol p)) (sym_location (parameter_symbol p))
                       tc in
    if ok then tc'
    else error (error_location (parameter_error p))
           (error_message (parameter_error p)) tc'.
Proof. reflexivity. Qed.

(** The first pass: one global scope that holds the first function of
    each name, and one error for each other function. *)
Lemma first_pass program :
  exists globals,
    signatures_declared program
    = mkChecker (mkTable [mkScope Global globals None] 0)
        (map redeclaration_error (repeated fd_name [] (prog_functions program))) None /\
    forall name,
      globals !! name
      = option_map function_symbol (function_named name (prog_functions program)).
Proof.
  destruct (declare_loop FunctionDef fd_name function_symbol redeclaration_error
              declare_function declare_function_eq (fun f => eq_refl)
              (prog_functions program) [] Global ∅ None [] None [])
    as (globals & Hfold & Hlook).
  { intros n. rewrite lookup_empty. split; [intros H; inversion H | intros [? H]; discriminate H]. }
  exists globals. split; [exact Hfold |].
  intros name. rewrite Hlook, lookup_empty. reflexivity.
Qed.

(** The parameters of a function, declared in the scope entered for it. *)
Lemma parameters_declared f tc :
  exists locals,
    body_checker f tc
    = mkChecker
        (mkTable (scopes_ (symbol_table_ tc)
                  ++ [mkScope FunctionScope locals (Some (current_ (symbol_table_ tc)))])
           (length (scopes_ (symbol_table_ tc))))
        (errors tc ++ map parameter_error (repeated param_name [] (fd_parameters f)))
        (Some (ast_type_to_semantic (fd_return_type f))) /\
    forall name,
      locals !! name = option_map parameter_symbol (parameter_named name (fd_parameters f)).
Proof.
  destruct (declare_loop Parameter_ param_name parameter_symbol parameter_error
              declare_parameter declare_parameter_eq (fun p => eq_refl)
              (fd_parameters f) (scopes_ (symbol_table_ tc)) FunctionScope ∅
              (Some (current_ (symbol_table_ tc))) (errors tc)
              (Some (ast_type_to_semantic (fd_return_type f))) [])
    as (locals & Hfold & Hlook).
  { intros n. rewrite lookup_empty. split; [intros H; inversion H | intros [? H]; discriminate H]. }
  exists locals. split; [exact Hfold |].
  intros name. rewrite Hlook, lookup_empty. reflexivity.
Qed.

Lemma check_function_eq f tc :
  check_function f tc
  = with_return_type
      (TypeChecker.exit_scope (snd (check_expression (fd_body f) (body_checker f tc)))) None.
Proof.
  unfold check_function, body_checker.
  change (fun tc0 param => _) with declare_parameter.
  now destruct (check_expression _ _).
Qed.

Lemma declare_parameters_outer ps :
  forall a tc, statement_checked a tc ->
    statement_checked a (fold_left declare_parameter ps tc).
Proof.
  induction ps as [|p ps IH]; intros a tc H; [exact H |]. cbn [fold_left]. apply IH.
  unfold declare_parameter.
  pose proof (statement_checked_declare a (param_name p) Parameter_k
                (ast_type_to_semantic (param_type p)) (param_location p) tc H) as D.
  destruct (TypeChecker.declare _ _ _ _ _) as [ok tc1]. cbn [snd] in D.
  destruct ok; [exact D | now apply statement_checked_error].
Qed.

(** [check_function] adds errors and scopes behind those there are and
    leaves no return type set. *)
Lemma check_function_kept f tc :
  more_errors tc (body_checker f tc) /\
  more_errors (body_checker f tc) (check_function f tc) /\
  scopes_kept (symbol_table_ tc) (symbol_table_ (check_function f tc)) /\
  current_function_return_type_ (check_function f tc) = None.
Proof.
  rewrite check_function_eq.
  pose proof (declare_parameters_outer (fd_parameters f) _ _
                (statement_checked_refl
                   (with_return_type (TypeChecker.enter_scope FunctionScope tc)
                      (Some (ast_type_to_semantic (fd_return_type f)))))) as (E2 & S2 & _).
  fold (body_checker f tc) in E2, S2.
  destruct (proj1 checked_everywhere (fd_body f) (body_checker f tc)) as (E3 & S3 & _).
  split; [exact E2 | split; [exact E3 | split]].
  - exact (scoped_kept FunctionScope _ _ _ S2 S3).
  - reflexivity.
Qed.

(** The second pass from any function on. *)
Lemma check_functions_kept fs :
  forall tc,
    more_errors tc (fold_left (fun tc f => check_function f tc) fs tc) /\
    scopes_kept (symbol_table_ tc)
      (symbol_table_ (fold_left (fun tc f => check_function f tc) fs tc)).
Proof.
  induction fs as [|f fs IH]; intros tc; cbn [fold_left].
  - split; [apply more_errors_refl | apply scopes_kept_refl].
  - destruct (check_function_kept f tc) as (E1 & E2 & S & _).
    destruct (IH (check_function f tc)) as [E' S'].
    split; [| exact (scopes_kept_trans _ _ _ S S')].
    exact (more_errors_trans _ _ _ (more_errors_trans _ _ _ E1 E2) E').
Qed.

Lemma more_errors_none tc tc' : more_errors tc tc' -> errors tc' = [] -> errors tc = [].
Proof. intros [rest H] Hnil. rewrite H in Hnil. now apply app_eq_nil in Hnil. Qed.

(** X28. Checking an expression does not change what names stand for.
    From a checker with a well-formed symbol table, [check_expression]
    returns in the scope it started in, with every scope that was there
    unchanged and the scopes of its blocks and lambdas added behind them; so
    every name stands after the check for what it stood for before, and what
    a block or a lambda declares is not visible behind it. The errors there
    were are kept in place, new ones come behind them, and the return type
    of the function being checked is kept. [check_function] does the same,
    but leaves no return type set. *)
Theorem X28_checking_keeps_names (e : Expr) (f : FunctionDef) (tc : State) :
  well_formed (symbol_table_ tc) = true ->
  (more_errors tc (snd (check_expression e tc)) /\
   current_ (symbol_table_ (snd (check_expression e tc))) = current_ (symbol_table_ tc) /\
   (exists added,
      scopes_ (symbol_table_ (snd (check_expression e tc)))
      = scopes_ (symbol_table_ tc) ++ added) /\
   well_formed (symbol_table_ (snd (check_expression e tc))) = true /\
   (forall name,
      lookup name (symbol_table_ (snd (check_expression e tc)))
      = lookup name (symbol_table_ tc)) /\
   current_function_return_type_ (snd (check_expression e tc))
   = current_function_return_type_ tc) /\
  (more_errors tc (check_function f tc) /\
   current_ (symbol_table_ (check_function f tc)) = current_ (symbol_table_ tc) /\
   (exists added,
      scopes_ (symbol_table_ (check_function f tc)) = scopes_ (symbol_table_ tc) ++ added) /\
   well_formed (symbol_table_ (check_function f tc)) = true /\
   (forall name,
      lookup name (symbol_table_ (check_function f tc)) = lookup name (symbol_table_ tc)) /\
   current_function_return_type_ (check_function f tc) = None).
Proof.
  intros Hwf. split.
  - destruct (proj1 checked_everywhere e tc) as (E & S & R).
    pose proof (lookup_kept _ _ S Hwf) as L. destruct S as (C & A & W).
    repeat (split; [assumption || now apply W |]). exact R.
  - destruct (check_function_kept f tc) as (E1 & E2 & S & R).
    pose proof (lookup_kept _ _ S Hwf) as L. destruct S as (C & A & W).
    split; [exact (more_errors_trans _ _ _ E1 E2) |].
    repeat (split; [assumption || now apply W |]). exact R.
Qed.

Lemma X28_checking_keeps_names_witness :
  lookup "x" (symbol_table_ (snd (check_expression let_in_block TypeChecker.new))) = None /\
  errors (snd (check_expression let_in_block TypeChecker.new)) = [] /\
  lookup "x" (symbol_table_ (check_function helper_function TypeChecker.new)) = None.
Proof.
  destruct (X28_checking_keeps_names let_in_block helper_function TypeChecker.new eq_refl)
    as [(_ & _ & _ & _ & L & _) (_ & _ & _ & _ & L' & _)].
  split; [rewrite L; reflexivity | split; [reflexivity | rewrite L'; reflexivity]].
Defined.

(** X29. What names stand for in a function body. [check_program] is the
    second pass run on the checker of the first pass, and the second pass
    checks each body in a checker of its own making, [body_checker]. At any
    point of the second pass every name stands for the first function of the
    program with that name, whether that function comes before or after the
    one being checked, and for nothing else: no parameter or local of a
    function checked before is visible. Where the body of a function begins,
    a name stands for the first parameter of that name, else for that
    function of the program; and the return type that return statements are
    checked against is the declared one. *)
Theorem X29_names_in_function_bodies (program : Program) (before : list FunctionDef)
    (f : FunctionDef) :
  result_errors (check_program program)
  = errors (checked_before program (prog_functions program)) /\
  checked_before program (before ++ [f])
  = check_function f (checked_before program before) /\
  check_function f (checked_before program before)
  = with_return_type
      (TypeChecker.exit_scope
         (snd (check_expression (fd_body f)
                 (body_checker f (checked_before program before))))) None /\
  (forall name,
     lookup name (symbol_table_ (checked_before program before))
     = option_map function_symbol (function_named name (prog_functions program))) /\
  (forall name,
     lookup name (symbol_table_ (body_checker f (checked_before program before)))
     = meaning_in program f name) /\
  current_function_return_type_ (body_checker f (checked_before program before))
  = Some (ast_type_to_semantic (fd_return_type f)).
Proof.
  split; [reflexivity |]. split; [unfold checked_before; now rewrite fold_left_app |].
  split; [apply check_function_eq |].
  destruct (first_pass program) as (globals & HG & Hglobals).
  destruct (check_functions_kept before (signatures_declared program)) as [_ S].
  fold (checked_before program before) in S. rewrite HG in S. cbn [symbol_table_] in S.
  set (tc := checked_before program before) in *.
  assert (Hwf : well_formed (symbol_table_ tc) = true) by now apply S.
  assert (L : forall name,
            lookup name (symbol_table_ tc)
            = option_map function_symbol (function_named name (prog_functions program))).
  { intros name. rewrite (lookup_kept _ _ S eq_refl), <- Hglobals.
    unfold lookup. cbn. now destruct (globals !! name). }
  split; [exact L |].
  destruct (parameters_declared f tc) as (locals & HB & Hlocals). rewrite HB.
  cbn [symbol_table_ current_function_return_type_]. split; [| reflexivity].
  intros name. apply well_formed_spec in Hwf as [Hc Hp].
  rewrite lookup_in_last by assumption. rewrite Hlocals. unfold meaning_in.
  destruct (parameter_named name (fd_parameters f)); [reflexivity |]. cbn [option_map].
  rewrite <- L. now destruct (symbol_table_ tc).
Qed.

Lemma X29_names_in_function_bodies_witness :
  lookup "helper"
    (symbol_table_ (body_checker main_calls_helper (checked_before helper_after_main [])))
  = Some (function_symbol helper_function) /\
  lookup "x"
    (symbol_table_
       (body_checker helper_function (checked_before helper_after_main [main_calls_helper])))
  = Some (parameter_symbol (mkParameter "x" (NamedType "Int" somewhere) somewhere)) /\
  lookup "x"
    (symbol_table_ (checked_before helper_after_main [main_calls_helper; helper_function]))
  = None.
Proof.
  destruct (X29_names_in_function_bodies helper_after_main [] main_calls_helper)
    as (_ & _ & _ & _ & L1 & _).
  destruct (X29_names_in_function_bodies helper_after_main [main_calls_helper]
              helper_function) as (_ & _ & _ & _ & L2 & _).
  destruct (X29_names_in_function_bodies helper_after_main
              [main_calls_helper; helper_function] helper_function)
    as (_ & _ & _ & L3 & _).
  split; [rewrite L1; reflexivity | split; [rewrite L2; reflexivity |]].
  rewrite L3. reflexivity.
Defined.

(** X30. Repeated names are rejected. [check_program] reports
    "Function '<name>' is already declared", at the function, for every
    function that has the name of an earlier one; these errors come first,
    in the order of the functions. It succeeds exactly when it reports no
    error, so the functions of a program that passes the check have
    pairwise different names, and so have the parameters of each function
    (one with a repeated parameter gets "Parameter '<name>' is already
    declared"). *)
Theorem X30_repeated_names_rejected (program : Program) :
  (exists rest,
     result_errors (check_program program)
     = map redeclaration_error (repeated fd_name [] (prog_functions program)) ++ rest) /\
  (forall before f after,
     prog_functions program = before ++ f :: after ->
     exists rest rest',
       result_errors (check_program program)
       = (errors (checked_before program before)
          ++ map parameter_error (repeated param_name [] (fd_parameters f)) ++ rest)
         ++ rest') /\
  (success (check_program program) = true <-> result_errors (check_program program) = []) /\
  (success (check_program program) = true ->
   NoDup (map fd_name (prog_functions program)) /\
   forall f, f ∈ prog_functions program -> NoDup (map param_name (fd_parameters f))).
Proof.
  assert (Hresult : result_errors (check_program program)
                    = errors (checked_before program (prog_functions program)))
    by reflexivity.
  assert (Hfirst : exists rest,
             result_errors (check_program program)
             = map redeclaration_error (repeated fd_name [] (prog_functions program))
               ++ rest).
  { destruct (first_pass program) as (globals & HG & _).
    destruct (check_functions_kept (prog_functions program) (signatures_declared program))
      as [[rest E] _].
    exists rest. rewrite Hresult. unfold checked_before. rewrite E, HG. reflexivity. }
  assert (Hparams : forall before f after,
             prog_functions program = before ++ f :: after ->
             exists rest rest',
               result_errors (check_program program)
               = (errors (checked_before program before)
                  ++ map parameter_error (repeated param_name [] (fd_parameters f))
                  ++ rest) ++ rest').
  { intros before f after Hfs. rewrite Hresult, Hfs. unfold checked_before.
    rewrite fold_left_app. cbn [fold_left]. fold (checked_before program before).
    destruct (check_functions_kept after
                (check_function f (checked_before program before))) as [[rest' E'] _].
    destruct (check_function_kept f (checked_before program before))
      as (_ & [rest E] & _).
    destruct (parameters_declared f (checked_before program before)) as (locals & HB & _).
    exists rest, rest'. rewrite E', E, HB. cbn [errors]. now rewrite <- !app_assoc. }
  assert (Hsuccess : success (check_program program) = true
                     <-> result_errors (check_program program) = []).
  { unfold check_program. cbn [success result_errors].
    destruct (errors _); [tauto | split; discriminate]. }
  split; [exact Hfirst |]. split; [exact Hparams |]. split; [exact Hsuccess |].
  intros Hok. apply Hsuccess in Hok. split.
  - destruct Hfirst as [rest H]. rewrite Hok in H. symmetry in H.
    apply app_eq_nil in H as [H _]. apply map_eq_nil in H.
    exact (proj1 (repeated_nil fd_name _ _ H)).
  - intros f Hf. apply list_elem_of_split in Hf as (before & after & Hfs).
    destruct (Hparams before f after Hfs) as (rest & rest' & H).
    rewrite Hok in H. symmetry in H.
    apply app_eq_nil in H as [H _]. apply app_eq_nil in H as [_ H].
    apply app_eq_nil in H as [H _]. apply map_eq_nil in H.
    exact (proj1 (repeated_nil param_name _ _ H)).
Qed.

Lemma X30_repeated_names_rejected_witness :
  result_errors
    (check_program (mkProgram [helper_function; main_calls_helper; helper_function]
                      somewhere))
  = [redeclaration_error helper_function] /\
  NoDup (map fd_name (prog_functions helper_after_main)).
Proof.
  split; [reflexivity |].
  exact (proj1 (proj2 (proj2 (proj2 (X30_repeated_names_rejected helper_after_main)))
                  eq_refl)).
Defined.

End CheckProgram.
